(* ===== verification/_CoqProject ===== *)
-Q . S2P
Prelude.v
CArray.v
Memory.v
Channel.v
Serial.v
Codec.v
Packet.v
Encoder.v
DecoderSpec.v
Decoder.v
DecoderRun.v
Receiver.v
Aliasing.v
RoundTrip.v
Handshake.v
Parametric.v
Ring.v
Independence.v
CharArray.v
Session.v
Host.v
Trace.v
Protocol.v
