(* ===== verification/Prelude.v ===== *)
(** * OpBox serial library: a verification development

    The program is [src/OpBoxArduino_OpShield_StimVarDur/OpBoxSerialLibrary.h],
    the Arduino side of a framed serial protocol between a microcontroller
    and a host: a handshake, six packet senders built on a 32-bit big-endian
    integer writer, one blocking packet receiver, and a bounded string copy.
    A packet on the wire is

      [PACKET_START label (PACKET_INT | PACKET_INT2 | PACKET_CHAR) payload PACKET_END]

    with no length prefix and no escaping.

    ** Files, in dependency order

    - [Prelude] (this file): bytes as [Z] with the [uint8_t] and [char]
      conversions written out, character literals, the state-and-fault monad
      [prog] in which every operation of the program is written, the
      fuel-indexed loop [iter_fuel] for the blocking [while] loops, the
      shared lemmas, the tactics and the hint databases [opbox] (resolution)
      and [opbox_rw] (rewriting).
    - [CArray]: C [char] arrays as [list Z] of fixed length. [load] and
      [store] check the index (an access out of range is undefined behaviour
      in C), [strlen] walks to the first NUL, [c_str] is the string an array
      holds, [overwrite] the array after its first cells were assigned, and
      [int_succ], the [++] of a 16-bit [int] (fault [IntOverflow]).
    - [Memory]: the memory the functions write to. An array parameter of
      a C function is a pointer, so the receiver and [CopyCharArray] are
      modelled on a [heap], the arrays of the program, through pointers
      [ptr], an array and a cell of it, with pointer arithmetic [shift].
      [peek] and [poke] are [p[i]] and [p[i] = v]; they answer [None]
      outside the array the pointer points into, and the statements
      [fetch_at] and [assign_at] turn that into the fault [OutOfBounds].
      [array_at] is the array as seen through a pointer, [room] its
      number of cells, [fill] the memory after cells were assigned in
      order; the lemmas say what a pointer sees after a [fill] through
      the same pointer, through a pointer into another array ([apart])
      and through a pointer further into the same array.
    - [Channel]: the byte channel as an interface. What the program
      calls of the Arduino core ([Serial.available], [Serial.read],
      [Serial.write], [Serial.flush], [delay]) is the class [Channel] of
      device states with these five operations as programs. Every
      function of the library is written once, against the class; a
      device is an instance, and there are four, [Serial], [Ring],
      [Host] and, over any of them, the device that keeps a log of the
      calls ([Trace]).
    - [Serial]: the channel of the specification, the instance
      [serial_channel]. It is the Arduino core, not code of this
      repository, and is modelled from the specification: a record
      [serial] with the receive buffer [rx], which has no bound, the
      arrival schedule [incoming] (the chunk the UART delivers before each
      poll of [Serial.available]), the log [tx] of bytes written, the count
      [flushed] of bytes known to have left the device, and [clock], the
      milliseconds spent in [delay]. [out_eq] relates devices with the same
      output side; the state transformers respect it ([Proper]). The
      section [polling] holds what the two blocking loops of the program
      share: a loop whose body does [idle] when a poll finds nothing goes
      round until a byte has arrived ([poll_until]), goes round for ever
      when none is left ([poll_starved]), and goes round once per empty
      chunk of a silent host ([poll_silent]).
    - [Codec]: [SerialWriteLongInt] (lines 47-52) and its inverse
      [Decode32]; the two round trips, big-endian value, injectivity,
      wrap-around at 32 bits.
    - [Packet]: the marker constants (lines 12-17), [ends_label], the
      receiver's test at line 136, and [frame], the wire format of the
      specification, the reference the senders are proved against.
    - [Encoder]: [SerialSendInt], [SerialSendIntPair], [SerialSendChar],
      [SerialSendCharPair], [SerialSendErrorText],
      [SerialSendErrorNumAsText] (lines 54-115), each a [prog] over the
      channel. [packet] and [send] are the development's own: a call of
      any of the six senders as a value, and its dispatch. The
      theorems: the bytes each appends to [tx], that each leaves nothing
      unflushed, the fault of each on an unterminated string, and that
      packets sent one after the other are on the wire back to back, in
      order ([wires_of]).
    - [DecoderSpec]: the state machine of the specification, section 4.3
      (Idle, CollectingLabel, CollectingPayload): the step relation [dstep],
      the same as a function [dnext], its runs [drun] over a byte stream,
      and the packet grammar as a reference parser [parse]. The theorems:
      the relation is total and deterministic, and a run returns a packet
      exactly when [parse] finds one that fits.
    - [Decoder]: the body of [SerialReceiveAndParsePacket] (lines
      121-177). The locals of the C function are the record [locals] (the
      three flags, [data_type] as an [option] because it is declared
      without a value, the two [int] lengths, the two parameters
      [buffer_label] and [buffer_data], which are pointers, and the
      memory they point into). [on_byte] is the branch on the byte read
      (lines 134-174) and [loop_body] one iteration of
      [while (!flag_ser_end)]. [conc] gives the locals that represent a
      state of the machine, for any memory and any two pointers, and
      [react] is what the machine's answer to a byte asks of the device
      (nothing, an error notice, the return, the fault). [on_byte_react]
      is the simulation, on every device: one byte does to the locals
      and the device what the table says; [on_byte_sim] is the same on
      the channel of the specification, and [on_byte_refines] states it
      against the step relation [dstep].
    - [DecoderRun]: the simulation lifted to the blocking loop, polls
      included: [loop_refines] (on every device and for every fuel the
      loop of the program is the loop of the machine, [machine_step],
      seen through [conc]),
      [loop_run] (with enough fuel the loop ends as the machine's run
      does) and [loop_safe] (with any fuel the loop is in the machine, has
      returned, or has written out of bounds).
    - [Receiver]: the call. [SerialReceiveAndParsePacket_at] is the call
      through two pointers into a memory; [SerialReceiveAndParsePacket] is
      the call with two arrays of their own, which the caller finds
      written at the [return]. On every device the call is the loop of
      the specification's machine. The theorems about the call with two
      arrays, on the channel of the specification: the result
      is what [parse] finds; the call
      returns exactly when [parse] finds a packet that fits; the outcome
      does not depend on chunking; the only undefined behaviour reachable
      is the write past an array, so the missing [return] at line 177 and
      the uninitialised [data_type] are unreachable; a label or payload
      that fills its array does overflow; the call blocks for ever without
      an end marker; the loop invariant; what the call has written when it
      returns; and that arrays of characters stay arrays of characters.
    - [Aliasing]: the call through any two pointers. It returns what
      [parse] finds and leaves the memory with the label written through
      the one pointer and then the payload through the other, wherever
      they point; it writes no other array; with pointers into different
      arrays it is, for every fuel and every state of the device, the
      call with two arrays of their own; with the same array passed twice
      the payload is written over the label; with two parts of one array
      a label longer than its part is no write out of bounds and ends up
      cut and followed by the payload.
    - [RoundTrip]: a sender wired to the receiver; which packets survive
      the trip and which do not (a payload byte equal to [PACKET_END], the
      [PACKET_INT2] marker the receiver does not know); framing is
      unambiguous on the packets that survive; a binary payload arrives
      whole but its length cannot be read off the array.
    - [Handshake]: [SerialHandshake] (lines 24-38) as two nested loops
      under fuel; it returns when the reply is in the input, blocks
      otherwise, writes nothing but hellos, and answers a host that was
      silent for [n] polls after exactly [n] hellos.
    - [Parametric]: the library is parametric in the device. A relation
      between programs on two devices that holds of the five operations
      and is kept by sequencing (the classes [ProgRel], [WriterRel],
      [ChannelRel]) holds between every function of the library and
      itself; the lemmas are proved once, by [solve_rel], and the
      relations of [Host], [Ring] and [Independence] are instances.
    - [Ring]: the receive buffer of the hardware, the instance
      [ring_channel]: the device of [Serial] with a [capacity] (64 bytes
      on the board, by the comment at line 17) and the record [lost] of
      the bytes that arrived when the buffer was full. Of a chunk of the
      schedule the front is stored as far as there is room and the rest
      is dropped ([ring_arrive]). The relation [tracks] compares a run on
      the bounded buffer with the run on the channel of the
      specification; it is an instance of [ChannelRel], so every program
      over the interface has it: it is a fact about the buffer, and the
      means by which the theorems of [Receiver] are carried over. The
      theorems: with room for the pending input the receiver returns
      what [parse] finds; with room and arrays as long as the buffer it
      never writes out of bounds; a frame longer than the buffer that
      arrives in one burst makes the call block for ever; the senders do
      not depend on the receive buffer.
    - [Independence]: the two directions share nothing but the channel
      (specification, section 5). The relation [alike], another instance
      of [ChannelRel], compares two runs on devices with the same input
      side. It holds of every program over the interface, which offers
      no way to read the output or the clock; so it says that the
      interface keeps the directions apart, not that the code does
      anything in particular: the receiver answers the same, reads the same, writes the
      same bytes and waits as long, whatever was written and however
      much time was spent before; a packet sent before a call changes
      nothing in what the call returns.
    - [CharArray]: [CopyCharArray] (lines 181-193), through two pointers
      ([CopyCharArray_at]) and with two arrays of their own
      ([CopyCharArray]); its complete behaviour against the reference
      [copied] whenever the copy reads no cell it has written
      ([reads_ahead]: different arrays, or [source] at or behind [target]
      in the same array), what a caller may rely on when it returns, the
      overflow by one cell when [target] has exactly [max_num_data]
      cells, and the copy towards the back of its own array, which reads
      what it has just written and never meets the NUL.
    - [Session]: the caller of the library, which is not among the
      sources and is taken from the specification (sections 2 and 4.3):
      [receive_n], the receiver called again for every packet on the same
      two arrays, [session], the handshake followed by [receive_n], and
      [script], senders and calls of the receiver in any order.
      The caller is written and proved against the interface
      [PacketDecoder], a class of four laws (a call returns what the
      reference parser finds, its outcome does not depend on chunking, it
      reads forwards, it hands the arrays back with their size), of which
      [SerialReceiveAndParsePacket] is an instance. The theorems: [n]
      calls return the packets [parse_all] finds, in order; a session does
      not depend on chunking; a whole session from the first hello to the
      last packet; end to end, the packets one device sends are the
      packets the other receives; what is sent between two calls of the
      receiver changes nothing in what they return, and the output is in
      the order of the calls; and a session on the bounded receive
      buffer with room for its input is the session of the
      specification.
    - [Host]: the device wired to a host that hears what the device
      writes and answers it, another instance of [Channel]
      ([wired_channel]). The host is not code of this repository; it is
      the class [Host] of states with [hear], which gives the bytes sent
      back on hearing a byte, and what is known of it is the comment of
      [SerialHandshake] and the handshake bytes of the specification
      (section 6). The theorems: wired to a host that says nothing to
      [k] hellos and answers the next one with the reply
      ([acknowledges]), the handshake returns after [k + 1] hellos and
      500 ms more; when frames that fit follow the reply, the session
      returns their packets and the host hears nothing but the hellos
      ([unheard], an instance of [ChannelRel] for every host: a run that
      writes nothing is the run on the device alone); the host of the
      comment ([acker]) is such a host; wired to a host that never
      answers ([silent]), every function of the library does what it
      does on the device alone ([over_link], an instance of
      [ChannelRel]), and the handshake never returns.
    - [Trace]: the calls the library makes into the Arduino core, as a
      log. Over any device, [logged] is the device that appends to a
      log what was called and what it answered ([io]: a poll and its
      answer, a byte read, a byte written, a flush, a delay), a further
      instance of [Channel]. The file holds the projections of a log
      (the bytes read [got], the bytes written [put], the time slept
      [slept]), automata that read a log ([follows]), the devices whose
      operations always answer ([Reliable], which all devices of the
      development are), and a small program logic: [emits p Q F] says
      what the log of [p] gains when it returns and when it faults, with
      one rule per construct of [prog] and per operation, applied by
      [emits_go]. The log changes nothing ([erases]) and is what
      happened ([accounts]); both are instances of [ChannelRel] and hold
      of every program over the interface: they say that the log can be
      trusted, and [Protocol] says what is in it.
    - [Protocol]: what each function of the library asks of the device
      it runs on, whatever that device is. A sender makes the calls
      [sender_calls]: its wire bytes, one write each, then one flush. The
      handshake walks the automaton [handshake_next] over its [phase]s:
      poll, hello, 500 ms, poll again; a second poll before the read;
      the reply, 500 ms, return.
      The receiver reads a byte only after a poll that found one, the
      bytes it has read drive the specification's machine to the state
      it is in or to the packet it returns, and all it writes are the
      notices of the machine, each the calls [notice_calls].
      [sender_calls], [handshake_next] and [notice_calls] are references
      written by hand after lines 55-61, 25-37 and 172-173; the theorems
      prove that the code, transcribed in [Encoder], [Handshake] and
      [Decoder], makes these calls and no others.

    ** Conventions

    A [char], an [int] and an [unsigned long] are all [Z]; the conversions
    C performs are explicit ([to_uint8], [to_char], [to_ulong],
    [to_int]). Everything the program does is a function
    [prog S A := S -> outcome S A]: it either finishes with a result and
    a new state ([Ok]) or reaches undefined behaviour ([Fault]) with the
    state at that point. The functions of the library are programs over
    any state [S] with a [Channel] instance; the theorems of [Codec] to
    [Handshake] are about them on the channel of the specification,
    those of [Ring] carry them over to the bounded buffer, those of
    [Host] to a device with a host at the other end, and those of
    [Protocol] hold on every device whose operations answer. A function
    that writes to its array parameters is first a program on a memory
    and pointers, which answers the memory as it leaves it; the same
    function with arrays of their own as arguments, which answers the
    arrays, is that program on a memory of just these arrays.

    ** Fuel

    Blocking loops take a fuel argument, the number of iterations allowed;
    [inl st] is "still looping with locals [st]", [inr r] is "returned
    [r]". Every theorem that says the program returns gives a fuel that is
    enough, and [iter_fuel_mono] extends it to any larger fuel. For the
    receiver the bound is one iteration per chunk of the arrival schedule
    (a poll that finds nothing uses up a chunk) and one per byte of input;
    for the handshake the same up to the reply, for the outer and for the
    inner loop, and wired to a host that answers the hello after [k]
    others, [k + 2]; for [CopyCharArray] one iteration per character copied and
    one more. A call of the receiver leaves no more chunks and bytes than
    it found, so in a session the fuel of the first call is enough for
    every later one. Theorems that say the program does not return, or
    is safe, hold for every fuel.

    ** Bounds

    The arrays passed to the receiver have at most [INT_MAX] cells from
    the pointer to their end, the largest index an [int] of the target
    holds. The capacity of the
    receive buffer is a field of the device and the theorems of [Ring]
    hold for every capacity; [board] is the device of 64 bytes the
    comment on [MAX_BUFFER] speaks of, and the examples run on it.

    ** Not modelled

    The time serial transfers take and the transmit buffer of the Arduino
    core (a write is in the output at once, and [Serial.flush] returns at
    once); of the receive buffer the capacity and the loss of bytes are
    modelled ([Ring]), its interrupts are not: a chunk of the schedule
    stands for what arrived between two polls. Of the memory, the
    arrays of [char] the functions are passed; not the stack, the
    layout of the arrays next to one another (a write past the end of an
    array is a fault, whatever lies behind it), nor pointers that are
    not into an array. The sign of
    [char]: characters are kept as their low eight bits; the program
    only compares them with markers below 128 and writes them back as
    bytes. Of the host program at the other end of the wire, its part in
    the handshake ([Host]) and the integer decoding [Decode32] are taken
    from the specification and the comments; what it does with the
    packets it hears, and when it sends which packet, is not in the
    sources. The
    sketch that uses the library, of which only the order of its calls
    is taken from the specification: what it sends, and what it does
    with a packet it has received, are not in the sources. *)

From Stdlib Require Export ZArith Lia Ascii String.
From stdpp Require Export base tactics option list numbers relations.

#[local] Open Scope Z_scope.

(** ** Bytes, characters and machine integers *)

(** The conversion [(uint8_t)n] that every [Serial.write] overload applies. *)
Definition to_uint8 (z : Z) : Z := z mod 256.

(** The representation of [char(z)]: the low eight bits. The program only
    compares characters with the marker constants (all below 128), tests
    them against NUL and writes them back as bytes, so the sign of [char]
    on the target is not observable and a character is its byte. *)
Definition to_char (z : Z) : Z := z mod 256.

(** Conversion to [unsigned long], 32 bits wide on the target. *)
Definition to_ulong (z : Z) : Z := z mod 2 ^ 32.

(** Conversion to [int], 16 bits wide and signed on the target: what a
    [size_t] becomes when a function declared [int] returns it. *)
Definition to_int (z : Z) : Z := (z + 2 ^ 15) mod 2 ^ 16 - 2 ^ 15.

Definition is_byte (z : Z) : Prop := 0 <= z < 256.

(** A C character literal ['c']. *)
Definition chr (c : ascii) : Z := Z.of_N (N_of_ascii c).

(** The characters of a string. *)
Definition str (s : string) : list Z := chr <$> list_ascii_of_string s.

(** A C string literal ["..."]: its characters and the terminating NUL. *)
Definition lit (s : string) : list Z := str s ++ [0].

(** [INT_MAX] of the target, whose [int] is 16 bits wide. *)
Definition INT_MAX : Z := 32767.

#[export] Instance is_byte_dec z : Decision (is_byte z).
Proof. unfold is_byte. apply _. Defined.

(** ** The state-and-fault monad *)

(** The undefined behaviours the program can reach. *)
Inductive fault : Type :=
| OutOfBounds      (* an array indexed outside its bounds *)
| Unterminated     (* [strlen] ran off an array that holds no NUL *)
| Uninitialised    (* a local read before it was assigned *)
| NoReturn         (* the end of a non-void function reached without [return] *)
| IntOverflow.     (* signed [int] arithmetic left the range of [int] *)

#[export] Instance fault_eq_dec : EqDecision fault.
Proof. solve_decision. Defined.

Inductive outcome (S A : Type) : Type :=
| Ok (a : A) (s : S)
| Fault (f : fault) (s : S).
Arguments Ok {S A} a s.
Arguments Fault {S A} f s.

Definition prog (S A : Type) : Type := S -> outcome S A.

#[export] Instance prog_ret {S} : MRet (prog S) := fun A a s => Ok a s.

#[export] Instance prog_bind {S} : MBind (prog S) := fun A B f m s =>
  match m s with
  | Ok a s' => f a s'
  | Fault e s' => Fault e s'
  end.

(** Reaching undefined behaviour. *)
Definition raise {S A} (f : fault) : prog S A := fun s => Fault f s.

(** Lifting a partial pure operation: [None] is the fault [f]. *)
Definition lift_option {S A} (f : fault) (o : option A) : prog S A :=
  match o with
  | Some a => mret a
  | None => raise f
  end.

(** Sequencing an action over the elements of a list, left to right. *)
Fixpoint for_each {S A} (f : A -> prog S unit) (l : list A) : prog S unit :=
  match l with
  | [] => mret tt
  | x :: l' => f x;; for_each f l'
  end.

(** A [while] loop under fuel. The body answers [inl st'] to go round again
    with locals [st'] and [inr r] to return [r]; with no fuel left the loop
    is reported as still running, [inl st]. *)
Fixpoint iter_fuel {S St R} (body : St -> prog S (St + R)) (fuel : nat) (st : St)
  : prog S (St + R) :=
  match fuel with
  | O => mret (inl st)
  | Datatypes.S n =>
      r ← body st;
      match r with
      | inl st' => iter_fuel body n st'
      | inr v => mret (inr v)
      end
  end.

(** What is known of the outcome of a loop: [I] of the locals and the state
    when it is still going, [Q] of the result and the state when it has
    returned, [F] of the fault and the state when it has faulted. *)
Definition outcome_sat {S A B} (I : A -> S -> Prop) (Q : B -> S -> Prop)
    (F : fault -> S -> Prop) (o : outcome S (A + B)) : Prop :=
  match o with
  | Ok (inl a) s => I a s
  | Ok (inr b) s => Q b s
  | Fault e s => F e s
  end.

(** The state an outcome ends in, and what it answers: the result, or the
    fault. *)
Definition state_of {S A} (o : outcome S A) : S :=
  match o with Ok _ s => s | Fault _ s => s end.

Definition result_of {S A} (o : outcome S A) : A + fault :=
  match o with Ok a _ => inl a | Fault e _ => inr e end.

(** An outcome with its result seen through [f]. *)
Definition outcome_map {S A B} (f : A -> B) (o : outcome S A) : outcome S B :=
  match o with Ok a s => Ok (f a) s | Fault e s => Fault e s end.

(** Two programs are equivalent when they agree on every state. *)
#[export] Instance prog_equiv {S A} : Equiv (prog S A) := fun m1 m2 => forall s, m1 s = m2 s.

(** ** Tactics *)

(** Unfold the monad operations in the goal and in every hypothesis. *)
Ltac prog_unfold :=
  unfold mbind, mret, prog_bind, prog_ret, raise, lift_option in *.

(** Case analysis on the first [match] or [if] in the goal, keeping the
    equation, then clean up. *)
Ltac prog_case :=
  match goal with
  | |- context [match ?x with _ => _ end] => destruct x eqn:?; simplify_eq/=
  end.

(** [lia] also decides goals with [/] and [mod] by a constant. *)
Ltac Zify.zify_post_hook ::= Z.div_mod_to_equations.

Create HintDb opbox discriminated.
Create Rewrite HintDb opbox_rw.

(** ** Lemmas on bytes *)

Lemma to_uint8_byte z : is_byte (to_uint8 z).
Proof. unfold is_byte, to_uint8. lia. Qed.

Lemma to_char_byte z : is_byte (to_char z).
Proof. unfold is_byte, to_char. lia. Qed.

Lemma to_uint8_id z : is_byte z -> to_uint8 z = z.
Proof. unfold is_byte, to_uint8. intros. apply Z.mod_small. lia. Qed.

Lemma to_char_id z : is_byte z -> to_char z = z.
Proof. unfold is_byte, to_char. intros. apply Z.mod_small. lia. Qed.

Lemma to_uint8_idemp z : to_uint8 (to_uint8 z) = to_uint8 z.
Proof. apply to_uint8_id, to_uint8_byte. Qed.

Lemma to_ulong_range z : 0 <= to_ulong z < 2 ^ 32.
Proof. unfold to_ulong. lia. Qed.

Lemma to_ulong_id z : 0 <= z < 2 ^ 32 -> to_ulong z = z.
Proof. unfold to_ulong. intros. apply Z.mod_small. lia. Qed.

Lemma to_int_id z : - 2 ^ 15 <= z < 2 ^ 15 -> to_int z = z.
Proof. unfold to_int. intros. rewrite Z.mod_small; lia. Qed.

Lemma chr_byte c : is_byte (chr c).
Proof.
  unfold is_byte, chr. pose proof (N_ascii_bounded c). lia.
Qed.

Lemma Forall_to_uint8_id l : Forall is_byte l -> to_uint8 <$> l = l.
Proof.
  induction 1 as [|x l Hx _ IH]; [done|].
  by rewrite fmap_cons, to_uint8_id, IH.
Qed.

Lemma Forall_to_char_id l : Forall is_byte l -> to_char <$> l = l.
Proof.
  induction 1 as [|x l Hx _ IH]; [done|].
  by rewrite fmap_cons, to_char_id, IH.
Qed.

Lemma Forall_is_byte_chr s : Forall is_byte (chr <$> s).
Proof. induction s; constructor; auto using chr_byte. Qed.

Lemma str_bytes s : Forall is_byte (str s).
Proof. apply Forall_is_byte_chr. Qed.

Lemma Forall_to_uint8 l : Forall is_byte (to_uint8 <$> l).
Proof. apply Forall_fmap, Forall_true. intros x. apply to_uint8_byte. Qed.

#[export] Hint Resolve to_uint8_byte to_char_byte chr_byte Forall_is_byte_chr
  str_bytes Forall_to_uint8 Forall_cons_2 Forall_nil_2 Forall_app_2 : opbox.
#[export] Hint Rewrite to_uint8_idemp : opbox_rw.

(** Injectivity of [Ok], as a lemma so that using it rewrites nothing
    inside the result or the state. *)
Lemma Ok_inj {S A} (a a' : A) (s s' : S) : Ok a s = Ok a' s' -> a = a' /\ s = s'.
Proof. by intros [= -> ->]. Qed.

(** ** Laws of the monad, pointwise *)

Section prog_laws.
Context {S A B C : Type}.
Implicit Types (m : prog S A) (f : A -> prog S B) (g : B -> prog S C).

Lemma bind_ret_l a f s : (mret a ≫= f) s = f a s.
Proof. reflexivity. Qed.

Lemma bind_ret_r m s : (m ≫= mret) s = m s.
Proof. prog_unfold. by destruct (m s). Qed.

Lemma bind_assoc m f g s : ((m ≫= f) ≫= g) s = (m ≫= fun a => f a ≫= g) s.
Proof. prog_unfold. by destruct (m s). Qed.

Lemma bind_Ok m f s a s' : m s = Ok a s' -> (m ≫= f) s = f a s'.
Proof. prog_unfold. by intros ->. Qed.

Lemma bind_Fault m f s e s' : m s = Fault e s' -> (m ≫= f) s = Fault e s'.
Proof. prog_unfold. by intros ->. Qed.

Lemma bind_Ok_inv m f s b s'' :
  (m ≫= f) s = Ok b s'' -> exists a s', m s = Ok a s' /\ f a s' = Ok b s''.
Proof. prog_unfold. destruct (m s); naive_solver. Qed.

End prog_laws.

#[export] Instance prog_equiv_equivalence {S A} : Equivalence (≡@{prog S A}).
Proof.
  split; unfold equiv, prog_equiv.
  - by intros m s.
  - by intros m1 m2 H s.
  - intros m1 m2 m3 H12 H23 s. by rewrite H12.
Qed.

#[export] Instance mbind_proper {S A B} :
  Proper (pointwise_relation A (≡) ==> (≡) ==> (≡@{prog S B})) mbind.
Proof.
  intros f1 f2 Hf m1 m2 Hm s. prog_unfold. rewrite (Hm s).
  destruct (m2 s); [apply Hf | done].
Qed.

(** ** Laws of the fuel loop *)

Section iter_fuel_laws.
Context {S St R : Type} (body : St -> prog S (St + R)).

Lemma iter_fuel_S n st s :
  iter_fuel body (Datatypes.S n) st s =
  match body st s with
  | Ok (inl st') s' => iter_fuel body n st' s'
  | Ok (inr v) s' => Ok (inr v) s'
  | Fault e s' => Fault e s'
  end.
Proof. simpl. prog_unfold. by destruct (body st s) as [[?|?]|]. Qed.

(** Running [n + m] iterations is running [n] and then, if the loop is
    still going, [m] more. *)
Lemma iter_fuel_add n m st s :
  iter_fuel body (n + m) st s =
  match iter_fuel body n st s with
  | Ok (inl st') s' => iter_fuel body m st' s'
  | o => o
  end.
Proof.
  revert st s. induction n as [|n IH]; intros st s; [done|].
  rewrite Nat.add_succ_l, !iter_fuel_S.
  destruct (body st s) as [[st'|v] s'|e s']; auto.
Qed.

(** Once the loop has returned, more fuel changes nothing. *)
Lemma iter_fuel_mono n m st s v s' :
  (n <= m)%nat ->
  iter_fuel body n st s = Ok (inr v) s' ->
  iter_fuel body m st s = Ok (inr v) s'.
Proof.
  intros Hle H. replace m with (n + (m - n))%nat by lia.
  by rewrite iter_fuel_add, H.
Qed.

(** Nor does it once the loop has reached undefined behaviour. *)
Lemma iter_fuel_mono_fault n m st s e s' :
  (n <= m)%nat ->
  iter_fuel body n st s = Fault e s' ->
  iter_fuel body m st s = Fault e s'.
Proof.
  intros Hle H. replace m with (n + (m - n))%nat by lia.
  by rewrite iter_fuel_add, H.
Qed.

(** An invariant of the body is an invariant of the loop: whatever the
    fuel, the locals the loop stops in satisfy it. *)
Lemma iter_fuel_inv (I : St -> S -> Prop) n st s st' s' :
  (forall st s st' s', I st s -> body st s = Ok (inl st') s' -> I st' s') ->
  I st s ->
  iter_fuel body n st s = Ok (inl st') s' ->
  I st' s'.
Proof.
  intros Hstep. revert st s. induction n as [|n IH]; intros st s HI.
  - cbn. intros [= <- <-]. done.
  - rewrite iter_fuel_S. destruct (body st s) as [[st1|v] s1|e s1] eqn:Hb; [|done..].
    apply IH. eauto.
Qed.

(** The rule for loops: if from every state satisfying [I] the body either
    goes on in a state satisfying [I], returns a result satisfying [Q] or
    faults in a way satisfying [F], then so does the loop, whatever the
    fuel. *)
Lemma iter_fuel_rule (I : St -> S -> Prop) (Q : R -> S -> Prop)
    (F : fault -> S -> Prop) n st s :
  (forall st s, I st s -> outcome_sat I Q F (body st s)) ->
  I st s ->
  outcome_sat I Q F (iter_fuel body n st s).
Proof.
  intros Hbody. revert st s. induction n as [|n IH]; intros st s HI; [done|].
  rewrite iter_fuel_S. specialize (Hbody st s HI).
  destruct (body st s) as [[st'|v] s'|e s']; simpl in *; auto.
Qed.

End iter_fuel_laws.

(** ** Outcomes seen through a map *)

Lemma outcome_map_compose {S A B C} (f : A -> B) (g : B -> C) (o : outcome S A) :
  outcome_map g (outcome_map f o) = outcome_map (g ∘ f) o.
Proof. by destruct o. Qed.

(** Two maps that agree on what the outcome is known to be give the same
    outcome. *)
Lemma outcome_map_ext {S A B C} (f g : A + B -> C) (I : A -> S -> Prop)
    (Q : B -> S -> Prop) (F : fault -> S -> Prop) (o : outcome S (A + B)) :
  outcome_sat I Q F o ->
  (forall a s, I a s -> f (inl a) = g (inl a)) ->
  (forall b s, Q b s -> f (inr b) = g (inr b)) ->
  outcome_map f o = outcome_map g o.
Proof.
  destruct o as [[a|b] s|e s]; simpl; intros Ho Hl Hr; [|by f_equal; eauto..].
  f_equal. eauto.
Qed.

(** A loop seen through a representation. If from the locals that
    represent [st] the body [body2] does what [body1] does from [st], for
    every [st] that satisfies an invariant [I] of [body1], then the loop of
    [body2] does what the loop of [body1] does, whatever the fuel. *)
Lemma iter_fuel_represent {S St1 St2 R1 R2}
    (body1 : St1 -> prog S (St1 + R1)) (body2 : St2 -> prog S (St2 + R2))
    (f : St1 -> St2) (g : R1 -> R2) (I : St1 -> Prop) n st s :
  (forall st s, I st -> body2 (f st) s = outcome_map (sum_map f g) (body1 st s)) ->
  (forall st s st' s', I st -> body1 st s = Ok (inl st') s' -> I st') ->
  I st ->
  iter_fuel body2 n (f st) s = outcome_map (sum_map f g) (iter_fuel body1 n st s).
Proof.
  intros Hbody Hinv. revert st s. induction n as [|n IH]; intros st s HI; [done|].
  rewrite !iter_fuel_S, Hbody by done.
  destruct (body1 st s) as [[st'|v] s'|e s'] eqn:Hb; simpl; [|done..].
  apply IH. eauto.
Qed.
