(* ===== verification/CArray.v ===== *)
(** * C character arrays

    A [char] array of the program is a [list Z] whose length is the
    capacity of the array. C gives no meaning to an access outside the
    array: [load] and [store] answer [None] there, and the programs, which
    reach the arrays through pointers ([Memory]), turn that into the fault
    [OutOfBounds]. A C string is the content of an
    array up to its first NUL; [strlen] finds it and answers [None] when
    the array holds no NUL (the C function would read past the array).
    [overwrite] is the closed form of an array after its first cells have
    been assigned in order, which is how the receiver fills its buffers. *)

From S2P Require Import Prelude.

#[local] Open Scope Z_scope.

(** ** Definitions *)

(** [a[i] = v] with [i] a C [int]. *)
Definition store (a : list Z) (i : Z) (v : Z) : option (list Z) :=
  if decide (0 <= i < Z.of_nat (length a))
  then Some (<[Z.to_nat i := v]> a)
  else None.

(** [a[i]] with [i] a C [int]. *)
Definition load (a : list Z) (i : Z) : option Z :=
  if decide (0 <= i) then a !! Z.to_nat i else None.

(** [strlen(a)]: the number of characters before the first NUL. *)
Fixpoint strlen (a : list Z) : option nat :=
  match a with
  | [] => None
  | c :: a' => if decide (c = 0) then Some 0%nat else S <$> strlen a'
  end.

(** The string held by an array. *)
Definition c_str (a : list Z) : option (list Z) :=
  n ← strlen a; Some (take n a).

(** An array holds a string when it has a NUL. *)
Definition terminated (a : list Z) : Prop := is_Some (strlen a).

(** The array [a] after cells [0 .. length c - 1] were assigned [c]. *)
Definition overwrite (a c : list Z) : list Z := c ++ drop (length c) a.

(** No NUL among the characters. *)
Definition nul_free (l : list Z) : Prop := Forall (fun c => c <> 0) l.

(** The arithmetic of the programs, with its undefined behaviour. *)

(** [n++] on an [int]. *)
Definition int_succ {S} (n : Z) : prog S Z :=
  if decide (n < INT_MAX) then mret (n + 1) else raise IntOverflow.

#[export] Instance terminated_dec a : Decision (terminated a).
Proof. unfold terminated. apply _. Defined.

#[export] Instance nul_free_dec l : Decision (nul_free l).
Proof. unfold nul_free. apply _. Defined.

(** ** [store] and [load] *)

Lemma store_Some a i v :
  0 <= i < Z.of_nat (length a) -> store a i v = Some (<[Z.to_nat i := v]> a).
Proof. intros. unfold store. by rewrite decide_True. Qed.

Lemma store_None a i v :
  ~ 0 <= i < Z.of_nat (length a) -> store a i v = None.
Proof. intros. unfold store. by rewrite decide_False. Qed.

Lemma store_is_Some a i v :
  is_Some (store a i v) <-> 0 <= i < Z.of_nat (length a).
Proof.
  unfold store. case_decide; split; intros H'; try done.
Qed.

Lemma store_length a i v a' : store a i v = Some a' -> length a' = length a.
Proof.
  unfold store. case_decide; [|done]. intros [= <-]. apply length_insert.
Qed.

Lemma load_store_eq a i v a' : store a i v = Some a' -> load a' i = Some v.
Proof.
  unfold store, load. case_decide as Hi; [|done]. intros [= <-].
  rewrite decide_True by lia. apply list_lookup_insert_eq. lia.
Qed.

Lemma load_store_ne a i j v a' :
  store a i v = Some a' -> i <> j -> load a' j = load a j.
Proof.
  unfold store, load. case_decide as Hi; [|done]. intros [= <-] Hne.
  case_decide; [|done]. apply list_lookup_insert_ne. lia.
Qed.

(** An array of bytes stays one when a byte is assigned. *)
Lemma store_bytes a i v a' :
  Forall is_byte a -> is_byte v -> store a i v = Some a' -> Forall is_byte a'.
Proof.
  unfold store. intros Ha Hv. case_decide; [|done]. intros [= <-].
  by apply Forall_insert.
Qed.

(** ** [overwrite] *)

Lemma overwrite_nil a : overwrite a [] = a.
Proof. unfold overwrite. simpl. by rewrite drop_0. Qed.

Lemma overwrite_length a c :
  (length c <= length a)%nat -> length (overwrite a c) = length a.
Proof. intros. unfold overwrite. rewrite length_app, length_drop. lia. Qed.

Lemma length_overwrite a c : length (overwrite a c) = (length a `max` length c)%nat.
Proof. unfold overwrite. rewrite length_app, length_drop. lia. Qed.

Lemma overwrite_take a c :
  take (length c) (overwrite a c) = c.
Proof. unfold overwrite. by rewrite take_app_length. Qed.

Lemma overwrite_drop a c :
  drop (length c) (overwrite a c) = drop (length c) a.
Proof. unfold overwrite. by rewrite drop_app_length. Qed.

(** Assigning the next cell extends the overwritten prefix by one. *)
Lemma store_overwrite a c v :
  (length c < length a)%nat ->
  store (overwrite a c) (Z.of_nat (length c)) v = Some (overwrite a (c ++ [v])).
Proof.
  intros Hlt. rewrite store_Some by (rewrite overwrite_length; lia).
  f_equal. rewrite Nat2Z.id. unfold overwrite.
  rewrite insert_app_r_alt, Nat.sub_diag by lia.
  rewrite length_app. simpl.
  destruct (drop (length c) a) as [|x r] eqn:Hd.
  { apply (f_equal length) in Hd. rewrite length_drop in Hd. simpl in Hd. lia. }
  simpl. rewrite <- app_assoc. simpl. do 2 f_equal.
  by rewrite <- drop_drop, Hd.
Qed.

(** With no cell left the assignment is out of bounds. *)
Lemma store_overwrite_full a c v :
  (length a <= length c)%nat ->
  store (overwrite a c) (Z.of_nat (length c)) v = None.
Proof.
  intros H. apply store_None. unfold overwrite.
  rewrite length_app, length_drop. lia.
Qed.

(** ** [strlen] and [c_str] *)

Lemma strlen_app_nul s r : nul_free s -> strlen (s ++ 0 :: r) = Some (length s).
Proof.
  induction 1 as [|c s Hc _ IH]; simpl.
  - done.
  - rewrite decide_False by done. by rewrite IH.
Qed.

Lemma strlen_lt a n : strlen a = Some n -> (n < length a)%nat.
Proof.
  revert n. induction a as [|c a IH]; intros n; simpl; [done|].
  case_decide; [intros [= <-]; lia|].
  destruct (strlen a) as [k|]; [|done]. intros [= <-].
  specialize (IH k eq_refl). lia.
Qed.

Lemma strlen_nul a n : strlen a = Some n -> a !! n = Some 0.
Proof.
  revert n. induction a as [|c a IH]; intros n; simpl; [done|].
  case_decide; [intros [= <-]; by subst|].
  destruct (strlen a) as [k|]; [|done]. intros [= <-]. by apply IH.
Qed.

Lemma strlen_nul_free a n : strlen a = Some n -> nul_free (take n a).
Proof.
  revert n. induction a as [|c a IH]; intros n; simpl; [done|].
  case_decide; [intros [= <-]; constructor|].
  destruct (strlen a) as [k|]; [|done]. intros [= <-].
  constructor; [done|]. by apply IH.
Qed.

(** [strlen] is characterised by the split of the array at its first NUL. *)
Lemma strlen_Some_iff a n :
  strlen a = Some n <-> exists s r, a = s ++ 0 :: r /\ nul_free s /\ length s = n.
Proof.
  split.
  - intros H. exists (take n a), (drop (S n) a). split_and!.
    + rewrite <- (take_drop_middle a n 0) at 1 by by apply strlen_nul. done.
    + by apply strlen_nul_free.
    + apply length_take_le. apply strlen_lt in H. lia.
  - intros (s & r & -> & Hs & <-). by apply strlen_app_nul.
Qed.

Lemma strlen_None_iff a : strlen a = None <-> nul_free a.
Proof.
  induction a as [|c a IH]; simpl.
  - split; [constructor|done].
  - case_decide as Hc.
    + split; [done|]. by intros [? ?]%Forall_cons.
    + destruct (strlen a) as [k|]; simpl.
      * split; [done|]. by intros [_ Ha%IH]%Forall_cons.
      * split; [|done]. intros _. constructor; [done|]. by apply IH.
Qed.

Lemma c_str_app_nul s r : nul_free s -> c_str (s ++ 0 :: r) = Some s.
Proof.
  intros Hs. unfold c_str. rewrite strlen_app_nul by done. simpl.
  by rewrite take_app_length.
Qed.

(** What follows the first NUL does not matter. *)
Lemma strlen_app_l a r n : strlen a = Some n -> strlen (a ++ r) = Some n.
Proof.
  intros (s & r' & -> & Hs & <-)%strlen_Some_iff.
  rewrite <- app_assoc. by apply strlen_app_nul.
Qed.

Lemma c_str_app_l a r : terminated a -> c_str (a ++ r) = c_str a.
Proof.
  intros [n Hn]. unfold c_str. rewrite (strlen_app_l _ _ _ Hn), Hn. simpl.
  f_equal. apply take_app_le. apply strlen_lt in Hn. lia.
Qed.

Lemma terminated_app_nul c : terminated (c ++ [0]).
Proof.
  unfold terminated. destruct (strlen (c ++ [0])) eqn:H; [done|].
  apply strlen_None_iff, Forall_app in H as [_ H]. by inv H.
Qed.

Lemma c_str_lit s : nul_free (str s) -> c_str (lit s) = Some (str s).
Proof. intros. unfold lit. by apply c_str_app_nul. Qed.

Lemma c_str_nul_free a s : c_str a = Some s -> nul_free s.
Proof.
  unfold c_str. destruct (strlen a) as [n|] eqn:Hn; [|done].
  intros [= <-]. by apply strlen_nul_free.
Qed.

(** The length of the string in a buffer that was filled with [c] and then
    a NUL; no condition on the size of the buffer is needed. *)
Lemma strlen_overwrite a c :
  nul_free c -> strlen (overwrite a (c ++ [0])) = Some (length c).
Proof.
  intros Hc. unfold overwrite. rewrite <- app_assoc. simpl.
  by apply strlen_app_nul.
Qed.

(** The string of a buffer that was filled with [c] and then a NUL. *)
Lemma c_str_overwrite a c :
  nul_free c -> (length c < length a)%nat ->
  c_str (overwrite a (c ++ [0])) = Some c.
Proof.
  intros Hc Hlt. unfold overwrite. rewrite <- app_assoc. simpl.
  by apply c_str_app_nul.
Qed.

(** ** The statements *)

Section statements.
Context {S : Type}.
Implicit Types s : S.

Lemma int_succ_ok n s : n < INT_MAX -> int_succ n s = Ok (n + 1) s.
Proof. intros. unfold int_succ. by rewrite decide_True. Qed.

Lemma int_succ_overflow n s : INT_MAX <= n -> int_succ n s = Fault IntOverflow s.
Proof. intros. unfold int_succ. by rewrite decide_False by lia. Qed.

End statements.

#[export] Hint Resolve store_length strlen_lt c_str_nul_free int_succ_ok : opbox.
