(* ===== verification/Memory.v ===== *)
(** * The memory of the program: arrays and pointers into them

    A C function that is passed [char buffer[]] is passed a pointer, and
    two such parameters may point into the same array. The functions of
    the library that write to their parameters are therefore modelled on a
    memory:

    - a [heap] is the [char] arrays of the program, each a [list Z] as in
      [CArray];
    - a pointer [ptr] is an array ([block]) and a cell of it ([offset]);
      [shift] is pointer arithmetic;
    - [peek] and [poke] are [p[i]] and [p[i] = v] with [i] a C [int]. The
      cell accessed is [offset p + i] of the array of [p]; outside that
      array C gives the access no meaning and the answer is [None], which
      the programs turn into the fault [OutOfBounds] ([fetch_at],
      [assign_at]). An index that stays inside the array is defined
      whatever the pointer it starts from: there is no bound but the
      array's.

    [array_at h p] is the array as a function sees it through [p]: the
    cells [p[0], p[1], ...] up to the end of the array; [room] is their
    number. [fill h p vs] is the closed form of the memory after the cells
    [p[0], p[1], ...] have been assigned [vs] in order, which is how the
    receiver fills both its buffers. The lemmas say what a pointer sees
    after a [fill] through the same pointer, through a pointer into
    another array, and through a pointer into the same array. *)

From S2P Require Import Prelude CArray.

#[local] Open Scope Z_scope.

(** ** Definitions *)

(** A pointer to a [char]: an array of the program and a cell of it. *)
Record ptr : Type := mkPtr { block : nat; offset : nat }.

#[export] Instance ptr_eq_dec : EqDecision ptr.
Proof. solve_decision. Defined.

(** [p + k]. *)
Definition shift (p : ptr) (k : nat) : ptr := mkPtr (block p) (offset p + k).

(** The arrays of the program. *)
Abbreviation heap := (list (list Z)).

(** [p[i]] with [i] a C [int]. *)
Definition peek (h : heap) (p : ptr) (i : Z) : option Z :=
  a ← h !! block p; load a (Z.of_nat (offset p) + i).

(** [p[i] = v] with [i] a C [int]. *)
Definition poke (h : heap) (p : ptr) (i v : Z) : option heap :=
  a ← h !! block p;
  a' ← store a (Z.of_nat (offset p) + i) v;
  Some (<[block p := a']> h).

(** The array as seen through [p]: the cells from [p] to its end. *)
Definition array_at (h : heap) (p : ptr) : list Z :=
  drop (offset p) (default [] (h !! block p)).

(** The number of cells from [p] to the end of its array. *)
Definition room (h : heap) (p : ptr) : nat := length (array_at h p).

(** The memory after the cells [p[0], p[1], ...] were assigned [vs]. *)
Definition fill (h : heap) (p : ptr) (vs : list Z) : heap :=
  alter (fun a => take (offset p) a ++ overwrite (drop (offset p) a) vs) (block p) h.

Arguments fill : simpl never.

(** Two pointers into different arrays. *)
Definition apart (p q : ptr) : Prop := block p <> block q.

(** Every cell of the memory holds a character. *)
Definition heap_bytes (h : heap) : Prop := Forall (Forall is_byte) h.

(** [p[i] = v] as a statement, answering the memory after it. *)
Definition assign_at {S} (h : heap) (p : ptr) (i v : Z) : prog S heap :=
  lift_option OutOfBounds (poke h p i v).

(** [p[i]] as an expression. *)
Definition fetch_at {S} (h : heap) (p : ptr) (i : Z) : prog S Z :=
  lift_option OutOfBounds (peek h p i).

#[export] Instance apart_dec p q : Decision (apart p q).
Proof. unfold apart. apply _. Defined.

#[export] Instance apart_sym : Symmetric apart.
Proof. intros p q. unfold apart. congruence. Qed.

#[export] Instance heap_bytes_dec h : Decision (heap_bytes h).
Proof. unfold heap_bytes. apply _. Defined.

(** ** Arrays behind an offset *)

Lemma store_app_r (a b : list Z) (i v : Z) :
  0 <= i -> store (a ++ b) (Z.of_nat (length a) + i) v = (a ++.) <$> store b i v.
Proof.
  intros Hi. unfold store. rewrite length_app.
  destruct (decide (0 <= i < Z.of_nat (length b))) as [Hb|Hb].
  - rewrite decide_True by lia. simpl. f_equal.
    replace (Z.to_nat (Z.of_nat (length a) + i)) with (length a + Z.to_nat i)%nat by lia.
    apply insert_app_r.
  - by rewrite decide_False by lia.
Qed.

Lemma load_app_r (a b : list Z) (i : Z) :
  0 <= i -> load (a ++ b) (Z.of_nat (length a) + i) = load b i.
Proof.
  intros Hi. unfold load. rewrite !decide_True by lia.
  rewrite lookup_app_r by lia. f_equal. lia.
Qed.

(** Overwriting twice: the later cells win. *)
Lemma overwrite_overwrite (a vs ws : list Z) :
  overwrite (overwrite a vs) ws = overwrite a (overwrite vs ws).
Proof.
  unfold overwrite. rewrite <- app_assoc. f_equal.
  rewrite length_app, length_drop, drop_app, drop_drop. f_equal. f_equal. lia.
Qed.

(** Overwriting cells with what they hold changes nothing. *)
Lemma overwrite_take_self (a : list Z) n : overwrite a (take n a) = a.
Proof.
  unfold overwrite. rewrite length_take.
  destruct (decide (n <= length a)%nat).
  - by rewrite Nat.min_l, take_drop by done.
  - by rewrite take_ge, Nat.min_r, drop_all, app_nil_r by lia.
Qed.

(** ** Pointers *)

Section pointers.
Implicit Types (h : heap) (p q : ptr) (vs : list Z).

Lemma shift_0 p : shift p 0 = p.
Proof. destruct p. unfold shift. simpl. by rewrite Nat.add_0_r. Qed.

Lemma shift_shift p j k : shift (shift p j) k = shift p (j + k).
Proof. unfold shift. simpl. by rewrite Nat.add_assoc. Qed.

Lemma array_at_shift h p k : array_at h (shift p k) = drop k (array_at h p).
Proof. unfold array_at. simpl. by rewrite drop_drop. Qed.

Lemma room_shift h p k : room h (shift p k) = (room h p - k)%nat.
Proof. unfold room. by rewrite array_at_shift, length_drop. Qed.

(** A pointer with room points into an array, and the array splits at
    it. *)
Lemma room_split h p :
  (0 < room h p)%nat ->
  exists a, h !! block p = Some a /\ (offset p < length a)%nat /\
            a = take (offset p) a ++ array_at h p.
Proof.
  unfold room, array_at. destruct (h !! block p) as [a|]; simpl.
  - rewrite length_drop. intros. exists a. by rewrite take_drop; split_and!; [|lia|].
  - rewrite drop_nil. simpl. lia.
Qed.

Lemma room_lookup h p a : h !! block p = Some a -> room h p = (length a - offset p)%nat.
Proof. intros H. unfold room, array_at. by rewrite H, length_drop. Qed.

End pointers.

(** ** [peek] and [poke] *)

Section access.
Implicit Types (h : heap) (p q : ptr) (vs : list Z).

(** An access at an index that is not negative is the access to the array
    seen through the pointer. *)
Lemma peek_array_at h p i : 0 <= i -> peek h p i = load (array_at h p) i.
Proof.
  intros Hi. unfold peek, array_at. destruct (h !! block p) as [a|]; simpl.
  - unfold load. rewrite !decide_True by lia. rewrite lookup_drop. f_equal. lia.
  - unfold load. by rewrite decide_True, drop_nil by lia.
Qed.

Lemma poke_is_Some h p i v :
  0 <= i -> is_Some (poke h p i v) <-> i < Z.of_nat (room h p).
Proof.
  intros Hi. unfold poke. destruct (h !! block p) as [a|] eqn:Ha; simpl.
  - rewrite (room_lookup _ _ _ Ha). unfold store. case_decide; simpl.
    + split; [lia|by eexists].
    + split; [by intros [? ?]|lia].
  - unfold room, array_at. rewrite Ha. simpl. rewrite drop_nil. simpl.
    split; [by intros [? ?]|lia].
Qed.

(** Pointer arithmetic and indexing add up. *)
Lemma poke_shift h p k i v : poke h (shift p k) i v = poke h p (Z.of_nat k + i) v.
Proof. unfold poke. simpl. by rewrite Nat2Z.inj_add, Z.add_assoc. Qed.

Lemma peek_shift h p k i : peek h (shift p k) i = peek h p (Z.of_nat k + i).
Proof. unfold peek. simpl. by rewrite Nat2Z.inj_add, Z.add_assoc. Qed.

Lemma poke_None h p i v : 0 <= i -> Z.of_nat (room h p) <= i -> poke h p i v = None.
Proof.
  intros Hi Hr. apply eq_None_not_Some. rewrite poke_is_Some by done. lia.
Qed.

(** A write keeps the size of every array. *)
Lemma room_poke h p i v h' q : poke h p i v = Some h' -> room h' q = room h q.
Proof.
  unfold poke. destruct (h !! block p) as [a|] eqn:Ha; [|done]. simpl.
  destruct (store a _ v) as [a'|] eqn:Hst; [|done]. intros [= <-].
  unfold room, array_at. destruct (decide (block p = block q)) as [Heq|Hne].
  - rewrite <- Heq, Ha, list_lookup_insert_eq by by eapply lookup_lt_Some.
    simpl. rewrite !length_drop. by rewrite (store_length _ _ _ _ Hst).
  - by rewrite list_lookup_insert_ne.
Qed.

Lemma peek_poke_eq h p i v h' : poke h p i v = Some h' -> peek h' p i = Some v.
Proof.
  unfold poke, peek. destruct (h !! block p) as [a|] eqn:Ha; [|done]. simpl.
  destruct (store a _ v) as [a'|] eqn:Hst; [|done]. intros [= <-].
  rewrite list_lookup_insert_eq by by eapply lookup_lt_Some. simpl.
  by eapply load_store_eq.
Qed.

(** A write is not seen through a pointer into another array. *)
Lemma array_at_poke_apart h p i v h' q :
  apart p q -> poke h p i v = Some h' -> array_at h' q = array_at h q.
Proof.
  unfold poke, apart. intros Hne. destruct (h !! block p) as [a|]; [|done]. simpl.
  destruct (store a _ v) as [a'|]; [|done]. intros [= <-].
  unfold array_at. by rewrite list_lookup_insert_ne.
Qed.

(** Characters stay characters. *)
Lemma poke_bytes h p i v h' :
  heap_bytes h -> is_byte v -> poke h p i v = Some h' -> heap_bytes h'.
Proof.
  unfold poke, heap_bytes. intros Hh Hv. destruct (h !! block p) as [a|] eqn:Ha; [|done].
  simpl. destruct (store a _ v) as [a'|] eqn:Hst; [|done]. intros [= <-].
  apply Forall_insert; [done|]. eapply store_bytes; [|done..].
  by eapply Forall_lookup_1.
Qed.

Lemma array_at_bytes h p : heap_bytes h -> Forall is_byte (array_at h p).
Proof.
  unfold heap_bytes, array_at. intros Hh. apply Forall_drop.
  destruct (h !! block p) as [a|] eqn:Ha; simpl; [|done]. by eapply Forall_lookup_1.
Qed.

End access.

(** ** [fill] *)

Section fill.
Implicit Types (h : heap) (p q : ptr) (vs : list Z).

Lemma fill_nil h p : fill h p [] = h.
Proof.
  unfold fill. apply list_alter_id. intros a. by rewrite overwrite_nil, take_drop.
Qed.

(** Filling cells with what they hold changes nothing. *)
Lemma fill_take h p n : fill h p (take n (array_at h p)) = h.
Proof.
  unfold fill, array_at. transitivity (alter id (block p) h); [|by apply list_alter_id].
  apply list_alter_ext; [|done]. intros a Ha. rewrite Ha. simpl.
  by rewrite overwrite_take_self, take_drop.
Qed.

(** What a pointer sees of cells filled through it. *)
Lemma array_at_fill h p vs :
  (length vs <= room h p)%nat -> array_at (fill h p vs) p = overwrite (array_at h p) vs.
Proof.
  intros Hr. destruct vs as [|v vs]; [by rewrite fill_nil, overwrite_nil|].
  destruct (room_split h p) as (a & Ha & Ho & Hsplit); [simpl in Hr; lia|].
  unfold fill, array_at. rewrite list_lookup_alter_eq, Ha. simpl.
  by rewrite drop_app_length' by (rewrite length_take; lia).
Qed.

(** Filling through a pointer into another array is not seen. *)
Lemma array_at_fill_apart h p q vs :
  apart p q -> array_at (fill h p vs) q = array_at h q.
Proof.
  intros Hne. unfold fill, array_at. by rewrite list_lookup_alter_ne.
Qed.

(** Filling within the array keeps the size of every array. *)
Lemma room_fill h p q vs : (length vs <= room h p)%nat -> room (fill h p vs) q = room h q.
Proof.
  intros Hr. unfold room, array_at, fill.
  destruct (decide (block p = block q)) as [Heq|Hne]; [|by rewrite list_lookup_alter_ne].
  rewrite <- Heq, list_lookup_alter_eq.
  destruct (h !! block p) as [a|] eqn:Ha; simpl; [|done].
  rewrite (room_lookup _ _ _ Ha) in Hr. rewrite !length_drop. f_equal.
  destruct (decide (offset p <= length a)%nat).
  - rewrite length_app, length_take, overwrite_length by (rewrite length_drop; lia).
    rewrite length_drop. lia.
  - assert (vs = []) as -> by (destruct vs; [done|simpl in Hr; lia]).
    by rewrite overwrite_nil, take_drop.
Qed.

(** Assigning the next cell extends the filled cells by one. *)
Lemma poke_fill h p vs v :
  (length vs < room h p)%nat ->
  poke (fill h p vs) p (Z.of_nat (length vs)) v = Some (fill h p (vs ++ [v])).
Proof.
  intros Hr. destruct (room_split h p) as (a & Ha & Ho & Hsplit); [lia|].
  rewrite (room_lookup _ _ _ Ha) in Hr.
  unfold poke, fill. rewrite list_lookup_alter_eq, Ha. simpl.
  replace (Z.of_nat (offset p)) with (Z.of_nat (length (take (offset p) a)))
    by (rewrite length_take; lia).
  rewrite store_app_r, store_overwrite by (rewrite ?length_drop; lia). simpl.
  rewrite list_insert_alter, list_alter_alter_eq. f_equal.
  apply list_alter_ext; [|done]. by intros a' [= <-]%(eq_trans (eq_sym Ha)).
Qed.

(** With no cell left the assignment is out of bounds. *)
Lemma poke_fill_full h p vs v :
  (length vs <= room h p)%nat -> (room h p <= length vs)%nat ->
  poke (fill h p vs) p (Z.of_nat (length vs)) v = None.
Proof.
  intros Hle Hge. apply poke_None; [lia|]. rewrite room_fill by done. lia.
Qed.

(** Filling twice through the same pointer: the later cells win. *)
Lemma fill_fill h p vs ws :
  (length vs <= room h p)%nat ->
  fill (fill h p vs) p ws = fill h p (overwrite vs ws).
Proof.
  intros Hr. unfold fill. rewrite list_alter_alter_eq.
  apply list_alter_ext; [|done]. intros a Ha. simpl.
  rewrite (room_lookup _ _ _ Ha) in Hr.
  destruct (decide (offset p <= length a)%nat) as [Ho|Ho].
  - rewrite take_app_length', drop_app_length' by (rewrite length_take; lia).
    by rewrite overwrite_overwrite.
  - assert (vs = []) as -> by (destruct vs; [done|simpl in Hr; lia]).
    rewrite overwrite_nil, take_drop. unfold overwrite at 3. simpl.
    by rewrite drop_nil, app_nil_r.
Qed.

(** Fills through pointers into different arrays commute. *)
Lemma fill_comm h p q vs ws :
  apart p q -> fill (fill h p vs) q ws = fill (fill h q ws) p vs.
Proof. intros Hne. unfold fill. by apply list_alter_alter_ne. Qed.

(** What a pointer sees of cells filled through a pointer [k] cells
    further into the same array. *)
Lemma array_at_fill_shift h p k vs :
  (k + length vs <= room h p)%nat ->
  array_at (fill h (shift p k) vs) p =
  take k (array_at h p) ++ overwrite (drop k (array_at h p)) vs.
Proof.
  intros Hr. destruct vs as [|v vs].
  { by rewrite fill_nil, overwrite_nil, take_drop. }
  destruct (room_split h p) as (a & Ha & Ho & Hsplit); [simpl in Hr; lia|].
  rewrite (room_lookup _ _ _ Ha) in Hr.
  unfold fill, array_at. simpl. rewrite list_lookup_alter_eq, Ha. simpl.
  rewrite <- (drop_drop a), <- take_take_drop, <- app_assoc.
  by rewrite drop_app_length' by (rewrite length_take; lia).
Qed.

Lemma fill_bytes h p vs : heap_bytes h -> Forall is_byte vs -> heap_bytes (fill h p vs).
Proof.
  unfold heap_bytes, fill, overwrite. intros Hh Hvs. apply Forall_alter; [done|].
  intros a _ Ha. rewrite !Forall_app. split_and!; [by apply Forall_take|done|].
  by do 2 apply Forall_drop.
Qed.

End fill.

(** ** The statements *)

Section statements.
Context {S : Type}.
Implicit Types (s : S) (h : heap) (p : ptr).

Lemma assign_at_fill h p vs v s :
  (length vs < room h p)%nat ->
  assign_at (fill h p vs) p (Z.of_nat (length vs)) v s = Ok (fill h p (vs ++ [v])) s.
Proof. intros. unfold assign_at. by rewrite poke_fill. Qed.

Lemma assign_at_full h p vs v s :
  (length vs <= room h p)%nat -> (room h p <= length vs)%nat ->
  assign_at (fill h p vs) p (Z.of_nat (length vs)) v s = Fault OutOfBounds s.
Proof. intros. unfold assign_at. by rewrite poke_fill_full. Qed.

Lemma fetch_at_lookup h p (i : nat) s :
  fetch_at h p (Z.of_nat i) s = lift_option OutOfBounds (array_at h p !! i) s.
Proof.
  unfold fetch_at. rewrite peek_array_at by lia.
  unfold load. by rewrite decide_True, Nat2Z.id by lia.
Qed.

Lemma assign_at_shift h p k i v :
  assign_at (S:=S) h (shift p k) i v = assign_at h p (Z.of_nat k + i) v.
Proof. unfold assign_at. by rewrite poke_shift. Qed.

Lemma fetch_at_Some h p (i : nat) v s :
  array_at h p !! i = Some v -> fetch_at h p (Z.of_nat i) s = Ok v s.
Proof.
  intros H. unfold fetch_at. rewrite peek_array_at by lia.
  unfold load. by rewrite decide_True, Nat2Z.id, H by lia.
Qed.

Lemma fetch_at_None h p (i : nat) s :
  (room h p <= i)%nat -> fetch_at h p (Z.of_nat i) s = Fault OutOfBounds s.
Proof.
  intros H. unfold fetch_at. rewrite peek_array_at by lia.
  unfold load. rewrite decide_True, Nat2Z.id by lia. by rewrite lookup_ge_None_2.
Qed.

End statements.

#[export] Hint Resolve assign_at_fill : opbox.
