(* ===== verification/Channel.v ===== *)
(** * The byte channel as an interface

    The library talks to the host through the global object [Serial] of
    the Arduino core and waits with [delay]. What it uses of them is five
    operations: [Serial.available()], [Serial.read()],
    [Serial.write(byte)], [Serial.flush()] and [delay(ms)];
    [Serial.write(str)] is the byte write repeated over a string. The
    class [Channel] is that interface: a type of device states with the
    five operations as programs over it.

    The functions of the library are written once, against the class, as
    the C code is written against the core; a device is an instance. The
    development has four: the channel of the specification, whose
    receive buffer holds whatever arrives ([Serial]), that device wired
    to a host that answers what it hears ([Host]), the receive
    buffer of the hardware, which holds a fixed number of bytes and
    drops what arrives when it is full ([Ring]), and any device
    together with a log of the calls made to it ([Trace]). *)

From S2P Require Import Prelude CArray.

#[local] Open Scope Z_scope.

(** ** The operations *)

Class Channel (S : Type) : Type := {
  (* [Serial.available()]: the number of bytes received and not yet
      read. *)
  Serial_available : prog S Z;
  (* [Serial.read()]: the oldest of them, removed, or [-1] when there is
      none. *)
  Serial_read : prog S Z;
  (* [Serial.write(n)]: [n] converted to [uint8_t] and queued for
      sending. *)
  Serial_write : Z -> prog S unit;
  (* [Serial.flush()]: returns when everything written has left the
      device. *)
  Serial_flush : prog S unit;
  (* [delay(ms)]: returns [ms] milliseconds later. *)
  delay : Z -> prog S unit
}.

#[global] Hint Mode Channel ! : typeclass_instances.

(** [Serial.write(str)], the write of the core for C strings: the
    characters of the string an array holds, one by one. An array
    without terminator makes [strlen] run off its end. *)
Definition Serial_write_str {S : Type} `{!Channel S} (str : list Z) : prog S unit :=
  n ← lift_option Unterminated (strlen str);
  for_each Serial_write (take n str).

(** ** Running off an unterminated string *)

Lemma Serial_write_str_fault {S : Type} `{!Channel S} str (s : S) :
  ~ terminated str -> Serial_write_str str s = Fault Unterminated s.
Proof.
  unfold terminated, Serial_write_str. intros Hnot.
  destruct (strlen str) as [n|]; [|done]. by destruct Hnot.
Qed.
