(* ===== verification/Serial.v ===== *)
(** * The byte channel

    The program talks to the host through the Arduino [Serial] object and
    waits with [delay]. Neither is code of this repository; this file is
    their model, from the specification's "Byte Channel" (a duplex stream
    with "bytes available" and "write") and the documented behaviour of the
    Arduino core. The record [serial] is the state of the device, the
    five operations are programs over it, and [serial_channel] makes them
    an instance of the interface [Channel] the library is written
    against. The receive buffer holds whatever arrives; the buffer of
    fixed size is in [Ring].

    - [Serial.available()] answers the number of bytes in the receive
      buffer. Bytes arrive asynchronously; all the program can observe of
      that is how many have arrived by each poll, so the environment is a
      schedule [incoming] of chunks and each poll first moves the next chunk
      into [rx]. An exhausted schedule means nothing arrives any more.
    - [Serial.read()] removes and answers the oldest byte, or [-1] when
      the buffer is empty.
    - [Serial.write(n)] converts [n] to [uint8_t] and appends it to the
      output; [Serial.write(str)] writes the [strlen(str)] characters of a
      string.
    - [Serial.flush()] returns once the output has left the device.
    - [delay(ms)] lets [ms] milliseconds pass.

    The section [polling] is about any loop that polls the channel and
    does a fixed [idle] action when nothing has arrived, [polls idle k]
    being [k] such rounds: the loop goes round until a pending byte has
    arrived, for ever when nothing is pending, and once per empty chunk of
    a silent host. The receiver ([idle] does nothing) and the handshake
    ([idle] writes a hello) are its two instances. *)

From S2P Require Import Prelude CArray Channel.

#[local] Open Scope Z_scope.

(** ** State of the device and its environment *)

Record serial : Type := mkSerial {
  rx : list Z;               (* received, not yet read; oldest first *)
  incoming : list (list Z);  (* what arrives before each coming poll *)
  tx : list Z;               (* every byte written so far; oldest first *)
  flushed : nat;             (* how many bytes of [tx] have left the device *)
  clock : Z                  (* milliseconds spent in [delay] *)
}.

#[export] Instance serial_eq_dec : EqDecision serial.
Proof. solve_decision. Defined.

(** A device that has done nothing yet, facing the arrival schedule [chunks]. *)
Definition fresh (chunks : list (list Z)) : serial := mkSerial [] chunks [] 0 0.

(** The input not yet read: what is buffered and what is still to arrive. *)
Definition pending (s : serial) : list Z := rx s ++ concat (incoming s).

(** The next chunk of the schedule reaches the receive buffer. *)
Definition arrive (s : serial) : serial :=
  match incoming s with
  | [] => s
  | c :: rest => mkSerial (rx s ++ c) rest (tx s) (flushed s) (clock s)
  end.

(** The device after its oldest received byte was read. *)
Definition consume (s : serial) : serial :=
  mkSerial (tail (rx s)) (incoming s) (tx s) (flushed s) (clock s).

(** The device after the bytes [bs] were appended to its output. *)
Definition emit (bs : list Z) (s : serial) : serial :=
  mkSerial (rx s) (incoming s) (tx s ++ bs) (flushed s) (clock s).

(** The device after its output was flushed. *)
Definition flush (s : serial) : serial :=
  mkSerial (rx s) (incoming s) (tx s) (length (tx s)) (clock s).

(** The device [ms] milliseconds later. *)
Definition tick (ms : Z) (s : serial) : serial :=
  mkSerial (rx s) (incoming s) (tx s) (flushed s) (clock s + ms).

(** The device after [k] polls that found nothing, the program doing
    [idle] to it after each. *)
Definition polls (idle : serial -> serial) (k : nat) (s : serial) : serial :=
  Nat.iter k (fun s => idle (arrive s)) s.

(** Two devices with the same output side: what was written, how much of
    it was flushed, and the time spent. The input side (what is buffered,
    how the rest is chunked) is left out. *)
Definition out_eq (s1 s2 : serial) : Prop :=
  tx s1 = tx s2 /\ flushed s1 = flushed s2 /\ clock s1 = clock s2.

(** Everything in the channel is a byte, and no more was flushed than
    written. *)
Definition serial_wf (s : serial) : Prop :=
  Forall is_byte (rx s) /\ Forall (Forall is_byte) (incoming s) /\
  Forall is_byte (tx s) /\ (flushed s <= length (tx s))%nat.

(** ** Operations *)

Definition serial_available : prog serial Z :=
  fun s => let s' := arrive s in Ok (Z.of_nat (length (rx s'))) s'.

Definition serial_read : prog serial Z :=
  fun s =>
    match rx s with
    | [] => Ok (-1) s
    | b :: r => Ok b (mkSerial r (incoming s) (tx s) (flushed s) (clock s))
    end.

Definition serial_write (n : Z) : prog serial unit :=
  fun s => Ok tt (emit [to_uint8 n] s).

Definition serial_flush : prog serial unit :=
  fun s => Ok tt (flush s).

Definition serial_delay (ms : Z) : prog serial unit :=
  fun s => Ok tt (tick ms s).

(** The channel of the specification. *)
#[export] Instance serial_channel : Channel serial := {
  Serial_available := serial_available;
  Serial_read := serial_read;
  Serial_write := serial_write;
  Serial_flush := serial_flush;
  delay := serial_delay
}.

(** ** The state transformers *)

Lemma emit_nil s : emit [] s = s.
Proof. destruct s. unfold emit. simpl. by rewrite app_nil_r. Qed.

Lemma emit_emit b1 b2 s : emit b2 (emit b1 s) = emit (b1 ++ b2) s.
Proof. unfold emit. simpl. by rewrite app_assoc. Qed.

Lemma tx_emit bs s : tx (emit bs s) = tx s ++ bs.
Proof. done. Qed.

Lemma pending_emit bs s : pending (emit bs s) = pending s.
Proof. done. Qed.

Lemma pending_flush s : pending (flush s) = pending s.
Proof. done. Qed.

Lemma pending_arrive s : pending (arrive s) = pending s.
Proof.
  unfold pending, arrive. destruct (incoming s) as [|c rest] eqn:Hin.
  - by rewrite Hin.
  - simpl. by rewrite app_assoc.
Qed.

Lemma tx_arrive s : tx (arrive s) = tx s.
Proof. unfold arrive. by destruct (incoming s). Qed.

Lemma clock_arrive s : clock (arrive s) = clock s.
Proof. unfold arrive. by destruct (incoming s). Qed.

(** Arrival appends: a byte at the head of the receive buffer stays
    there. *)
Lemma rx_arrive_cons s b r : rx s = b :: r -> exists r', rx (arrive s) = b :: r'.
Proof. intros Hrx. unfold arrive. destruct (incoming s); simpl; rewrite Hrx; eauto. Qed.

(** Reading takes the head of the pending input. *)
Lemma pending_consume s b r : rx s = b :: r -> pending s = b :: pending (consume s).
Proof. intros Hrx. unfold pending, consume. simpl. by rewrite Hrx. Qed.

Lemma length_pending_consume s :
  (length (pending (consume s)) <= length (pending s))%nat.
Proof. unfold pending, consume. simpl. rewrite !length_app. destruct (rx s); simpl; lia. Qed.

Lemma flushed_flush s : flushed (flush s) = length (tx (flush s)).
Proof. done. Qed.

Lemma pending_fresh chunks : pending (fresh chunks) = concat chunks.
Proof. done. Qed.

(** With nothing left to arrive a poll changes nothing. *)
Lemma arrive_quiet s : incoming s = [] -> arrive s = s.
Proof. unfold arrive. by intros ->. Qed.

#[export] Hint Rewrite emit_nil emit_emit tx_emit pending_emit pending_flush
  pending_arrive tx_arrive : opbox_rw.

(** ** Devices up to their input side *)

#[export] Instance out_eq_equivalence : Equivalence out_eq.
Proof.
  split.
  - by intros s.
  - intros s1 s2 (? & ? & ?). by split_and!.
  - intros s1 s2 s3 (? & ? & ?) (? & ? & ?). split_and!; congruence.
Qed.

#[export] Instance emit_proper bs : Proper (out_eq ==> out_eq) (emit bs).
Proof. intros s1 s2 (Ht & Hf & Hc). split_and!; simpl; congruence. Qed.

#[export] Instance flush_proper : Proper (out_eq ==> out_eq) flush.
Proof. intros s1 s2 (Ht & Hf & Hc). split_and!; simpl; congruence. Qed.

#[export] Instance tick_proper ms : Proper (out_eq ==> out_eq) (tick ms).
Proof. intros s1 s2 (Ht & Hf & Hc). split_and!; simpl; congruence. Qed.

Lemma out_eq_arrive s : out_eq (arrive s) s.
Proof. unfold arrive. by destruct (incoming s). Qed.

Lemma out_eq_consume s : out_eq (consume s) s.
Proof. done. Qed.

(** ** Polling *)

(** A poll that finds a byte: it is the head of the pending input, and
    reading it leaves the rest pending. *)
Lemma poll_some s b r :
  rx (arrive s) = b :: r ->
  exists rest, pending s = b :: rest /\ pending (consume (arrive s)) = rest /\
    Serial_read (arrive s) = Ok b (consume (arrive s)).
Proof.
  intros Hrx. exists (r ++ concat (incoming (arrive s))). split_and!.
  - rewrite <- pending_arrive. unfold pending. by rewrite Hrx.
  - unfold pending, consume. simpl. by rewrite Hrx.
  - cbn. unfold serial_read, consume. by rewrite Hrx.
Qed.

(** A poll that finds nothing: either nothing is left to arrive, or an
    empty chunk was just used up. *)
Lemma poll_none s :
  rx (arrive s) = [] ->
  rx s = [] /\
  (incoming s = [] /\ arrive s = s \/
   exists cs, incoming s = [] :: cs /\ incoming (arrive s) = cs).
Proof.
  unfold arrive. destruct (incoming s) as [|c cs] eqn:E; simpl.
  - intros Hrx. split; [done|]. left. done.
  - intros [Hrx ->]%app_eq_nil. split; [done|]. right. by exists cs.
Qed.

Lemma length_incoming_arrive s :
  (length (incoming (arrive s)) <= length (incoming s))%nat.
Proof. unfold arrive. destruct (incoming s) eqn:E; rewrite ?E; simpl; lia. Qed.

(** ** Loops that poll

    The blocking loops of the program have the same shape: poll, and if
    nothing has arrived do something that leaves the input side alone
    ([idle]) and go round again with the same locals. What such a loop
    does while it waits depends only on that. *)

Section polling.
Context {St R : Type} (body : St -> prog serial (St + R)) (st : St).
Context (idle : serial -> serial).
Context (body_wait : forall s,
  rx (arrive s) = [] -> body st s = Ok (inl st) (idle (arrive s))).
Context (idle_rx : forall s, rx (idle s) = rx s).
Context (idle_incoming : forall s, incoming (idle s) = incoming s).

Lemma pending_idle s : pending (idle s) = pending s.
Proof. unfold pending. by rewrite idle_rx, idle_incoming. Qed.

Lemma polls_S k s : polls idle (S k) s = polls idle k (idle (arrive s)).
Proof. unfold polls. by rewrite Nat.iter_succ_r. Qed.

(** With a byte pending, the loop waits for it through [k] polls that
    find nothing, each using up a chunk of the schedule; the next poll
    finds the byte. *)
Lemma poll_until s b rest :
  pending s = b :: rest ->
  exists k r,
    rx (arrive (polls idle k s)) = b :: r /\
    pending (polls idle k s) = b :: rest /\
    (k + length (incoming (polls idle k s)) <= length (incoming s))%nat /\
    forall n, iter_fuel body (k + n) st s = iter_fuel body n st (polls idle k s).
Proof.
  remember (length (incoming s)) as m eqn:Hm. revert s Hm.
  induction m as [m IH] using lt_wf_ind. intros s -> Hp.
  destruct (rx (arrive s)) as [|b' r] eqn:Hrx.
  - apply poll_none in Hrx as Hnone.
    destruct Hnone as (Hrx0 & [(Hin & _)|(cs & Hin & Hin')]).
    { unfold pending in Hp. by rewrite Hrx0, Hin in Hp. }
    destruct (IH (length cs) ltac:(rewrite Hin; simpl; lia) (idle (arrive s)))
      as (k & r & Hfound & Hp1 & Hlen & Hgo);
      [by rewrite idle_incoming, Hin'|by rewrite pending_idle, pending_arrive|].
    exists (S k), r. rewrite polls_S. split_and!; try done.
    + rewrite Hin. simpl. lia.
    + intros n. simpl plus. by rewrite iter_fuel_S, body_wait, Hgo.
  - exists 0%nat, r. destruct (poll_some s b' r Hrx) as (rest' & Hp' & _).
    assert (b' = b) as -> by congruence. by split_and!.
Qed.

(** With nothing pending the loop polls for ever. *)
Lemma poll_starved s fuel :
  pending s = [] ->
  iter_fuel body fuel st s = Ok (inl st) (polls idle fuel s) /\
  pending (polls idle fuel s) = [].
Proof.
  revert s. induction fuel as [|fuel IH]; intros s Hp; [done|].
  assert (rx (arrive s) = []) as Hrx.
  { rewrite <- pending_arrive in Hp. by apply app_eq_nil in Hp as [? _]. }
  rewrite iter_fuel_S, body_wait, polls_S by done.
  apply IH. by rewrite pending_idle, pending_arrive.
Qed.

(** A host that is silent for [n] polls: the loop goes round [n] times
    and nothing has arrived. *)
Lemma poll_silent n rest s :
  rx s = [] -> incoming s = replicate n [] ++ rest ->
  rx (polls idle n s) = [] /\ incoming (polls idle n s) = rest /\
  forall m, iter_fuel body (n + m) st s = iter_fuel body m st (polls idle n s).
Proof.
  revert s. induction n as [|n IH]; intros s Hrx Hin; [done|].
  assert (rx (arrive s) = [] /\ incoming (arrive s) = replicate n [] ++ rest)
    as [Hrx' Hin'].
  { unfold arrive. rewrite Hin. simpl. by rewrite Hrx. }
  rewrite polls_S.
  destruct (IH (idle (arrive s))) as (? & ? & Hgo);
    [by rewrite idle_rx|by rewrite idle_incoming|].
  split_and!; try done. intros m. simpl plus.
  by rewrite iter_fuel_S, body_wait, Hgo.
Qed.

(** On the output side the polls do not show. *)
Lemma polls_out_eq `{!Proper (out_eq ==> out_eq) idle} k s s' :
  out_eq s s' -> out_eq (polls idle k s) (Nat.iter k idle s').
Proof.
  revert s s'. induction k as [|k IH]; intros s s' H; [done|].
  rewrite polls_S, Nat.iter_succ_r. apply IH. by rewrite out_eq_arrive, H.
Qed.

End polling.

Lemma polls_id k s : out_eq (polls id k s) s.
Proof.
  revert s. induction k as [|k IH]; intros s; [done|].
  rewrite polls_S. simpl. by rewrite IH, out_eq_arrive.
Qed.

(** ** What the operations do *)

Lemma Serial_available_run s :
  Serial_available s = Ok (Z.of_nat (length (rx (arrive s)))) (arrive s).
Proof. done. Qed.

Lemma Serial_read_cons b r s :
  rx s = b :: r ->
  Serial_read s = Ok b (mkSerial r (incoming s) (tx s) (flushed s) (clock s)).
Proof. cbn. unfold serial_read. by intros ->. Qed.

Lemma Serial_read_empty s : rx s = [] -> Serial_read s = Ok (-1) s.
Proof. cbn. unfold serial_read. by intros ->. Qed.

(** Writing a list of values byte by byte appends their [uint8_t]
    conversions. *)
Lemma for_each_write l s :
  for_each Serial_write l s = Ok tt (emit (to_uint8 <$> l) s).
Proof.
  revert s. induction l as [|x l IH]; intros s; simpl.
  - by rewrite emit_nil.
  - prog_unfold. cbn. rewrite IH. by rewrite emit_emit.
Qed.

(** [Serial.write(str)] appends the string the array holds. *)
Lemma Serial_write_str_run str cs s :
  c_str str = Some cs ->
  Serial_write_str str s = Ok tt (emit (to_uint8 <$> cs) s).
Proof.
  unfold c_str, Serial_write_str. destruct (strlen str) as [n|]; [|done].
  intros [= <-]. prog_unfold. apply for_each_write.
Qed.

(** ** Well-formedness is preserved *)

Lemma fresh_wf chunks : Forall (Forall is_byte) chunks -> serial_wf (fresh chunks).
Proof. intros. split_and!; simpl; auto. Qed.

Lemma arrive_wf s : serial_wf s -> serial_wf (arrive s).
Proof.
  intros (Hrx & Hin & Htx & Hfl). unfold arrive.
  destruct (incoming s) as [|c rest] eqn:E; [by split_and!; rewrite ?E|].
  inv Hin. split_and!; simpl; auto. by apply Forall_app.
Qed.

Lemma emit_wf bs s : Forall is_byte bs -> serial_wf s -> serial_wf (emit bs s).
Proof.
  intros Hbs (Hrx & Hin & Htx & Hfl). split_and!; simpl; auto.
  - by apply Forall_app.
  - rewrite length_app. lia.
Qed.

Lemma flush_wf s : serial_wf s -> serial_wf (flush s).
Proof. intros (Hrx & Hin & Htx & Hfl). by split_and!. Qed.

Lemma tick_wf ms s : serial_wf s -> serial_wf (tick ms s).
Proof. intros (Hrx & Hin & Htx & Hfl). by split_and!. Qed.

Lemma Serial_read_wf s b s' :
  serial_wf s -> Serial_read s = Ok b s' -> serial_wf s' /\ (b = -1 \/ is_byte b).
Proof.
  intros (Hrx & Hin & Htx & Hfl). cbn. unfold serial_read.
  destruct (rx s) as [|x r] eqn:E; intros [= <- <-].
  - split; [by split_and!; rewrite ?E|by left].
  - inv Hrx. split; [by split_and!|by right].
Qed.

#[export] Hint Resolve fresh_wf arrive_wf emit_wf flush_wf tick_wf : opbox.
