(* ===== verification/Codec.v ===== *)
(** * The integer codec

    [SerialWriteLongInt] (lines 47-52) writes an [unsigned long] as four
    bytes, most significant first, each obtained by a right shift and the
    mask [0xff]. [be32] is the list of those four bytes. The host rebuilds
    the value "by left-shifting and OR-ing in the same order"
    (specification, 4.4): that is [Decode32], modelled from the
    specification because the host is not part of this repository.

    The theorems: the bytes written are the base-256 digits of the value
    modulo [2^32]; decoding them gives the value back; the encoding is
    injective on 32-bit values; and the other round trip, from any four
    bytes. *)

From S2P Require Import Prelude CArray Channel Serial.

#[local] Open Scope Z_scope.

(** ** Definitions *)

(** The four arguments of the four [Serial.write] calls. *)
Definition be32 (val : Z) : list Z :=
  [Z.land (Z.shiftr val 24) 255;
   Z.land (Z.shiftr val 16) 255;
   Z.land (Z.shiftr val 8) 255;
   Z.land val 255].

Definition SerialWriteLongInt {S : Type} `{!Channel S} (val : Z) : prog S unit :=
  Serial_write (Z.land (Z.shiftr val 24) 255);;
  Serial_write (Z.land (Z.shiftr val 16) 255);;
  Serial_write (Z.land (Z.shiftr val 8) 255);;
  Serial_write (Z.land val 255).

(** The receiving side: shift the accumulator left by eight and OR in the
    next byte, first byte first. *)
Definition Decode32 (bs : list Z) : Z :=
  fold_left (fun acc b => Z.lor (Z.shiftl acc 8) b) bs 0.

(** ** Bit operations as arithmetic *)

Lemma land_255 z : Z.land z 255 = z mod 256.
Proof. change 255 with (Z.ones 8). by rewrite Z.land_ones. Qed.

Lemma shiftr_land_255 z k :
  0 <= k -> Z.land (Z.shiftr z k) 255 = (z / 2 ^ k) mod 256.
Proof. intros. by rewrite land_255, Z.shiftr_div_pow2. Qed.

(** A value shifted left by [k] shares no bit with a value below [2^k]. *)
Lemma land_shiftl_low acc b k :
  0 <= k -> 0 <= b < 2 ^ k -> Z.land (Z.shiftl acc k) b = 0.
Proof.
  intros Hk Hb. apply Z.bits_inj'. intros n Hn.
  rewrite Z.land_spec, Z.bits_0.
  destruct (decide (n < k)); [by rewrite Z.shiftl_spec_low by lia|].
  destruct (decide (b = 0)) as [->|]; [by rewrite Z.bits_0, andb_false_r|].
  rewrite (Z.bits_above_log2 b n), andb_false_r; [done|lia|].
  assert (Z.log2 b < k) by (apply Z.log2_lt_pow2; lia). lia.
Qed.

Lemma lor_shiftl_8 acc b :
  is_byte b -> Z.lor (Z.shiftl acc 8) b = acc * 256 + b.
Proof.
  intros Hb. rewrite <- Z.add_nocarry_lor.
  - by rewrite Z.shiftl_mul_pow2 by lia.
  - by apply land_shiftl_low.
Qed.

(** ** The bytes written *)

Lemma be32_arith val :
  be32 val = [val / 2 ^ 24 mod 256; val / 2 ^ 16 mod 256; val / 2 ^ 8 mod 256; val mod 256].
Proof. unfold be32. by rewrite !shiftr_land_255, land_255 by lia. Qed.

Lemma be32_length val : length (be32 val) = 4%nat.
Proof. done. Qed.

Lemma be32_bytes val : Forall is_byte (be32 val).
Proof. rewrite be32_arith. repeat constructor; unfold is_byte; lia. Qed.

Lemma SerialWriteLongInt_run val s :
  SerialWriteLongInt val s = Ok tt (emit (be32 val) s).
Proof.
  unfold SerialWriteLongInt, be32. prog_unfold.
  cbn [Serial_write serial_channel]. unfold serial_write.
  rewrite !emit_emit. simpl. f_equal. f_equal.
  pose proof (be32_bytes val) as Hb. unfold be32 in Hb.
  by rewrite <- (Forall_to_uint8_id _ Hb).
Qed.

(** The accumulator of [Decode32] after a list of bytes. *)
Lemma Decode32_snoc bs b :
  is_byte b -> Decode32 (bs ++ [b]) = Decode32 bs * 256 + b.
Proof.
  intros Hb. unfold Decode32. rewrite fold_left_app. simpl.
  by apply lor_shiftl_8.
Qed.

Lemma Decode32_4 b0 b1 b2 b3 :
  is_byte b0 -> is_byte b1 -> is_byte b2 -> is_byte b3 ->
  Decode32 [b0; b1; b2; b3] = b0 * 2 ^ 24 + b1 * 2 ^ 16 + b2 * 2 ^ 8 + b3.
Proof.
  intros H0 H1 H2 H3. unfold Decode32. simpl fold_left.
  rewrite Z.shiftl_0_l, Z.lor_0_l, !lor_shiftl_8 by done. lia.
Qed.

Lemma Decode32_range bs :
  Forall is_byte bs -> 0 <= Decode32 bs < 256 ^ Z.of_nat (length bs).
Proof.
  induction bs as [|b bs IH] using rev_ind; intros Hbs; [done|].
  apply Forall_app in Hbs as [Hbs Hb]. inv Hb.
  rewrite Decode32_snoc, length_app by done. simpl length.
  rewrite Nat2Z.inj_add, Z.pow_add_r by lia.
  specialize (IH Hbs). unfold is_byte in *. change (256 ^ Z.of_nat 1) with 256. nia.
Qed.

Lemma Decode32_be32 val : Decode32 (be32 val) = to_ulong val.
Proof.
  pose proof (be32_bytes val) as Hb. rewrite be32_arith in *.
  inv Hb. inv H2. inv H4. inv H5. rewrite Decode32_4 by done.
  unfold to_ulong. lia.
Qed.

Lemma be32_wrap val : be32 (to_ulong val) = be32 val.
Proof.
  rewrite !be32_arith. unfold to_ulong.
  repeat (f_equal; [lia|]); f_equal; lia.
Qed.

Arguments be32 : simpl never.
Arguments Decode32 : simpl never.

#[export] Hint Resolve be32_bytes : opbox.
#[export] Hint Rewrite be32_length Decode32_be32 : opbox_rw.

(** ** Properties *)

(** C7. Round trip of the integer codec: whatever value is passed,
    [SerialWriteLongInt] never fails and appends exactly four bytes to the
    output, and decoding those bytes by shift-and-OR gives the value as an
    [unsigned long], that is modulo [2^32]. *)
Theorem SerialWriteLongInt_roundtrip val s :
  exists bs,
    SerialWriteLongInt val s = Ok tt (emit bs s) /\
    length bs = 4%nat /\ Forall is_byte bs /\
    Decode32 bs = to_ulong val.
Proof.
  exists (be32 val). split_and!.
  - apply SerialWriteLongInt_run.
  - apply be32_length.
  - apply be32_bytes.
  - apply Decode32_be32.
Qed.

(** Big-endian order: for a 32-bit value the four bytes written are
    its base-256 digits, most significant first. *)
Theorem SerialWriteLongInt_big_endian val s b0 b1 b2 b3 :
  0 <= val < 2 ^ 32 ->
  SerialWriteLongInt val s = Ok tt (emit [b0; b1; b2; b3] s) ->
  val = b0 * 2 ^ 24 + b1 * 2 ^ 16 + b2 * 2 ^ 8 + b3 /\
  is_byte b0 /\ is_byte b1 /\ is_byte b2 /\ is_byte b3.
Proof.
  intros Hval. rewrite SerialWriteLongInt_run. intros [= Heq].
  apply app_inv_head in Heq. rewrite be32_arith in Heq.
  injection Heq as <- <- <- <-. unfold is_byte. lia.
Qed.

Lemma SerialWriteLongInt_big_endian_witness :
  0 <= 305419896 < 2 ^ 32 /\
  305419896 = 18 * 2 ^ 24 + 52 * 2 ^ 16 + 86 * 2 ^ 8 + 120.
Proof.
  split; [lia|].
  apply (SerialWriteLongInt_big_endian 305419896 (fresh []) 18 52 86 120);
    [lia | reflexivity].
Defined.

(** Distinct 32-bit values are written as distinct byte sequences. *)
Theorem be32_inj a b :
  0 <= a < 2 ^ 32 -> 0 <= b < 2 ^ 32 -> a <> b -> be32 a <> be32 b.
Proof.
  intros Ha Hb Hne Heq. apply Hne. apply (f_equal Decode32) in Heq.
  by rewrite !Decode32_be32, !to_ulong_id in Heq.
Qed.

Lemma be32_inj_witness : be32 1 <> be32 16777216.
Proof. apply (be32_inj 1 16777216); lia. Defined.

(** Wrap-around: values that differ by a multiple of [2^32] are
    written as the same four bytes, so the conversion of the argument to
    [unsigned long] at the call loses nothing further. *)
Theorem SerialWriteLongInt_wraps val k (s : serial) :
  SerialWriteLongInt (val + k * 2 ^ 32) s = SerialWriteLongInt val s.
Proof.
  rewrite !SerialWriteLongInt_run. do 2 f_equal.
  rewrite <- (be32_wrap (val + _)), <- (be32_wrap val). f_equal.
  unfold to_ulong. by rewrite Z.mod_add.
Qed.

(** The other round trip: any four bytes are the encoding of the
    value they decode to, so every four-byte payload is the image of
    exactly one 32-bit value. *)
Theorem be32_Decode32 b0 b1 b2 b3 :
  is_byte b0 -> is_byte b1 -> is_byte b2 -> is_byte b3 ->
  be32 (Decode32 [b0; b1; b2; b3]) = [b0; b1; b2; b3].
Proof.
  intros H0 H1 H2 H3. rewrite Decode32_4, be32_arith by done.
  unfold is_byte in *. repeat (f_equal; [lia|]); f_equal; lia.
Qed.

Lemma be32_Decode32_witness :
  be32 (Decode32 [222; 173; 190; 239]) = [222; 173; 190; 239].
Proof. apply be32_Decode32; unfold is_byte; lia. Defined.

(** The examples of the specification: [0x12345678], and the all-ones
    value. *)
Example be32_0x12345678 : be32 305419896 = [18; 52; 86; 120].
Proof. reflexivity. Qed.

Example be32_all_ones : be32 4294967295 = [255; 255; 255; 255].
Proof. reflexivity. Qed.
