(* ===== verification/Packet.v ===== *)
(** * The packet grammar

    The marker bytes of lines 12-17 and the shape of a packet on the wire.
    A packet is what the senders of [Encoder] promise to write and what
    the receiver of [Decoder] expects to read; [frame] is that contract,
    the wire format of the specification (sections 4.2 and 6). It is a
    reference, not a transcription: no function of the source builds a
    frame, the senders write one call by call and are proved against
    it. *)

From S2P Require Import Prelude CArray.

#[local] Open Scope Z_scope.

(** ** The constants *)

Definition PACKET_START : Z := chr "<".
Definition PACKET_INT : Z := chr "|".
Definition PACKET_INT2 : Z := chr "~".
Definition PACKET_CHAR : Z := chr "@".
Definition PACKET_END : Z := chr ">".
Definition MAX_BUFFER : Z := 100.

(** ** Frames *)

(** The bytes of one packet, as the specification lays them out: start
    marker, label, type marker, payload, end marker. *)
Definition frame (label : list Z) (marker : Z) (payload : list Z) : list Z :=
  PACKET_START :: label ++ marker :: payload ++ [PACKET_END].

(** The markers that end a label for the receiver (line 136). *)
Definition ends_label (b : Z) : bool :=
  bool_decide (b = PACKET_INT) || bool_decide (b = PACKET_CHAR).

(** A label the receiver reads back unchanged: no byte of it ends the
    label. *)
Definition label_ok (label : list Z) : Prop :=
  Forall (fun b => ends_label b = false) label.

(** A payload the receiver reads back unchanged: no byte of it ends the
    packet. *)
Definition payload_ok (payload : list Z) : Prop :=
  Forall (fun b => b <> PACKET_END) payload.

#[export] Instance label_ok_dec l : Decision (label_ok l).
Proof. unfold label_ok. apply _. Defined.

#[export] Instance payload_ok_dec l : Decision (payload_ok l).
Proof. unfold payload_ok. apply _. Defined.

(** ** Facts about the constants *)

Lemma markers_values :
  PACKET_START = 60 /\ PACKET_INT = 124 /\ PACKET_INT2 = 126 /\
  PACKET_CHAR = 64 /\ PACKET_END = 62.
Proof. done. Qed.

Lemma markers_distinct :
  NoDup [PACKET_START; PACKET_INT; PACKET_INT2; PACKET_CHAR; PACKET_END].
Proof. apply (bool_decide_unpack _). by vm_compute. Qed.

Lemma markers_bytes :
  is_byte PACKET_START /\ is_byte PACKET_INT /\ is_byte PACKET_INT2 /\
  is_byte PACKET_CHAR /\ is_byte PACKET_END.
Proof. split_and!; apply chr_byte. Qed.

Lemma PACKET_START_byte : is_byte PACKET_START.
Proof. apply chr_byte. Qed.

Lemma PACKET_INT_byte : is_byte PACKET_INT.
Proof. apply chr_byte. Qed.

Lemma PACKET_INT2_byte : is_byte PACKET_INT2.
Proof. apply chr_byte. Qed.

Lemma PACKET_CHAR_byte : is_byte PACKET_CHAR.
Proof. apply chr_byte. Qed.

Lemma PACKET_END_byte : is_byte PACKET_END.
Proof. apply chr_byte. Qed.

#[export] Hint Resolve PACKET_START_byte PACKET_INT_byte PACKET_INT2_byte
  PACKET_CHAR_byte PACKET_END_byte : opbox.

Lemma ends_label_spec b :
  ends_label b = true <-> b = PACKET_INT \/ b = PACKET_CHAR.
Proof.
  unfold ends_label. rewrite orb_true_iff, !bool_decide_eq_true. done.
Qed.

Lemma ends_label_false b :
  ends_label b = false <-> b <> PACKET_INT /\ b <> PACKET_CHAR.
Proof.
  unfold ends_label. rewrite orb_false_iff, !bool_decide_eq_false. done.
Qed.

Lemma ends_label_INT : ends_label PACKET_INT = true.
Proof. done. Qed.

Lemma ends_label_CHAR : ends_label PACKET_CHAR = true.
Proof. done. Qed.

(** The receiver does not know the marker of integer pairs. *)
Lemma ends_label_INT2 : ends_label PACKET_INT2 = false.
Proof. done. Qed.

Lemma frame_length label marker payload :
  length (frame label marker payload) = (length label + length payload + 3)%nat.
Proof. unfold frame. simpl. rewrite length_app. simpl. rewrite length_app. simpl. lia. Qed.

(** A frame followed by more bytes, as one list. *)
Lemma frame_app label marker payload rest :
  frame label marker payload ++ rest =
  PACKET_START :: label ++ marker :: payload ++ PACKET_END :: rest.
Proof.
  unfold frame. simpl. rewrite <- app_assoc. simpl. by rewrite <- app_assoc.
Qed.

(** A frame whose payload holds an end marker reads as a shorter frame
    followed by the remainder. *)
Lemma frame_cut label marker pre post :
  frame label marker (pre ++ PACKET_END :: post) =
  frame label marker pre ++ post ++ [PACKET_END].
Proof.
  unfold frame. rewrite <- !app_comm_cons. f_equal.
  rewrite <- !app_assoc. f_equal. rewrite <- !app_comm_cons. f_equal.
  by rewrite <- !app_assoc.
Qed.

Lemma frame_bytes label marker payload :
  Forall is_byte label -> is_byte marker -> Forall is_byte payload ->
  Forall is_byte (frame label marker payload).
Proof.
  intros Hl Hm Hp. unfold frame. constructor; [apply chr_byte|].
  apply Forall_app. split; [done|]. constructor; [done|].
  apply Forall_app. split; [done|]. repeat constructor. apply chr_byte.
Qed.

Arguments frame : simpl never.

#[export] Hint Resolve frame_bytes : opbox.
#[export] Hint Rewrite frame_length : opbox_rw.
