(* ===== verification/Encoder.v ===== *)
(** * The packet senders

    The six senders of lines 54-115, each transcribed call by call:
    [SerialSendInt], [SerialSendIntPair], [SerialSendChar],
    [SerialSendCharPair], [SerialSendErrorText] and
    [SerialSendErrorNumAsText]. A [char text[]] parameter is a character
    array; [Serial.write(text)] writes the string it holds and runs off the
    array when it holds none.

    For each sender: the exact bytes appended to the output, as one [frame];
    that the output is flushed when the sender returns; and the fault when
    the label is not terminated, with the start marker already written.
    The type [packet], one constructor per sender with its arguments, and
    [send], which dispatches a [packet] to its sender, are not in the
    source: they name a call of any of the six senders, so that a theorem
    can speak of all of them at once. [wire_of] is the frame
    the packet becomes and [wires_of] the frames of a list of packets, back
    to back: what a sequence of calls leaves on the wire. *)

From S2P Require Import Prelude CArray Channel Serial Codec Packet.

#[local] Open Scope Z_scope.

(** ** The senders *)

Definition SerialSendInt {S : Type} `{!Channel S} (text : list Z) (ts : Z)
  : prog S unit :=
  Serial_write PACKET_START;;
  Serial_write_str text;;
  Serial_write PACKET_INT;;
  SerialWriteLongInt ts;;
  Serial_write PACKET_END;;
  Serial_flush.

Definition SerialSendIntPair {S : Type} `{!Channel S} (text : list Z) (int1 int2 : Z)
  : prog S unit :=
  Serial_write PACKET_START;;
  Serial_write_str text;;
  Serial_write PACKET_INT2;;
  SerialWriteLongInt int1;;
  SerialWriteLongInt int2;;
  Serial_write PACKET_END;;
  Serial_flush.

Definition SerialSendChar {S : Type} `{!Channel S} (text : list Z) (data : Z)
  : prog S unit :=
  Serial_write PACKET_START;;
  Serial_write_str text;;
  Serial_write PACKET_CHAR;;
  Serial_write data;;
  Serial_write PACKET_END;;
  Serial_flush.

Definition SerialSendCharPair {S : Type} `{!Channel S} (text : list Z) (char1 char2 : Z)
  : prog S unit :=
  Serial_write PACKET_START;;
  Serial_write_str text;;
  Serial_write PACKET_CHAR;;
  Serial_write char1;;
  Serial_write char2;;
  Serial_write PACKET_END;;
  Serial_flush.

Definition SerialSendErrorText {S : Type} `{!Channel S} (text : list Z)
  : prog S unit :=
  Serial_write PACKET_START;;
  Serial_write_str (lit "Err");;
  Serial_write PACKET_CHAR;;
  Serial_write_str text;;
  Serial_write PACKET_END;;
  Serial_flush.

Definition SerialSendErrorNumAsText {S : Type} `{!Channel S} (num_data : Z)
  : prog S unit :=
  Serial_write PACKET_START;;
  Serial_write_str (lit "Err");;
  Serial_write PACKET_CHAR;;
  Serial_write num_data;;
  Serial_write PACKET_END;;
  Serial_flush.

(** ** Packets *)

(** What a caller can ask to be sent: one constructor per sender, with the
    sender's arguments. *)
Inductive packet : Type :=
| PInt (text : list Z) (ts : Z)
| PIntPair (text : list Z) (int1 int2 : Z)
| PChar (text : list Z) (data : Z)
| PCharPair (text : list Z) (char1 char2 : Z)
| PErrorText (text : list Z)
| PErrorNum (num_data : Z).

Definition send {S : Type} `{!Channel S} (p : packet) : prog S unit :=
  match p with
  | PInt text ts => SerialSendInt text ts
  | PIntPair text int1 int2 => SerialSendIntPair text int1 int2
  | PChar text data => SerialSendChar text data
  | PCharPair text char1 char2 => SerialSendCharPair text char1 char2
  | PErrorText text => SerialSendErrorText text
  | PErrorNum num_data => SerialSendErrorNumAsText num_data
  end.

(** The label, type marker and payload of a packet, when its strings are
    terminated. *)
Definition fields (p : packet) : option (list Z * Z * list Z) :=
  match p with
  | PInt text ts =>
      (fun l : list Z => (to_uint8 <$> l, PACKET_INT, be32 ts)) <$> c_str text
  | PIntPair text int1 int2 =>
      (fun l : list Z => (to_uint8 <$> l, PACKET_INT2, be32 int1 ++ be32 int2))
        <$> c_str text
  | PChar text data =>
      (fun l : list Z => (to_uint8 <$> l, PACKET_CHAR, [to_uint8 data])) <$> c_str text
  | PCharPair text char1 char2 =>
      (fun l : list Z => (to_uint8 <$> l, PACKET_CHAR, [to_uint8 char1; to_uint8 char2]))
        <$> c_str text
  | PErrorText text =>
      (fun m : list Z => (str "Err", PACKET_CHAR, to_uint8 <$> m)) <$> c_str text
  | PErrorNum num_data =>
      Some (str "Err", PACKET_CHAR, [to_uint8 num_data])
  end.

(** The bytes a packet becomes on the wire. *)
Definition wire_of (p : packet) : option (list Z) :=
  '(label, marker, payload) ← fields p; Some (frame label marker payload).

(** The bytes a list of packets becomes, when each has a wire form. *)
Fixpoint wires_of (ps : list packet) : option (list Z) :=
  match ps with
  | [] => Some []
  | p :: ps' => w ← wire_of p; ws ← wires_of ps'; Some (w ++ ws)
  end.

(** The device after [bs] were written and the output flushed. *)
Definition sent (bs : list Z) (s : serial) : serial := flush (emit bs s).

(** What has been written when a sender faults. *)
Definition written_before_fault (p : packet) : list Z :=
  match p with
  | PErrorText _ => PACKET_START :: str "Err" ++ [PACKET_CHAR]
  | _ => [PACKET_START]
  end.

(** ** Running a sender *)

Lemma Serial_write_run n s : Serial_write n s = Ok tt (emit [to_uint8 n] s).
Proof. done. Qed.

Lemma Serial_flush_run s : Serial_flush s = Ok tt (flush s).
Proof. done. Qed.

Lemma delay_run ms s : delay ms s = Ok tt (tick ms s).
Proof. done. Qed.

Lemma c_str_Err : c_str (lit "Err") = Some (str "Err").
Proof. done. Qed.

#[export] Hint Resolve Serial_write_run Serial_flush_run delay_run
  Serial_write_str_run SerialWriteLongInt_run c_str_Err : opbox.

(** One step of a sequence: run the first action by a lemma of the
    database, continue with the rest. *)
Ltac prog_step := erewrite bind_Ok by eauto with opbox nocore; cbv beta.

(** Run a straight-line program to its end. *)
Ltac prog_run := repeat prog_step; try (erewrite Serial_flush_run).

Lemma sent_tx bs s : tx (sent bs s) = tx s ++ bs.
Proof. done. Qed.

Lemma sent_flushed bs s : flushed (sent bs s) = length (tx (sent bs s)).
Proof. done. Qed.

Lemma sent_pending bs s : pending (sent bs s) = pending s.
Proof. done. Qed.

Lemma sent_wf bs s : Forall is_byte bs -> serial_wf s -> serial_wf (sent bs s).
Proof. intros. unfold sent. auto with opbox. Qed.

#[export] Hint Rewrite sent_tx sent_pending : opbox_rw.
#[export] Hint Resolve sent_wf : opbox.

Section senders_run.
Context (text : list Z) (label : list Z) (Htext : c_str text = Some label).

Lemma SerialSendInt_run ts s :
  SerialSendInt text ts s =
  Ok tt (sent (frame (to_uint8 <$> label) PACKET_INT (be32 ts)) s).
Proof.
  unfold SerialSendInt. prog_run. unfold sent, frame.
  by rewrite !emit_emit.
Qed.

Lemma SerialSendIntPair_run int1 int2 s :
  SerialSendIntPair text int1 int2 s =
  Ok tt (sent (frame (to_uint8 <$> label) PACKET_INT2 (be32 int1 ++ be32 int2)) s).
Proof.
  unfold SerialSendIntPair. prog_run. unfold sent, frame.
  by rewrite !emit_emit.
Qed.

Lemma SerialSendChar_run data s :
  SerialSendChar text data s =
  Ok tt (sent (frame (to_uint8 <$> label) PACKET_CHAR [to_uint8 data]) s).
Proof.
  unfold SerialSendChar. prog_run. unfold sent, frame.
  by rewrite !emit_emit.
Qed.

Lemma SerialSendCharPair_run char1 char2 s :
  SerialSendCharPair text char1 char2 s =
  Ok tt (sent (frame (to_uint8 <$> label) PACKET_CHAR [to_uint8 char1; to_uint8 char2]) s).
Proof.
  unfold SerialSendCharPair. prog_run. unfold sent, frame.
  by rewrite !emit_emit.
Qed.

Lemma SerialSendErrorText_run s :
  SerialSendErrorText text s =
  Ok tt (sent (frame (str "Err") PACKET_CHAR (to_uint8 <$> label)) s).
Proof.
  unfold SerialSendErrorText. prog_run. unfold sent, frame.
  by rewrite !emit_emit.
Qed.

End senders_run.

Lemma SerialSendErrorNumAsText_run num_data s :
  SerialSendErrorNumAsText num_data s =
  Ok tt (sent (frame (str "Err") PACKET_CHAR [to_uint8 num_data]) s).
Proof.
  unfold SerialSendErrorNumAsText. prog_run. unfold sent, frame.
  by rewrite !emit_emit.
Qed.

(** A sender whose label is not terminated stops at [Serial.write(text)],
    after the start marker. *)
Lemma label_fault (k : prog serial unit) text s :
  ~ terminated text ->
  (Serial_write PACKET_START;; Serial_write_str text;; k) s =
  Fault Unterminated (emit [PACKET_START] s).
Proof.
  intros H. prog_step. erewrite bind_Fault; [done|].
  by apply Serial_write_str_fault.
Qed.

#[export] Hint Resolve SerialSendInt_run SerialSendIntPair_run SerialSendChar_run
  SerialSendCharPair_run SerialSendErrorText_run SerialSendErrorNumAsText_run : opbox.

(** The error senders stop at [Serial.write(text)] too, after the label
    and the type marker. *)
Lemma SerialSendErrorText_fault text s :
  ~ terminated text ->
  SerialSendErrorText text s =
  Fault Unterminated (emit (PACKET_START :: str "Err" ++ [PACKET_CHAR]) s).
Proof.
  intros H. unfold SerialSendErrorText. do 3 prog_step.
  erewrite bind_Fault; [|by apply Serial_write_str_fault].
  by rewrite !emit_emit.
Qed.

Lemma c_str_None text : c_str text = None -> ~ terminated text.
Proof.
  unfold c_str, terminated. destruct (strlen text); [done|].
  intros _ [? ?]. done.
Qed.

(** Every field of a packet is made of bytes. *)
Lemma fields_bytes p label marker payload :
  fields p = Some (label, marker, payload) ->
  Forall is_byte label /\ is_byte marker /\ Forall is_byte payload.
Proof.
  destruct p; simpl; try destruct (c_str text); intros [= <- <- <-];
    split_and!; auto 6 with opbox.
  change (Forall is_byte (be32 int1 ++ be32 int2)). auto with opbox.
Qed.

(** A packet that has a wire form is sent as that frame. *)
Lemma send_ok p bs s : wire_of p = Some bs -> send p s = Ok tt (sent bs s).
Proof.
  unfold wire_of.
  destruct p as [text ts|text i1 i2|text d|text c1 c2|text|n]; simpl;
    try (destruct (c_str text) as [label|] eqn:Htext; [|done]);
    simpl; intros [= <-]; eauto with opbox nocore.
Qed.

(** A packet that has none makes its sender run off the unterminated
    string. *)
Lemma send_fault p s :
  wire_of p = None ->
  send p s = Fault Unterminated (emit (written_before_fault p) s).
Proof.
  unfold wire_of.
  destruct p as [text ts|text i1 i2|text d|text c1 c2|text|n]; simpl;
    try (destruct (c_str text) as [label|] eqn:Htext; [done|]);
    try done; intros _;
    first [by apply label_fault, c_str_None
          |by apply SerialSendErrorText_fault, c_str_None].
Qed.

Lemma send_Ok_inv p s s' :
  send p s = Ok tt s' -> exists bs, wire_of p = Some bs /\ s' = sent bs s.
Proof.
  destruct (wire_of p) as [bs|] eqn:Hw.
  - rewrite (send_ok _ _ _ Hw). intros [_ <-]%Ok_inj. by exists bs.
  - by rewrite (send_fault _ _ Hw).
Qed.

(** Two packets flushed one after the other are on the wire as one run
    of bytes. *)
Lemma sent_sent w1 w2 s : sent w2 (sent w1 s) = sent (w1 ++ w2) s.
Proof. unfold sent, flush, emit. simpl. by rewrite app_assoc. Qed.

(** Sending a list of packets writes their frames back to back and
    flushes them. *)
Lemma send_all_run ps ws s :
  wires_of ps = Some ws ->
  for_each send ps s = Ok tt (match ps with [] => s | _ => sent ws s end).
Proof.
  revert ws s. induction ps as [|p ps IH]; intros ws s; [done|].
  simpl. destruct (wire_of p) as [w|] eqn:Hw; [|done]. simpl.
  destruct (wires_of ps) as [ws'|] eqn:Hws; [|done]. intros [= <-].
  rewrite (bind_Ok _ _ _ _ _ (send_ok _ _ s Hw)), (IH ws' _ eq_refl).
  destruct ps; [|by rewrite sent_sent].
  simpl in Hws. apply (inj Some) in Hws as <-. by rewrite app_nil_r.
Qed.

(** ** Properties *)

(** C6. Complete behaviour of the senders: a packet whose strings are
    terminated is written as exactly one frame (start marker, label, type
    marker, payload, end marker) and the output is flushed before the
    sender returns; a packet with an unterminated string makes the sender
    run off the array after the bytes it had already written. Nothing else
    can happen. *)
Theorem send_spec p s :
  send p s =
  match wire_of p with
  | Some bs => Ok tt (sent bs s)
  | None => Fault Unterminated (emit (written_before_fault p) s)
  end.
Proof.
  destruct (wire_of p) as [bs|] eqn:Hw; [by apply send_ok|by apply send_fault].
Qed.

(** A sender that returns has appended bytes to the output and nothing
    else: the input side and the clock are untouched, every byte written is
    flushed, and what was written before is still there. *)
Theorem send_effect p s s' :
  send p s = Ok tt s' ->
  exists bs,
    wire_of p = Some bs /\ tx s' = tx s ++ bs /\
    flushed s' = length (tx s') /\
    rx s' = rx s /\ incoming s' = incoming s /\ clock s' = clock s.
Proof. intros (bs & Hw & ->)%send_Ok_inv. by exists bs. Qed.

Lemma send_effect_witness :
  exists bs,
    wire_of (PInt (lit "Ts") 305419896) = Some bs /\
    tx (sent (frame (str "Ts") PACKET_INT (be32 305419896)) (fresh [])) = tx (fresh []) ++ bs.
Proof.
  destruct (send_effect (PInt (lit "Ts") 305419896) (fresh [])
              (sent (frame (str "Ts") PACKET_INT (be32 305419896)) (fresh [])) eq_refl)
    as (bs & H1 & H2 & _).
  by exists bs.
Defined.

(** The senders keep the channel well formed: whatever the arguments,
    every byte a sender writes is in [0, 256). *)
Theorem send_wf p s s' :
  serial_wf s -> send p s = Ok tt s' -> serial_wf s'.
Proof.
  intros Hwf (bs & Hw & ->)%send_Ok_inv. unfold wire_of in Hw.
  destruct (fields p) as [[[label marker] payload]|] eqn:Hf; [|done].
  apply (inj Some) in Hw as <-. apply fields_bytes in Hf as (? & ? & ?).
  auto with opbox.
Qed.

Lemma send_wf_witness :
  serial_wf (sent (frame (str "A") PACKET_CHAR [to_uint8 300]) (fresh [])).
Proof.
  apply (send_wf (PChar (lit "A") 300) (fresh [])); [|reflexivity].
  apply fresh_wf. constructor.
Defined.

(** Size of a packet: an integer packet is the label and seven more
    bytes, an integer-pair packet the label and eleven more (the "12 byte
    packet" of the comment at line 72 is a pair with a one-character
    label). *)
Theorem SerialSendIntPair_size text label int1 int2 s s' :
  c_str text = Some label ->
  SerialSendIntPair text int1 int2 s = Ok tt s' ->
  length (tx s') = (length (tx s) + length label + 11)%nat.
Proof.
  intros Htext. erewrite SerialSendIntPair_run by done. intros [_ <-]%Ok_inj.
  rewrite sent_tx, length_app, frame_length, length_fmap, length_app, !be32_length.
  lia.
Qed.

Lemma SerialSendIntPair_size_witness :
  length (tx (sent (frame (str "T") PACKET_INT2 (be32 1 ++ be32 2)) (fresh []))) = 12%nat.
Proof.
  apply (SerialSendIntPair_size (lit "T") (str "T") 1 2 (fresh [])); reflexivity.
Defined.

(** C36. [SerialSendErrorNumAsText] does not write the number as text: it
    writes one byte, the number modulo 256. Two numbers that agree modulo
    256 give the same packet, and the payload is a single byte. *)
Theorem SerialSendErrorNumAsText_low_byte num_data s :
  SerialSendErrorNumAsText num_data s =
  Ok tt (sent (frame (str "Err") PACKET_CHAR [num_data mod 256]) s) /\
  SerialSendErrorNumAsText (num_data + 256) s = SerialSendErrorNumAsText num_data s.
Proof.
  rewrite !SerialSendErrorNumAsText_run. unfold to_uint8. split; [done|].
  do 4 f_equal. rewrite <- (Z.mul_1_l 256) at 1. by rewrite Z.mod_add.
Qed.

(** Packets in order. Sending a list of packets one after the other
    writes their frames back to back in that order, with nothing between
    them, touches neither the input nor the clock, and leaves nothing
    unflushed. *)
Theorem send_in_order ps ws s :
  wires_of ps = Some ws ->
  exists s',
    for_each send ps s = Ok tt s' /\
    tx s' = tx s ++ ws /\ pending s' = pending s /\ clock s' = clock s /\
    flushed s' = match ps with [] => flushed s | _ => length (tx s') end.
Proof.
  intros Hws. eexists. split; [by apply send_all_run|].
  destruct ps; [|done]. injection Hws as <-. by rewrite app_nil_r.
Qed.

Lemma send_in_order_witness :
  exists s',
    for_each send [PChar (lit "A") 120; PInt (lit "B") 7] (fresh []) = Ok tt s' /\
    tx s' = tx (fresh []) ++ str "<A@x><B|" ++ [0; 0; 0; 7] ++ str ">" /\
    pending s' = pending (fresh []) /\ clock s' = clock (fresh []) /\
    flushed s' = length (tx s').
Proof.
  apply (send_in_order [PChar (lit "A") 120; PInt (lit "B") 7]
           (str "<A@x><B|" ++ [0; 0; 0; 7] ++ str ">") (fresh [])).
  reflexivity.
Defined.

(** The number 62 is sent as the end marker itself. *)
Example SerialSendErrorNumAsText_62 :
  tx (sent (frame (str "Err") PACKET_CHAR [to_uint8 62]) (fresh [])) =
  str "<Err@>>".
Proof. reflexivity. Qed.
