(* ===== verification/DecoderSpec.v ===== *)
(** * The packet decoder of the specification

    Section 4.3 of the specification describes the receiver as a state
    machine with three states and six transitions. This file is that
    machine, with nothing of the C code in it:

    - [dstate]: Idle, CollectingLabel with the label so far,
      CollectingPayload with the label, the type marker and the payload so
      far;
    - [dstep]: the transition table as an inductive relation, one rule per
      row, and one more per row that appends for the bounded buffers (the
      BufferOverflow failure of section 7);
    - [dnext]: the same table as a function, and their equivalence;
    - [drun]: the machine run over a list of bytes until a packet is
      complete or a buffer overflows, with the out-of-protocol bytes it has
      reported;
    - [parse]: a reference parser that cuts the whole stream at the first
      start marker, the first type marker after it and the first end marker
      after that, and the theorem that the incremental machine computes
      exactly that.

    The machine is parameterised by the capacities of the two buffers. A
    label or payload of [n] bytes needs [n + 1] cells, the last one for the
    terminating NUL. *)

From S2P Require Import Prelude CArray Packet.

#[local] Open Scope Z_scope.

(** ** States and events *)

Inductive dstate : Type :=
| Idle
| CollectingLabel (lbl : list Z)
| CollectingPayload (lbl : list Z) (ty : Z) (dat : list Z).

(** What one byte makes the machine do, as seen from outside. *)
Inductive event : Type :=
| Silent                                          (* absorbed *)
| Notice (b : Z)                                  (* reported as out of protocol *)
| Packet (lbl : list Z) (ty : Z) (dat : list Z)   (* a packet is complete *)
| BufferOverflow.                                 (* a buffer is full *)

#[export] Instance dstate_eq_dec : EqDecision dstate.
Proof. solve_decision. Defined.

#[export] Instance event_eq_dec : EqDecision event.
Proof. solve_decision. Defined.

(** How a run over a list of bytes ends. *)
Inductive verdict : Type :=
| Blocked (q : dstate)                                         (* input exhausted *)
| Returned (lbl : list Z) (ty : Z) (dat : list Z) (rest : list Z)
| Overflowed (rest : list Z).

Section machine.
Context (cap_l cap_d : nat).

(** ** The transition table *)

Inductive dstep : dstate -> Z -> event -> dstate -> Prop :=
| step_start :
    dstep Idle PACKET_START Silent (CollectingLabel [])
| step_noise b :
    b <> PACKET_START ->
    dstep Idle b (Notice b) Idle
| step_type lbl b :
    ends_label b = true -> (length lbl < cap_l)%nat ->
    dstep (CollectingLabel lbl) b Silent (CollectingPayload lbl b [])
| step_label lbl b :
    ends_label b = false -> (length lbl < cap_l)%nat ->
    dstep (CollectingLabel lbl) b Silent (CollectingLabel (lbl ++ [to_char b]))
| step_label_overflow lbl b :
    (cap_l <= length lbl)%nat ->
    dstep (CollectingLabel lbl) b BufferOverflow Idle
| step_end lbl ty dat :
    (length dat < cap_d)%nat ->
    dstep (CollectingPayload lbl ty dat) PACKET_END (Packet lbl ty dat) Idle
| step_payload lbl ty dat b :
    b <> PACKET_END -> (length dat < cap_d)%nat ->
    dstep (CollectingPayload lbl ty dat) b Silent
          (CollectingPayload lbl ty (dat ++ [to_char b]))
| step_payload_overflow lbl ty dat b :
    (cap_d <= length dat)%nat ->
    dstep (CollectingPayload lbl ty dat) b BufferOverflow Idle.

(** The table as a function. *)
Definition dnext (q : dstate) (b : Z) : event * dstate :=
  match q with
  | Idle =>
      if decide (b = PACKET_START) then (Silent, CollectingLabel [])
      else (Notice b, Idle)
  | CollectingLabel lbl =>
      if decide (length lbl < cap_l)%nat then
        if ends_label b then (Silent, CollectingPayload lbl b [])
        else (Silent, CollectingLabel (lbl ++ [to_char b]))
      else (BufferOverflow, Idle)
  | CollectingPayload lbl ty dat =>
      if decide (length dat < cap_d)%nat then
        if decide (b = PACKET_END) then (Packet lbl ty dat, Idle)
        else (Silent, CollectingPayload lbl ty (dat ++ [to_char b]))
      else (BufferOverflow, Idle)
  end.

(** The machine over a list of bytes: it stops at the first complete packet
    or overflow and answers the bytes it reported on the way. *)
Fixpoint drun (q : dstate) (bs : list Z) : list Z * verdict :=
  match bs with
  | [] => ([], Blocked q)
  | b :: bs' =>
      match dnext q b with
      | (Silent, q') => drun q' bs'
      | (Notice n, q') => let '(ns, v) := drun q' bs' in (n :: ns, v)
      | (Packet lbl ty dat, _) => ([], Returned lbl ty dat bs')
      | (BufferOverflow, _) => ([], Overflowed bs')
      end
  end.

(** The buffers of a state have room for what the state holds. *)
Definition fits (q : dstate) : Prop :=
  match q with
  | Idle => True
  | CollectingLabel lbl => (length lbl <= cap_l)%nat
  | CollectingPayload lbl ty dat =>
      (length lbl < cap_l)%nat /\ (length dat <= cap_d)%nat /\
      (ty = PACKET_INT \/ ty = PACKET_CHAR)
  end.

End machine.

(** Prefixing the reported bytes of a run. *)
Definition reported (ns : list Z) (r : list Z * verdict) : list Z * verdict :=
  (ns ++ r.1, r.2).

(** ** The reference parser *)

(** Cut a list at the first element satisfying [p]. *)
Fixpoint cut (p : Z -> bool) (l : list Z) : option (list Z * Z * list Z) :=
  match l with
  | [] => None
  | x :: l' =>
      if p x then Some ([], x, l')
      else '(pre, y, post) ← cut p l'; Some (x :: pre, y, post)
  end.

Record parsed : Type := mkParsed {
  p_noise : list Z;     (* bytes before the start marker *)
  p_label : list Z;
  p_type : Z;
  p_payload : list Z;
  p_rest : list Z       (* bytes after the end marker *)
}.

Definition parse (bs : list Z) : option parsed :=
  '(noise, _, after_start) ← cut (fun b => bool_decide (b = PACKET_START)) bs;
  '(label, ty, after_type) ← cut ends_label after_start;
  '(payload, _, rest) ← cut (fun b => bool_decide (b = PACKET_END)) after_type;
  Some (mkParsed noise label ty payload rest).

(** ** [cut] *)

Lemma cut_inv p l pre x post :
  cut p l = Some (pre, x, post) ->
  l = pre ++ x :: post /\ Forall (fun y => p y = false) pre /\ p x = true.
Proof.
  revert pre. induction l as [|y l IH]; intros pre; simpl; [done|].
  destruct (p y) eqn:Hy.
  - intros [= <- <- <-]. by split_and!.
  - destruct (cut p l) as [[[pre' x'] post']|]; simpl; [|done].
    intros [= <- <- <-]. destruct (IH pre' eq_refl) as (-> & ? & ?).
    split_and!; auto.
Qed.

Lemma cut_app p pre x post :
  Forall (fun y => p y = false) pre -> p x = true ->
  cut p (pre ++ x :: post) = Some (pre, x, post).
Proof.
  intros Hpre Hx. induction Hpre as [|y pre Hy _ IH]; simpl.
  - by rewrite Hx.
  - by rewrite Hy, IH.
Qed.

Lemma cut_Some p l pre x post :
  cut p l = Some (pre, x, post) <->
  l = pre ++ x :: post /\ Forall (fun y => p y = false) pre /\ p x = true.
Proof.
  split; [apply cut_inv|]. intros (-> & ? & ?). by apply cut_app.
Qed.

Lemma cut_None p l : cut p l = None <-> Forall (fun y => p y = false) l.
Proof.
  induction l as [|y l IH]; simpl; [by split; [constructor|]|].
  destruct (p y) eqn:Hy.
  - split; [done|]. intros [? _]%Forall_cons. congruence.
  - destruct (cut p l) as [[[? ?] ?]|]; simpl.
    + split; [done|]. intros [_ H]%Forall_cons. by apply IH in H.
    + split; [|done]. intros _. constructor; [done|]. by apply IH.
Qed.

(** ** The function and the relation agree *)

Section machine_facts.
Context (cap_l cap_d : nat).

Lemma dnext_dstep q b : dstep cap_l cap_d q b (dnext cap_l cap_d q b).1 (dnext cap_l cap_d q b).2.
Proof.
  destruct q as [|lbl|lbl ty dat]; simpl.
  - case_decide as Hb; simpl; [subst; constructor | by constructor].
  - case_decide as Hl; simpl; [|constructor; lia].
    destruct (ends_label b) eqn:Hb; simpl; by constructor.
  - case_decide as Hd; simpl; [|constructor; lia].
    case_decide as Hb; simpl; [subst|]; by constructor.
Qed.

Lemma dstep_dnext q b e q' :
  dstep cap_l cap_d q b e q' -> dnext cap_l cap_d q b = (e, q').
Proof.
  destruct 1; simpl;
    repeat first [rewrite decide_True by done
                 | rewrite decide_False by (done || lia)
                 | match goal with H : ends_label _ = _ |- _ => rewrite H end];
    done.
Qed.

(** The transition relation is a total function. *)
Lemma dstep_iff q b e q' :
  dstep cap_l cap_d q b e q' <-> dnext cap_l cap_d q b = (e, q').
Proof.
  split; [apply dstep_dnext|]. intros H.
  pose proof (dnext_dstep q b) as Hs. by rewrite H in Hs.
Qed.

Lemma dstep_deterministic q b e1 q1 e2 q2 :
  dstep cap_l cap_d q b e1 q1 -> dstep cap_l cap_d q b e2 q2 -> e1 = e2 /\ q1 = q2.
Proof. intros H1%dstep_dnext H2%dstep_dnext. split; congruence. Qed.

Lemma dstep_total q b : exists e q', dstep cap_l cap_d q b e q'.
Proof. eexists _, _. apply dnext_dstep. Qed.

(** Transitions keep the buffers within their capacities. *)
Lemma dstep_fits q b e q' :
  fits cap_l cap_d q -> dstep cap_l cap_d q b e q' -> fits cap_l cap_d q'.
Proof.
  intros Hq Hs. destruct Hs; simpl in *; try done.
  - lia.
  - apply ends_label_spec in H. split_and!; [done|lia|done].
  - rewrite length_app. simpl. lia.
  - destruct Hq as (? & ? & ?). rewrite length_app. simpl. split_and!; [done|lia|done].
Qed.

Lemma dnext_fits q b :
  fits cap_l cap_d q -> fits cap_l cap_d (dnext cap_l cap_d q b).2.
Proof. intros. eapply dstep_fits; [done|apply dnext_dstep]. Qed.

End machine_facts.

#[export] Hint Resolve dnext_fits : opbox.

(** ** Runs, phase by phase *)

Section run_facts.
Context (cap_l cap_d : nat).
#[local] Abbreviation drun := (drun cap_l cap_d).
#[local] Abbreviation dnext := (dnext cap_l cap_d).

Lemma reported_nil r : reported [] r = r.
Proof. by destruct r. Qed.

Lemma drun_cons q b bs :
  drun q (b :: bs) =
  match dnext q b with
  | (Silent, q') => drun q' bs
  | (Notice n, q') => reported [n] (drun q' bs)
  | (Packet lbl ty dat, _) => ([], Returned lbl ty dat bs)
  | (BufferOverflow, _) => ([], Overflowed bs)
  end.
Proof.
  simpl. destruct (dnext q b) as [[| n | |] q']; try done.
  by destruct (drun q' bs).
Qed.

Lemma reported_reported ns1 ns2 r : reported ns1 (reported ns2 r) = reported (ns1 ++ ns2) r.
Proof. unfold reported. simpl. by rewrite app_assoc. Qed.

(** A run that is left waiting goes on with the bytes that come next. *)
Lemma drun_blocked_app q bs ns q' cs :
  drun q bs = (ns, Blocked q') -> drun q (bs ++ cs) = reported ns (drun q' cs).
Proof.
  revert q ns. induction bs as [|b bs IH]; intros q ns.
  { intros [= <- <-]. by rewrite reported_nil. }
  rewrite <- app_comm_cons, !drun_cons.
  destruct (dnext q b) as [[|n| |] q1]; [apply IH| |done..].
  destruct (drun q1 bs) as [ns1 v] eqn:Hrun. intros [= <- ->].
  by rewrite (IH _ _ Hrun), reported_reported.
Qed.

(** Idle: bytes other than the start marker are reported, one by one. *)
Lemma drun_noise noise bs :
  Forall (fun b => b <> PACKET_START) noise ->
  drun Idle (noise ++ bs) = reported noise (drun Idle bs).
Proof.
  induction 1 as [|b noise Hb _ IH]; [by rewrite reported_nil|].
  rewrite <- app_comm_cons, drun_cons. simpl. rewrite decide_False by done.
  rewrite IH. by destruct (drun Idle bs).
Qed.

Lemma drun_start bs : drun Idle (PACKET_START :: bs) = drun (CollectingLabel []) bs.
Proof. by rewrite drun_cons. Qed.

(** CollectingLabel: bytes that do not end the label are appended while
    there is room. *)
Lemma drun_label lbl more bs :
  label_ok more -> (length lbl + length more <= cap_l)%nat ->
  drun (CollectingLabel lbl) (more ++ bs) =
  drun (CollectingLabel (lbl ++ (to_char <$> more))) bs.
Proof.
  intros Hok. revert lbl. induction Hok as [|b more Hb _ IH]; intros lbl Hlen.
  { simpl. by rewrite app_nil_r. }
  simpl in Hlen. rewrite <- app_comm_cons, drun_cons. simpl.
  rewrite decide_True, Hb by lia. rewrite IH by (rewrite length_app; simpl; lia).
  by rewrite <- app_assoc.
Qed.

Lemma drun_type lbl ty bs :
  ends_label ty = true -> (length lbl < cap_l)%nat ->
  drun (CollectingLabel lbl) (ty :: bs) = drun (CollectingPayload lbl ty []) bs.
Proof. intros Hty Hlen. rewrite drun_cons. simpl. by rewrite decide_True, Hty. Qed.

(** CollectingPayload: bytes other than the end marker are appended while
    there is room. *)
Lemma drun_payload lbl ty dat more bs :
  payload_ok more -> (length dat + length more <= cap_d)%nat ->
  drun (CollectingPayload lbl ty dat) (more ++ bs) =
  drun (CollectingPayload lbl ty (dat ++ (to_char <$> more))) bs.
Proof.
  intros Hok. revert dat. induction Hok as [|b more Hb _ IH]; intros dat Hlen.
  { simpl. by rewrite app_nil_r. }
  simpl in Hlen. rewrite <- app_comm_cons, drun_cons. simpl.
  rewrite decide_True, decide_False by (done || lia).
  rewrite IH by (rewrite length_app; simpl; lia).
  by rewrite <- app_assoc.
Qed.

Lemma drun_end lbl ty dat bs :
  (length dat < cap_d)%nat ->
  drun (CollectingPayload lbl ty dat) (PACKET_END :: bs) = ([], Returned lbl ty dat bs).
Proof. intros Hlen. rewrite drun_cons. simpl. by rewrite !decide_True. Qed.

(** A whole frame after noise: the machine reports the noise and returns
    the packet, leaving what follows the end marker. *)
Lemma drun_frame noise label ty payload rest :
  Forall (fun b => b <> PACKET_START) noise ->
  label_ok label -> ends_label ty = true -> payload_ok payload ->
  (length label < cap_l)%nat -> (length payload < cap_d)%nat ->
  drun Idle (noise ++ frame label ty payload ++ rest) =
  (noise, Returned (to_char <$> label) ty (to_char <$> payload) rest).
Proof.
  intros Hn Hl Hty Hp Hll Hlp. rewrite frame_app.
  rewrite drun_noise, drun_start by done.
  rewrite drun_label by first [done | simpl; lia].
  rewrite drun_type by first [done | simpl; rewrite length_fmap; lia].
  rewrite drun_payload by first [done | simpl; lia].
  rewrite !app_nil_l, drun_end by (rewrite length_fmap; lia).
  unfold reported. simpl. by rewrite app_nil_r.
Qed.

(** The overflows: one byte more than the buffer holds. *)
Lemma drun_label_overflow lbl b bs :
  (cap_l <= length lbl)%nat ->
  drun (CollectingLabel lbl) (b :: bs) = ([], Overflowed bs).
Proof. intros. rewrite drun_cons. simpl. by rewrite decide_False by lia. Qed.

Lemma drun_payload_overflow lbl ty dat b bs :
  (cap_d <= length dat)%nat ->
  drun (CollectingPayload lbl ty dat) (b :: bs) = ([], Overflowed bs).
Proof. intros. rewrite drun_cons. simpl. by rewrite decide_False by lia. Qed.

(** A label that fills its buffer: the byte after it overflows, whatever
    it is. *)
Lemma drun_label_too_long noise label b rest :
  Forall (fun b => b <> PACKET_START) noise -> label_ok label ->
  length label = cap_l ->
  drun Idle (noise ++ PACKET_START :: label ++ b :: rest) = (noise, Overflowed rest).
Proof.
  intros Hn Hl Hlen. rewrite drun_noise, drun_start by done.
  rewrite drun_label by first [done | simpl; lia].
  rewrite drun_label_overflow by (simpl; rewrite length_fmap; lia).
  unfold reported. simpl. by rewrite app_nil_r.
Qed.

(** A payload that fills its buffer: likewise. *)
Lemma drun_payload_too_long noise label ty payload b rest :
  Forall (fun b => b <> PACKET_START) noise -> label_ok label ->
  ends_label ty = true -> payload_ok payload ->
  (length label < cap_l)%nat -> length payload = cap_d ->
  drun Idle (noise ++ PACKET_START :: label ++ ty :: payload ++ b :: rest) =
  (noise, Overflowed rest).
Proof.
  intros Hn Hl Hty Hp Hll Hlen. rewrite drun_noise, drun_start by done.
  rewrite drun_label by first [done | simpl; lia].
  rewrite drun_type by first [done | simpl; rewrite length_fmap; lia].
  rewrite drun_payload by first [done | simpl; lia].
  rewrite drun_payload_overflow by (simpl; rewrite length_fmap; lia).
  unfold reported. simpl. by rewrite app_nil_r.
Qed.

(** ** Runs that return, inverted *)

Lemma drun_payload_inv lbl ty dat bs ns lbl' ty' dat' rest :
  drun (CollectingPayload lbl ty dat) bs = (ns, Returned lbl' ty' dat' rest) ->
  exists more,
    bs = more ++ PACKET_END :: rest /\ payload_ok more /\
    ns = [] /\ lbl' = lbl /\ ty' = ty /\ dat' = dat ++ (to_char <$> more) /\
    (length dat' < cap_d)%nat.
Proof.
  revert dat. induction bs as [|b bs IH]; intros dat; [done|].
  rewrite drun_cons. simpl. case_decide as Hlen; [|done].
  case_decide as Hb.
  - intros [= <- <- <- <- <-]. exists []. subst. simpl.
    rewrite app_nil_r. by split_and!; try constructor.
  - intros (more & -> & Hok & -> & -> & -> & -> & Hlen')%IH.
    exists (b :: more). simpl. rewrite <- app_assoc in *.
    split_and!; try done. by constructor.
Qed.

Lemma drun_label_inv lbl bs ns lbl' ty' dat' rest :
  drun (CollectingLabel lbl) bs = (ns, Returned lbl' ty' dat' rest) ->
  exists more payload,
    bs = more ++ ty' :: payload ++ PACKET_END :: rest /\
    label_ok more /\ ends_label ty' = true /\ payload_ok payload /\
    ns = [] /\ lbl' = lbl ++ (to_char <$> more) /\ dat' = to_char <$> payload /\
    (length lbl' < cap_l)%nat /\ (length dat' < cap_d)%nat.
Proof.
  revert lbl. induction bs as [|b bs IH]; intros lbl; [done|].
  rewrite drun_cons. simpl. case_decide as Hlen; [|done].
  destruct (ends_label b) eqn:Hb.
  - intros (payload & -> & Hok & -> & -> & -> & -> & Hlen')%drun_payload_inv.
    exists [], payload. simpl. rewrite app_nil_r. by split_and!; try constructor.
  - intros (more & payload & -> & Hok & Hty & Hp & -> & -> & -> & Hl & Hd)%IH.
    exists (b :: more), payload. simpl. rewrite <- app_assoc in *.
    split_and!; try done. by constructor.
Qed.

Lemma drun_idle_inv bs ns lbl ty dat rest :
  drun Idle bs = (ns, Returned lbl ty dat rest) ->
  exists label payload,
    bs = ns ++ frame label ty payload ++ rest /\
    Forall (fun b => b <> PACKET_START) ns /\
    label_ok label /\ ends_label ty = true /\ payload_ok payload /\
    lbl = to_char <$> label /\ dat = to_char <$> payload /\
    (length lbl < cap_l)%nat /\ (length dat < cap_d)%nat.
Proof.
  revert ns. induction bs as [|b bs IH]; intros ns; [done|].
  rewrite drun_cons. cbn [dnext]. case_decide as Hb.
  - intros (label & payload & -> & Hok & Hty & Hp & -> & -> & -> & Hl & Hd)%drun_label_inv.
    exists label, payload. subst b. rewrite frame_app. by split_and!.
  - destruct (drun Idle bs) as [ns' v] eqn:Hrun. unfold reported. simpl.
    intros [= <- ->].
    destruct (IH ns' eq_refl) as (label & payload & -> & Hns & ? & ? & ? & ? & ? & ? & ?).
    exists label, payload. split_and!; try done. by constructor.
Qed.

(** An overflow takes more bytes than the smaller buffer holds: counted
    from a state, what it holds and what it reads. *)
Lemma drun_overflowed_long q bs ns rest :
  drun q bs = (ns, Overflowed rest) ->
  (cap_l `min` cap_d <
   match q with
   | Idle => 0
   | CollectingLabel lbl => length lbl
   | CollectingPayload _ _ dat => length dat
   end + length bs)%nat.
Proof.
  revert q ns. induction bs as [|b bs IH]; intros q ns; [done|].
  rewrite drun_cons.
  destruct q; simpl; repeat case_decide; try destruct (ends_label b);
    try (destruct (drun Idle bs) as [ns' v] eqn:Hrun; unfold reported; simpl);
    intros Hq; simplify_eq; try apply IH in Hq; try apply IH in Hrun;
    simpl in *; rewrite ?length_app in *; simpl in *; lia.
Qed.

End run_facts.

(** ** The reference parser and the machine *)

Lemma Forall_bool_decide_ne (x : Z) l :
  Forall (fun b => bool_decide (b = x) = false) l <-> Forall (fun b => b <> x) l.
Proof. apply Forall_proper; [|done]. intros b. apply bool_decide_eq_false. Qed.

(** [parse] succeeds exactly on noise followed by a frame. *)
Lemma parse_Some_iff bs p :
  parse bs = Some p <->
  bs = p_noise p ++ frame (p_label p) (p_type p) (p_payload p) ++ p_rest p /\
  Forall (fun b => b <> PACKET_START) (p_noise p) /\
  label_ok (p_label p) /\ ends_label (p_type p) = true /\
  payload_ok (p_payload p).
Proof.
  unfold parse. split.
  - intros H.
    destruct (cut _ bs) as [[[noise x] after]|] eqn:H1; [|done]. simpl in H.
    destruct (cut ends_label after) as [[[label ty] after2]|] eqn:H2; [|done]. simpl in H.
    destruct (cut _ after2) as [[[payload y] rest]|] eqn:H3; [|done]. simpl in H.
    apply (inj Some) in H as <-. cbn [p_noise p_label p_type p_payload p_rest].
    apply cut_inv in H1 as (-> & Hn & ->%bool_decide_eq_true).
    apply cut_inv in H2 as (-> & Hl & Hty).
    apply cut_inv in H3 as (-> & Hp & ->%bool_decide_eq_true).
    rewrite frame_app. split_and!; try done; by apply Forall_bool_decide_ne.
  - destruct p as [noise label ty payload rest].
    cbn [p_noise p_label p_type p_payload p_rest].
    intros (-> & Hn & Hl & Hty & Hp). rewrite frame_app.
    rewrite cut_app by (by apply Forall_bool_decide_ne || by apply bool_decide_eq_true).
    simpl. rewrite cut_app by done. simpl.
    rewrite cut_app by (by apply Forall_bool_decide_ne || by apply bool_decide_eq_true).
    done.
Qed.

(** What follows a frame does not change what is found. *)
Lemma parse_app bs more p :
  parse bs = Some p ->
  parse (bs ++ more) =
  Some (mkParsed (p_noise p) (p_label p) (p_type p) (p_payload p) (p_rest p ++ more)).
Proof.
  intros (Hbs & ? & ? & ? & ?)%parse_Some_iff. apply parse_Some_iff.
  cbn [p_noise p_label p_type p_payload p_rest]. split_and!; try done.
  rewrite Hbs at 1. by rewrite <- !app_assoc.
Qed.

(** The incremental machine returns exactly what the reference parser
    finds, provided label and payload fit their buffers with the
    terminator; and it returns only then. *)
Lemma drun_parse cap_l cap_d bs ns lbl ty dat rest :
  drun cap_l cap_d Idle bs = (ns, Returned lbl ty dat rest) <->
  exists p,
    parse bs = Some p /\
    (length (p_label p) < cap_l)%nat /\ (length (p_payload p) < cap_d)%nat /\
    ns = p_noise p /\ lbl = to_char <$> p_label p /\ ty = p_type p /\
    dat = to_char <$> p_payload p /\ rest = p_rest p.
Proof.
  split.
  - intros (label & payload & -> & Hn & Hl & Hty & Hp & -> & -> & Hll & Hlp)%drun_idle_inv.
    exists (mkParsed ns label ty payload rest). rewrite !length_fmap in *.
    split_and!; try done. by apply parse_Some_iff.
  - intros (p & (-> & Hn & Hl & Hty & Hp)%parse_Some_iff & Hll & Hlp & -> & -> & -> & -> & ->).
    by apply drun_frame.
Qed.

(** Without an end marker in the stream no packet is ever returned. *)
Lemma drun_no_end cap_l cap_d q bs ns lbl ty dat rest :
  PACKET_END ∉ bs -> drun cap_l cap_d q bs <> (ns, Returned lbl ty dat rest).
Proof.
  intros Hnot Hrun. apply Hnot. destruct q as [|l|l t d].
  - apply drun_idle_inv in Hrun as (label & payload & -> & _).
    rewrite frame_app. set_solver.
  - apply drun_label_inv in Hrun as (more & payload & -> & _). set_solver.
  - apply drun_payload_inv in Hrun as (more & -> & _). set_solver.
Qed.
