(* ===== verification/Decoder.v ===== *)
(** * The packet receiver, byte by byte

    The body of [SerialReceiveAndParsePacket] (lines 121-177), statement by
    statement; the call itself is in [Receiver].

    - [locals] holds the local variables of the C function, its two
      parameters, which are pointers ([Memory]), and the memory they point
      into. [data_type] is declared without a value, so it is an
      [option]; the lengths are C [int]s and are incremented by [int_succ]
      of [CArray], which faults at [INT_MAX]; a cell is written by
      [assign_at], which faults outside the array the pointer points
      into. Nothing says that the two pointers point into different
      arrays.
    - [on_byte] is the body of [if (Serial.available() > 0)] after the
      byte was read: the four-way branch on the flags and on the byte. It
      answers [inl] to go on and [inr] at the [return]. Within a branch
      the code sets its flags and then assigns to the array (lines
      138-142 and 155-157); here the assignment to the array, which may
      fault, comes first and the new values of the locals are collected
      in the record behind it. The order cannot be seen: a fault ends the
      call and keeps the device, not the locals.
    - [loop_body] is one iteration of [while (!flag_ser_end)], the poll
      included. Leaving the loop by its condition would reach the end of
      the function without a [return]: the fault [NoReturn].

    [conc] maps a state of the specification's machine ([DecoderSpec]) to
    the locals that represent it, given the memory and the two pointers
    the caller passed in: the memory is the caller's with the label filled
    in through the first pointer and then the payload through the second.
    The capacities of the machine are the cells from each pointer to the
    end of its array. [abs] reads a state back through the pointers.
    [react] is the program the machine's answer to a byte calls for:
    nothing, an error notice, the return of the packet, or the fault.
    The simulation lemma [on_byte_react] says that from [conc q] one
    byte does to the locals and to the device, whichever it is, exactly
    what the transition table does to [q], wherever the pointers point;
    [on_byte_sim] is the same on the channel of the specification, with
    the effect on the channel written out. Everything else about the
    receiver is derived from them. Reading the state back needs the two
    arrays to be different ones ([abs_conc]). *)

From S2P Require Import Prelude CArray Memory Channel Serial Codec Packet Encoder DecoderSpec.

#[local] Open Scope Z_scope.

(** ** The program *)

Record locals : Type := mkLocals {
  flag_ser_label : bool;
  flag_ser_data : bool;
  flag_ser_end : bool;
  data_type : option Z;
  length_label : Z;
  length_data : Z;
  buffer_label : ptr;
  buffer_data : ptr;
  memory : heap
}.

(** The locals at the opening brace. *)
Definition init_locals (buffer_label buffer_data : ptr) (memory : heap) : locals :=
  mkLocals false false false None 0 0 buffer_label buffer_data memory.

Definition on_byte {S : Type} `{!Channel S} (st : locals) (inByte : Z)
  : prog S (locals + Z * locals) :=
  if flag_ser_label st then
    if bool_decide (inByte = PACKET_INT) || bool_decide (inByte = PACKET_CHAR) then
      m ← assign_at (memory st) (buffer_label st) (length_label st) 0;
      mret (inl (mkLocals false true (flag_ser_end st) (Some (to_char inByte))
                          (length_label st) 0 (buffer_label st) (buffer_data st) m))
    else
      m ← assign_at (memory st) (buffer_label st) (length_label st) (to_char inByte);
      n ← int_succ (length_label st);
      mret (inl (mkLocals (flag_ser_label st) (flag_ser_data st) (flag_ser_end st)
                          (data_type st) n (length_data st)
                          (buffer_label st) (buffer_data st) m))
  else if flag_ser_data st then
    if bool_decide (inByte = PACKET_END) then
      m ← assign_at (memory st) (buffer_data st) (length_data st) 0;
      ty ← lift_option Uninitialised (data_type st);
      mret (inr (ty, mkLocals (flag_ser_label st) false true (data_type st)
                              (length_label st) (length_data st)
                              (buffer_label st) (buffer_data st) m))
    else
      m ← assign_at (memory st) (buffer_data st) (length_data st) (to_char inByte);
      n ← int_succ (length_data st);
      mret (inl (mkLocals (flag_ser_label st) (flag_ser_data st) (flag_ser_end st)
                          (data_type st) (length_label st) n
                          (buffer_label st) (buffer_data st) m))
  else if bool_decide (inByte = PACKET_START) then
    mret (inl (mkLocals true (flag_ser_data st) (flag_ser_end st) (data_type st)
                        0 (length_data st)
                        (buffer_label st) (buffer_data st) (memory st)))
  else
    SerialSendErrorText (lit "SerInputErr");;
    Serial_write (to_char inByte);;
    mret (inl st).

Definition loop_body {S : Type} `{!Channel S} (st : locals)
  : prog S (locals + Z * locals) :=
  if flag_ser_end st then raise NoReturn
  else
    n ← Serial_available;
    if bool_decide (0 < n) then
      inByte ← Serial_read;
      on_byte st inByte
    else mret (inl st).

(** ** The machine state behind the locals *)

Section representation.
Context (h0 : heap) (pl pd : ptr).

(** The memory once the label [lbl] was terminated and then [dat] was
    written through the data pointer. *)
Definition written (lbl dat : list Z) : heap :=
  fill (fill h0 pl (lbl ++ [0])) pd dat.

(** The locals that represent a state of the machine, for a call that was
    passed the pointers [pl] and [pd] into the memory [h0]. *)
Definition conc (q : dstate) : locals :=
  match q with
  | Idle => init_locals pl pd h0
  | CollectingLabel lbl =>
      mkLocals true false false None (Z.of_nat (length lbl)) 0
               pl pd (fill h0 pl lbl)
  | CollectingPayload lbl ty dat =>
      mkLocals false true false (Some ty)
               (Z.of_nat (length lbl)) (Z.of_nat (length dat))
               pl pd (written lbl dat)
  end.

(** The locals at the [return]. *)
Definition final (lbl : list Z) (ty : Z) (dat : list Z) : locals :=
  mkLocals false false true (Some ty)
           (Z.of_nat (length lbl)) (Z.of_nat (length dat))
           pl pd (written lbl (dat ++ [0])).

End representation.

(** What the machine's loop answers, in the locals of the program. *)
Definition represent (h0 : heap) (pl pd : ptr)
  : dstate + list Z * Z * list Z -> locals + Z * locals :=
  sum_map (conc h0 pl pd) (fun r => (r.1.2, final h0 pl pd r.1.1 r.1.2 r.2)).

(** What the machine's answer to one byte calls for, on any device: the
    error notice for a byte out of protocol, the packet at the end marker,
    the write out of bounds where the table has BufferOverflow. *)
Definition react {S : Type} `{!Channel S} (r : event * dstate)
  : prog S (dstate + list Z * Z * list Z) :=
  match r with
  | (Silent, q') => mret (inl q')
  | (Notice n, q') =>
      SerialSendErrorText (lit "SerInputErr");;
      Serial_write (to_char n);;
      mret (inl q')
  | (Packet lbl ty dat, _) => mret (inr (lbl, ty, dat))
  | (BufferOverflow, _) => raise OutOfBounds
  end.

(** The state of the machine read off the locals, through the two
    pointers. *)
Definition abs (st : locals) : dstate :=
  let label := array_at (memory st) (buffer_label st) in
  let data := array_at (memory st) (buffer_data st) in
  if flag_ser_label st then
    CollectingLabel (take (Z.to_nat (length_label st)) label)
  else if flag_ser_data st then
    CollectingPayload (take (Z.to_nat (length_label st)) label)
                      (default 0 (data_type st))
                      (take (Z.to_nat (length_data st)) data)
  else Idle.

(** The error notice for an out-of-protocol byte: an ["Err"] packet with
    the fixed text, flushed, and then the byte itself, outside the packet
    and not flushed. *)
Definition notice (b : Z) (s : serial) : serial :=
  emit [to_uint8 (to_char b)]
       (sent (frame (str "Err") PACKET_CHAR (str "SerInputErr")) s).

(** The bytes of one notice. *)
Definition notice_bytes (b : Z) : list Z :=
  frame (str "Err") PACKET_CHAR (str "SerInputErr") ++ [to_uint8 (to_char b)].

(** The effect of a run on the channel: one notice per reported byte. *)
Definition notices (ns : list Z) (s : serial) : serial :=
  fold_left (fun s b => notice b s) ns s.

(** What the machine's answer to one byte means for the program. *)
Definition on_event (h0 : heap) (pl pd : ptr) (r : event * dstate) (s : serial)
  : outcome serial (locals + Z * locals) :=
  match r with
  | (Silent, q') => Ok (inl (conc h0 pl pd q')) s
  | (Notice n, q') => Ok (inl (conc h0 pl pd q')) (notice n s)
  | (Packet lbl ty dat, _) => Ok (inr (ty, final h0 pl pd lbl ty dat)) s
  | (BufferOverflow, _) => Fault OutOfBounds s
  end.

(** ** Statements *)

Lemma ends_label_to_char b : ends_label b = true -> to_char b = b.
Proof. by intros [-> | ->]%ends_label_spec. Qed.

Lemma send_notice_run s :
  SerialSendErrorText (lit "SerInputErr") s =
  Ok tt (sent (frame (str "Err") PACKET_CHAR (str "SerInputErr")) s).
Proof. by rewrite (SerialSendErrorText_run _ (str "SerInputErr")). Qed.

#[export] Hint Resolve send_notice_run : opbox.

(** ** One byte: the program follows the transition table *)

Section simulation.
Context (h0 : heap) (pl pd : ptr).
Context (Hcap_l : Z.of_nat (room h0 pl) <= INT_MAX).
Context (Hcap_d : Z.of_nat (room h0 pd) <= INT_MAX).

#[local] Abbreviation cap_l := (room h0 pl).
#[local] Abbreviation cap_d := (room h0 pd).
#[local] Abbreviation conc := (conc h0 pl pd).
#[local] Abbreviation on_event := (on_event h0 pl pd).

(** Once the label is terminated the data pointer has the room it had. *)
Lemma room_written lbl dat :
  (length lbl < cap_l)%nat -> (length dat <= cap_d)%nat ->
  room (fill h0 pl (lbl ++ [0])) pd = cap_d /\
  forall p, room (written h0 pl pd lbl dat) p = room h0 p.
Proof.
  intros Hl Hd.
  assert (forall p, room (fill h0 pl (lbl ++ [0])) p = room h0 p) as Hroom.
  { intros p. apply room_fill. rewrite length_app. simpl. lia. }
  split; [done|]. intros p. unfold written. rewrite room_fill; [done|].
  by rewrite Hroom.
Qed.

Section any_device.
Context {S : Type} `{!Channel S}.
Implicit Types s : S.

#[local] Abbreviation represent := (represent h0 pl pd).

Lemma on_byte_idle b s :
  on_byte (conc Idle) b s = outcome_map represent (react (dnext cap_l cap_d Idle b) s).
Proof.
  unfold on_byte. simpl. case_decide as Hb.
  - rewrite bool_decide_true by done. simpl. by rewrite fill_nil.
  - rewrite bool_decide_false by done. simpl. prog_unfold.
    destruct (SerialSendErrorText _ s) as [[] s1|e s1]; [|done].
    by destruct (Serial_write _ s1).
Qed.

Lemma on_byte_label lbl b s :
  (length lbl <= cap_l)%nat ->
  on_byte (conc (CollectingLabel lbl)) b s =
  outcome_map represent (react (dnext cap_l cap_d (CollectingLabel lbl) b) s).
Proof.
  intros Hfit. unfold on_byte. simpl. fold (ends_label b). case_decide as Hlen.
  - destruct (ends_label b) eqn:Hb; simpl.
    + prog_step. unfold written. by rewrite ends_label_to_char, fill_nil.
    + prog_step. erewrite bind_Ok by (apply int_succ_ok; lia). cbv beta.
      unfold mret, prog_ret. simpl. repeat f_equal. rewrite length_app. simpl. lia.
  - destruct (ends_label b); simpl; erewrite bind_Fault; try done;
      apply assign_at_full; lia.
Qed.

Lemma on_byte_payload lbl ty dat b s :
  (length lbl < cap_l)%nat -> (length dat <= cap_d)%nat ->
  on_byte (conc (CollectingPayload lbl ty dat)) b s =
  outcome_map represent (react (dnext cap_l cap_d (CollectingPayload lbl ty dat) b) s).
Proof.
  intros Hl Hd. destruct (room_written lbl dat Hl Hd) as [Hroom _].
  unfold on_byte, written. simpl. case_decide as Hlen.
  - case_decide as Hb.
    + rewrite bool_decide_true by done.
      erewrite bind_Ok by (apply assign_at_fill; lia). done.
    + rewrite bool_decide_false by done.
      erewrite bind_Ok by (apply assign_at_fill; lia). cbv beta.
      erewrite bind_Ok by (apply int_succ_ok; lia). cbv beta.
      unfold mret, prog_ret. simpl. repeat f_equal. rewrite length_app. simpl. lia.
  - destruct (bool_decide (b = PACKET_END)); erewrite bind_Fault; try done;
      apply assign_at_full; lia.
Qed.

(** The simulation, on any device: from the locals that represent [q],
    the program does with one byte what the table says. *)
Lemma on_byte_react q b s :
  fits cap_l cap_d q ->
  on_byte (conc q) b s = outcome_map represent (react (dnext cap_l cap_d q b) s).
Proof.
  destruct q; simpl; intros Hq;
    [apply on_byte_idle|by apply on_byte_label|apply on_byte_payload; tauto].
Qed.

End any_device.

(** On the device of the specification the notice is the packet and the
    byte appended to the output. *)
Lemma react_serial r (s : serial) :
  outcome_map (represent h0 pl pd) (react r s) = on_event r s.
Proof. destruct r as [[|n|lbl ty dat|] q']; try done. unfold react. by prog_run. Qed.

Lemma on_byte_sim q b (s : serial) :
  fits cap_l cap_d q ->
  on_byte (conc q) b s = on_event (dnext cap_l cap_d q b) s.
Proof. intros Hq. by rewrite on_byte_react, react_serial. Qed.

Lemma conc_not_ended q : flag_ser_end (conc q) = false.
Proof. by destruct q. Qed.

(** The state is read back from the locals that represent it, when the
    two pointers point into different arrays. *)
Lemma abs_conc q : apart pl pd -> fits cap_l cap_d q -> abs (conc q) = q.
Proof.
  intros Hne. destruct q as [|lbl|lbl ty dat]; simpl; [done|..]; unfold abs; simpl.
  - intros Hl. by rewrite Nat2Z.id, array_at_fill, overwrite_take.
  - intros (Hl & Hd & _). destruct (room_written lbl dat Hl Hd) as [Hroom _].
    unfold written. rewrite !Nat2Z.id.
    rewrite (array_at_fill_apart _ pd pl) by done.
    rewrite (array_at_fill _ pd), overwrite_take by lia.
    rewrite array_at_fill by (rewrite length_app; simpl; lia). f_equal.
    unfold overwrite. rewrite <- app_assoc. by rewrite take_app_length.
Qed.

(** ** Properties *)

(** C3. Refinement of the specification's state machine. From the locals
    that represent a state of the machine, one byte makes the program take
    exactly one transition of the table, wherever the two pointers point:
    the locals become those of the next state, an out-of-protocol byte is
    answered by the error notice, a complete packet by the [return], and
    the BufferOverflow of the table is the write past the end of the
    array. When the pointers point into different arrays the state is
    recovered from the locals by [abs]. *)
Theorem on_byte_refines q b s :
  fits cap_l cap_d q ->
  exists e q',
    dstep cap_l cap_d q b e q' /\
    fits cap_l cap_d q' /\
    on_byte (conc q) b s = on_event (e, q') s /\
    (apart pl pd -> abs (conc q) = q).
Proof.
  intros Hq. destruct (dnext cap_l cap_d q b) as [e q'] eqn:Hn.
  exists e, q'. split_and!.
  - by apply dstep_iff.
  - pose proof (dnext_fits _ _ q b Hq) as H. by rewrite Hn in H.
  - by rewrite on_byte_sim, Hn.
  - intros Hne. by apply abs_conc.
Qed.

End simulation.

(** ** The theorem at a concrete input *)

Lemma on_byte_refines_witness :
  exists e q',
    dstep 8 6 (CollectingLabel (str "T")) PACKET_INT e q' /\
    fits 8 6 q' /\
    on_byte (conc [replicate 8 7; replicate 8 7] (mkPtr 0 0) (mkPtr 1 2)
               (CollectingLabel (str "T")))
      PACKET_INT (fresh []) =
      on_event [replicate 8 7; replicate 8 7] (mkPtr 0 0) (mkPtr 1 2) (e, q') (fresh []) /\
    (apart (mkPtr 0 0) (mkPtr 1 2) ->
     abs (conc [replicate 8 7; replicate 8 7] (mkPtr 0 0) (mkPtr 1 2)
            (CollectingLabel (str "T"))) =
     CollectingLabel (str "T")).
Proof.
  apply (on_byte_refines [replicate 8 7; replicate 8 7] (mkPtr 0 0) (mkPtr 1 2)
           ltac:(compute_done) ltac:(compute_done)
           (CollectingLabel (str "T")) PACKET_INT (fresh [])).
  vm_compute. lia.
Defined.
