(* ===== verification/DecoderRun.v ===== *)
(** * The receiver's loop against the machine's runs

    [Decoder] shows that one byte moves the locals as the transition table
    says. This file lifts that to the blocking loop: the polls that find
    nothing, the bytes as they arrive in chunks, and the fuel that is
    enough.

    - [loop_consume]: with a byte pending, the loop polls until the byte
      has arrived, reads it and hands it to [on_byte]; at most one poll per
      chunk of the schedule is spent waiting.
    - [loop_starved]: with nothing pending the loop polls for ever.
    - [loop_refines]: on every device, for every fuel and every state of
      the device, the loop of the program is the loop of the
      specification's machine ([machine_step]: poll, then one transition
      of the table) seen through the representation [conc]; so two calls
      whose pointers have the same room go through the same states of
      the machine.
    - [loop_run]: with fuel for every chunk and every byte, the loop ends
      as the machine's run [drun] over the pending input does: it returns
      the packet, or writes out of bounds, or is left waiting in the state
      the machine is left in; and it has written one notice per byte the
      machine reported.
    - [loop_safe]: whatever the fuel and the input, the loop is in a state
      of the machine, or has returned a packet of the machine, or has
      written out of bounds; [loop_safe_dev] carries along any property of
      the device that arrival, reading and an error notice preserve. *)

From S2P Require Import Prelude CArray Memory Channel Serial Codec Packet Encoder DecoderSpec Decoder.

#[local] Open Scope Z_scope.

Implicit Types s : serial.

(** ** Definitions *)

(** Going on with the loop for [n] iterations after one step of it. *)
Definition resume (n : nat) (o : outcome serial (locals + Z * locals))
  : outcome serial (locals + Z * locals) :=
  match o with
  | Ok (inl st') s' => iter_fuel loop_body n st' s'
  | o => o
  end.

(** The outcome [o] of the loop, started on the device [s], is what the
    machine's run [r] over the pending input of [s] calls for. *)
Definition run_matches (h0 : heap) (pl pd : ptr) (s : serial) (r : list Z * verdict)
    (o : outcome serial (locals + Z * locals)) : Prop :=
  match r.2, o with
  | Blocked q, Ok (inl st') s' =>
      st' = conc h0 pl pd q /\ pending s' = [] /\ out_eq s' (notices r.1 s)
  | Returned lbl ty dat rest, Ok (inr (ty', st')) s' =>
      ty' = ty /\ st' = final h0 pl pd lbl ty dat /\
      pending s' = rest /\ out_eq s' (notices r.1 s)
  | Overflowed rest, Fault OutOfBounds s' =>
      pending s' = rest /\ out_eq s' (notices r.1 s)
  | _, _ => False
  end.

(** One iteration of the blocking loop as the specification has it, on
    any device: poll, and hand a byte that is there to the transition
    table. It answers the next state to go on and the packet at the end
    marker. *)
Definition machine_step {S : Type} `{!Channel S} (cap_l cap_d : nat) (q : dstate)
  : prog S (dstate + list Z * Z * list Z) :=
  n ← Serial_available;
  if bool_decide (0 < n) then
    b ← Serial_read;
    react (dnext cap_l cap_d q b)
  else mret (inl q).

(** The locals are those of some state of the machine that fits the
    buffers. *)
Definition in_machine (h0 : heap) (pl pd : ptr) (st : locals) : Prop :=
  exists q, fits (room h0 pl) (room h0 pd) q /\ st = conc h0 pl pd q.

(** ** Notices *)

#[export] Instance notice_proper b : Proper (out_eq ==> out_eq) (notice b).
Proof. intros s1 s2 H. unfold notice, sent. by rewrite H. Qed.

#[export] Instance notices_proper ns : Proper (out_eq ==> out_eq) (notices ns).
Proof.
  induction ns as [|n ns IH]; intros s1 s2 H; [done|].
  simpl. apply IH. by rewrite H.
Qed.

Lemma notices_cons n ns s : notices (n :: ns) s = notices ns (notice n s).
Proof. done. Qed.

Lemma notices_app ns1 ns2 s : notices (ns1 ++ ns2) s = notices ns2 (notices ns1 s).
Proof. apply fold_left_app. Qed.

Lemma pending_notice b s : pending (notice b s) = pending s.
Proof. done. Qed.

Lemma incoming_notice b s : incoming (notice b s) = incoming s.
Proof. done. Qed.

Lemma tx_notice b s : tx (notice b s) = tx s ++ notice_bytes b.
Proof. unfold notice, notice_bytes. simpl. by rewrite <- app_assoc. Qed.

Lemma tx_notices ns s : tx (notices ns s) = tx s ++ concat (notice_bytes <$> ns).
Proof.
  revert s. induction ns as [|n ns IH]; intros s; simpl.
  - by rewrite app_nil_r.
  - rewrite IH, tx_notice. by rewrite <- app_assoc.
Qed.

Lemma clock_notices ns s : clock (notices ns s) = clock s.
Proof. revert s. induction ns as [|n ns IH]; intros s; simpl; [done|]. by rewrite IH. Qed.

Lemma pending_notices ns s : pending (notices ns s) = pending s.
Proof. revert s. induction ns as [|n ns IH]; intros s; simpl; [done|]. by rewrite IH. Qed.

(** After a notice everything is flushed but the echoed byte. *)
Lemma flushed_notice b s : S (flushed (notice b s)) = length (tx (notice b s)).
Proof. unfold notice, sent. simpl. rewrite !length_app. simpl. lia. Qed.

(** So after a run that reported something, the last echoed byte is the
    only one not flushed. *)
Lemma flushed_notices ns s :
  ns <> [] -> S (flushed (notices ns s)) = length (tx (notices ns s)).
Proof.
  destruct ns as [|n ns _] using rev_ind; [done|]. intros _.
  rewrite notices_app. apply flushed_notice.
Qed.

Lemma notice_bytes_length b : length (notice_bytes b) = 18%nat.
Proof. done. Qed.

Lemma notice_wf b s : serial_wf s -> serial_wf (notice b s).
Proof.
  intros. unfold notice. apply emit_wf; [auto with opbox|].
  apply sent_wf; [|done]. apply frame_bytes; auto with opbox.
Qed.

Lemma notices_wf ns s : serial_wf s -> serial_wf (notices ns s).
Proof.
  revert s. induction ns as [|n ns IH]; intros s Hs; [done|].
  by apply IH, notice_wf.
Qed.

#[export] Hint Rewrite pending_notice incoming_notice tx_notice tx_notices
  clock_notices pending_notices notice_bytes_length : opbox_rw.

Lemma run_matches_out_eq h0 pl pd s1 s2 r o :
  out_eq s1 s2 -> run_matches h0 pl pd s1 r o -> run_matches h0 pl pd s2 r o.
Proof.
  intros H. unfold run_matches.
  destruct r.2, o as [[st'|[ty' st']] s'|[] s']; try done;
    rewrite H; done.
Qed.

(** ** The loop *)

Section loop.
Context (h0 : heap) (pl pd : ptr).
Context (Hcap_l : Z.of_nat (room h0 pl) <= INT_MAX).
Context (Hcap_d : Z.of_nat (room h0 pd) <= INT_MAX).

#[local] Abbreviation cap_l := (room h0 pl).
#[local] Abbreviation cap_d := (room h0 pd).
#[local] Abbreviation conc := (conc h0 pl pd).
#[local] Abbreviation final := (final h0 pl pd).
#[local] Abbreviation run_matches := (run_matches h0 pl pd).
#[local] Abbreviation in_machine := (in_machine h0 pl pd).
#[local] Abbreviation drun := (drun cap_l cap_d).
#[local] Abbreviation dnext := (dnext cap_l cap_d).

Lemma iter_fuel_resume n st s :
  iter_fuel loop_body (S n) st s = resume n (loop_body st s).
Proof. rewrite iter_fuel_S. by destruct (loop_body st s) as [[?|?] ?|]. Qed.

(** An iteration that finds no byte. *)
Lemma loop_body_wait st s :
  flag_ser_end st = false -> rx (arrive s) = [] ->
  loop_body st s = Ok (inl st) (arrive s).
Proof.
  intros Hend Hrx. unfold loop_body. rewrite Hend.
  erewrite bind_Ok by apply Serial_available_run. cbv beta.
  by rewrite Hrx.
Qed.

(** An iteration that finds one. *)
Lemma loop_body_read st s b r :
  flag_ser_end st = false -> rx (arrive s) = b :: r ->
  loop_body st s = on_byte st b (consume (arrive s)).
Proof.
  intros Hend Hrx. unfold loop_body. rewrite Hend.
  erewrite bind_Ok by apply Serial_available_run. cbv beta.
  rewrite Hrx. rewrite bool_decide_true by (simpl; lia).
  destruct (poll_some _ _ _ Hrx) as (rest & _ & _ & Hread).
  by erewrite bind_Ok by apply Hread.
Qed.

(** With nothing pending, the loop polls and stays where it is. *)
Lemma loop_starved st s fuel :
  flag_ser_end st = false -> pending s = [] ->
  exists s', iter_fuel loop_body fuel st s = Ok (inl st) s' /\
    pending s' = [] /\ out_eq s' s.
Proof.
  intros Hend Hp.
  destruct (poll_starved loop_body st id (fun s => loop_body_wait st s Hend)
              (fun _ => eq_refl) (fun _ => eq_refl) s fuel Hp) as [Hrun Hp'].
  exists (polls id fuel s). split_and!; [done..|apply polls_id].
Qed.

(** With a byte pending, the loop waits for it, at most one poll per chunk
    of the schedule, then reads it and hands it to [on_byte]. *)
Lemma loop_consume st s b rest :
  flag_ser_end st = false -> pending s = b :: rest ->
  exists k s1,
    pending s1 = rest /\ out_eq s1 s /\
    (k + length (incoming s1) <= length (incoming s))%nat /\
    (forall n, iter_fuel loop_body (k + S n) st s = resume n (on_byte st b s1)).
Proof.
  intros Hend Hp.
  destruct (poll_until loop_body st id (fun s => loop_body_wait st s Hend)
              (fun _ => eq_refl) (fun _ => eq_refl) s b rest Hp)
    as (k & r & Hrx & Hp1 & Hlen & Hgo).
  destruct (poll_some _ _ _ Hrx) as (rest' & Hp2 & Hp3 & _).
  exists k, (consume (arrive (polls id k s))). split_and!.
  - congruence.
  - by rewrite out_eq_consume, out_eq_arrive, polls_id.
  - pose proof (length_incoming_arrive (polls id k s)). simpl. lia.
  - intros n. by rewrite Hgo, iter_fuel_resume, (loop_body_read _ _ _ _ Hend Hrx).
Qed.

(** Fuel for every chunk and every byte is enough for the loop to end as
    the machine's run over the pending input does. *)
Lemma loop_run q s fuel :
  fits cap_l cap_d q ->
  (length (incoming s) + length (pending s) <= fuel)%nat ->
  run_matches s (drun q (pending s)) (iter_fuel loop_body fuel (conc q) s).
Proof.
  remember (pending s) as bs eqn:Hp. symmetry in Hp.
  revert q s fuel Hp. induction bs as [|b bs IH]; intros q s fuel Hp Hq Hfuel.
  { destruct (loop_starved (conc q) s fuel (conc_not_ended _ _ _ q) Hp) as (s' & -> & ? & ?).
    by split_and!. }
  destruct (loop_consume (conc q) s b bs (conc_not_ended _ _ _ q) Hp)
    as (k & s1 & Hp1 & Ho & Hlen & Hgo).
  simpl in Hfuel. replace fuel with (k + S (fuel - k - 1))%nat by lia.
  rewrite Hgo, on_byte_sim, drun_cons by done.
  assert (length (incoming s1) + length bs <= fuel - k - 1)%nat as Hfuel1 by lia.
  pose proof (dnext_fits cap_l cap_d q b Hq) as Hq'.
  destruct (dnext q b) as [[|n|lbl ty dat|] q']; simpl in *.
  - eapply run_matches_out_eq; [done|]. by apply IH.
  - apply (run_matches_out_eq _ _ _ s1); [done|].
    specialize (IH q' (notice n s1) (fuel - k - 1)%nat Hp1 Hq' Hfuel1).
    unfold DecoderRun.run_matches in *.
    by destruct (drun q' bs) as [ns v].
  - by split_and!.
  - by split_and!.
Qed.

Section any_device.
Context {S : Type} `{!Channel S}.

(** An answer of the machine that goes on goes on in the next state of
    the table. *)
Lemma react_inl (r : event * dstate) (s : S) q' (s' : S) :
  react r s = Ok (inl q') s' -> q' = r.2.
Proof.
  destruct r as [[|n|lbl ty dat|] q1]; simpl; prog_unfold; try by intros [= <- <-].
  destruct (SerialSendErrorText _ s) as [[] s1|]; [|done].
  destruct (Serial_write _ s1); by intros [= <- <-].
Qed.

(** An answer that returns returns a packet of the table. *)
Lemma react_inr (r : event * dstate) (s : S) p (s' : S) :
  react r s = Ok (inr p) s' -> r.1 = Packet p.1.1 p.1.2 p.2.
Proof.
  destruct r as [[|n|lbl ty dat|] q1]; simpl; prog_unfold; try by intros [= <- <-].
  destruct (SerialSendErrorText _ s) as [[] s1|]; [|done].
  by destruct (Serial_write _ s1).
Qed.

(** One iteration of the program is one iteration of the machine. *)
Lemma loop_body_machine q (s : S) :
  fits cap_l cap_d q ->
  loop_body (conc q) s =
  outcome_map (represent h0 pl pd) (machine_step cap_l cap_d q s).
Proof.
  intros Hq. unfold loop_body, machine_step. rewrite conc_not_ended. prog_unfold.
  destruct (Serial_available s) as [n s1|]; [|done].
  case_bool_decide; [|done].
  destruct (Serial_read s1) as [b s2|]; [|done]. by apply on_byte_react.
Qed.

(** The next state of the machine's loop is the next state of the
    table. *)
Lemma machine_step_inl q (s : S) q' (s' : S) :
  machine_step cap_l cap_d q s = Ok (inl q') s' ->
  q' = q \/ exists b, q' = (dnext q b).2.
Proof.
  unfold machine_step. prog_unfold.
  destruct (Serial_available s) as [n s1|]; [|done].
  case_bool_decide; [|by intros [= <- <-]; left].
  destruct (Serial_read s1) as [b s2|]; [|done].
  intros ->%react_inl. right. by exists b.
Qed.

(** The loop of the program is the loop of the machine, whatever the
    device, its state and the fuel: still looping in the locals of the
    state the machine is in, returned with the packet the machine
    completed, or out of bounds where the machine overflows. *)
Lemma loop_refines q (s : S) fuel :
  fits cap_l cap_d q ->
  iter_fuel loop_body fuel (conc q) s =
  outcome_map (represent h0 pl pd) (iter_fuel (machine_step cap_l cap_d) fuel q s).
Proof.
  intros Hq.
  apply (iter_fuel_represent (machine_step cap_l cap_d) loop_body conc
           (fun r => (r.1.2, final r.1.1 r.1.2 r.2)) (fits cap_l cap_d)); [| |done].
  - intros q1 s1 Hq1. by apply loop_body_machine.
  - intros q1 s1 q2 s2 Hq1 [->|[b ->]]%machine_step_inl; [done|by apply dnext_fits].
Qed.

End any_device.

(** The machine's loop stays in states that fit, returns packets that fit
    and fails by overflow only. *)
Lemma machine_loop_fits q s fuel :
  fits cap_l cap_d q ->
  outcome_sat
    (fun q' _ => fits cap_l cap_d q')
    (fun r _ => (length r.1.1 < cap_l)%nat /\ (length r.2 < cap_d)%nat /\
                ends_label r.1.2 = true)
    (fun e _ => e = OutOfBounds)
    (iter_fuel (machine_step cap_l cap_d) fuel q s).
Proof.
  intros Hq. apply iter_fuel_rule; [|done]. clear q s Hq. intros q s Hq.
  unfold machine_step. erewrite bind_Ok by apply Serial_available_run. cbv beta.
  case_bool_decide; [|done].
  destruct (rx (arrive s)) as [|b r] eqn:Hrx; [simpl in *; lia|].
  destruct (poll_some _ _ _ Hrx) as (rest & _ & _ & Hread).
  erewrite bind_Ok by apply Hread. cbv beta.
  pose proof (dnext_fits cap_l cap_d q b Hq) as Hq'.
  pose proof (dnext_dstep cap_l cap_d q b) as Hstep.
  destruct (dnext q b) as [[|n|lbl ty dat|] q']; simpl in *; try done.
  inv Hstep. destruct Hq as (? & ? & Hty). split_and!; try done.
  by apply ends_label_spec.
Qed.

(** Whatever the fuel, the loop is in a state of the machine, or has
    returned a packet the machine completed, or has written out of
    bounds; and a property [P] of the device that polls, reads and notices
    keep holds throughout. *)
Lemma loop_safe_dev (P : serial -> Prop) q s fuel :
  (forall s, P s -> P (arrive s)) -> (forall s, P s -> P (consume s)) ->
  (forall n s, P s -> P (notice n s)) ->
  fits cap_l cap_d q -> P s ->
  outcome_sat
    (fun st s' => in_machine st /\ P s')
    (fun r s' => (exists lbl ty dat,
        r = (ty, final lbl ty dat) /\
        (length lbl < cap_l)%nat /\ (length dat < cap_d)%nat /\
        ends_label ty = true) /\ P s')
    (fun e s' => e = OutOfBounds /\ P s')
    (iter_fuel loop_body fuel (conc q) s).
Proof.
  intros Harrive Hconsume Hnotice Hq HP. apply iter_fuel_rule; [|by split; [exists q|]].
  clear q s Hq HP. intros st s ((q & Hq & ->) & HP). unfold loop_body.
  rewrite conc_not_ended. erewrite bind_Ok by apply Serial_available_run. cbv beta.
  case_bool_decide; [|by split; [exists q|auto]].
  destruct (rx (arrive s)) as [|b r] eqn:Hrx; [simpl in *; lia|].
  destruct (poll_some _ _ _ Hrx) as (rest & _ & _ & Hread).
  erewrite bind_Ok by apply Hread. cbv beta. rewrite on_byte_sim by done.
  pose proof (dnext_fits cap_l cap_d q b Hq) as Hq'.
  pose proof (dnext_dstep cap_l cap_d q b) as Hstep.
  destruct (dnext q b) as [[|n|lbl ty dat|] q']; simpl in *;
    [by split; [exists q'|auto]|by split; [exists q'|auto]| |by auto].
  inv Hstep. destruct Hq as (? & ? & Hty). split; [|by auto]. exists lbl, ty, dat.
  split_and!; try done. by apply ends_label_spec.
Qed.

Lemma loop_safe q (s : serial) fuel :
  fits cap_l cap_d q ->
  outcome_sat
    (fun st _ => in_machine st)
    (fun r _ => exists lbl ty dat,
        r = (ty, final lbl ty dat) /\
        (length lbl < cap_l)%nat /\ (length dat < cap_d)%nat /\
        ends_label ty = true)
    (fun e _ => e = OutOfBounds)
    (iter_fuel loop_body fuel (conc q) s).
Proof.
  intros Hq.
  pose proof (loop_safe_dev (fun _ => True) q s fuel) as H.
  destruct (iter_fuel _ _ _ _) as [[?|?] ?|]; simpl in *; by apply H.
Qed.

End loop.
