(* ===== verification/Receiver.v ===== *)
(** * The call of the receiver

    [SerialReceiveAndParsePacket] (lines 121-177) is the loop of
    [loop_body] ([Decoder]) from the initial locals, under fuel.
    [SerialReceiveAndParsePacket_at] is the call as C has it, through two
    pointers into a memory, which it answers as it leaves it;
    [SerialReceiveAndParsePacket] is that call with two arrays of their
    own, and what the caller has afterwards is the value returned and the
    two arrays, which the function wrote in place. This file is about
    the latter; [Aliasing] is about pointers into the same array.

    On every device and through any two pointers, the call is the loop
    of the specification's machine ([receive_at_refines], from
    [loop_refines] of [DecoderRun]). The theorems about the call as its
    caller sees it, on the channel of the specification, are derived
    from [loop_run] and [loop_safe] of [DecoderRun]:

    - it returns what the reference parser finds in the pending input, with
      the label and the payload written to the arrays as C strings;
    - it returns exactly when the reference parser finds a packet that fits
      the arrays;
    - the outcome does not depend on how the input is chunked;
    - the only undefined behaviour it can reach is the write past the end
      of an array, and it does reach it on a label or payload that is too
      long;
    - it never returns on input without an end marker;
    - the type it returns is never that of an integer pair;
    - when it returns it has written one error notice per noise byte and
      nothing else;
    - arrays of characters and a channel of bytes stay so ([locals_wf],
      [handed_back_wf]).

    Throughout, the arrays passed to the call have at most [INT_MAX]
    cells: a longer array cannot exist on the target, whose memory is
    smaller than that. *)

From S2P Require Import Prelude CArray Memory Channel Serial Codec Packet Encoder.
From S2P Require Import DecoderSpec Decoder DecoderRun.

#[local] Open Scope Z_scope.

Implicit Types s : serial.

(** ** The function *)

(** What the caller has after the [return]: the value returned and the
    memory, which the function wrote in place. *)
Definition returned (r : locals + Z * locals) : locals + Z * heap :=
  match r with
  | inl st => inl st
  | inr (ty, st) => inr (ty, memory st)
  end.

(** The call with the pointers [buffer_label] and [buffer_data] into the
    memory [memory], allowed [fuel] iterations of its loop: [inl st] when
    it is still looping with locals [st], [inr (ty, memory')] when it has
    returned [ty] and left the memory [memory']. *)
Definition SerialReceiveAndParsePacket_at {S : Type} `{!Channel S}
    (fuel : nat) (memory : heap) (buffer_label buffer_data : ptr)
  : prog S (locals + Z * heap) :=
  r ← iter_fuel loop_body fuel (init_locals buffer_label buffer_data memory);
  mret (returned r).

(** The pointers to two arrays of their own. *)
Abbreviation own_label := (mkPtr 0 0).
Abbreviation own_data := (mkPtr 1 0).

(** What the caller finds in the two arrays after the [return]. *)
Definition arrays_of (r : locals + Z * heap) : locals + Z * list Z * list Z :=
  match r with
  | inl st => inl st
  | inr (ty, h) => inr (ty, array_at h own_label, array_at h own_data)
  end.

(** The call with two arrays of their own: [inr (ty, label, data)] when
    it has returned [ty] and left [label] and [data] in the two arrays. *)
Definition SerialReceiveAndParsePacket {S : Type} `{!Channel S}
    (fuel : nat) (buffer_label buffer_data : list Z)
  : prog S (locals + Z * list Z * list Z) :=
  r ← SerialReceiveAndParsePacket_at fuel [buffer_label; buffer_data]
        own_label own_data;
  mret (arrays_of r).

(** The same of what the loop answers. *)
Definition handed_back (r : locals + Z * locals) : locals + Z * list Z * list Z :=
  arrays_of (returned r).

(** ** Definitions *)

(** Two outcomes that agree up to the input side of the device: the same
    result or fault, the same input left pending, the same output. *)
Definition same_outcome {A} (o1 o2 : outcome serial A) : Prop :=
  match o1, o2 with
  | Ok a1 s1, Ok a2 s2 => a1 = a2 /\ pending s1 = pending s2 /\ out_eq s1 s2
  | Fault e1 s1, Fault e2 s2 => e1 = e2 /\ pending s1 = pending s2 /\ out_eq s1 s2
  | _, _ => False
  end.

(** The loop invariant on the locals themselves. *)
Definition locals_ok (h0 : heap) (pl pd : ptr) (st : locals) : Prop :=
  flag_ser_end st = false /\
  (flag_ser_label st && flag_ser_data st = false) /\
  0 <= length_label st <= Z.of_nat (room h0 pl) /\
  0 <= length_data st <= Z.of_nat (room h0 pd) /\
  buffer_label st = pl /\ buffer_data st = pd /\
  (forall p, room (memory st) p = room h0 p) /\
  (flag_ser_data st = true ->
   exists ty, data_type st = Some ty /\ ends_label ty = true) /\
  (flag_ser_label st = false -> flag_ser_data st = false -> st = init_locals pl pd h0).

(** The memory holds characters and so does the type marker once it is
    assigned. *)
Definition locals_wf (st : locals) : Prop :=
  heap_bytes (memory st) /\ from_option is_byte True (data_type st).

(** What a call leaves well formed: the locals while it loops, the value
    returned and the two arrays when it has returned, and the channel in
    every case. *)
Definition handed_back_wf (o : outcome serial (locals + Z * list Z * list Z)) : Prop :=
  match o with
  | Ok (inl st) s' => locals_wf st /\ serial_wf s'
  | Ok (inr (ty, label, data)) s' =>
      is_byte ty /\ Forall is_byte label /\ Forall is_byte data /\ serial_wf s'
  | Fault _ s' => serial_wf s'
  end.

(** ** From the loop to the call *)

Lemma receive_at_unfold {S : Type} `{!Channel S} fuel h0 pl pd (s : S) :
  SerialReceiveAndParsePacket_at fuel h0 pl pd s =
  outcome_map returned (iter_fuel loop_body fuel (conc h0 pl pd Idle) s).
Proof. done. Qed.

(** With two arrays of their own the caller finds the label in the one
    and the payload in the other. *)
Lemma handed_back_final b0l b0d lbl ty dat :
  handed_back (inr (ty, final [b0l; b0d] own_label own_data lbl ty dat)) =
  inr (ty, overwrite b0l (lbl ++ [0]), overwrite b0d (dat ++ [0])).
Proof. done. Qed.

Lemma receive_unfold {S : Type} `{!Channel S} fuel b0l b0d (s : S) :
  SerialReceiveAndParsePacket fuel b0l b0d s =
  outcome_map handed_back
    (iter_fuel loop_body fuel (conc [b0l; b0d] own_label own_data Idle) s).
Proof.
  unfold SerialReceiveAndParsePacket, SerialReceiveAndParsePacket_at. prog_unfold.
  by destruct (iter_fuel _ _ _ _).
Qed.

(** More fuel does not change a call that has returned or faulted. *)
Lemma receive_mono {S : Type} `{!Channel S} fuel fuel' b0l b0d (s s' : S) r :
  (fuel <= fuel')%nat ->
  SerialReceiveAndParsePacket fuel b0l b0d s = Ok (inr r) s' ->
  SerialReceiveAndParsePacket fuel' b0l b0d s = Ok (inr r) s'.
Proof.
  intros Hle. rewrite !receive_unfold.
  destruct (iter_fuel _ fuel _ s) as [[st|[ty st]] s1|] eqn:Hrun; try done.
  by rewrite (iter_fuel_mono _ _ _ _ _ _ _ Hle Hrun).
Qed.

Lemma locals_ok_conc h0 pl pd q :
  fits (room h0 pl) (room h0 pd) q -> locals_ok h0 pl pd (conc h0 pl pd q).
Proof.
  destruct q as [|lbl|lbl ty dat]; simpl.
  - intros _. split_and!; simpl; try done; lia.
  - intros Hl. split_and!; simpl; try done; try lia.
    intros p. by apply room_fill.
  - intros (Hl & Hd & Hty). split_and!; simpl; try done; try lia.
    + by apply room_written.
    + intros _. exists ty. split; [done|]. by apply ends_label_spec.
Qed.

Lemma same_outcome_matches h0 pl pd s1 s2 r o1 o2 :
  out_eq s1 s2 ->
  run_matches h0 pl pd s1 r o1 -> run_matches h0 pl pd s2 r o2 ->
  same_outcome o1 o2.
Proof.
  intros Hs. unfold run_matches, same_outcome.
  destruct r.2, o1 as [[?|[? ?]] ?|[] ?], o2 as [[?|[? ?]] ?|[] ?]; try done.
  - intros (-> & -> & ->) (-> & -> & ->). by rewrite Hs.
  - intros (-> & -> & -> & ->) (-> & -> & -> & ->). by rewrite Hs.
  - intros (-> & ->) (-> & ->). by rewrite Hs.
Qed.

Lemma same_outcome_handed_back (o1 o2 : outcome serial (locals + Z * locals)) :
  same_outcome o1 o2 ->
  same_outcome (outcome_map handed_back o1) (outcome_map handed_back o2).
Proof.
  destruct o1, o2; simpl; try done. by intros (-> & ? & ?).
Qed.


(** ** Bytes stay bytes *)

Ltac locals_wf_done :=
  unfold locals_wf in *;
  repeat match goal with H : data_type _ = Some _ |- _ => rewrite H in *; clear H end;
  simpl in *; destruct_and?; split_and?; try done;
  try (eapply poke_bytes; [| |done]; [done|]);
  auto with opbox; unfold is_byte; lia.

Lemma on_byte_wf st b s :
  locals_wf st -> serial_wf s ->
  outcome_sat (fun st' s' => locals_wf st' /\ serial_wf s')
              (fun r s' => is_byte r.1 /\ locals_wf r.2 /\ serial_wf s')
              (fun _ s' => serial_wf s')
              (on_byte st b s).
Proof.
  intros Hst Hs. unfold on_byte.
  destruct (flag_ser_label st); [|destruct (flag_ser_data st); [|case_bool_decide]].
  4: { erewrite bind_Ok by apply send_notice_run. simpl. split; [done|]. by apply notice_wf. }
  all: unfold assign_at, int_succ, lift_option; prog_unfold.
  all: repeat case_match; simplify_eq/=; try done.
  all: locals_wf_done.
Qed.

Lemma loop_body_wf st s :
  locals_wf st -> serial_wf s ->
  outcome_sat (fun st' s' => locals_wf st' /\ serial_wf s')
              (fun r s' => is_byte r.1 /\ locals_wf r.2 /\ serial_wf s')
              (fun _ s' => serial_wf s')
              (loop_body st s).
Proof.
  intros Hst Hs. unfold loop_body. destruct (flag_ser_end st); [done|].
  erewrite bind_Ok by apply Serial_available_run. cbv beta.
  pose proof (arrive_wf s Hs) as Hs'.
  case_bool_decide; [|done].
  destruct (rx (arrive s)) as [|x r] eqn:Hrx; [simpl in *; lia|].
  destruct (poll_some _ _ _ Hrx) as (rest & _ & _ & Hread).
  erewrite bind_Ok by apply Hread. cbv beta.
  apply on_byte_wf; [done|]. by apply (Serial_read_wf _ x _ Hs').
Qed.

(** ** Properties *)

(** ** The call through any two pointers *)

Section receive_at.
Context (h0 : heap) (pl pd : ptr).
Context (Hcap_l : Z.of_nat (room h0 pl) <= INT_MAX).
Context (Hcap_d : Z.of_nat (room h0 pd) <= INT_MAX).

(** With enough fuel the call ends as the machine's run over the pending
    input does. *)
Lemma receive_at_run s fuel :
  (length (incoming s) + length (pending s) <= fuel)%nat ->
  run_matches h0 pl pd s (drun (room h0 pl) (room h0 pd) Idle (pending s))
    (iter_fuel loop_body fuel (conc h0 pl pd Idle) s).
Proof. by apply (loop_run h0 pl pd Hcap_l Hcap_d Idle). Qed.

Lemma receive_at_Returned s fuel ns lbl ty dat rest :
  drun (room h0 pl) (room h0 pd) Idle (pending s) = (ns, Returned lbl ty dat rest) ->
  (length (incoming s) + length (pending s) <= fuel)%nat ->
  exists s',
    iter_fuel loop_body fuel (conc h0 pl pd Idle) s =
      Ok (inr (ty, final h0 pl pd lbl ty dat)) s' /\
    pending s' = rest /\ out_eq s' (notices ns s).
Proof.
  intros Hrun Hm%receive_at_run. rewrite Hrun in Hm. unfold run_matches in Hm.
  destruct (iter_fuel _ _ _ _) as [[?|[? ?]] s'|]; try done.
  destruct Hm as (-> & -> & ? & ?). by exists s'.
Qed.

Lemma receive_at_Overflowed s fuel ns rest :
  drun (room h0 pl) (room h0 pd) Idle (pending s) = (ns, Overflowed rest) ->
  (length (incoming s) + length (pending s) <= fuel)%nat ->
  exists s',
    iter_fuel loop_body fuel (conc h0 pl pd Idle) s = Fault OutOfBounds s' /\
    pending s' = rest /\ out_eq s' (notices ns s).
Proof.
  intros Hrun Hm%receive_at_run. rewrite Hrun in Hm. unfold run_matches in Hm.
  destruct (iter_fuel _ _ _ _) as [[?|[? ?]] ?|[] s']; try done.
  by exists s'.
Qed.

(** A loop that has returned or faulted did so on a run of the machine
    that returned or overflowed. *)
Lemma receive_at_verdict s fuel :
  match iter_fuel loop_body fuel (conc h0 pl pd Idle) s with
  | Ok (inl _) _ => True
  | Ok (inr _) _ =>
      exists ns lbl ty dat rest,
        drun (room h0 pl) (room h0 pd) Idle (pending s) = (ns, Returned lbl ty dat rest)
  | Fault _ _ =>
      exists ns rest,
        drun (room h0 pl) (room h0 pd) Idle (pending s) = (ns, Overflowed rest)
  end.
Proof.
  set (big := (fuel `max` (length (incoming s) + length (pending s)))%nat).
  pose proof (receive_at_run s big ltac:(lia)) as Hrun.
  destruct (iter_fuel _ fuel _ _) as [[?|r] s1|e s1] eqn:Hf; [done|..].
  - rewrite (iter_fuel_mono _ fuel big _ _ _ _ ltac:(lia) Hf) in Hrun.
    destruct (drun _ _ Idle (pending s)) as [ns v]. unfold run_matches in Hrun.
    destruct v, r; try done. by eexists _, _, _, _, _.
  - rewrite (iter_fuel_mono_fault _ fuel big _ _ _ _ ltac:(lia) Hf) in Hrun.
    destruct (drun _ _ Idle (pending s)) as [ns v]. unfold run_matches in Hrun.
    destruct v; try done. by eexists _, _.
Qed.

End receive_at.

(** ** The loop on two arrays of their own *)

Section arrays.
Context (b0l b0d : list Z).
Context (Hcap_l : Z.of_nat (length b0l) <= INT_MAX).
Context (Hcap_d : Z.of_nat (length b0d) <= INT_MAX).

Lemma loop_run_arrays q s fuel :
  fits (length b0l) (length b0d) q ->
  (length (incoming s) + length (pending s) <= fuel)%nat ->
  run_matches [b0l; b0d] own_label own_data s
    (drun (length b0l) (length b0d) q (pending s))
    (iter_fuel loop_body fuel (conc [b0l; b0d] own_label own_data q) s).
Proof. exact (loop_run [b0l; b0d] own_label own_data Hcap_l Hcap_d q s fuel). Qed.

Lemma loop_safe_arrays (P : serial -> Prop) q s fuel :
  (forall s, P s -> P (arrive s)) -> (forall s, P s -> P (consume s)) ->
  (forall n s, P s -> P (notice n s)) ->
  fits (length b0l) (length b0d) q -> P s ->
  outcome_sat
    (fun st s' => in_machine [b0l; b0d] own_label own_data st /\ P s')
    (fun r s' => (exists lbl ty dat,
        r = (ty, final [b0l; b0d] own_label own_data lbl ty dat) /\
        (length lbl < length b0l)%nat /\ (length dat < length b0d)%nat /\
        ends_label ty = true) /\ P s')
    (fun e s' => e = OutOfBounds /\ P s')
    (iter_fuel loop_body fuel (conc [b0l; b0d] own_label own_data q) s).
Proof. exact (loop_safe_dev [b0l; b0d] own_label own_data Hcap_l Hcap_d P q s fuel). Qed.

End arrays.

Section receive.
Context (b0l b0d : list Z).
Context (Hcap_l : Z.of_nat (length b0l) <= INT_MAX).
Context (Hcap_d : Z.of_nat (length b0d) <= INT_MAX).

#[local] Abbreviation conc := (conc [b0l; b0d] own_label own_data).
#[local] Abbreviation final := (final [b0l; b0d] own_label own_data).
#[local] Abbreviation in_machine := (in_machine [b0l; b0d] own_label own_data).
#[local] Abbreviation locals_ok := (locals_ok [b0l; b0d] own_label own_data).

(** With enough fuel the call ends as the machine's run over the pending
    input does. *)
Lemma receive_Returned s fuel ns lbl ty dat rest :
  drun (length b0l) (length b0d) Idle (pending s) = (ns, Returned lbl ty dat rest) ->
  (length (incoming s) + length (pending s) <= fuel)%nat ->
  exists s',
    SerialReceiveAndParsePacket fuel b0l b0d s =
      Ok (inr (ty, overwrite b0l (lbl ++ [0]), overwrite b0d (dat ++ [0]))) s' /\
    pending s' = rest /\ out_eq s' (notices ns s).
Proof.
  intros Hrun Hfuel. rewrite receive_unfold.
  destruct (receive_at_Returned [b0l; b0d] own_label own_data Hcap_l Hcap_d
              s fuel _ _ _ _ _ Hrun Hfuel) as (s' & Hret & ? & ?).
  exists s'. by rewrite Hret.
Qed.

Lemma receive_Overflowed s fuel ns rest :
  drun (length b0l) (length b0d) Idle (pending s) = (ns, Overflowed rest) ->
  (length (incoming s) + length (pending s) <= fuel)%nat ->
  exists s',
    SerialReceiveAndParsePacket fuel b0l b0d s = Fault OutOfBounds s' /\
    pending s' = rest /\ out_eq s' (notices ns s).
Proof.
  intros Hrun Hfuel. rewrite receive_unfold.
  destruct (receive_at_Overflowed [b0l; b0d] own_label own_data Hcap_l Hcap_d
              s fuel _ _ Hrun Hfuel) as (s' & Hret & ? & ?).
  exists s'. by rewrite Hret.
Qed.

(** A call that has returned did so on a run of the machine that
    returned. *)
Lemma receive_returned_run s fuel r s' :
  SerialReceiveAndParsePacket fuel b0l b0d s = Ok (inr r) s' ->
  exists ns lbl ty dat rest,
    drun (length b0l) (length b0d) Idle (pending s) = (ns, Returned lbl ty dat rest).
Proof.
  rewrite receive_unfold.
  pose proof (receive_at_verdict [b0l; b0d] own_label own_data Hcap_l Hcap_d s fuel)
    as Hv.
  by destruct (iter_fuel _ _ _ _) as [[?|?] ?|].
Qed.

(** A call that has faulted did so on a run of the machine that
    overflowed, which takes more input than the smaller array holds. *)
Lemma receive_fault_run s fuel e s' :
  SerialReceiveAndParsePacket fuel b0l b0d s = Fault e s' ->
  exists ns rest,
    drun (length b0l) (length b0d) Idle (pending s) = (ns, Overflowed rest).
Proof.
  rewrite receive_unfold.
  pose proof (receive_at_verdict [b0l; b0d] own_label own_data Hcap_l Hcap_d s fuel)
    as Hv.
  by destruct (iter_fuel _ _ _ _) as [[?|?] ?|].
Qed.

Lemma receive_short_input s fuel e s' :
  (length (pending s) <= length b0l `min` length b0d)%nat ->
  SerialReceiveAndParsePacket fuel b0l b0d s <> Fault e s'.
Proof.
  intros Hlen (ns & rest & Hrun%drun_overflowed_long)%receive_fault_run.
  simpl in Hrun. lia.
Qed.

(** Whatever the fuel, the loop is in the machine, has returned one of its
    packets, or has written out of bounds. *)
Lemma receive_safe s fuel :
  outcome_sat
    (fun st _ => in_machine st)
    (fun r _ => exists lbl ty dat,
        r = (ty, final lbl ty dat) /\
        (length lbl < length b0l)%nat /\ (length dat < length b0d)%nat /\
        ends_label ty = true)
    (fun e _ => e = OutOfBounds)
    (iter_fuel loop_body fuel (conc Idle) s).
Proof. by apply (loop_safe [b0l; b0d] own_label own_data Hcap_l Hcap_d Idle s fuel). Qed.

(** A call reads forwards: it leaves no more of the schedule and no more
    input than it found, so the fuel that was enough for it is enough for
    the next call. *)
Lemma receive_forwards s fuel r s' :
  SerialReceiveAndParsePacket fuel b0l b0d s = Ok r s' ->
  (length (incoming s') <= length (incoming s))%nat /\
  (length (pending s') <= length (pending s))%nat.
Proof.
  rewrite receive_unfold.
  pose proof (loop_safe_arrays b0l b0d Hcap_l Hcap_d
                (fun s' => (length (incoming s') <= length (incoming s))%nat /\
                           (length (pending s') <= length (pending s))%nat) Idle s fuel)
    as Hsafe.
  destruct (iter_fuel _ _ _ _) as [[?|?] s1|]; [| |done]; intros [= _ <-];
    apply Hsafe; try done.
  all: try (intros s0 [Hi Hp]; split;
            [by etrans; [apply length_incoming_arrive|]|by rewrite pending_arrive]).
  all: intros s0 [Hi Hp]; split; [done|by etrans; [apply length_pending_consume|]].
Qed.

(** What a call that has returned has done, whatever fuel it was given. *)
Lemma receive_returned_eq s p fuel r s' :
  parse (pending s) = Some p ->
  SerialReceiveAndParsePacket fuel b0l b0d s = Ok (inr r) s' ->
  r = (p_type p, overwrite b0l ((to_char <$> p_label p) ++ [0]),
       overwrite b0d ((to_char <$> p_payload p) ++ [0])) /\
  pending s' = p_rest p /\ out_eq s' (notices (p_noise p) s).
Proof.
  intros Hp Hret.
  destruct (receive_returned_run _ _ _ _ Hret) as (ns & lbl & ty & dat & rest & Hrun).
  set (big := (fuel `max` (length (incoming s) + length (pending s)))%nat).
  apply (receive_mono _ big) in Hret; [|lia].
  destruct (receive_Returned s big _ _ _ _ _ Hrun ltac:(lia)) as (s1 & Hret1 & ? & ?).
  apply drun_parse in Hrun as (p' & Hp' & _ & _ & -> & -> & -> & -> & ->).
  rewrite Hret1 in Hret. by simplify_eq.
Qed.

(** C1. The receiver returns what the reference parser finds. If the
    input still to be read is noise, then a frame whose label and payload
    fit the arrays with their terminating NUL, then anything, the call
    returns the frame's type marker, leaves the label and the payload in
    the two arrays as NUL-terminated strings (the cells behind the NUL keep
    what they held), has written one error notice per noise byte, and
    leaves what follows the end marker unread. Fuel for one iteration per
    chunk of the arrival schedule and one per byte is enough, however the
    input is chunked. *)
Theorem receive_returns_parse s p fuel :
  parse (pending s) = Some p ->
  (length (p_label p) < length b0l)%nat ->
  (length (p_payload p) < length b0d)%nat ->
  (length (incoming s) + length (pending s) <= fuel)%nat ->
  exists s',
    SerialReceiveAndParsePacket fuel b0l b0d s =
      Ok (inr (p_type p,
               overwrite b0l ((to_char <$> p_label p) ++ [0]),
               overwrite b0d ((to_char <$> p_payload p) ++ [0]))) s' /\
    pending s' = p_rest p /\
    out_eq s' (notices (p_noise p) s).
Proof.
  intros Hparse Hl Hd. apply receive_Returned, drun_parse. by exists p.
Qed.

(** C2. The outcome of a call does not depend on how the input arrives.
    Two devices with the same input still to be read and the same output
    so far, whatever is already buffered and however the rest is chunked,
    give the same result or the same fault, leave the same input unread and
    have written the same bytes, once each has fuel for its chunks and
    bytes. *)
Theorem receive_chunking s1 s2 fuel1 fuel2 :
  pending s1 = pending s2 -> out_eq s1 s2 ->
  (length (incoming s1) + length (pending s1) <= fuel1)%nat ->
  (length (incoming s2) + length (pending s2) <= fuel2)%nat ->
  same_outcome (SerialReceiveAndParsePacket fuel1 b0l b0d s1)
               (SerialReceiveAndParsePacket fuel2 b0l b0d s2).
Proof.
  intros Hp Ho Hf1 Hf2. rewrite !receive_unfold.
  apply same_outcome_handed_back.
  pose proof (loop_run_arrays b0l b0d Hcap_l Hcap_d Idle s1 fuel1 I Hf1) as H1.
  pose proof (loop_run_arrays b0l b0d Hcap_l Hcap_d Idle s2 fuel2 I Hf2) as H2.
  rewrite Hp in H1. by eapply same_outcome_matches.
Qed.

(** C4. The only undefined behaviour the receiver can reach is the write
    past the end of an array. Whatever the input and the fuel, for arrays
    of at most [INT_MAX] cells, the call never reaches the end of the
    function without a [return], never reads [data_type] before it is
    assigned, and never overflows an [int]. *)
Theorem receive_faults_only_out_of_bounds s fuel e s' :
  SerialReceiveAndParsePacket fuel b0l b0d s = Fault e s' -> e = OutOfBounds.
Proof.
  rewrite receive_unfold. pose proof (receive_safe s fuel) as Hsafe.
  destruct (iter_fuel _ _ _ _) as [?|e' s1]; [done|]. by intros [= <- <-].
Qed.

(** C11. No bounds check: a label that fills the array makes the next byte,
    whatever it is, be written past the end of the array. *)
Theorem receive_label_overflow s noise label b rest fuel :
  pending s = noise ++ PACKET_START :: label ++ b :: rest ->
  Forall (fun b => b <> PACKET_START) noise -> label_ok label ->
  length label = length b0l ->
  (length (incoming s) + length (pending s) <= fuel)%nat ->
  exists s',
    SerialReceiveAndParsePacket fuel b0l b0d s = Fault OutOfBounds s' /\
    pending s' = rest /\ out_eq s' (notices noise s).
Proof.
  intros Hp Hn Hl Hlen. apply receive_Overflowed.
  rewrite Hp. by apply drun_label_too_long.
Qed.

(** C12. The same for a payload that fills its array: the next byte,
    whatever it is, is written past the end of the data array. *)
Theorem receive_payload_overflow s noise label ty payload b rest fuel :
  pending s = noise ++ PACKET_START :: label ++ ty :: payload ++ b :: rest ->
  Forall (fun b => b <> PACKET_START) noise -> label_ok label ->
  ends_label ty = true -> payload_ok payload ->
  (length label < length b0l)%nat -> length payload = length b0d ->
  (length (incoming s) + length (pending s) <= fuel)%nat ->
  exists s',
    SerialReceiveAndParsePacket fuel b0l b0d s = Fault OutOfBounds s' /\
    pending s' = rest /\ out_eq s' (notices noise s).
Proof.
  intros Hp Hn Hl Hty Hpl Hll Hlen. apply receive_Overflowed.
  rewrite Hp. by apply drun_payload_too_long.
Qed.

(** C13. The receiver returns exactly when the reference parser finds a
    packet that fits: some fuel makes the call return if and only if the
    input still to be read parses as noise and a frame whose label and
    payload are shorter than the arrays. *)
Theorem receive_returns_iff s :
  (exists fuel r s', SerialReceiveAndParsePacket fuel b0l b0d s = Ok (inr r) s') <->
  (exists p, parse (pending s) = Some p /\
             (length (p_label p) < length b0l)%nat /\
             (length (p_payload p) < length b0d)%nat).
Proof.
  split.
  - intros (fuel & r & s' & Hret).
    apply receive_returned_run in Hret as (ns & lbl & ty & dat & rest & Hrun).
    apply drun_parse in Hrun as (p & ? & ? & ? & _). by exists p.
  - intros (p & Hp & Hl & Hd).
    destruct (receive_Returned s (length (incoming s) + length (pending s))
                (p_noise p) (to_char <$> p_label p) (p_type p)
                (to_char <$> p_payload p) (p_rest p)) as (s' & Hret & _);
      [apply drun_parse; by exists p|done|by eexists _, _, _].
Qed.

(** C14. No timeout: on input without an end marker the call never
    returns, whatever the fuel. *)
Theorem receive_blocks_without_end s fuel r s' :
  PACKET_END ∉ pending s ->
  SerialReceiveAndParsePacket fuel b0l b0d s <> Ok (inr r) s'.
Proof.
  intros Hnot Hret.
  apply receive_returned_run in Hret as (ns & lbl & ty & dat & rest & Hrun).
  by eapply drun_no_end.
Qed.

(** C25. The loop invariant. While the call is looping its locals are in
    order: [flag_ser_end] is clear, the label and data flags are never both
    set, the two lengths index inside the arrays or just past them, the
    arrays keep their size, and when data is being collected the type
    marker has been recorded and is one of the two the receiver knows. *)
Theorem receive_invariant s fuel st s' :
  SerialReceiveAndParsePacket fuel b0l b0d s = Ok (inl st) s' ->
  locals_ok st.
Proof.
  rewrite receive_unfold. pose proof (receive_safe s fuel) as Hsafe.
  destruct (iter_fuel _ _ _ _) as [[st1|[? ?]] s1|]; [|done..].
  intros [= <- <-]. destruct Hsafe as (q & Hq & ->). by apply locals_ok_conc.
Qed.

(** C26. The receiver does not know the marker of integer pairs: the type
    it returns is [PACKET_INT] or [PACKET_CHAR], never [PACKET_INT2]. *)
Theorem receive_never_int_pair s fuel ty label data s' :
  SerialReceiveAndParsePacket fuel b0l b0d s = Ok (inr (ty, label, data)) s' ->
  (ty = PACKET_INT \/ ty = PACKET_CHAR) /\ ty <> PACKET_INT2.
Proof.
  rewrite receive_unfold. pose proof (receive_safe s fuel) as Hsafe.
  destruct (iter_fuel _ _ _ _) as [[st1|[ty1 st1]] s1|]; [done| |done].
  intros [= <- <- <- <-].
  destruct Hsafe as (lbl & ty' & dat & [= -> ->] & _ & _ & Hty).
  apply ends_label_spec in Hty. split; [done|]. by destruct Hty as [-> | ->].
Qed.

(** C29. What the host sees of a call. When the call returns, the output
    has grown by exactly one error notice per noise byte, in order: the
    packet [<Err@SerInputErr>] and then the byte itself. Everything but the
    last echoed byte has been flushed, and no time was spent in [delay]. *)
Theorem receive_output s p fuel r s' :
  parse (pending s) = Some p ->
  SerialReceiveAndParsePacket fuel b0l b0d s = Ok (inr r) s' ->
  tx s' = tx s ++ concat (notice_bytes <$> p_noise p) /\
  clock s' = clock s /\
  (p_noise p = [] -> flushed s' = flushed s) /\
  (p_noise p <> [] -> S (flushed s') = length (tx s')).
Proof.
  intros Hp Hret.
  destruct (receive_returned_eq _ _ _ _ _ Hp Hret) as (_ & _ & Htx & Hfl & Hck).
  rewrite Htx, Hfl, Hck. split_and!.
  - apply tx_notices.
  - apply clock_notices.
  - by intros ->.
  - apply flushed_notices.
Qed.

End receive.

(** C8. The call is the specification's machine, on every device. For
    every device, every state of it, every fuel and any two pointers, the
    call is the loop that polls the device and, when a byte is there,
    reads it and makes one transition of the machine of section 4.3 from
    its idle state, with the room behind the two pointers as capacities:
    both are looping, the locals being those that represent the state of
    the machine in the caller's memory, both have returned, the memory
    being the caller's with label and payload written through the
    pointers, or both are out of bounds, in the same state of the device. *)
Theorem receive_at_refines {S : Type} `{!Channel S} h0 pl pd (d : S) fuel :
  Z.of_nat (room h0 pl) <= INT_MAX -> Z.of_nat (room h0 pd) <= INT_MAX ->
  SerialReceiveAndParsePacket_at fuel h0 pl pd d =
  outcome_map (fun r => returned (represent h0 pl pd r))
    (iter_fuel (machine_step (room h0 pl) (room h0 pd)) fuel Idle d).
Proof.
  intros Hl Hd. rewrite receive_at_unfold, (loop_refines h0 pl pd Hl Hd) by done.
  by rewrite outcome_map_compose.
Qed.

(** Bytes stay bytes. If the two arrays hold characters and the
    channel is well formed, then whatever the input and the fuel, the
    channel is well formed after the call, the arrays still hold characters
    and the value returned is a character. *)
Theorem receive_wf s fuel b0l b0d :
  Forall is_byte b0l -> Forall is_byte b0d -> serial_wf s ->
  handed_back_wf (SerialReceiveAndParsePacket fuel b0l b0d s).
Proof.
  intros Hl Hd Hs. rewrite receive_unfold.
  pose proof (iter_fuel_rule loop_body _ _ _ fuel
                (init_locals own_label own_data [b0l; b0d]) s
                (fun st s H => loop_body_wf st s (proj1 H) (proj2 H))) as Hwf.
  assert (locals_wf (init_locals own_label own_data [b0l; b0d])) as Hinit.
  { split; [|done]. by repeat constructor. }
  destruct (iter_fuel _ _ _ _) as [[st|[ty st]] s'|]; simpl in *.
  - by apply Hwf.
  - destruct Hwf as (? & (? & _) & ?); [done|]. split_and!; auto using array_at_bytes.
  - by apply Hwf.
Qed.

(** ** The theorems at concrete inputs *)

Lemma receive_returns_parse_witness :
  exists s',
    SerialReceiveAndParsePacket 20 (replicate 8 7) (replicate 8 7)
      (fresh [str "XY<T"; []; str "s|"; [0; 0; 0; 5; 62; 122]]) =
      Ok (inr (PACKET_INT, [84; 115; 0; 7; 7; 7; 7; 7], [0; 0; 0; 5; 0; 7; 7; 7])) s' /\
    pending s' = [122] /\
    out_eq s' (notices (str "XY") (fresh [str "XY<T"; []; str "s|"; [0; 0; 0; 5; 62; 122]])).
Proof.
  apply (receive_returns_parse (replicate 8 7) (replicate 8 7)
           ltac:(compute_done) ltac:(compute_done)
           (fresh [str "XY<T"; []; str "s|"; [0; 0; 0; 5; 62; 122]])
           (mkParsed (str "XY") (str "Ts") PACKET_INT [0; 0; 0; 5] [122]) 20%nat);
    [reflexivity | simpl; lia..].
Defined.

Lemma receive_at_refines_witness :
  SerialReceiveAndParsePacket_at 12 [replicate 8 7] (mkPtr 0 0) (mkPtr 0 4)
    (fresh [str "X<Ts"; str "@ab>q"]) =
  outcome_map (fun r => returned (represent [replicate 8 7] (mkPtr 0 0) (mkPtr 0 4) r))
    (iter_fuel (machine_step 8 4) 12 Idle (fresh [str "X<Ts"; str "@ab>q"])).
Proof.
  apply (receive_at_refines [replicate 8 7] (mkPtr 0 0) (mkPtr 0 4)); compute_done.
Defined.

Lemma receive_chunking_witness :
  same_outcome
    (SerialReceiveAndParsePacket 10 (replicate 8 7) (replicate 8 7)
       (fresh [str "<T"; str "s@ab>"]))
    (SerialReceiveAndParsePacket 12 (replicate 8 7) (replicate 8 7)
       (mkSerial (str "<") [[]; str "Ts@a"; []; str "b>"] [] 0 0)).
Proof.
  apply (receive_chunking (replicate 8 7) (replicate 8 7)
           ltac:(compute_done) ltac:(compute_done));
    [reflexivity | repeat split | simpl; lia..].
Defined.

Lemma receive_faults_only_out_of_bounds_witness :
  exists e s',
    SerialReceiveAndParsePacket 10 (replicate 2 0) (replicate 2 0)
      (fresh [str "<abc"]) = Fault e s' /\ e = OutOfBounds.
Proof.
  eexists _, _. split; [vm_compute; reflexivity|].
  eapply (receive_faults_only_out_of_bounds (replicate 2 0) (replicate 2 0)
            ltac:(compute_done) ltac:(compute_done) (fresh [str "<abc"]) 10%nat).
  vm_compute. reflexivity.
Defined.

Lemma receive_label_overflow_witness :
  exists s',
    SerialReceiveAndParsePacket 10 (replicate 2 0) (replicate 2 0)
      (fresh [str "X<ab"; str "cd"]) = Fault OutOfBounds s' /\
    pending s' = str "d" /\
    out_eq s' (notices (str "X") (fresh [str "X<ab"; str "cd"])).
Proof.
  apply (receive_label_overflow (replicate 2 0) (replicate 2 0)
           ltac:(compute_done) ltac:(compute_done)
           (fresh [str "X<ab"; str "cd"]) (str "X") (str "ab") (chr "c") (str "d") 10%nat);
    [reflexivity | compute_done | compute_done | reflexivity | simpl; lia].
Defined.

Lemma receive_payload_overflow_witness :
  exists s',
    SerialReceiveAndParsePacket 10 (replicate 2 0) (replicate 2 0)
      (fresh [str "<a@xy>"]) = Fault OutOfBounds s' /\
    pending s' = [] /\
    out_eq s' (notices [] (fresh [str "<a@xy>"])).
Proof.
  apply (receive_payload_overflow (replicate 2 0) (replicate 2 0)
           ltac:(compute_done) ltac:(compute_done)
           (fresh [str "<a@xy>"]) [] (str "a") PACKET_CHAR (str "xy") PACKET_END [] 10%nat);
    [reflexivity | compute_done | compute_done | reflexivity | compute_done
    | simpl; lia | reflexivity | simpl; lia].
Defined.

Lemma receive_returns_iff_witness :
  (exists fuel r s',
     SerialReceiveAndParsePacket fuel (replicate 8 7) (replicate 8 7)
       (fresh [str "<Ts@ab>"]) = Ok (inr r) s') <->
  (exists p, parse (pending (fresh [str "<Ts@ab>"])) = Some p /\
             (length (p_label p) < length (replicate 8 7))%nat /\
             (length (p_payload p) < length (replicate 8 7))%nat).
Proof.
  apply (receive_returns_iff (replicate 8 7) (replicate 8 7)
           ltac:(compute_done) ltac:(compute_done) (fresh [str "<Ts@ab>"])).
Defined.

Lemma receive_blocks_without_end_witness :
  SerialReceiveAndParsePacket 50 (replicate 8 7) (replicate 8 7)
    (fresh [str "<Ts@"; str "abc"]) <>
  Ok (inr (PACKET_CHAR, replicate 8 7, replicate 8 7)) (fresh []).
Proof.
  apply (receive_blocks_without_end (replicate 8 7) (replicate 8 7)
           ltac:(compute_done) ltac:(compute_done)).
  compute_done.
Defined.

Lemma receive_invariant_witness :
  exists st s',
    SerialReceiveAndParsePacket 3 (replicate 8 7) (replicate 8 7)
      (fresh [str "<Ts"]) = Ok (inl st) s' /\
    locals_ok [replicate 8 7; replicate 8 7] own_label own_data st.
Proof.
  eexists _, _. split; [vm_compute; reflexivity|].
  eapply (receive_invariant (replicate 8 7) (replicate 8 7)
            ltac:(compute_done) ltac:(compute_done) (fresh [str "<Ts"]) 3%nat).
  vm_compute. reflexivity.
Defined.

Lemma receive_never_int_pair_witness :
  exists ty label data s',
    SerialReceiveAndParsePacket 20 (replicate 8 7) (replicate 8 7)
      (fresh [str "<Ts|~ab>"]) = Ok (inr (ty, label, data)) s' /\
    (ty = PACKET_INT \/ ty = PACKET_CHAR) /\ ty <> PACKET_INT2.
Proof.
  eexists _, _, _, _. split; [vm_compute; reflexivity|].
  eapply (receive_never_int_pair (replicate 8 7) (replicate 8 7)
            ltac:(compute_done) ltac:(compute_done) (fresh [str "<Ts|~ab>"]) 20%nat).
  vm_compute. reflexivity.
Defined.

Lemma receive_output_witness :
  tx (notices (str "XY") (fresh [])) = [] ++ concat (notice_bytes <$> str "XY") /\
  clock (notices (str "XY") (fresh [])) = 0 /\
  (str "XY" = [] -> flushed (notices (str "XY") (fresh [])) = 0%nat) /\
  (str "XY" <> [] ->
   S (flushed (notices (str "XY") (fresh []))) =
   length (tx (notices (str "XY") (fresh [])))).
Proof.
  apply (receive_output (replicate 8 7) (replicate 8 7)
           ltac:(compute_done) ltac:(compute_done)
           (fresh [str "XY<Ts|"; [0; 0; 0; 5; 62]])
           (mkParsed (str "XY") (str "Ts") PACKET_INT [0; 0; 0; 5] []) 20%nat
           (PACKET_INT, [84; 115; 0; 7; 7; 7; 7; 7], [0; 0; 0; 5; 0; 7; 7; 7])
           (notices (str "XY") (fresh [])));
    [reflexivity | vm_compute; reflexivity].
Defined.

Lemma receive_wf_witness :
  handed_back_wf
    (SerialReceiveAndParsePacket 20 (replicate 8 7) (replicate 8 7)
       (fresh [str "XY<Ts|"; [0; 0; 0; 5; 62]])).
Proof.
  apply (receive_wf (fresh [str "XY<Ts|"; [0; 0; 0; 5; 62]]) 20
           (replicate 8 7) (replicate 8 7));
    [compute_done | compute_done | apply fresh_wf; compute_done].
Defined.
