(* ===== verification/Aliasing.v ===== *)
(** * The receiver and the arrays it is passed

    [SerialReceiveAndParsePacket(char buffer_label[], char buffer_data[])]
    is passed two pointers, and nothing in the function or in its comment
    says where they may point. This file follows the call
    [SerialReceiveAndParsePacket_at] ([Receiver]) through any two pointers
    into one memory.

    - [receive_at_returns_parse]: wherever the pointers point, the call
      returns what the reference parser finds, and the memory is the
      caller's with the label and its NUL written through the first
      pointer and then the payload and its NUL through the second.
    - [receive_at_apart]: when the pointers point into different arrays,
      the call is, for every fuel and every state of the device, the call
      with two arrays of their own ([SerialReceiveAndParsePacket]) on the
      arrays seen through the pointers; so all that [Receiver] proves
      holds of it.
    - [receive_at_frame]: the call writes through its two pointers only.
    - [receive_at_same_array]: passed the same array twice, the call
      returns as if nothing were wrong and the label is gone: the string
      the caller finds under the label pointer is the payload.
    - [receive_at_one_buffer] and [receive_at_label_overrun]: passed two
      parts of one array, the data part starting [k] cells after the label
      part, the call is right for labels shorter than [k]; a longer label
      is no write out of bounds, since it stays inside the array, and the
      caller finds a label that was never sent: its first [k] characters
      followed by the payload. *)

From S2P Require Import Prelude CArray Memory Channel Serial Codec Packet Encoder.
From S2P Require Import DecoderSpec Decoder DecoderRun Receiver.

#[local] Open Scope Z_scope.

Implicit Types (s : serial) (h : heap) (q b : ptr) (lbl dat : list Z).

(** ** Definitions *)

(** What a caller who passed [pl] and [pd] sees of a call: the state of
    the machine while it loops, the value returned and the two arrays
    behind the pointers when it has returned. *)
Definition seen (pl pd : ptr) (r : locals + Z * heap) : dstate + Z * list Z * list Z :=
  match r with
  | inl st => inl (abs st)
  | inr (ty, h) => inr (ty, array_at h pl, array_at h pd)
  end.

(** The same of a call with two arrays of their own. *)
Definition seen_arrays (r : locals + Z * list Z * list Z) : dstate + Z * list Z * list Z :=
  match r with
  | inl st => inl (abs st)
  | inr r => inr r
  end.

(** The memory [h] has the array behind [q] as it is in [h0], and every
    array has the size it has in [h0]. *)
Definition untouched (h0 h : heap) (q : ptr) : Prop :=
  array_at h q = array_at h0 q /\ forall b, room h b = room h0 b.

(** The characters of a label and of a payload as the receiver stores
    them. *)
Definition stored (bs : list Z) : list Z := to_char <$> bs.

(** ** The memory after the writes *)

Section written.
Context (h0 : heap) (pl pd : ptr).

Lemma written_label_apart lbl dat :
  apart pl pd -> (length lbl < room h0 pl)%nat ->
  array_at (written h0 pl pd lbl dat) pl = overwrite (array_at h0 pl) (lbl ++ [0]).
Proof.
  intros Hne Hl. unfold written. rewrite (array_at_fill_apart _ pd pl) by done.
  apply array_at_fill. rewrite length_app. simpl. lia.
Qed.

Lemma written_data_apart lbl dat :
  apart pl pd -> (length lbl < room h0 pl)%nat -> (length dat <= room h0 pd)%nat ->
  array_at (written h0 pl pd lbl dat) pd = overwrite (array_at h0 pd) dat.
Proof.
  intros Hne Hl Hd. destruct (room_written h0 pl pd lbl dat Hl Hd) as [Hroom _].
  unfold written. rewrite array_at_fill by lia. by rewrite array_at_fill_apart.
Qed.

(** An array that neither pointer points into is not written. *)
Lemma written_frame lbl dat q :
  apart pl q -> apart pd q -> array_at (written h0 pl pd lbl dat) q = array_at h0 q.
Proof. intros. unfold written. by rewrite !array_at_fill_apart. Qed.

End written.

(** The same pointer twice: the payload is written over the label. *)
Lemma written_same h0 b lbl dat :
  (length lbl < room h0 b)%nat -> (length dat <= room h0 b)%nat ->
  array_at (written h0 b b lbl dat) b =
  overwrite (array_at h0 b) (overwrite (lbl ++ [0]) dat).
Proof.
  intros Hl Hd. unfold written.
  rewrite fill_fill by (rewrite length_app; simpl; lia).
  apply array_at_fill. rewrite length_overwrite, length_app. simpl. lia.
Qed.

(** The data pointer [k] cells after the label pointer: the payload is
    written from cell [k] of what the label pointer sees. *)
Lemma written_shift h0 b k lbl dat :
  (length lbl < room h0 b)%nat -> (k + length dat <= room h0 b)%nat ->
  array_at (written h0 b (shift b k) lbl dat) b =
  take k (overwrite (array_at h0 b) (lbl ++ [0])) ++
  overwrite (drop k (overwrite (array_at h0 b) (lbl ++ [0]))) dat.
Proof.
  intros Hl Hd. unfold written.
  assert (length (lbl ++ [0%Z]) <= room h0 b)%nat as Hl'
    by (rewrite length_app; simpl; lia).
  rewrite array_at_fill_shift by (by rewrite room_fill).
  by rewrite array_at_fill.
Qed.

(** ** The call through any two pointers *)

Section receive_at.
Context (h0 : heap) (pl pd : ptr).
Context (Hcap_l : Z.of_nat (room h0 pl) <= INT_MAX).
Context (Hcap_d : Z.of_nat (room h0 pd) <= INT_MAX).

(** With enough fuel the call returns the frame the reference parser
    finds and leaves the memory written through the two pointers. *)
Lemma receive_at_parsed s p fuel :
  parse (pending s) = Some p ->
  (length (p_label p) < room h0 pl)%nat ->
  (length (p_payload p) < room h0 pd)%nat ->
  (length (incoming s) + length (pending s) <= fuel)%nat ->
  exists s',
    SerialReceiveAndParsePacket_at fuel h0 pl pd s =
      Ok (inr (p_type p,
               written h0 pl pd (stored (p_label p)) (stored (p_payload p) ++ [0]))) s' /\
    pending s' = p_rest p /\
    out_eq s' (notices (p_noise p) s).
Proof.
  intros Hparse Hl Hd Hfuel. rewrite receive_at_unfold.
  destruct (receive_at_Returned h0 pl pd Hcap_l Hcap_d s fuel (p_noise p)
              (stored (p_label p)) (p_type p) (stored (p_payload p)) (p_rest p))
    as (s' & -> & ? & ?); [apply drun_parse; by exists p|done|by exists s'].
Qed.

(** C19. The receiver through any two pointers. If the input still to be
    read is noise, then a frame whose label and payload, with their
    terminating NUL, have room from each pointer to the end of its array,
    then anything, the call returns the frame's type marker and leaves the
    caller's memory with the label and a NUL written through
    [buffer_label] and then the payload and a NUL written through
    [buffer_data], wherever the two pointers point; it has written one
    error notice per noise byte and leaves what follows the end marker
    unread. *)
Theorem receive_at_returns_parse s p fuel :
  parse (pending s) = Some p ->
  (length (p_label p) < room h0 pl)%nat ->
  (length (p_payload p) < room h0 pd)%nat ->
  (length (incoming s) + length (pending s) <= fuel)%nat ->
  exists s',
    SerialReceiveAndParsePacket_at fuel h0 pl pd s =
      Ok (inr (p_type p,
               written h0 pl pd (stored (p_label p)) (stored (p_payload p) ++ [0]))) s' /\
    pending s' = p_rest p /\
    out_eq s' (notices (p_noise p) s).
Proof. apply receive_at_parsed. Qed.

(** The call writes through its two pointers only. Whatever the input
    and the fuel, while the call loops and when it has returned, an array
    that neither pointer points into holds what it held, and every array
    has the size it had. *)
Theorem receive_at_frame s fuel q :
  apart pl q -> apart pd q ->
  match SerialReceiveAndParsePacket_at fuel h0 pl pd s with
  | Ok (inl st) _ => untouched h0 (memory st) q
  | Ok (inr (_, h)) _ => untouched h0 h q
  | Fault _ _ => True
  end.
Proof.
  intros Hl Hd. rewrite receive_at_unfold. unfold untouched.
  pose proof (loop_safe h0 pl pd Hcap_l Hcap_d Idle s fuel I) as Hsafe.
  destruct (iter_fuel _ _ _ _) as [[st|[ty st]] s'|]; simpl in *; [| |done].
  - destruct Hsafe as ([|lbl|lbl ty dat] & Hq & ->); simpl in *.
    + done.
    + split; [by apply array_at_fill_apart|]. intros b. by apply room_fill.
    + split; [by apply written_frame|]. apply room_written; tauto.
  - destruct Hsafe as (lbl & ty' & dat & [= -> ->] & ? & ? & _). simpl.
    split; [by apply written_frame|]. apply room_written; [done|].
    rewrite length_app. simpl. lia.
Qed.

(** C15. Two different arrays. When the two pointers point into different
    arrays, the call is the call with two arrays of their own on the
    arrays seen through the pointers: for every fuel and every state of
    the device the two end in the same state of the device, both looping
    in the same state of the machine, both returned with the same value
    and the same two arrays, or both out of bounds. *)
Theorem receive_at_apart s fuel :
  apart pl pd ->
  outcome_map (seen pl pd) (SerialReceiveAndParsePacket_at fuel h0 pl pd s) =
  outcome_map seen_arrays
    (SerialReceiveAndParsePacket fuel (array_at h0 pl) (array_at h0 pd) s).
Proof.
  intros Hne. rewrite receive_at_unfold, receive_unfold.
  rewrite (loop_refines h0 pl pd Hcap_l Hcap_d) by done.
  rewrite (loop_refines [array_at h0 pl; array_at h0 pd] own_label own_data
             Hcap_l Hcap_d) by done.
  rewrite !outcome_map_compose.
  eapply outcome_map_ext; [by apply (machine_loop_fits h0 pl pd)|..].
  - intros q0 s0 Hq. simpl in *. f_equal.
    rewrite (abs_conc h0 pl pd), (abs_conc [_; _] own_label own_data); done.
  - intros [[lbl ty] dat] s0 (Hl & Hd & _). simpl in *.
    rewrite (written_label_apart h0 pl pd), (written_data_apart h0 pl pd);
      try done. rewrite length_app. simpl. lia.
Qed.

End receive_at.

(** ** The same array twice *)

Section same_array.
Context (h0 : heap) (b : ptr).
Context (Hcap : Z.of_nat (room h0 b) <= INT_MAX).

(** C16. The same array passed twice. The call returns as for two arrays,
    but the payload has been written over the label: what the caller finds
    under [buffer_label] is the payload and its NUL, then what is left of
    the label, and the string there is the payload's. *)
Theorem receive_at_same_array s p fuel :
  parse (pending s) = Some p ->
  (length (p_label p) < room h0 b)%nat ->
  (length (p_payload p) < room h0 b)%nat ->
  (length (incoming s) + length (pending s) <= fuel)%nat ->
  exists s' h,
    SerialReceiveAndParsePacket_at fuel h0 b b s = Ok (inr (p_type p, h)) s' /\
    array_at h b =
      overwrite (array_at h0 b)
        (overwrite (stored (p_label p) ++ [0]) (stored (p_payload p) ++ [0])) /\
    c_str (array_at h b) = c_str (stored (p_payload p) ++ [0]).
Proof.
  intros Hp Hl Hd Hfuel.
  destruct (receive_at_parsed h0 b b Hcap Hcap s p fuel Hp Hl Hd Hfuel)
    as (s' & Hret & _).
  eexists s', _. split; [done|]. unfold stored.
  rewrite written_same by (rewrite ?length_app, ?length_fmap; simpl; lia).
  split; [done|]. unfold overwrite. rewrite <- !app_assoc.
  rewrite (app_assoc _ [0]). apply c_str_app_l, terminated_app_nul.
Qed.

End same_array.

(** ** Two parts of one array *)

Section one_buffer.
Context (h0 : heap) (b : ptr) (k : nat).
Context (Hcap : Z.of_nat (room h0 b) <= INT_MAX).

Lemma room_shift_cap : Z.of_nat (room h0 (shift b k)) <= INT_MAX.
Proof. rewrite room_shift. lia. Qed.

(** What the call leaves in the array, seen from its label part. *)
Lemma receive_at_shift s p fuel :
  parse (pending s) = Some p ->
  (length (p_label p) < room h0 b)%nat ->
  (k + length (p_payload p) < room h0 b)%nat ->
  (length (incoming s) + length (pending s) <= fuel)%nat ->
  exists s' h,
    SerialReceiveAndParsePacket_at fuel h0 b (shift b k) s = Ok (inr (p_type p, h)) s' /\
    array_at h b =
      take k (overwrite (array_at h0 b) (stored (p_label p) ++ [0])) ++
      overwrite (drop k (overwrite (array_at h0 b) (stored (p_label p) ++ [0])))
                (stored (p_payload p) ++ [0]).
Proof.
  intros Hp Hl Hd Hfuel.
  destruct (receive_at_parsed h0 b (shift b k) Hcap room_shift_cap s p fuel Hp Hl)
    as (s' & Hret & _); [rewrite room_shift; lia|done|].
  eexists s', _. split; [done|]. unfold stored.
  apply written_shift; rewrite ?length_app, !length_fmap; simpl; lia.
Qed.

(** C21. Two parts of one array, short label. When [buffer_data] points
    [k] cells after [buffer_label] into the same array and the label is
    shorter than [k], the call is right: the caller finds the label as a
    string under [buffer_label] and the payload and its NUL under
    [buffer_data]. *)
Theorem receive_at_one_buffer s p fuel :
  parse (pending s) = Some p ->
  (length (p_label p) < k)%nat ->
  (k + length (p_payload p) < room h0 b)%nat ->
  (length (incoming s) + length (pending s) <= fuel)%nat ->
  exists s' h,
    SerialReceiveAndParsePacket_at fuel h0 b (shift b k) s = Ok (inr (p_type p, h)) s' /\
    c_str (array_at h b) = c_str (stored (p_label p) ++ [0]) /\
    array_at h (shift b k) =
      overwrite (array_at h0 (shift b k)) (stored (p_payload p) ++ [0]).
Proof.
  intros Hp Hl Hd Hfuel.
  destruct (receive_at_shift s p fuel Hp ltac:(lia) Hd Hfuel) as (s' & h & Hret & Hh).
  exists s', h. split; [done|]. rewrite !array_at_shift, Hh.
  assert (length (stored (p_label p) ++ [0%Z]) <= k)%nat as Hk
    by (unfold stored; rewrite length_app, length_fmap; simpl; lia).
  split.
  - unfold overwrite at 1. rewrite take_app_ge by done.
    rewrite <- (app_assoc (_ ++ [0])). apply c_str_app_l, terminated_app_nul.
  - rewrite drop_app_length'
      by (rewrite length_take, length_overwrite; unfold room in Hd; lia).
    f_equal. unfold overwrite. rewrite drop_app_ge, drop_drop by done.
    f_equal. lia.
Qed.

(** C20. Two parts of one array, long label. A label of [k] characters or
    more does not fit the part meant for it, but it stays inside the
    array, so no write is out of bounds: the call returns, and the string
    the caller finds under [buffer_label] is the first [k] characters of
    the label followed by the payload. *)
Theorem receive_at_label_overrun s p fuel :
  parse (pending s) = Some p ->
  (k <= length (p_label p))%nat ->
  (length (p_label p) < room h0 b)%nat ->
  (k + length (p_payload p) < room h0 b)%nat ->
  (length (incoming s) + length (pending s) <= fuel)%nat ->
  exists s' h,
    SerialReceiveAndParsePacket_at fuel h0 b (shift b k) s = Ok (inr (p_type p, h)) s' /\
    c_str (array_at h b) =
      c_str (take k (stored (p_label p)) ++ stored (p_payload p) ++ [0]).
Proof.
  intros Hp Hk Hl Hd Hfuel.
  destruct (receive_at_shift s p fuel Hp Hl Hd Hfuel) as (s' & h & Hret & Hh).
  exists s', h. split; [done|]. rewrite Hh. unfold overwrite.
  rewrite <- !app_assoc, !take_app_le by (unfold stored; rewrite length_fmap; lia).
  rewrite !app_assoc, <- (app_assoc (take k _)).
  apply c_str_app_l. rewrite app_assoc. apply terminated_app_nul.
Qed.

End one_buffer.

(** ** The theorems at concrete inputs *)

Lemma receive_at_returns_parse_witness :
  exists s',
    SerialReceiveAndParsePacket_at 12 [replicate 8 7; replicate 4 1] (mkPtr 0 2) (mkPtr 1 0)
      (fresh [str "X<Ts"; str "@ab>q"]) =
      Ok (inr (PACKET_CHAR, [[7; 7; 84; 115; 0; 7; 7; 7]; [97; 98; 0; 1]])) s' /\
    pending s' = str "q" /\
    out_eq s' (notices (str "X") (fresh [str "X<Ts"; str "@ab>q"])).
Proof.
  apply (receive_at_returns_parse [replicate 8 7; replicate 4 1] (mkPtr 0 2) (mkPtr 1 0)
           ltac:(compute_done) ltac:(compute_done)
           (fresh [str "X<Ts"; str "@ab>q"])
           (mkParsed (str "X") (str "Ts") PACKET_CHAR (str "ab") (str "q")) 12%nat);
    [reflexivity | vm_compute; lia..].
Defined.

Lemma receive_at_frame_witness :
  match SerialReceiveAndParsePacket_at 12 [replicate 8 7; replicate 4 1; str "keep"]
          (mkPtr 0 2) (mkPtr 1 0) (fresh [str "X<Ts"; str "@ab>q"]) with
  | Ok (inl st) _ =>
      untouched [replicate 8 7; replicate 4 1; str "keep"] (memory st) (mkPtr 2 0)
  | Ok (inr (_, h)) _ =>
      untouched [replicate 8 7; replicate 4 1; str "keep"] h (mkPtr 2 0)
  | Fault _ _ => True
  end.
Proof.
  apply (receive_at_frame [replicate 8 7; replicate 4 1; str "keep"]
           (mkPtr 0 2) (mkPtr 1 0) ltac:(compute_done) ltac:(compute_done)
           (fresh [str "X<Ts"; str "@ab>q"]) 12%nat (mkPtr 2 0));
    compute_done.
Defined.

Lemma receive_at_apart_witness :
  outcome_map (seen (mkPtr 1 1) (mkPtr 0 3))
    (SerialReceiveAndParsePacket_at 5 [replicate 8 7; replicate 4 1] (mkPtr 1 1) (mkPtr 0 3)
       (fresh [str "X<Ts"; str "@ab>q"])) =
  outcome_map seen_arrays
    (SerialReceiveAndParsePacket 5 (replicate 3 1) (replicate 5 7)
       (fresh [str "X<Ts"; str "@ab>q"])).
Proof.
  apply (receive_at_apart [replicate 8 7; replicate 4 1] (mkPtr 1 1) (mkPtr 0 3)
           ltac:(compute_done) ltac:(compute_done)
           (fresh [str "X<Ts"; str "@ab>q"]) 5%nat).
  compute_done.
Defined.

Lemma receive_at_same_array_witness :
  exists s' h,
    SerialReceiveAndParsePacket_at 12 [replicate 8 7] (mkPtr 0 0) (mkPtr 0 0)
      (fresh [str "<Temp@ab>"]) = Ok (inr (PACKET_CHAR, h)) s' /\
    array_at h (mkPtr 0 0) = str "ab" ++ [0] ++ str "p" ++ [0; 7; 7; 7] /\
    c_str (array_at h (mkPtr 0 0)) = Some (str "ab").
Proof.
  apply (receive_at_same_array [replicate 8 7] (mkPtr 0 0) ltac:(compute_done)
           (fresh [str "<Temp@ab>"])
           (mkParsed [] (str "Temp") PACKET_CHAR (str "ab") []) 12%nat);
    [reflexivity | vm_compute; lia..].
Defined.

Lemma receive_at_one_buffer_witness :
  exists s' h,
    SerialReceiveAndParsePacket_at 12 [replicate 8 7] (mkPtr 0 0) (shift (mkPtr 0 0) 4)
      (fresh [str "<Ts@ab>"]) = Ok (inr (PACKET_CHAR, h)) s' /\
    c_str (array_at h (mkPtr 0 0)) = Some (str "Ts") /\
    array_at h (shift (mkPtr 0 0) 4) = str "ab" ++ [0; 7].
Proof.
  apply (receive_at_one_buffer [replicate 8 7] (mkPtr 0 0) 4 ltac:(compute_done)
           (fresh [str "<Ts@ab>"])
           (mkParsed [] (str "Ts") PACKET_CHAR (str "ab") []) 12%nat);
    [reflexivity | vm_compute; lia..].
Defined.

Lemma receive_at_label_overrun_witness :
  exists s' h,
    SerialReceiveAndParsePacket_at 12 [replicate 8 7] (mkPtr 0 0) (shift (mkPtr 0 0) 4)
      (fresh [str "<Tempo@ab>"]) = Ok (inr (PACKET_CHAR, h)) s' /\
    c_str (array_at h (mkPtr 0 0)) = Some (str "Tempab").
Proof.
  apply (receive_at_label_overrun [replicate 8 7] (mkPtr 0 0) 4 ltac:(compute_done)
           (fresh [str "<Tempo@ab>"])
           (mkParsed [] (str "Tempo") PACKET_CHAR (str "ab") []) 12%nat);
    [reflexivity | vm_compute; lia..].
Defined.
