(* ===== verification/RoundTrip.v ===== *)
(** * Sender wired to receiver

    What [SerialReceiveAndParsePacket] makes of the bytes the senders of
    the same library write: the receiving device's pending input is what a
    sender appended to the output of the sending device.

    - A packet whose label holds no type marker the receiver knows, whose
      payload holds no end marker, and which is sent by a sender other than
      [SerialSendIntPair], comes back as it was sent.
    - An integer comes back as the same 32-bit value, provided none of its
      four bytes is the end marker.
    - A payload byte equal to the end marker cuts the packet short: the
      protocol has no escaping and no length.
    - A packet of [SerialSendIntPair] is not received: its type marker is
      taken for a label character.
    - A binary payload arrives whole but is not a string: the NUL behind
      it does not tell its length.
    - Two receivable packets with the same bytes on the wire are the same
      packet. *)

From S2P Require Import Prelude CArray Channel Serial Codec Packet Encoder.
From S2P Require Import DecoderSpec Decoder DecoderRun Receiver.

#[local] Open Scope Z_scope.

Implicit Types s : serial.

(** ** Definitions *)

(** What was written between the device states [a] and [a']. *)
Definition written (a a' : serial) : list Z := drop (length (tx a)) (tx a').

(** A packet the receiver can read back: its label holds no byte that ends
    a label, its type marker is one that does, and its payload holds no end
    marker. *)
Definition receivable (label : list Z) (marker : Z) (payload : list Z) : Prop :=
  label_ok label /\ ends_label marker = true /\ payload_ok payload.

#[export] Instance receivable_dec label marker payload :
  Decision (receivable label marker payload).
Proof. unfold receivable. apply _. Defined.

(** ** The wire *)

Lemma written_sent bs a : written a (sent bs a) = bs.
Proof. unfold written. by rewrite sent_tx, drop_app_length. Qed.

Lemma send_written p a a' label marker payload :
  fields p = Some (label, marker, payload) ->
  send p a = Ok tt a' ->
  written a a' = frame label marker payload /\
  Forall is_byte label /\ Forall is_byte payload.
Proof.
  intros Hf (bs & Hw & ->)%send_Ok_inv. unfold wire_of in Hw. rewrite Hf in Hw.
  apply (inj Some) in Hw as <-. apply fields_bytes in Hf as (? & _ & ?).
  by rewrite written_sent.
Qed.

(** A run of the machine that returns has met a byte that ends a label. *)
Lemma drun_Returned_marker cap_l cap_d bs ns lbl ty dat rest :
  drun cap_l cap_d Idle bs = (ns, Returned lbl ty dat rest) ->
  Exists (fun b => ends_label b = true) bs.
Proof.
  intros (p & (-> & _ & _ & Hty & _)%parse_Some_iff & _)%drun_parse.
  rewrite frame_app. apply Exists_app. right. apply Exists_cons. right.
  apply Exists_app. right. by apply Exists_cons; left.
Qed.

(** No byte of an integer-pair frame ends a label when none of its label
    and payload does. *)
Lemma frame_INT2_label_ok label payload :
  label_ok label -> label_ok payload -> label_ok (frame label PACKET_INT2 payload).
Proof.
  intros Hl Hp. unfold frame, label_ok.
  repeat first [apply Forall_cons; split | apply Forall_app; split]; done.
Qed.

(** A receivable frame followed by anything parses as that frame. *)
Lemma parse_frame label marker payload rest :
  receivable label marker payload ->
  parse (frame label marker payload ++ rest) =
  Some (mkParsed [] label marker payload rest).
Proof.
  intros (Hl & Hty & Hp). apply parse_Some_iff.
  cbn [p_noise p_label p_type p_payload p_rest]. by split_and!.
Qed.

(** A frame cut short is no frame: nothing is found in a proper prefix of
    it. *)
Lemma parse_frame_prefix label marker payload k :
  receivable label marker payload ->
  (k < length (frame label marker payload))%nat ->
  parse (take k (frame label marker payload)) = None.
Proof.
  intros Hrec Hk. destruct (parse (take k _)) as [p|] eqn:Hp; [|done].
  apply (parse_app _ (drop k (frame label marker payload))) in Hp.
  pose proof (parse_frame _ _ _ [] Hrec) as Hf.
  rewrite take_drop in Hp. rewrite app_nil_r, Hp in Hf.
  injection Hf as _ _ _ _ Hrest.
  apply app_eq_nil in Hrest as [_ Hd%(f_equal length)].
  rewrite length_drop in Hd. change (length (@nil Z)) with 0%nat in Hd. lia.
Qed.

(** What a list of packets leaves on the wire. *)
Lemma send_all_written ps ws a a' :
  wires_of ps = Some ws -> for_each send ps a = Ok tt a' -> written a a' = ws.
Proof.
  intros Hws. rewrite (send_all_run _ _ _ Hws). intros [_ <-]%Ok_inj.
  destruct ps; [|apply written_sent]. injection Hws as <-.
  unfold written. by rewrite drop_all.
Qed.

(** ** Properties *)

Section roundtrip.
Context (b0l b0d : list Z).
Context (Hcap_l : Z.of_nat (length b0l) <= INT_MAX).
Context (Hcap_d : Z.of_nat (length b0d) <= INT_MAX).

(** What the receiver makes of one frame followed by [rest]. *)
Lemma receive_frame label marker payload rest b fuel :
  pending b = frame label marker payload ++ rest ->
  receivable label marker payload ->
  Forall is_byte label -> Forall is_byte payload ->
  (length label < length b0l)%nat -> (length payload < length b0d)%nat ->
  (length (incoming b) + length (pending b) <= fuel)%nat ->
  exists b',
    SerialReceiveAndParsePacket fuel b0l b0d b =
      Ok (inr (marker, overwrite b0l (label ++ [0]), overwrite b0d (payload ++ [0]))) b' /\
    pending b' = rest /\ out_eq b' b.
Proof.
  intros Hp (Hl & Hty & Hpl) Hbl Hbp Hll Hlp Hfuel.
  pose proof (drun_frame (length b0l) (length b0d) [] label marker payload rest)
    as Hrun.
  rewrite !Forall_to_char_id in Hrun by done.
  apply (receive_Returned b0l b0d Hcap_l Hcap_d b fuel []); [|done].
  rewrite Hp. by apply Hrun.
Qed.

(** What the receiver makes of an integer sent by [SerialSendInt]. *)
Lemma SerialSendInt_arrives text label ts a a' b fuel :
  c_str text = Some label -> Forall is_byte label ->
  label_ok label -> payload_ok (be32 ts) ->
  (length label < length b0l)%nat -> (4 < length b0d)%nat ->
  SerialSendInt text ts a = Ok tt a' ->
  pending b = written a a' ->
  (length (incoming b) + length (pending b) <= fuel)%nat ->
  exists b',
    SerialReceiveAndParsePacket fuel b0l b0d b =
      Ok (inr (PACKET_INT, overwrite b0l (label ++ [0]),
               be32 ts ++ 0 :: drop 5 b0d)) b'.
Proof.
  intros Htext Hbl Hl Hp Hll Hlp Hsend Hb Hfuel.
  rewrite (SerialSendInt_run _ _ Htext) in Hsend. apply Ok_inj in Hsend as [_ <-].
  rewrite written_sent, (Forall_to_uint8_id _ Hbl) in Hb.
  destruct (receive_frame label PACKET_INT (be32 ts) [] b fuel)
    as (b' & Hret & _); auto with opbox; [by rewrite app_nil_r|by split_and!|].
  exists b'. rewrite Hret. unfold overwrite at 2. by rewrite <- app_assoc.
Qed.

(** C5. Round trip. A packet that is sent and whose bytes reach a
    receiver is returned by the receiver as it was sent: the same type
    marker, the label and the payload in the two arrays, each followed by a
    NUL; nothing is left unread and the receiver writes no error notice.
    The conditions are those the protocol needs: the label holds no type
    marker, the type marker is one the receiver knows, the payload holds no
    end marker, and both fit the arrays with their NUL. *)
Theorem send_receive_roundtrip p label marker payload a a' b fuel :
  fields p = Some (label, marker, payload) ->
  receivable label marker payload ->
  (length label < length b0l)%nat -> (length payload < length b0d)%nat ->
  send p a = Ok tt a' ->
  pending b = written a a' ->
  (length (incoming b) + length (pending b) <= fuel)%nat ->
  exists b',
    SerialReceiveAndParsePacket fuel b0l b0d b =
      Ok (inr (marker, overwrite b0l (label ++ [0]), overwrite b0d (payload ++ [0]))) b' /\
    pending b' = [] /\ out_eq b' b.
Proof.
  intros Hf Hok Hll Hlp Hsend Hb Hfuel.
  destruct (send_written _ _ _ _ _ _ Hf Hsend) as (Hw & Hbl & Hbp).
  apply receive_frame; try done. by rewrite Hb, Hw, app_nil_r.
Qed.

(** An integer survives the trip as a 32-bit value: when
    [SerialSendInt] sends [ts] under a label and the receiver gets the
    bytes, the label array holds the label as a string and the four bytes
    in the data array decode to [ts] modulo 2^32 -- provided no byte of
    [ts] is the end marker and the label holds no type marker. *)
Theorem SerialSendInt_received text label ts a a' b fuel :
  c_str text = Some label -> Forall is_byte label ->
  label_ok label -> payload_ok (be32 ts) ->
  (length label < length b0l)%nat -> (4 < length b0d)%nat ->
  SerialSendInt text ts a = Ok tt a' ->
  pending b = written a a' ->
  (length (incoming b) + length (pending b) <= fuel)%nat ->
  exists b' buffer_label buffer_data,
    SerialReceiveAndParsePacket fuel b0l b0d b =
      Ok (inr (PACKET_INT, buffer_label, buffer_data)) b' /\
    c_str buffer_label = Some label /\
    Decode32 (take 4 buffer_data) = to_ulong ts.
Proof.
  intros Htext Hbl Hl Hp Hll Hlp Hsend Hb Hfuel.
  destruct (SerialSendInt_arrives text label ts a a' b fuel) as [b' Hret]; [done..|].
  eexists _, _, _. split_and!; [done|..].
  - apply c_str_overwrite; [|done]. by eapply c_str_nul_free.
  - rewrite take_app_length' by done. apply Decode32_be32.
Qed.

(** C27. No escaping: a payload byte equal to the end marker ends the
    packet. The receiver returns the payload cut before that byte and
    leaves the remainder of the packet, its real end marker included,
    pending for the next call. *)
Theorem receive_cut_at_end_byte label marker pre post b fuel :
  pending b = frame label marker (pre ++ PACKET_END :: post) ->
  receivable label marker pre ->
  Forall is_byte label -> Forall is_byte pre ->
  (length label < length b0l)%nat -> (length pre < length b0d)%nat ->
  (length (incoming b) + length (pending b) <= fuel)%nat ->
  exists b',
    SerialReceiveAndParsePacket fuel b0l b0d b =
      Ok (inr (marker, overwrite b0l (label ++ [0]), overwrite b0d (pre ++ [0]))) b' /\
    pending b' = post ++ [PACKET_END] /\ out_eq b' b.
Proof.
  intros Hp. apply receive_frame. by rewrite Hp, frame_cut.
Qed.

(** C28. Integer pairs are not received. The receiver takes the marker
    [PACKET_INT2] for a label character, so on the bytes of a
    [SerialSendIntPair] it goes on collecting a label: unless a byte of
    the label or of the two integers happens to be a type marker, the call
    does not return, whatever the fuel. *)
Theorem SerialSendIntPair_not_received text label int1 int2 a a' b fuel r b' :
  c_str text = Some label ->
  label_ok (to_uint8 <$> label) -> label_ok (be32 int1 ++ be32 int2) ->
  SerialSendIntPair text int1 int2 a = Ok tt a' ->
  pending b = written a a' ->
  SerialReceiveAndParsePacket fuel b0l b0d b <> Ok (inr r) b'.
Proof.
  intros Htext Hl Hp Hsend Hb Hret.
  rewrite (SerialSendIntPair_run _ _ Htext) in Hsend. apply Ok_inj in Hsend as [_ <-].
  rewrite written_sent in Hb.
  apply (receive_returned_run b0l b0d Hcap_l Hcap_d) in Hret
    as (ns & lbl & ty & dat & rest & Hrun%drun_Returned_marker).
  rewrite Hb in Hrun. apply Exists_exists in Hrun as (x & Hin & Hx).
  pose proof (frame_INT2_label_ok _ _ Hl Hp) as Hall.
  unfold label_ok in Hall. rewrite Forall_forall in Hall.
  specialize (Hall x Hin). congruence.
Qed.

(** C37. A binary payload is not a string. The receiver ends the payload
    with a NUL (line 157) and returns nothing but the type marker, yet
    the payload of an integer may begin with zero bytes: an integer below
    [2^24] none of whose bytes is the end marker (so not 62, which is cut,
    see [receive_cut_at_end_byte]), sent by [SerialSendInt] with a label
    that is terminated, holds no type marker and fits, arrives whole --
    the first four cells of the data array decode to it -- but [strlen]
    of the data array is 0.
    The caller cannot read the length of a payload off the array; it has
    to know it from the type. *)
Theorem SerialSendInt_payload_not_string text label ts a a' b fuel :
  c_str text = Some label -> Forall is_byte label ->
  label_ok label -> payload_ok (be32 ts) -> 0 <= ts < 2 ^ 24 ->
  (length label < length b0l)%nat -> (4 < length b0d)%nat ->
  SerialSendInt text ts a = Ok tt a' ->
  pending b = written a a' ->
  (length (incoming b) + length (pending b) <= fuel)%nat ->
  exists b' buffer_label buffer_data,
    SerialReceiveAndParsePacket fuel b0l b0d b =
      Ok (inr (PACKET_INT, buffer_label, buffer_data)) b' /\
    strlen buffer_data = Some 0%nat /\
    Decode32 (take 4 buffer_data) = ts.
Proof.
  intros Htext Hbl Hl Hp Hts Hll Hlp Hsend Hb Hfuel.
  destruct (SerialSendInt_arrives text label ts a a' b fuel) as [b' Hret]; [done..|].
  eexists _, _, _. split_and!; [done|..].
  - rewrite be32_arith, Z.div_small by lia. done.
  - rewrite take_app_length' by done. rewrite Decode32_be32. apply to_ulong_id. lia.
Qed.

End roundtrip.

(** ** Framing *)

(** Framing is unambiguous on receivable packets: two of them with
    the same bytes on the wire, whatever follows, are the same packet. *)
Theorem frame_unambiguous l1 m1 p1 rest1 l2 m2 p2 rest2 :
  receivable l1 m1 p1 -> receivable l2 m2 p2 ->
  frame l1 m1 p1 ++ rest1 = frame l2 m2 p2 ++ rest2 ->
  l1 = l2 /\ m1 = m2 /\ p1 = p2 /\ rest1 = rest2.
Proof.
  intros H1%(parse_frame _ _ _ rest1) H2%(parse_frame _ _ _ rest2) Heq.
  rewrite Heq, H2 in H1. by simplify_eq.
Qed.

(** ** The theorems at concrete inputs *)

Lemma send_receive_roundtrip_witness :
  exists b',
    SerialReceiveAndParsePacket 10 (replicate 8 7) (replicate 8 7)
      (fresh [str "<G"; str "o@1>"]) =
      Ok (inr (PACKET_CHAR, [71; 111; 0; 7; 7; 7; 7; 7], [49; 0; 7; 7; 7; 7; 7; 7])) b' /\
    pending b' = [] /\ out_eq b' (fresh [str "<G"; str "o@1>"]).
Proof.
  apply (send_receive_roundtrip (replicate 8 7) (replicate 8 7)
           ltac:(compute_done) ltac:(compute_done)
           (PChar (lit "Go") 49) (str "Go") PACKET_CHAR [49] (fresh [])
           (sent (frame (str "Go") PACKET_CHAR [49]) (fresh []))
           (fresh [str "<G"; str "o@1>"]) 10%nat);
    [reflexivity | compute_done | simpl; lia | simpl; lia
    | reflexivity | reflexivity | simpl; lia].
Defined.

Lemma SerialSendInt_received_witness :
  exists b' buffer_label buffer_data,
    SerialReceiveAndParsePacket 10 (replicate 8 7) (replicate 8 7)
      (fresh [frame (str "Ts") PACKET_INT [18; 52; 86; 120]]) =
      Ok (inr (PACKET_INT, buffer_label, buffer_data)) b' /\
    c_str buffer_label = Some (str "Ts") /\
    Decode32 (take 4 buffer_data) = to_ulong 305419896.
Proof.
  apply (SerialSendInt_received (replicate 8 7) (replicate 8 7)
           ltac:(compute_done) ltac:(compute_done)
           (lit "Ts") (str "Ts") 305419896 (fresh [])
           (sent (frame (str "Ts") PACKET_INT (be32 305419896)) (fresh []))
           (fresh [frame (str "Ts") PACKET_INT [18; 52; 86; 120]]) 10%nat);
    [reflexivity | apply str_bytes | compute_done | compute_done
    | simpl; lia | simpl; lia | reflexivity | reflexivity | simpl; lia].
Defined.

(** The integer 62 is sent as [0 0 0 62] and comes back as three bytes. *)
Lemma receive_cut_at_end_byte_witness :
  exists b',
    SerialReceiveAndParsePacket 10 (replicate 8 7) (replicate 8 7)
      (fresh [frame (str "T") PACKET_INT (be32 62)]) =
      Ok (inr (PACKET_INT, [84; 0; 7; 7; 7; 7; 7; 7], [0; 0; 0; 0; 7; 7; 7; 7])) b' /\
    pending b' = [PACKET_END] /\
    out_eq b' (fresh [frame (str "T") PACKET_INT (be32 62)]).
Proof.
  apply (receive_cut_at_end_byte (replicate 8 7) (replicate 8 7)
           ltac:(compute_done) ltac:(compute_done)
           (str "T") PACKET_INT [0; 0; 0] []
           (fresh [frame (str "T") PACKET_INT (be32 62)]) 10%nat);
    [reflexivity | compute_done | apply str_bytes | compute_done
    | simpl; lia | simpl; lia | simpl; lia].
Defined.

Lemma SerialSendIntPair_not_received_witness :
  SerialReceiveAndParsePacket 50 (replicate 100 0) (replicate 100 0)
    (fresh [frame (str "T") PACKET_INT2 (be32 1 ++ be32 2)]) <>
  Ok (inr (PACKET_INT2, lit "T", be32 1 ++ be32 2)) (fresh []).
Proof.
  apply (SerialSendIntPair_not_received (replicate 100 0) (replicate 100 0)
           ltac:(compute_done) ltac:(compute_done)
           (lit "T") (str "T") 1 2 (fresh [])
           (sent (frame (str "T") PACKET_INT2 (be32 1 ++ be32 2)) (fresh [])));
    [reflexivity | compute_done | compute_done | reflexivity | reflexivity].
Defined.

(** The integer 5 of the specification's example. *)
Lemma SerialSendInt_payload_not_string_witness :
  exists b' buffer_label buffer_data,
    SerialReceiveAndParsePacket 12 (replicate 8 7) (replicate 8 7)
      (fresh [str "<Ts|"; [0; 0; 0; 5]; str ">"]) =
      Ok (inr (PACKET_INT, buffer_label, buffer_data)) b' /\
    strlen buffer_data = Some 0%nat /\
    Decode32 (take 4 buffer_data) = 5.
Proof.
  apply (SerialSendInt_payload_not_string (replicate 8 7) (replicate 8 7)
           ltac:(compute_done) ltac:(compute_done)
           (lit "Ts") (str "Ts") 5 (fresh [])
           (sent (frame (str "Ts") PACKET_INT (be32 5)) (fresh [])));
    [reflexivity | apply str_bytes | compute_done | compute_done | lia
    | simpl; lia | simpl; lia | reflexivity | reflexivity | simpl; lia].
Defined.

Lemma frame_unambiguous_witness :
  str "A" = str "A" /\ PACKET_CHAR = PACKET_CHAR /\ str "x" = str "x" /\
  str "!" = str "!".
Proof.
  apply (frame_unambiguous (str "A") PACKET_CHAR (str "x") (str "!")
           (str "A") PACKET_CHAR (str "x") (str "!"));
    [compute_done | compute_done | reflexivity].
Defined.
