(* ===== verification/Handshake.v ===== *)
(** * The handshake

    [SerialHandshake] (lines 24-38): the device writes the hello byte ['A']
    every 500 ms until something has arrived, then reads one byte; if it is
    the reply ['P'] the device waits 500 ms more and returns, otherwise it
    starts again. The two nested [while] loops are two nested [iter_fuel];
    the inner loop has no locals, so an inner loop that ran out of fuel is
    resumed by going round the outer loop.

    The theorems: with the reply in the input the call returns, having
    dropped what came before the reply and written nothing but hellos, one
    per poll that found nothing; without the reply it never returns; it
    never reaches undefined behaviour; and a host that is silent for [n]
    polls and then replies is answered after exactly [n] hellos. *)

From S2P Require Import Prelude CArray Channel Serial.

#[local] Open Scope Z_scope.

Implicit Types s : serial.

(** ** The function *)

(** Lines 26-29, one iteration of [while (Serial.available() <= 0)]. *)
Definition await_body {S : Type} `{!Channel S} (_ : unit) : prog S (unit + unit) :=
  n ← Serial_available;
  if bool_decide (n <= 0) then
    Serial_write (chr "A");;
    delay 500;;
    mret (inl tt)
  else mret (inr tt).

(** Lines 25-37, one iteration of [while (true)]. The inner loop is given
    [fuel] iterations; [inl tt] is "go round again", [inr tt] is the
    [break]. *)
Definition handshake_body {S : Type} `{!Channel S} (fuel : nat) (_ : unit)
  : prog S (unit + unit) :=
  r ← iter_fuel await_body fuel tt;
  match r with
  | inl _ => mret (inl tt)
  | inr _ =>
      n ← Serial_available;
      if bool_decide (0 < n) then
        c ← Serial_read;
        if bool_decide (c = chr "P") then delay 500;; mret (inr tt)
        else mret (inl tt)
      else mret (inl tt)
  end.

Definition SerialHandshake {S : Type} `{!Channel S} (fuel : nat) : prog S (unit + unit) :=
  iter_fuel (handshake_body fuel) fuel tt.

(** ** What the device has done *)

(** One hello: the byte ['A'] written and 500 ms spent. *)
Definition hello (s : serial) : serial := tick 500 (emit [chr "A"] s).

Definition hellos (k : nat) (s : serial) : serial := Nat.iter k hello s.

(** The device [s'] is [s] after some hellos and some input consumed. *)
Definition greeted (s s' : serial) : Prop :=
  exists k, out_eq s' (hellos k s) /\ pending s' `suffix_of` pending s.

(** ** Hellos *)

#[export] Instance hello_proper : Proper (out_eq ==> out_eq) hello.
Proof. intros s1 s2 H. unfold hello. by rewrite H. Qed.

#[export] Instance hellos_proper k : Proper (out_eq ==> out_eq) (hellos k).
Proof. intros s1 s2 H. induction k as [|k IH]; simpl; [done|]. by rewrite IH. Qed.

Lemma hellos_S k s : hellos (S k) s = hellos k (hello s).
Proof. apply Nat.iter_succ_r. Qed.

Lemma tx_hellos k s : tx (hellos k s) = tx s ++ replicate k (chr "A").
Proof.
  induction k as [|k IH]; simpl; [by rewrite app_nil_r|].
  rewrite IH, <- app_assoc. f_equal.
  change ([chr "A"]) with (replicate 1 (chr "A")).
  by rewrite <- replicate_add, Nat.add_1_r.
Qed.

Lemma clock_hellos k s : clock (hellos k s) = clock s + 500 * Z.of_nat k.
Proof. induction k as [|k IH]; simpl; [lia|]. rewrite IH. lia. Qed.

Lemma flushed_hellos k s : flushed (hellos k s) = flushed s.
Proof. induction k as [|k IH]; simpl; [done|]. by rewrite IH. Qed.

Lemma pending_hello s : pending (hello s) = pending s.
Proof. done. Qed.

Lemma greeted_refl s : greeted s s.
Proof. by exists 0%nat. Qed.

Lemma greeted_trans s1 s2 s3 : greeted s1 s2 -> greeted s2 s3 -> greeted s1 s3.
Proof.
  intros (k1 & Ho1 & Hp1) (k2 & Ho2 & Hp2). exists (k2 + k1)%nat. split.
  - rewrite Ho2, Ho1. unfold hellos. by rewrite Nat.iter_add.
  - by etrans.
Qed.

Lemma greeted_arrive s : greeted s (arrive s).
Proof. exists 0%nat. split; [apply out_eq_arrive|]. by rewrite pending_arrive. Qed.

Lemma greeted_hello s : greeted s (hello s).
Proof. by exists 1%nat. Qed.

Lemma greeted_consume s : greeted s (consume s).
Proof.
  exists 0%nat. split; [done|]. unfold pending, consume. simpl.
  apply suffix_app. destruct (rx s); [done|]. by apply suffix_cons_r.
Qed.

Lemma greeted_wait s : greeted s (hello (arrive s)).
Proof. apply (greeted_trans _ (arrive s)); [apply greeted_arrive|apply greeted_hello]. Qed.

Lemma greeted_read s : greeted s (consume (arrive s)).
Proof. apply (greeted_trans _ (arrive s)); [apply greeted_arrive|apply greeted_consume]. Qed.

#[export] Hint Resolve greeted_refl greeted_arrive greeted_wait greeted_read : opbox.

(** ** The inner loop *)

Lemma await_body_wait s :
  rx (arrive s) = [] -> await_body tt s = Ok (inl tt) (hello (arrive s)).
Proof.
  intros H. unfold await_body. rewrite (bind_Ok _ _ _ _ _ (Serial_available_run s)).
  by rewrite H.
Qed.

Lemma await_body_found s b r :
  rx (arrive s) = b :: r -> await_body tt s = Ok (inr tt) (arrive s).
Proof.
  intros H. unfold await_body. rewrite (bind_Ok _ _ _ _ _ (Serial_available_run s)).
  rewrite H, bool_decide_false; [done|]. simpl. lia.
Qed.

(** With a byte pending, the inner loop ends once the byte has arrived,
    after one hello per poll that found nothing. *)
Lemma await_run s b bs :
  pending s = b :: bs ->
  exists k s1 r,
    (k + length (incoming s1) <= length (incoming s))%nat /\
    out_eq s1 (hellos k s) /\ pending s1 = b :: bs /\ rx s1 = b :: r /\
    forall fuel, (k < fuel)%nat -> iter_fuel await_body fuel tt s = Ok (inr tt) s1.
Proof.
  intros Hp.
  destruct (poll_until await_body tt hello await_body_wait
              (fun _ => eq_refl) (fun _ => eq_refl) s b bs Hp)
    as (k & r & Hrx & Hp1 & Hlen & Hgo).
  exists k, (arrive (polls hello k s)), r. split_and!; [| | |done|].
  - pose proof (length_incoming_arrive (polls hello k s)). lia.
  - rewrite out_eq_arrive. unfold hellos. by apply polls_out_eq; [apply _|].
  - by rewrite pending_arrive.
  - intros fuel Hf. replace fuel with (k + S (fuel - k - 1))%nat by lia.
    rewrite Hgo, iter_fuel_S. by erewrite await_body_found.
Qed.

(** Whatever the fuel, the inner loop writes hellos and consumes nothing;
    when it ends a byte is in the receive buffer. *)
Lemma await_sat s fuel :
  outcome_sat
    (fun _ s' => greeted s s' /\ pending s' = pending s)
    (fun _ s' => greeted s s' /\ pending s' = pending s /\ rx s' <> [])
    (fun _ _ => False)
    (iter_fuel await_body fuel tt s).
Proof.
  apply iter_fuel_rule; [|by auto with opbox].
  intros [] s1 (Hg & Hp). destruct (rx (arrive s1)) as [|b r] eqn:Hrx.
  - rewrite await_body_wait by done. simpl. split.
    + eapply greeted_trans; [done|]. auto with opbox.
    + by rewrite pending_hello, pending_arrive.
  - erewrite await_body_found by done. simpl. split_and!.
    + eapply greeted_trans; [done|]. auto with opbox.
    + by rewrite pending_arrive.
    + by rewrite Hrx.
Qed.

(** ** The outer loop *)

(** Reading after the inner loop has ended. *)
Lemma handshake_read s b r :
  rx s = b :: r ->
  (n ← Serial_available;
   if bool_decide (0 < n) then
     c ← Serial_read;
     if bool_decide (c = chr "P") then delay 500;; mret (inr tt)
     else mret (inl tt)
   else mret (inl tt)) s =
  if bool_decide (b = chr "P")
  then Ok (inr tt) (tick 500 (consume (arrive s)))
  else Ok (inl tt) (consume (arrive s)).
Proof.
  intros Hrx. rewrite (bind_Ok _ _ _ _ _ (Serial_available_run s)).
  destruct (rx_arrive_cons s b r Hrx) as [r' Hrx'].
  destruct (poll_some s b r' Hrx') as (rest & _ & _ & Hread).
  rewrite Hrx', bool_decide_true by (simpl; lia).
  rewrite (bind_Ok _ _ _ _ _ Hread). by case_bool_decide.
Qed.

(** One byte pending and fuel for the inner loop: the body reads that
    byte. *)
Lemma handshake_body_byte s b bs fuel :
  pending s = b :: bs -> (length (incoming s) < fuel)%nat ->
  exists k s1,
    (k + length (incoming s1) <= length (incoming s))%nat /\
    out_eq s1 (hellos k s) /\ pending s1 = bs /\
    handshake_body fuel tt s =
      if bool_decide (b = chr "P") then Ok (inr tt) (tick 500 s1) else Ok (inl tt) s1.
Proof.
  intros Hp Hfuel.
  destruct (await_run s b bs Hp) as (k & s0 & r & Hlen & Ho & Hp0 & Hrx0 & Hgo).
  exists k, (consume (arrive s0)). split_and!.
  - pose proof (length_incoming_arrive s0). simpl. lia.
  - by rewrite out_eq_consume, out_eq_arrive.
  - destruct (rx_arrive_cons s0 b r Hrx0) as [r' Hrx'].
    destruct (poll_some s0 b r' Hrx') as (rest & Hp' & Hp'' & _). congruence.
  - unfold handshake_body. rewrite (bind_Ok _ _ _ _ _ (Hgo fuel ltac:(lia))).
    by apply (handshake_read s0 b r).
Qed.

Lemma handshake_run s pre rest fuel n :
  pending s = pre ++ chr "P" :: rest -> chr "P" ∉ pre ->
  (length (incoming s) < fuel)%nat -> (length pre < n)%nat ->
  exists k s',
    iter_fuel (handshake_body fuel) n tt s = Ok (inr tt) s' /\
    pending s' = rest /\ (k + length (incoming s') <= length (incoming s))%nat /\
    out_eq s' (tick 500 (hellos k s)).
Proof.
  revert s n. induction pre as [|b pre IH]; intros s n Hp Hnot Hfuel Hn;
    (destruct n as [|n]; [simpl in Hn; lia|]); rewrite iter_fuel_S;
    destruct (handshake_body_byte s _ _ fuel Hp Hfuel)
      as (k & s1 & Hlen & Ho & Hp1 & ->).
  - rewrite bool_decide_true by done. exists k, (tick 500 s1).
    split_and!; [done|done|simpl; lia|by rewrite Ho].
  - rewrite bool_decide_false by set_solver.
    destruct (IH s1 n Hp1) as (k' & s' & -> & Hp' & Hk' & Ho');
      [set_solver|lia|simpl in Hn; lia|].
    exists (k' + k)%nat, s'. split_and!; [done|done|lia|].
    rewrite Ho', Ho. unfold hellos. by rewrite Nat.iter_add.
Qed.

(** Whatever the fuel and the input, the call writes hellos, consumes
    input, and returns only after reading the reply. *)
Lemma handshake_sat s fuel n :
  outcome_sat
    (fun _ s' => greeted s s')
    (fun _ s' => exists s1, greeted s s1 /\ s' = tick 500 s1 /\
                            chr "P" :: pending s1 `suffix_of` pending s)
    (fun _ _ => False)
    (iter_fuel (handshake_body fuel) n tt s).
Proof.
  apply iter_fuel_rule; [|by auto with opbox].
  intros [] s1 Hg. unfold handshake_body.
  pose proof (await_sat s1 fuel) as Hin.
  destruct (iter_fuel await_body fuel tt s1) as [[[]|[]] s2|] eqn:Hrun;
    [| |done]; rewrite (bind_Ok _ _ _ _ _ Hrun); simpl in Hin.
  - destruct Hin as [Hg2 _]. by eapply greeted_trans.
  - destruct Hin as (Hg2 & Hp2 & Hrx). destruct (rx s2) as [|b r] eqn:Hrx2; [done|].
    rewrite (handshake_read s2 b r Hrx2).
    assert (greeted s (consume (arrive s2))) as Hg3.
    { eapply greeted_trans; [done|]. eapply greeted_trans; [done|].
      auto with opbox. }
    case_bool_decide as Hb; simpl; [|done].
    exists (consume (arrive s2)). split_and!; [done..|].
    destruct (rx_arrive_cons s2 b _ Hrx2) as [r' Hrx'].
    destruct (poll_some s2 b r' Hrx') as (rest & Hp' & -> & _).
    destruct Hg as (? & _ & Hs). destruct Hg2 as (? & _ & Hs2).
    rewrite <- Hb, <- Hp'. by etrans.
Qed.

(** Without the reply in the input the call stays in its loop. *)
Lemma handshake_stays s fuel :
  chr "P" ∉ pending s ->
  exists s', SerialHandshake fuel s = Ok (inl tt) s' /\ greeted s s'.
Proof.
  intros Hnot. pose proof (handshake_sat s fuel fuel) as Hsat.
  unfold SerialHandshake.
  destruct (iter_fuel _ _ _ _) as [[[]|[]] s'|]; simpl in Hsat; [by exists s'| |done].
  destruct Hsat as (s1 & _ & _ & [k Hk]). destruct Hnot.
  rewrite Hk. set_solver.
Qed.

(** What [n] polls that found nothing have written. *)
Lemma polls_hello_tx n s : tx (polls hello n s) = tx s ++ replicate n (chr "A").
Proof.
  destruct (polls_out_eq hello n s s) as (-> & _); [done|]. apply tx_hellos.
Qed.

Lemma polls_hello_clock n s : clock (polls hello n s) = clock s + 500 * Z.of_nat n.
Proof.
  destruct (polls_out_eq hello n s s) as (_ & _ & ->); [done|]. apply clock_hellos.
Qed.

(** The inner loop of a host silent for [n] polls whose next chunk then
    starts with a byte: it leaves after [n] hellos, with the chunk in the
    receive buffer. *)
Lemma await_silent n b c cs s fuel :
  rx s = [] -> incoming s = replicate n [] ++ (b :: c) :: cs -> (n < fuel)%nat ->
  let s1 := arrive (polls hello n s) in
  iter_fuel await_body fuel tt s = Ok (inr tt) s1 /\
  rx s1 = b :: c /\ incoming s1 = cs.
Proof.
  intros Hrx Hin Hfuel.
  destruct (poll_silent await_body tt hello await_body_wait
              (fun _ => eq_refl) (fun _ => eq_refl) n _ s Hrx Hin)
    as (Hrx1 & Hin1 & Hgo).
  assert (rx (arrive (polls hello n s)) = b :: c /\
          incoming (arrive (polls hello n s)) = cs) as [Hfound Hin2].
  { unfold arrive. rewrite Hin1. simpl. by rewrite Hrx1. }
  split_and!; try done.
  replace fuel with (n + S (fuel - n - 1))%nat by lia.
  rewrite Hgo, iter_fuel_S. by erewrite await_body_found.
Qed.

(** ** Properties *)

(** C30. The handshake succeeds when the reply comes. If the input still
    to be read holds the reply ['P'], the call returns; it has read and
    dropped everything before the reply, left what follows it unread,
    written only hello bytes -- at most one per chunk of the arrival
    schedule, since a hello is written only by a poll that found nothing --
    and spent 500 ms per hello and 500 ms after the reply. Fuel for one
    iteration per chunk and one per byte up to the reply is enough. *)
Theorem SerialHandshake_returns s pre rest fuel :
  pending s = pre ++ chr "P" :: rest -> chr "P" ∉ pre ->
  (length (incoming s) + length pre < fuel)%nat ->
  exists k s',
    SerialHandshake fuel s = Ok (inr tt) s' /\
    pending s' = rest /\ (k <= length (incoming s))%nat /\
    tx s' = tx s ++ replicate k (chr "A") /\
    clock s' = clock s + 500 * (Z.of_nat k + 1) /\
    flushed s' = flushed s.
Proof.
  intros Hp Hnot Hfuel.
  destruct (handshake_run s pre rest fuel fuel Hp Hnot) as (k & s' & Hrun & ? & ? & Ho);
    [lia..|].
  exists k, s'. destruct Ho as (Htx & Hfl & Hck). split_and!; [done|done|lia|..].
  - rewrite Htx. apply tx_hellos.
  - rewrite Hck. simpl. rewrite clock_hellos. lia.
  - rewrite Hfl. apply flushed_hellos.
Qed.

(** C31. No timeout: as long as the reply is not in the input, the call
    does not return, whatever the fuel; it is still in its loop, having
    written hellos. *)
Theorem SerialHandshake_blocks s fuel :
  chr "P" ∉ pending s ->
  exists s', SerialHandshake fuel s = Ok (inl tt) s' /\ greeted s s'.
Proof. apply handshake_stays. Qed.

(** The handshake is safe and writes nothing but hellos: whatever the
    input, its chunking and the fuel, the call reaches no undefined
    behaviour; what it has written is a run of ['A'] bytes, 500 ms apart;
    it has only consumed input from the front; and it has flushed
    nothing. *)
Theorem SerialHandshake_writes_hellos s fuel :
  exists r s' k,
    SerialHandshake fuel s = Ok r s' /\
    tx s' = tx s ++ replicate k (chr "A") /\
    clock s' = clock s + 500 * Z.of_nat k + (if r is inr _ then 500 else 0) /\
    flushed s' = flushed s /\
    pending s' `suffix_of` pending s.
Proof.
  pose proof (handshake_sat s fuel fuel) as Hsat. unfold SerialHandshake.
  destruct (iter_fuel _ _ _ _) as [[[]|[]] s'|]; simpl in Hsat; [| |done].
  - destruct Hsat as (k & (Htx & Hfl & Hck) & Hsuf). exists (inl tt), s', k.
    rewrite Htx, Hfl, Hck, tx_hellos, clock_hellos, flushed_hellos.
    split_and!; try done. lia.
  - destruct Hsat as (s1 & (k & (Htx & Hfl & Hck) & Hsuf) & -> & Hsuf').
    exists (inr tt), (tick 500 s1), k. simpl.
    rewrite Htx, Hfl, Hck, tx_hellos, clock_hellos, flushed_hellos.
    split_and!; done.
Qed.

(** C32. Latency of the handshake. A host that is silent for [n] polls and
    whose next chunk starts with the reply makes the device write exactly
    [n] hellos and return after [500 * (n + 1)] ms, with the rest of that
    chunk and all later input still to be read. Fuel above [n] is enough. *)
Theorem SerialHandshake_latency n c cs s fuel :
  rx s = [] -> incoming s = replicate n [] ++ (chr "P" :: c) :: cs ->
  (n < fuel)%nat ->
  exists s',
    SerialHandshake fuel s = Ok (inr tt) s' /\
    tx s' = tx s ++ replicate n (chr "A") /\
    clock s' = clock s + 500 * (Z.of_nat n + 1) /\
    pending s' = c ++ concat cs.
Proof.
  intros Hrx Hin Hfuel.
  destruct (await_silent n (chr "P") c cs s fuel Hrx Hin Hfuel)
    as (Hinner & Hfound & Hin1).
  destruct fuel as [|fuel]; [lia|].
  unfold SerialHandshake. rewrite iter_fuel_S. unfold handshake_body at 1.
  rewrite (bind_Ok _ _ _ _ _ Hinner), (handshake_read _ _ _ Hfound).
  rewrite bool_decide_true by done.
  destruct (rx_arrive_cons _ _ _ Hfound) as [r' Hrx'].
  pose proof (pending_consume _ _ _ Hrx') as Hp.
  rewrite pending_arrive in Hp. unfold pending at 1 in Hp.
  rewrite Hfound, Hin1 in Hp. injection Hp as Hp.
  eexists. split; [done|]. split_and!; [| |by symmetry]; simpl.
  - rewrite !tx_arrive. apply polls_hello_tx.
  - rewrite !clock_arrive, polls_hello_clock. lia.
Qed.

(** ** The theorems at concrete inputs *)

(** A host that is silent for three polls, sends a stray byte and then the
    reply: three hellos, two seconds. *)
Lemma SerialHandshake_returns_witness :
  exists k s',
    SerialHandshake 7 (fresh [[]; []; []; str "x"; str "PQ"]) = Ok (inr tt) s' /\
    pending s' = str "Q" /\ (k <= 5)%nat /\
    tx s' = [] ++ replicate k (chr "A") /\
    clock s' = 0 + 500 * (Z.of_nat k + 1) /\
    flushed s' = 0%nat.
Proof.
  apply (SerialHandshake_returns (fresh [[]; []; []; str "x"; str "PQ"])
           (str "x") (str "Q") 7%nat);
    [reflexivity | compute_done | simpl; lia].
Defined.

Lemma SerialHandshake_blocks_witness :
  exists s',
    SerialHandshake 9 (fresh [[]; str "p"; str "A"]) = Ok (inl tt) s' /\
    greeted (fresh [[]; str "p"; str "A"]) s'.
Proof.
  apply (SerialHandshake_blocks (fresh [[]; str "p"; str "A"]) 9%nat).
  compute_done.
Defined.

Lemma SerialHandshake_latency_witness :
  exists s',
    SerialHandshake 5 (fresh [[]; []; []; str "PQ"; str "z"]) = Ok (inr tt) s' /\
    tx s' = [] ++ replicate 3 (chr "A") /\
    clock s' = 0 + 500 * (Z.of_nat 3 + 1) /\
    pending s' = str "Q" ++ concat [str "z"].
Proof.
  apply (SerialHandshake_latency 3 (str "Q") [str "z"]
           (fresh [[]; []; []; str "PQ"; str "z"]) 5%nat);
    [reflexivity | reflexivity | lia].
Defined.

Example SerialHandshake_three_hellos :
  exists s',
    SerialHandshake 7 (fresh [[]; []; []; str "x"; str "PQ"]) = Ok (inr tt) s' /\
    tx s' = str "AAA" /\ clock s' = 2000 /\ rx s' = str "Q".
Proof. eexists. split_and!; [vm_compute; reflexivity|done..]. Qed.
