(* ===== verification/Parametric.v ===== *)
(** * The library is parametric in the device

    The functions of the library are built from the five operations of
    [Channel] by sequencing, branching and loops, and from nothing else.
    So a relation between programs on two devices that holds of the
    operations and is kept by sequencing holds of every function of the
    library. The classes below say what such a relation is: [ProgRel]
    for the constructors of programs, [WriterRel] for the two operations
    the senders use, [ChannelRel] for all five. The lemmas say that the
    functions are related to themselves, once and for every such
    relation; [solve_rel] follows the structure of a program.

    The relations of the development are instances: a run on the device
    wired to a silent host against the run on the device alone ([Host]),
    a run on the bounded receive buffer against the run on the channel
    of the specification ([Ring]), two runs on devices that differ
    in their output side ([Independence]), and a run on a device that
    keeps a log of the calls against the run on the device itself
    ([Trace]). *)

From S2P Require Import Prelude CArray Memory Channel Serial Codec Packet Encoder.
From S2P Require Import DecoderSpec Decoder DecoderRun Receiver Handshake.

#[local] Open Scope Z_scope.

(** ** Relations between programs *)

(** A relation kept by the constructors of programs. *)
Class ProgRel {S1 S2 : Type} (R : forall A, prog S1 A -> prog S2 A -> Prop) : Prop := {
  rel_ret A (a : A) : R A (mret a) (mret a);
  rel_raise A (e : fault) : R A (raise e) (raise e);
  rel_bind A B m1 m2 (f1 : A -> prog S1 B) f2 :
    R A m1 m2 -> (forall a, R B (f1 a) (f2 a)) -> R B (m1 ≫= f1) (m2 ≫= f2)
}.

(** A relation that holds of writing and flushing. *)
Class WriterRel {S1 S2 : Type} `{!Channel S1, !Channel S2}
    (R : forall A, prog S1 A -> prog S2 A -> Prop) : Prop := {
  writer_prog :: ProgRel R;
  rel_write n : R unit (Serial_write n) (Serial_write n);
  rel_flush : R unit Serial_flush Serial_flush
}.

(** A relation that holds of all the operations of the channel. *)
Class ChannelRel {S1 S2 : Type} `{!Channel S1, !Channel S2}
    (R : forall A, prog S1 A -> prog S2 A -> Prop) : Prop := {
  channel_writer :: WriterRel R;
  rel_available : R Z Serial_available Serial_available;
  rel_read : R Z Serial_read Serial_read;
  rel_delay ms : R unit (delay ms) (delay ms)
}.

(** ** The constructors *)

Section prog_rel.
Context {S1 S2 : Type} (R : forall A, prog S1 A -> prog S2 A -> Prop) `{!ProgRel R}.

Lemma rel_lift_option A e (o : option A) : R A (lift_option e o) (lift_option e o).
Proof. destruct o; [apply rel_ret|apply rel_raise]. Qed.

Lemma rel_for_each A (f1 : A -> prog S1 unit) f2 l :
  (forall a, R unit (f1 a) (f2 a)) -> R unit (for_each f1 l) (for_each f2 l).
Proof.
  intros Hf. induction l as [|x l IH]; simpl; [apply rel_ret|].
  apply rel_bind; [done|]. by intros _.
Qed.

Lemma rel_iter_fuel St Res (b1 : St -> prog S1 (St + Res)) b2 n st :
  (forall st, R _ (b1 st) (b2 st)) -> R _ (iter_fuel b1 n st) (iter_fuel b2 n st).
Proof.
  intros Hb. revert st. induction n as [|n IH]; intros st; simpl; [apply rel_ret|].
  apply rel_bind; [done|]. intros [st'|v]; [apply IH|apply rel_ret].
Qed.

Lemma rel_int_succ n : R _ (int_succ n) (int_succ n).
Proof. unfold int_succ. case_decide; [apply rel_ret|apply rel_raise]. Qed.

Lemma rel_assign_at h p i v : R _ (assign_at h p i v) (assign_at h p i v).
Proof. apply rel_lift_option. Qed.

Lemma rel_fetch_at h p i : R _ (fetch_at h p i) (fetch_at h p i).
Proof. apply rel_lift_option. Qed.

End prog_rel.

(** A program built from the operations by sequencing, branching and
    loops is related to itself; [rel_fun] is extended with the lemmas of
    the functions as they are proved. *)
Ltac rel_fun := fail.

Ltac rel_step :=
  lazymatch goal with
  | |- _ _ (_ ≫= _) (_ ≫= _) => apply rel_bind; [|intros ?]
  | |- _ _ (mret _) (mret _) => apply rel_ret
  | |- _ _ (raise _) (raise _) => apply rel_raise
  | |- _ _ (lift_option _ _) (lift_option _ _) => apply rel_lift_option; [apply _]
  | |- _ _ (for_each _ _) (for_each _ _) => apply rel_for_each; [apply _|intros ?]
  | |- _ _ (iter_fuel _ _ _) (iter_fuel _ _ _) => apply rel_iter_fuel; [apply _|intros ?]
  | |- _ _ Serial_available Serial_available => apply rel_available
  | |- _ _ Serial_read Serial_read => apply rel_read
  | |- _ _ (Serial_write _) (Serial_write _) => apply rel_write
  | |- _ _ Serial_flush Serial_flush => apply rel_flush
  | |- _ _ (delay _) (delay _) => apply rel_delay
  | |- _ _ (int_succ _) (int_succ _) => apply rel_int_succ; [apply _]
  | |- _ _ (assign_at _ _ _ _) (assign_at _ _ _ _) => apply rel_assign_at; [apply _]
  | |- _ _ (fetch_at _ _ _) (fetch_at _ _ _) => apply rel_fetch_at; [apply _]
  | |- _ _ (match ?x with _ => _ end) _ => destruct x
  | |- _ => first [rel_fun | done]
  end.

Ltac solve_rel := intros; repeat rel_step.

(** ** The senders *)

Section writer_rel.
Context {S1 S2 : Type} `{!Channel S1, !Channel S2}.
Context (R : forall A, prog S1 A -> prog S2 A -> Prop) `{!WriterRel R}.

Lemma Serial_write_str_rel str : R _ (Serial_write_str str) (Serial_write_str str).
Proof. unfold Serial_write_str. solve_rel. Qed.

Lemma SerialWriteLongInt_rel val : R _ (SerialWriteLongInt val) (SerialWriteLongInt val).
Proof. unfold SerialWriteLongInt. solve_rel. Qed.

Lemma send_rel p : R _ (send p) (send p).
Proof.
  destruct p; simpl;
    unfold SerialSendInt, SerialSendIntPair, SerialSendChar, SerialSendCharPair,
      SerialSendErrorText, SerialSendErrorNumAsText;
    solve_rel; first [apply Serial_write_str_rel | apply SerialWriteLongInt_rel].
Qed.

End writer_rel.

(** ** The receiver and the handshake *)

Section channel_rel.
Context {S1 S2 : Type} `{!Channel S1, !Channel S2}.
Context (R : forall A, prog S1 A -> prog S2 A -> Prop) `{!ChannelRel R}.

Lemma SerialSendErrorText_rel text : R _ (SerialSendErrorText text) (SerialSendErrorText text).
Proof. apply (send_rel R (PErrorText text)). Qed.

Lemma on_byte_rel st b : R _ (on_byte st b) (on_byte st b).
Proof. unfold on_byte. solve_rel; apply SerialSendErrorText_rel. Qed.

Lemma loop_body_rel st : R _ (loop_body st) (loop_body st).
Proof. unfold loop_body. solve_rel. apply on_byte_rel. Qed.

Lemma SerialReceiveAndParsePacket_at_rel fuel h pl pd :
  R _ (SerialReceiveAndParsePacket_at fuel h pl pd)
      (SerialReceiveAndParsePacket_at fuel h pl pd).
Proof. unfold SerialReceiveAndParsePacket_at. solve_rel. apply loop_body_rel. Qed.

Lemma SerialReceiveAndParsePacket_rel fuel bl bd :
  R _ (SerialReceiveAndParsePacket fuel bl bd) (SerialReceiveAndParsePacket fuel bl bd).
Proof.
  unfold SerialReceiveAndParsePacket. solve_rel. apply SerialReceiveAndParsePacket_at_rel.
Qed.

Lemma await_body_rel u : R _ (await_body u) (await_body u).
Proof. unfold await_body. solve_rel. Qed.

Lemma handshake_body_rel fuel u : R _ (handshake_body fuel u) (handshake_body fuel u).
Proof. unfold handshake_body. solve_rel. apply await_body_rel. Qed.

Lemma SerialHandshake_rel fuel : R _ (SerialHandshake fuel) (SerialHandshake fuel).
Proof. unfold SerialHandshake. solve_rel. apply handshake_body_rel. Qed.

End channel_rel.

Ltac rel_fun ::=
  first [apply Serial_write_str_rel | apply SerialWriteLongInt_rel | apply send_rel
        | apply SerialReceiveAndParsePacket_rel | apply SerialReceiveAndParsePacket_at_rel
        | apply SerialHandshake_rel];
  apply _.
