(* ===== verification/Ring.v ===== *)
(** * The receive buffer of the hardware

    The channel of [Serial] holds whatever arrives. The receive buffer of
    the board does not: the comment on [MAX_BUFFER] in
    [OpBoxSerialLibrary.h] gives its size as 64 bytes, and a byte that
    arrives while the buffer is full is dropped by the core. This file is
    that device, the second instance of [Channel]: the device state of
    [Serial] with a capacity and a record of the bytes dropped.

    A chunk of the arrival schedule is what the line delivered between two
    polls; the library reads only after a poll, so the buffer takes the
    front of the chunk as far as it has room and drops the rest. Writing,
    flushing, waiting and reading are those of [Serial].

    The library is the same code on both devices. The relation [tracks]
    states how its runs compare: on the bounded buffer a program keeps the
    capacity and never fills the buffer beyond it ([ring_wf]), only adds
    to what was lost, does exactly what it does on the unbounded channel
    as long as it loses nothing, and loses nothing when the whole pending
    input has room ([roomy]). The relation holds of the five operations
    and is kept by sequencing, so it is one of those the library is
    parametric in ([Parametric]) and every function of the library has
    it. The relation [lifts] is the stronger one of the programs that
    never poll, the senders: they are the same function of the device
    whatever the buffer.

    The theorems: the receiver on the bounded buffer refines the receiver
    of the specification; with room for the pending input it returns what
    the reference parser finds; with room and arrays larger than the
    buffer it never writes out of bounds, which is the cushion the
    comment on [MAX_BUFFER] means; a frame longer than the buffer that
    arrives in one burst loses its tail, end marker included, and the
    call blocks for ever; the senders are unaffected. The bound of the
    cushion is on what one call reads, not on the buffer alone:
    [ring_paced_overflow] runs a label that arrives slowly enough to
    lose nothing and is longer than the array. *)

From S2P Require Import Prelude CArray Channel Serial Codec Packet Encoder.
From S2P Require Import DecoderSpec Decoder DecoderRun Receiver RoundTrip Handshake.
From S2P Require Import Parametric.

#[local] Open Scope Z_scope.

Implicit Types s : serial.

(** ** The device *)

Record ring : Type := mkRing {
  dev : serial;      (* the device: buffers, schedule, output, clock *)
  capacity : nat;    (* how many bytes the receive buffer holds *)
  lost : list Z      (* the bytes that arrived when it was full, oldest first *)
}.

Implicit Types r : ring.

(** The same device in another state. *)
Definition with_dev (s : serial) (r : ring) : ring := mkRing s (capacity r) (lost r).

(** The next chunk of the schedule reaches the receive buffer, as far as
    there is room; the rest of the chunk is lost. *)
Definition ring_arrive (r : ring) : ring :=
  match incoming (dev r) with
  | [] => r
  | c :: rest =>
      let room := (capacity r - length (rx (dev r)))%nat in
      mkRing (mkSerial (rx (dev r) ++ take room c) rest
                       (tx (dev r)) (flushed (dev r)) (clock (dev r)))
             (capacity r) (lost r ++ drop room c)
  end.

(** An operation that does not touch the receiving side is that of the
    device. *)
Definition on_dev {A} (p : prog serial A) : prog ring A :=
  fun r =>
    match p (dev r) with
    | Ok a s => Ok a (with_dev s r)
    | Fault e s => Fault e (with_dev s r)
    end.

(** [Serial.available()]: what has arrived since the last poll is in the
    buffer, or lost; the answer is the number of bytes buffered. *)
Definition ring_available : prog ring Z :=
  fun r => let r' := ring_arrive r in Ok (Z.of_nat (length (rx (dev r')))) r'.

(** The device with the bounded buffer: polling is its own, the other
    operations are those of [Serial]. *)

#[export] Instance ring_channel : Channel ring := {
  Serial_available := ring_available;
  Serial_read := on_dev serial_read;
  Serial_write n := on_dev (serial_write n);
  Serial_flush := on_dev serial_flush;
  delay ms := on_dev (serial_delay ms)
}.

(** The whole pending input has room in the buffer. *)
Definition roomy (r : ring) : Prop := (length (pending (dev r)) <= capacity r)%nat.

#[export] Instance roomy_dec r : Decision (roomy r).
Proof. unfold roomy. apply _. Defined.

(** The buffer holds no more than its capacity. *)
Definition ring_wf (r : ring) : Prop := (length (rx (dev r)) <= capacity r)%nat.

#[export] Instance ring_wf_dec r : Decision (ring_wf r).
Proof. unfold ring_wf. apply _. Defined.

(** An outcome of the ring seen as one of its device. *)
Definition dev_outcome {A} (o : outcome ring A) : outcome serial A :=
  match o with Ok a r => Ok a (dev r) | Fault e r => Fault e (dev r) end.

(** The program [pb] on the ring follows [pu] on the channel of the
    specification: it keeps the capacity of the buffer and never fills it
    beyond, it only adds to what was lost, it does what [pu] does
    whenever it adds nothing, and it adds nothing when the pending input
    has room. *)
Definition tracks {A} (pb : prog ring A) (pu : prog serial A) : Prop :=
  forall r,
    capacity (state_of (pb r)) = capacity r /\
    (ring_wf r -> ring_wf (state_of (pb r))) /\
    lost r `prefix_of` lost (state_of (pb r)) /\
    (lost (state_of (pb r)) = lost r -> dev_outcome (pb r) = pu (dev r)) /\
    (roomy r -> lost (state_of (pb r)) = lost r /\ roomy (state_of (pb r))).

(** The program [pb] on the ring is [pu] on its device: it neither polls
    nor loses. *)
Definition lifts {A} (pb : prog ring A) (pu : prog serial A) : Prop :=
  forall r, pb r = on_dev pu r.

(** The ring whose next chunk is cut to the room there is for it, the
    rest of the chunk counted as lost already. *)
Definition clip (r : ring) : ring :=
  match incoming (dev r) with
  | [] => r
  | c :: rest =>
      let room := (capacity r - length (rx (dev r)))%nat in
      mkRing (mkSerial (rx (dev r)) (take room c :: rest)
                       (tx (dev r)) (flushed (dev r)) (clock (dev r)))
             (capacity r) (lost r ++ drop room c)
  end.

(** The board of the comment on [MAX_BUFFER]: a device that has neither
    received nor sent yet, with a receive buffer of 64 bytes. *)
Definition board (chunks : list (list Z)) : ring := mkRing (fresh chunks) 64 [].

(** ** The rules *)

Lemma prefix_antisym_eq (l k : list Z) : l `prefix_of` k -> k `prefix_of` l -> l = k.
Proof. intros H1 H2. by apply (anti_symm prefix). Qed.

Section rules.
Context {A B : Type}.

Lemma tracks_ret (a : A) : tracks (mret a) (mret a).
Proof. intros r. by split_and!. Qed.

Lemma tracks_raise (e : fault) : tracks (A:=A) (raise e) (raise e).
Proof. intros r. by split_and!. Qed.

Lemma tracks_bind (mb : prog ring A) mu (fb : A -> prog ring B) fu :
  tracks mb mu -> (forall a, tracks (fb a) (fu a)) -> tracks (mb ≫= fb) (mu ≫= fu).
Proof.
  intros Hm Hf r. destruct (Hm r) as (Hsz & Hwf & Hpre & Heq & Hroom). prog_unfold.
  destruct (mb r) as [a r1|e r1] eqn:Hmb; simpl in *.
  - destruct (Hf a r1) as (Hsz1 & Hwf1 & Hpre1 & Heq1 & Hroom1).
    split_and!; [congruence|auto|by etrans| |].
    + intros Hl. assert (lost r1 = lost r) as Hl1.
      { symmetry. apply prefix_antisym_eq; [done|]. by rewrite <- Hl. }
      rewrite <- (Heq Hl1). simpl. apply Heq1. congruence.
    + intros Hr. destruct (Hroom Hr) as [Hl1 Hr1].
      destruct (Hroom1 Hr1) as [Hl2 Hr2]. split; [congruence|done].
  - split_and!; [done..| |done]. intros Hl. by rewrite <- (Heq Hl).
Qed.

Lemma tracks_on_dev (p : prog serial A) :
  (forall s, length (rx (state_of (p s))) <= length (rx s) /\
             length (pending (state_of (p s))) <= length (pending s))%nat ->
  tracks (on_dev p) p.
Proof.
  intros Hp r. unfold on_dev. destruct (Hp (dev r)). unfold roomy, ring_wf.
  destruct (p (dev r)); simpl in *; split_and!; try done; intros; try split;
    try done; lia.
Qed.

End rules.

(** ** The operations *)

(** A chunk that has room arrives whole. *)
Lemma ring_arrive_whole r :
  lost (ring_arrive r) = lost r -> dev (ring_arrive r) = arrive (dev r).
Proof.
  unfold ring_arrive, arrive. destruct (incoming (dev r)) as [|c rest]; [done|].
  simpl. intros Hl. apply (f_equal length) in Hl. rewrite length_app, length_drop in Hl.
  by rewrite take_ge by lia.
Qed.

Lemma ring_arrive_roomy r :
  roomy r -> lost (ring_arrive r) = lost r /\ roomy (ring_arrive r).
Proof.
  unfold roomy, ring_arrive, pending. destruct (incoming (dev r)) as [|c rest] eqn:Hin;
    [by rewrite Hin|].
  simpl. rewrite !length_app. intros Hr.
  rewrite drop_ge, take_ge, app_nil_r by lia. split; [done|].
  rewrite ?length_app. lia.
Qed.

(** Arrival never fills the buffer beyond its capacity. *)
Lemma ring_arrive_wf r : ring_wf r -> ring_wf (ring_arrive r).
Proof.
  unfold ring_wf, ring_arrive. destruct (incoming (dev r)) as [|c rest]; [done|].
  simpl. rewrite length_app, length_take. lia.
Qed.

Lemma tracks_available : tracks Serial_available Serial_available.
Proof.
  intros r. cbn. unfold ring_available, serial_available. simpl. split_and!.
  - unfold ring_arrive. by destruct (incoming (dev r)).
  - apply ring_arrive_wf.
  - unfold ring_arrive. destruct (incoming (dev r)); [done|]. by apply prefix_app_r.
  - intros Hl. by rewrite (ring_arrive_whole r Hl).
  - apply ring_arrive_roomy.
Qed.

Lemma tracks_read : tracks Serial_read Serial_read.
Proof.
  apply tracks_on_dev. intros s. cbn. unfold serial_read, pending.
  destruct (rx s) eqn:E; simpl; rewrite ?E, ?length_app; simpl; lia.
Qed.

Lemma tracks_write n : tracks (Serial_write n) (Serial_write n).
Proof. by apply tracks_on_dev. Qed.

Lemma tracks_flush : tracks Serial_flush Serial_flush.
Proof. by apply tracks_on_dev. Qed.

Lemma tracks_delay ms : tracks (delay ms) (delay ms).
Proof. by apply tracks_on_dev. Qed.

(** The relation is one of those the library is parametric in. *)
#[export] Instance tracks_prog_rel : ProgRel (@tracks).
Proof. split; [apply @tracks_ret|apply @tracks_raise|apply @tracks_bind]. Qed.

#[export] Instance tracks_writer_rel : WriterRel (@tracks).
Proof. split; [apply _|apply tracks_write|apply tracks_flush]. Qed.

#[export] Instance tracks_rel : ChannelRel (@tracks).
Proof. split; [apply _|apply tracks_available|apply tracks_read|apply tracks_delay]. Qed.

(** So the receiver on the ring follows the receiver of the
    specification. *)
Lemma receive_tracks fuel bl bd :
  tracks (SerialReceiveAndParsePacket fuel bl bd)
         (SerialReceiveAndParsePacket fuel bl bd).
Proof. apply SerialReceiveAndParsePacket_rel, _. Qed.

(** ** What following gives *)

Lemma dev_outcome_Ok {A} (o : outcome ring A) a s :
  dev_outcome o = Ok a s -> exists r, o = Ok a r /\ dev r = s.
Proof. destruct o as [a' r|]; [|done]. intros [= -> <-]. by exists r. Qed.

(** With room for the pending input a program on the ring is the program
    on the channel of the specification, and the room is still there
    afterwards. *)
Lemma tracks_roomy {A} (pb : prog ring A) pu r :
  tracks pb pu -> roomy r ->
  dev_outcome (pb r) = pu (dev r) /\ lost (state_of (pb r)) = lost r /\
  capacity (state_of (pb r)) = capacity r /\ roomy (state_of (pb r)).
Proof.
  intros H Hr. destruct (H r) as (? & _ & _ & Heq & Hroom).
  destruct (Hroom Hr). split_and!; auto.
Qed.

(** ** Programs that do not poll *)

Lemma with_dev_dev r : with_dev (dev r) r = r.
Proof. by destruct r. Qed.

Section lifting.
Context {A B : Type}.

Lemma lifts_ret (a : A) : lifts (mret a) (mret a).
Proof. intros r. unfold on_dev. simpl. by rewrite with_dev_dev. Qed.

Lemma lifts_raise (e : fault) : lifts (A:=A) (raise e) (raise e).
Proof. intros r. unfold on_dev. simpl. by rewrite with_dev_dev. Qed.

Lemma lifts_bind (mb : prog ring A) mu (fb : A -> prog ring B) fu :
  lifts mb mu -> (forall a, lifts (fb a) (fu a)) -> lifts (mb ≫= fb) (mu ≫= fu).
Proof.
  intros Hm Hf r. prog_unfold. rewrite Hm. unfold on_dev.
  destruct (mu (dev r)) as [a s1|e s1]; [|done].
  rewrite Hf. unfold on_dev. simpl. by destruct (fu a s1).
Qed.

Lemma lifts_on_dev (p : prog serial A) : lifts (on_dev p) p.
Proof. done. Qed.

End lifting.

#[export] Instance lifts_prog_rel : ProgRel (@lifts).
Proof. split; [apply @lifts_ret|apply @lifts_raise|apply @lifts_bind]. Qed.

#[export] Instance lifts_rel : WriterRel (@lifts).
Proof. split; [apply _|intros n; apply lifts_on_dev|apply lifts_on_dev]. Qed.

(** ** A burst *)

(** Cutting the next chunk to the room beforehand changes nothing: it is
    what the arrival does. *)
Lemma ring_arrive_clip r : ring_arrive (clip r) = ring_arrive r.
Proof.
  unfold clip, ring_arrive. destruct (incoming (dev r)) as [|c rest] eqn:Hin;
    [by rewrite Hin|].
  simpl. rewrite take_take, Nat.min_id.
  rewrite (drop_ge (take _ _)) by (rewrite length_take; lia).
  by rewrite app_nil_r.
Qed.

Lemma loop_body_clip st r :
  flag_ser_end st = false -> loop_body st (clip r) = loop_body st r.
Proof.
  intros Hst. unfold loop_body. rewrite Hst. prog_unfold. cbn.
  unfold ring_available. by rewrite ring_arrive_clip.
Qed.

Lemma receive_clip fuel bl bd r :
  SerialReceiveAndParsePacket (S fuel) bl bd (clip r) =
  SerialReceiveAndParsePacket (S fuel) bl bd r.
Proof.
  rewrite !receive_unfold, !iter_fuel_S. by rewrite loop_body_clip by apply conc_not_ended.
Qed.

(** After the last chunk of the schedule, cut to the room, everything
    pending has room. *)
Lemma clip_roomy r c :
  incoming (dev r) = [c] -> (length (rx (dev r)) <= capacity r)%nat -> roomy (clip r).
Proof.
  unfold roomy, clip, pending. intros -> Hrx. simpl.
  rewrite !length_app, length_take. simpl. lia.
Qed.

(** A call on a device whose schedule is one burst is the call of the
    specification on the burst cut to the room. *)
Lemma receive_burst fuel bl bd r c :
  incoming (dev r) = [c] -> (length (rx (dev r)) <= capacity r)%nat ->
  dev_outcome (SerialReceiveAndParsePacket (S fuel) bl bd r) =
    SerialReceiveAndParsePacket (S fuel) bl bd (dev (clip r)) /\
  lost (state_of (SerialReceiveAndParsePacket (S fuel) bl bd r)) = lost (clip r).
Proof.
  intros Hin Hrx. rewrite <- receive_clip.
  destruct (tracks_roomy _ _ (clip r) (receive_tracks (S fuel) bl bd)) as (? & ? & _);
    [by eapply clip_roomy|done].
Qed.

(** ** The theorems *)

Section receive.
Context (bl bd : list Z).
Context (Hcap_l : Z.of_nat (length bl) <= INT_MAX).
Context (Hcap_d : Z.of_nat (length bd) <= INT_MAX).

(** The receiver on the bounded buffer refines the receiver of the
    specification. A call keeps the capacity of the buffer and what was
    lost before it; and a call that loses nothing gives the result or the
    fault of the call on the unbounded channel and leaves the device as
    that call leaves it. The buffer is never filled beyond its
    capacity. *)
Theorem receive_ring_refines fuel r :
  let o := SerialReceiveAndParsePacket fuel bl bd r in
  capacity (state_of o) = capacity r /\
  (ring_wf r -> ring_wf (state_of o)) /\
  lost r `prefix_of` lost (state_of o) /\
  (lost (state_of o) = lost r ->
   dev_outcome o = SerialReceiveAndParsePacket fuel bl bd (dev r)).
Proof.
  destruct (receive_tracks fuel bl bd r) as (? & ? & ? & ? & _). by split_and!.
Qed.

(** C18. With room in the buffer for the whole pending input the call returns
    what the reference parser finds, as on the channel of the
    specification, and no byte is lost. *)
Theorem receive_ring_returns fuel r p :
  roomy r ->
  parse (pending (dev r)) = Some p ->
  (length (p_label p) < length bl)%nat ->
  (length (p_payload p) < length bd)%nat ->
  (length (incoming (dev r)) + length (pending (dev r)) <= fuel)%nat ->
  exists r',
    SerialReceiveAndParsePacket fuel bl bd r =
      Ok (inr (p_type p,
               overwrite bl ((to_char <$> p_label p) ++ [0]),
               overwrite bd ((to_char <$> p_payload p) ++ [0]))) r' /\
    lost r' = lost r /\ capacity r' = capacity r /\
    pending (dev r') = p_rest p /\
    out_eq (dev r') (notices (p_noise p) (dev r)).
Proof.
  intros Hroomy Hparse Hl Hd Hfuel.
  destruct (tracks_roomy _ _ r (receive_tracks fuel bl bd) Hroomy)
    as (Heq & Hlost & Hcap & _).
  destruct (receive_Returned bl bd Hcap_l Hcap_d (dev r) fuel (p_noise p)
              (to_char <$> p_label p) (p_type p) (to_char <$> p_payload p) (p_rest p))
    as (s' & Hret & ? & ?); [apply drun_parse; by exists p|done|].
  rewrite Hret in Heq. apply dev_outcome_Ok in Heq as (r' & Hrun & <-).
  rewrite Hrun in *. by exists r'.
Qed.

(** C39. The cushion. With room in the buffer for the whole pending input and
    arrays that are larger than the buffer, no call writes out of bounds,
    whatever the input is. *)
Theorem receive_ring_cushion fuel r e r' :
  roomy r ->
  (capacity r <= length bl `min` length bd)%nat ->
  SerialReceiveAndParsePacket fuel bl bd r <> Fault e r'.
Proof.
  intros Hroomy Hcap Hrun.
  destruct (tracks_roomy _ _ r (receive_tracks fuel bl bd) Hroomy) as (Heq & _).
  rewrite Hrun in Heq. symmetry in Heq.
  eapply receive_short_input in Heq; [done..|]. unfold roomy in Hroomy. lia.
Qed.

(** C17. Overrun. The frame of a packet the receiver can read back
    ([receivable]: a label without type marker, a type marker the
    receiver knows, a payload without end marker) that arrives in one
    burst into the empty buffer
    and has no room in it loses its tail, the end marker with it: the call
    never returns, whatever the fuel, and what it has lost is the frame
    from the capacity on. On the channel of the specification the same
    frame is received. *)
Theorem receive_ring_overrun label marker payload r fuel :
  receivable label marker payload ->
  rx (dev r) = [] -> incoming (dev r) = [frame label marker payload] ->
  ~ roomy r ->
  (forall x r', SerialReceiveAndParsePacket fuel bl bd r <> Ok (inr x) r') /\
  ((0 < fuel)%nat ->
   lost (state_of (SerialReceiveAndParsePacket fuel bl bd r)) =
   lost r ++ drop (capacity r) (frame label marker payload)).
Proof.
  intros Hrec Hrx Hin Hroomy.
  assert (capacity r < length (frame label marker payload))%nat as Hlen.
  { unfold roomy, pending in Hroomy. rewrite Hrx, Hin in Hroomy.
    cbn [concat app] in Hroomy. rewrite app_nil_r in Hroomy. lia. }
  assert (clip r = mkRing (mkSerial [] [take (capacity r) (frame label marker payload)]
                             (tx (dev r)) (flushed (dev r)) (clock (dev r)))
                     (capacity r) (lost r ++ drop (capacity r) (frame label marker payload)))
    as Hclip by (unfold clip; rewrite Hin, Hrx; simpl; by rewrite Nat.sub_0_r).
  split.
  - intros x r' Hret. apply (receive_mono _ (S fuel)) in Hret; [|lia].
    destruct (receive_burst fuel bl bd r _ Hin) as [Heq _]; [rewrite Hrx; simpl; lia|].
    rewrite Hret, Hclip in Heq. symmetry in Heq.
    apply receive_returned_run in Heq as (ns & ? & ? & ? & ? & Hrun); [|done..].
    apply drun_parse in Hrun as (p & Hp & _). unfold pending in Hp. simpl in Hp.
    rewrite app_nil_r in Hp. by rewrite parse_frame_prefix in Hp.
  - destruct fuel as [|fuel]; [lia|]. intros _.
    destruct (receive_burst fuel bl bd r _ Hin) as [_ ->]; [rewrite Hrx; simpl; lia|].
    by rewrite Hclip.
Qed.

End receive.

(** The senders do not depend on the receive buffer: a send on the
    bounded buffer writes the frame of the packet and flushes, or stops at
    the unterminated label, as on the channel of the specification, and
    leaves the receiving side as it was. *)
Theorem send_on_ring p r :
  send p r =
  match wire_of p with
  | Some bs => Ok tt (with_dev (sent bs (dev r)) r)
  | None => Fault Unterminated (with_dev (emit (written_before_fault p) (dev r)) r)
  end.
Proof.
  rewrite (send_rel (@lifts) p). unfold on_dev. destruct (wire_of p) as [bs|] eqn:Hw.
  - by rewrite (send_ok _ _ _ Hw).
  - by rewrite (send_fault _ _ Hw).
Qed.

(** ** The theorems at concrete inputs *)

Lemma receive_ring_returns_witness :
  exists r',
    SerialReceiveAndParsePacket 20 (replicate 8 7) (replicate 8 7)
      (board [str "XY<T"; []; str "s|"; [0; 0; 0; 5; 62; 122]]) =
      Ok (inr (PACKET_INT, [84; 115; 0; 7; 7; 7; 7; 7], [0; 0; 0; 5; 0; 7; 7; 7])) r' /\
    lost r' = [] /\ capacity r' = 64%nat /\ pending (dev r') = [122] /\
    out_eq (dev r')
      (notices (str "XY") (fresh [str "XY<T"; []; str "s|"; [0; 0; 0; 5; 62; 122]])).
Proof.
  apply (receive_ring_returns (replicate 8 7) (replicate 8 7)
           ltac:(compute_done) ltac:(compute_done) 20%nat
           (board [str "XY<T"; []; str "s|"; [0; 0; 0; 5; 62; 122]])
           (mkParsed (str "XY") (str "Ts") PACKET_INT [0; 0; 0; 5] [122]));
    [compute_done | reflexivity | simpl; lia..].
Defined.

Lemma receive_ring_cushion_witness :
  SerialReceiveAndParsePacket 70 (replicate 100 0) (replicate 100 0)
    (board [str "<" ++ replicate 63 (chr "a")]) <>
  Fault OutOfBounds (board []).
Proof.
  apply (receive_ring_cushion (replicate 100 0) (replicate 100 0)
           ltac:(compute_done) ltac:(compute_done));
    [compute_done | simpl; lia].
Defined.

Lemma receive_ring_overrun_witness :
  (forall x r',
      SerialReceiveAndParsePacket 80 (replicate 100 0) (replicate 100 0)
        (board [frame (str "Ts") PACKET_CHAR (replicate 70 (chr "a"))]) <>
      Ok (inr x) r') /\
  ((0 < 80)%nat ->
   lost (state_of (SerialReceiveAndParsePacket 80 (replicate 100 0) (replicate 100 0)
                  (board [frame (str "Ts") PACKET_CHAR (replicate 70 (chr "a"))]))) =
   lost (board [frame (str "Ts") PACKET_CHAR (replicate 70 (chr "a"))]) ++
   drop (capacity (board [frame (str "Ts") PACKET_CHAR (replicate 70 (chr "a"))]))
        (frame (str "Ts") PACKET_CHAR (replicate 70 (chr "a")))).
Proof.
  apply (receive_ring_overrun (replicate 100 0) (replicate 100 0)
           ltac:(compute_done) ltac:(compute_done));
    [compute_done | reflexivity | reflexivity | compute_done].
Defined.

(** The same frame on the channel of the specification is received. *)
Example receive_unbounded_burst :
  exists s',
    SerialReceiveAndParsePacket 80 (replicate 100 0) (replicate 100 0)
      (fresh [frame (str "Ts") PACKET_CHAR (replicate 70 (chr "a"))]) =
    Ok (inr (PACKET_CHAR, str "Ts" ++ replicate 98 0,
             replicate 70 (chr "a") ++ replicate 30 0)) s'.
Proof. eexists. vm_compute. reflexivity. Qed.

(** The cushion is a bound on what a call reads, not on the buffer: a
    label of 119 characters that arrives in two bursts of 60 bytes, the
    second after the first has been read, loses nothing on the board and
    is written past the end of an array of [MAX_BUFFER] cells. *)
Example ring_paced_overflow :
  exists r',
    SerialReceiveAndParsePacket 200
      (replicate (Z.to_nat MAX_BUFFER) 0) (replicate (Z.to_nat MAX_BUFFER) 0)
      (board ([str "<" ++ replicate 59 (chr "a")] ++ replicate 60 [] ++
              [replicate 60 (chr "a")])) = Fault OutOfBounds r' /\
    lost r' = [] /\ length (pending (dev r')) = 18%nat.
Proof. eexists. split; [vm_compute; reflexivity|]. by vm_compute. Qed.

(** After an overrun the frame that comes next is taken for payload: the
    call returns one packet made of the front of the first frame and the
    whole of the second. *)
Example ring_overrun_merges :
  exists r',
    SerialReceiveAndParsePacket 200 (replicate 100 0) (replicate 100 0)
      (board ([frame (str "Ts") PACKET_CHAR (replicate 70 (chr "a"))] ++
              replicate 70 [] ++ [frame (str "Uv") PACKET_CHAR (str "b")])) =
    Ok (inr (PACKET_CHAR, str "Ts" ++ replicate 98 0,
             replicate 60 (chr "a") ++ str "<Uv@b" ++ replicate 35 0)) r' /\
    lost r' = replicate 10 (chr "a") ++ [PACKET_END].
Proof. eexists. split; [vm_compute; reflexivity|]. by vm_compute. Qed.
