(* ===== verification/Independence.v ===== *)
(** * The two directions are independent

    The specification, section 5: there is "no shared mutable state
    between decode and encode paths beyond the channel itself". Of the
    channel the library reads the receiving side only, and to the sending
    side and the clock it only adds: what a function answers, what it
    reads, what it writes and how long it waits are determined by the
    input buffered and still to arrive, whatever was written and however
    much time was spent before.

    [alike] states that of two programs, on two devices with the same
    input side; it holds of the operations of the channel and is kept by
    sequencing, so every function of the library is alike itself
    ([Parametric]). The theorems state it of the receiver, and that a
    packet sent before a call of the receiver changes what the call
    returns and reads in nothing. *)

From S2P Require Import Prelude CArray Channel Serial Codec Packet Encoder.
From S2P Require Import DecoderSpec Decoder DecoderRun Receiver Handshake.
From S2P Require Import Parametric.

#[local] Open Scope Z_scope.

Implicit Types s : serial.

(** ** Definitions *)

(** Two devices with the same input side: what is buffered and what is
    still to arrive, chunk by chunk. *)
Definition same_input (s1 s2 : serial) : Prop :=
  rx s1 = rx s2 /\ incoming s1 = incoming s2.

(** From the state [s] to the outcome [o] the bytes [w] were written and
    nothing else was done to the output. *)
Definition wrote {A} (s : serial) (o : outcome serial A) (w : list Z) : Prop :=
  tx (state_of o) = tx s ++ w.

(** The milliseconds spent from the state [s] to the outcome [o]. *)
Definition elapsed {A} (s : serial) (o : outcome serial A) : Z :=
  clock (state_of o) - clock s.

(** On devices with the same input side the two programs answer the
    same, leave the same input side, write the same bytes and wait as
    long. *)
Definition alike {A} (p q : prog serial A) : Prop :=
  forall s1 s2,
    same_input s1 s2 ->
    result_of (p s1) = result_of (q s2) /\
    same_input (state_of (p s1)) (state_of (q s2)) /\
    (exists w, wrote s1 (p s1) w /\ wrote s2 (q s2) w) /\
    elapsed s1 (p s1) = elapsed s2 (q s2).

(** ** The rules *)

Section rules.
Context {A B : Type}.

Lemma alike_ret (a : A) : alike (mret a) (mret a).
Proof.
  intros s1 s2 Hs. unfold wrote, elapsed. simpl. split_and!; [done..| |lia].
  exists []. by rewrite !app_nil_r.
Qed.

Lemma alike_raise (e : fault) : alike (A:=A) (raise e) (raise e).
Proof.
  intros s1 s2 Hs. unfold wrote, elapsed. simpl. split_and!; [done..| |lia].
  exists []. by rewrite !app_nil_r.
Qed.

Lemma alike_bind (m1 m2 : prog serial A) (f1 f2 : A -> prog serial B) :
  alike m1 m2 -> (forall a, alike (f1 a) (f2 a)) -> alike (m1 ≫= f1) (m2 ≫= f2).
Proof.
  intros Hm Hf s1 s2 Hs. destruct (Hm s1 s2 Hs) as (Hr & Hs' & (w & Hw1 & Hw2) & Ht).
  prog_unfold. unfold wrote, elapsed in *.
  destruct (m1 s1) as [a1 t1|e1 t1], (m2 s2) as [a2 t2|e2 t2]; simplify_eq/=;
    [|split_and!; [done..|by exists w|done]].
  destruct (Hf a2 t1 t2 Hs') as (Hr' & Hs'' & (w' & Hw1' & Hw2') & Ht').
  unfold wrote, elapsed in *. split_and!; [done..| |lia].
  exists (w ++ w'). by rewrite Hw1', Hw2', Hw1, Hw2, !app_assoc.
Qed.

End rules.

(** ** The operations *)

Lemma alike_available : alike Serial_available Serial_available.
Proof.
  intros [r1 i1 t1 f1 c1] [r2 i2 t2 f2 c2] [Hrx Hin]. simpl in *. subst. cbn.
  unfold serial_available, arrive, wrote, elapsed, same_input.
  destruct i2; simpl; split_and!; try done; try lia.
  all: exists []; by rewrite !app_nil_r.
Qed.

Lemma alike_read : alike Serial_read Serial_read.
Proof.
  intros [r1 i1 t1 f1 c1] [r2 i2 t2 f2 c2] [Hrx Hin]. simpl in *. subst. cbn.
  unfold serial_read, wrote, elapsed, same_input.
  destruct r2; simpl; split_and!; try done; try lia.
  all: exists []; by rewrite !app_nil_r.
Qed.

Lemma alike_write n : alike (Serial_write n) (Serial_write n).
Proof.
  intros s1 s2 Hs. unfold wrote, elapsed. simpl. split_and!; [done..| |lia].
  by exists [to_uint8 n].
Qed.

Lemma alike_flush : alike Serial_flush Serial_flush.
Proof.
  intros s1 s2 Hs. unfold wrote, elapsed. simpl. split_and!; [done..| |lia].
  exists []. by rewrite !app_nil_r.
Qed.

Lemma alike_delay ms : alike (delay ms) (delay ms).
Proof.
  intros s1 s2 Hs. unfold wrote, elapsed. simpl. split_and!; [done..| |lia].
  exists []. by rewrite !app_nil_r.
Qed.

(** The relation is one of those the library is parametric in. *)
#[export] Instance alike_prog_rel : ProgRel (@alike).
Proof. split; [apply @alike_ret|apply @alike_raise|apply @alike_bind]. Qed.

#[export] Instance alike_writer_rel : WriterRel (@alike).
Proof. split; [apply _|apply alike_write|apply alike_flush]. Qed.

#[export] Instance alike_rel : ChannelRel (@alike).
Proof. split; [apply _|apply alike_available|apply alike_read|apply alike_delay]. Qed.

(** ** The theorems *)

(** The receiver is driven by its input alone. On two devices with the
    same input buffered and still to arrive, whatever each has written
    and flushed and however long it has waited, a call gives the same
    result or the same fault, leaves the same input, and adds the same
    bytes to the output in the same time. *)
Theorem receive_input_driven fuel bl bd s1 s2 :
  same_input s1 s2 ->
  let o1 := SerialReceiveAndParsePacket fuel bl bd s1 in
  let o2 := SerialReceiveAndParsePacket fuel bl bd s2 in
  result_of o1 = result_of o2 /\ same_input (state_of o1) (state_of o2) /\
  (exists w, wrote s1 o1 w /\ wrote s2 o2 w) /\ elapsed s1 o1 = elapsed s2 o2.
Proof. apply (SerialReceiveAndParsePacket_rel (@alike)). Qed.

(** A packet sent before a call of the receiver changes nothing in what
    the call returns and leaves unread: the output is the frame of the
    packet, then what the call writes. *)
Lemma send_then_receive p bs fuel bl bd s :
  wire_of p = Some bs ->
  let o1 := (send p;; SerialReceiveAndParsePacket fuel bl bd) s in
  let o2 := SerialReceiveAndParsePacket fuel bl bd s in
  result_of o1 = result_of o2 /\ same_input (state_of o1) (state_of o2) /\
  exists w, wrote s o1 (bs ++ w) /\ wrote s o2 w.
Proof.
  intros Hp. simpl. prog_unfold. rewrite (send_ok _ _ _ Hp).
  destruct (SerialReceiveAndParsePacket_rel (@alike) fuel bl bd (sent bs s) s)
    as (? & ? & (w & Hw1 & Hw2) & _); [done|].
  split_and!; [done..|]. exists w. unfold wrote in *.
  by rewrite Hw1, sent_tx, app_assoc.
Qed.

(** ** The theorems at concrete inputs *)

Lemma receive_input_driven_witness :
  let o1 := SerialReceiveAndParsePacket 20 (replicate 8 7) (replicate 8 7)
              (fresh [str "X<T"; str "s@a>"]) in
  let o2 := SerialReceiveAndParsePacket 20 (replicate 8 7) (replicate 8 7)
              (mkSerial [] [str "X<T"; str "s@a>"] (str "<Go|") 2 1500) in
  result_of o1 = result_of o2 /\ same_input (state_of o1) (state_of o2) /\
  (exists w, wrote (fresh [str "X<T"; str "s@a>"]) o1 w /\
             wrote (mkSerial [] [str "X<T"; str "s@a>"] (str "<Go|") 2 1500) o2 w) /\
  elapsed (fresh [str "X<T"; str "s@a>"]) o1 =
  elapsed (mkSerial [] [str "X<T"; str "s@a>"] (str "<Go|") 2 1500) o2.
Proof.
  apply (receive_input_driven 20 (replicate 8 7) (replicate 8 7)
           (fresh [str "X<T"; str "s@a>"])
           (mkSerial [] [str "X<T"; str "s@a>"] (str "<Go|") 2 1500)).
  compute_done.
Defined.
