(* ===== verification/CharArray.v ===== *)
(** * The bounded string copy

    [CopyCharArray] (lines 181-193) copies the characters of [source] to
    [target] until it meets a NUL or has copied [max_num_data] of them,
    writes a NUL behind them and answers the length of the string now in
    [target]. [source] and [target] are pointers: [CopyCharArray_at] is
    the call through two pointers into a memory ([Memory]), the [for]
    loop an [iter_fuel] over the locals [i] and the memory; reads and
    writes go through [fetch_at] and [assign_at], so an access outside
    the array a pointer points into is the fault [OutOfBounds].
    [CopyCharArray] is the call with two arrays of their own. The result
    of [strlen] is a [size_t] and the function returns an [int]: the
    conversion [to_int] is part of the [return], and the theorems show
    that it never changes the value.

    [copied] is what the call copies and [copy_fits] says when it can be
    copied without leaving the arrays. The loop is followed under the
    hypothesis [reads_ahead], that no read finds a cell the copy has
    written; it holds of two different arrays and of a [source] at or
    behind [target] in the same array. The theorems: the call does
    exactly what [copied] says, and is undefined exactly when
    [copy_fits] fails -- in particular when [target] has [max_num_data]
    cells and [source] holds at least as many characters, since the NUL
    goes to [target[max_num_data]]; what a caller may rely on whenever
    the call returns; a string is copied correctly towards the front of
    its own array, and cut in place; and copied towards the back of its
    own array it is not: the call reads what it has just written, never
    meets the NUL and leaves the first character all over the array. *)

From S2P Require Import Prelude CArray Memory.

#[local] Open Scope Z_scope.

(** ** The function *)

(** Lines 183-190, one iteration of the [for] loop; the locals are [i] and
    the memory the two pointers point into. *)
Definition copy_body {S} (source target : ptr) (max_num_data : Z) (st : Z * heap)
  : prog S (Z * heap + Z * heap) :=
  let '(i, m) := st in
  if decide (i < max_num_data) then
    c ← fetch_at m source i;
    if decide (c <> 0) then
      c' ← fetch_at m source i;
      m' ← assign_at m target i c';
      i' ← int_succ i;
      mret (inl (i', m'))
    else mret (inr (i, m))
  else mret (inr (i, m)).

(** Lines 181-193, called with the pointers [source] and [target] into
    the memory [memory]. The call answers its result with the memory as
    it leaves it. *)
Definition CopyCharArray_at {S} (fuel : nat) (memory : heap) (source target : ptr)
    (max_num_data : Z) : prog S (Z * heap + Z * heap) :=
  r ← iter_fuel (copy_body source target max_num_data) fuel (0, memory);
  match r with
  | inl st => mret (inl st)
  | inr (i, m) =>
      m' ← assign_at m target i 0;
      n ← lift_option Unterminated (strlen (array_at m' target));
      mret (inr (to_int (Z.of_nat n), m'))
  end.

(** The pointers to two arrays of their own. *)
Abbreviation own_source := (mkPtr 0 0).
Abbreviation own_target := (mkPtr 1 0).

(** What the caller finds in [target]. *)
Definition target_of (r : Z * heap + Z * heap) : Z * list Z + Z * list Z :=
  sum_map (prod_map id (fun m => array_at m own_target))
          (prod_map id (fun m => array_at m own_target)) r.

(** The call with two arrays of their own: it answers its result with
    the array [target] as it leaves it. *)
Definition CopyCharArray {S} (fuel : nat) (source target : list Z) (max_num_data : Z)
  : prog S (Z * list Z + Z * list Z) :=
  r ← CopyCharArray_at fuel [source; target] own_source own_target max_num_data;
  mret (target_of r).

(** ** Reference *)

(** The characters of an array before its first NUL, or all of them. *)
Fixpoint chars (a : list Z) : list Z :=
  match a with
  | [] => []
  | c :: a' => if decide (c = 0) then [] else c :: chars a'
  end.

(** What the call copies. *)
Definition copied (source : list Z) (max_num_data : Z) : list Z :=
  chars (take (Z.to_nat max_num_data) source).

(** The copy stays inside the arrays: [target] has a cell for each
    character copied and one for the NUL, and if the copy did not stop at
    the bound then [source] has the cell that stopped it. *)
Definition copy_fits (source target : list Z) (max_num_data : Z) : Prop :=
  (length (copied source max_num_data) < length target)%nat /\
  (Z.of_nat (length (copied source max_num_data)) < max_num_data ->
   (length (copied source max_num_data) < length source)%nat).

#[export] Instance copy_fits_dec source target max_num_data :
  Decision (copy_fits source target max_num_data).
Proof. unfold copy_fits. apply _. Defined.

(** The copy reads no cell it has written: when it comes to read
    [source[i]], having written the first [i] characters through
    [target], the cell holds what it held. *)
Definition reads_ahead (h0 : heap) (source target : ptr) (max_num_data : Z) : Prop :=
  forall i,
    (i <= length (copied (array_at h0 source) max_num_data))%nat ->
    (i <= room h0 target)%nat ->
    array_at (fill h0 target (take i (copied (array_at h0 source) max_num_data))) source !! i =
    array_at h0 source !! i.

(** ** [chars] *)

Lemma chars_nul_free a : nul_free (chars a).
Proof.
  induction a as [|c a IH]; simpl; [constructor|].
  case_decide; [constructor|]. by constructor.
Qed.

Lemma chars_length a : (length (chars a) <= length a)%nat.
Proof. induction a as [|c a IH]; simpl; [done|]. case_decide; simpl; lia. Qed.

Lemma chars_lookup a i c : chars a !! i = Some c -> a !! i = Some c.
Proof.
  revert i. induction a as [|x a IH]; intros i; simpl; [done|].
  case_decide; [done|]. destruct i; simpl; [done|]. apply IH.
Qed.

(** The cell behind the characters, if there is one, holds the NUL. *)
Lemma chars_stop a : (length (chars a) < length a)%nat -> a !! length (chars a) = Some 0.
Proof.
  induction a as [|x a IH]; simpl; [lia|].
  case_decide; simpl; [by subst|]. intros. apply IH. lia.
Qed.

Lemma chars_app_nul s r : nul_free s -> chars (s ++ 0 :: r) = s.
Proof.
  induction 1 as [|c s Hc _ IH]; simpl; [done|].
  by rewrite decide_False, IH by done.
Qed.

Lemma chars_c_str a s : c_str a = Some s -> chars a = s.
Proof.
  unfold c_str. destruct (strlen a) as [n|] eqn:Hn; [|done]. intros [= <-].
  apply strlen_Some_iff in Hn as (s & r & -> & Hs & <-).
  by rewrite take_app_length, chars_app_nul.
Qed.

(** ** What is copied *)

Section copied.
Context (source : list Z) (max_num_data : Z).

Lemma copied_lookup i c :
  copied source max_num_data !! i = Some c ->
  source !! i = Some c /\ c <> 0 /\ Z.of_nat i < max_num_data.
Proof.
  intros H. split_and!.
  - apply chars_lookup in H. by apply lookup_take_Some in H as [? _].
  - pose proof (chars_nul_free (take (Z.to_nat max_num_data) source)) as Hnf.
    unfold nul_free in Hnf. rewrite Forall_lookup in Hnf. by eapply Hnf.
  - apply chars_lookup, lookup_take_Some in H as [_ ?]. lia.
Qed.

Lemma copied_stop :
  Z.of_nat (length (copied source max_num_data)) < max_num_data ->
  (length (copied source max_num_data) < length source)%nat ->
  source !! length (copied source max_num_data) = Some 0.
Proof.
  intros Hlt Hsrc. unfold copied in *.
  pose proof (chars_stop (take (Z.to_nat max_num_data) source)) as Hstop.
  rewrite length_take in Hstop.
  apply lookup_take_Some in Hstop as [? _]; [done|lia].
Qed.

Lemma copied_length : (length (copied source max_num_data) <= Z.to_nat max_num_data)%nat.
Proof.
  unfold copied. etrans; [apply chars_length|]. rewrite length_take. lia.
Qed.

End copied.

(** ** The loop *)

Section copy.
Context {S : Type} (h0 : heap) (source target : ptr) (max_num_data : Z).
Context (Hmax : max_num_data <= INT_MAX).
Context (Hread : reads_ahead h0 source target max_num_data).
Implicit Types s : S.

#[local] Abbreviation src := (array_at h0 source).
#[local] Abbreviation cp := (copied (array_at h0 source) max_num_data).
#[local] Abbreviation body := (copy_body source target max_num_data).

(** What the [i]-th read finds. *)
Lemma copy_fetch i s :
  (i <= length cp)%nat -> (i <= room h0 target)%nat ->
  fetch_at (fill h0 target (take i cp)) source (Z.of_nat i) s =
  lift_option OutOfBounds (src !! i) s.
Proof. intros Hi Ht. by rewrite fetch_at_lookup, Hread. Qed.

(** A character to copy and a cell for it: the body copies it. *)
Lemma copy_body_step i c s :
  cp !! i = Some c -> (i < room h0 target)%nat ->
  body (Z.of_nat i, fill h0 target (take i cp)) s =
  Ok (inl (Z.of_nat (Datatypes.S i), fill h0 target (take (Datatypes.S i) cp))) s.
Proof.
  intros Hc Hi. destruct (copied_lookup _ _ i c Hc) as (Hsrc & Hnz & Hlt).
  pose proof (lookup_lt_Some _ _ _ Hc) as Hn.
  unfold copy_body. rewrite decide_True by done.
  erewrite !bind_Ok by (rewrite copy_fetch, Hsrc by lia; done).
  rewrite decide_True by done.
  erewrite !bind_Ok by (rewrite copy_fetch, Hsrc by lia; done).
  rewrite (take_S_r _ _ _ Hc).
  erewrite bind_Ok; [|replace (Z.of_nat i) with (Z.of_nat (length (take i cp)))
                        by (rewrite length_take; lia);
                      apply assign_at_fill; rewrite length_take; lia].
  erewrite bind_Ok by (apply int_succ_ok; lia). cbv beta.
  do 3 f_equal. lia.
Qed.

(** A character to copy and no cell for it. *)
Lemma copy_body_full c s :
  cp !! room h0 target = Some c ->
  body (Z.of_nat (room h0 target), fill h0 target (take (room h0 target) cp)) s =
  Fault OutOfBounds s.
Proof.
  intros Hc. destruct (copied_lookup _ _ _ c Hc) as (Hsrc & Hnz & Hlt).
  pose proof (lookup_lt_Some _ _ _ Hc) as Hn.
  unfold copy_body. rewrite decide_True by done.
  erewrite !bind_Ok by (rewrite copy_fetch, Hsrc by lia; done).
  rewrite decide_True by done.
  erewrite !bind_Ok by (rewrite copy_fetch, Hsrc by lia; done).
  erewrite bind_Fault; [done|].
  replace (Z.of_nat (room h0 target))
    with (Z.of_nat (length (take (room h0 target) cp))) by (rewrite length_take; lia).
  apply assign_at_full; rewrite length_take; lia.
Qed.

(** Behind the characters to copy the loop ends, or reads past [source]. *)
Lemma copy_body_end s :
  (length cp <= room h0 target)%nat ->
  body (Z.of_nat (length cp), fill h0 target cp) s =
  if decide (Z.of_nat (length cp) < max_num_data /\ (length src <= length cp)%nat)
  then Fault OutOfBounds s
  else Ok (inr (Z.of_nat (length cp), fill h0 target cp)) s.
Proof.
  intros Ht. pose proof (copy_fetch (length cp) s ltac:(done) Ht) as Hfetch.
  rewrite firstn_all in Hfetch.
  unfold copy_body. destruct (decide (_ < max_num_data)) as [Hlt|Hge].
  - destruct (decide (length src <= length cp)%nat).
    + rewrite decide_True by done. erewrite bind_Fault; [done|].
      by rewrite Hfetch, lookup_ge_None_2 by lia.
    + rewrite decide_False by lia.
      by erewrite bind_Ok by (rewrite Hfetch, copied_stop by lia; done).
  - by rewrite decide_False by tauto.
Qed.

(** The first [j] iterations copy [j] characters. *)
Lemma copy_loop j s :
  (j <= length cp)%nat -> (j <= room h0 target)%nat ->
  iter_fuel body j (0, h0) s = Ok (inl (Z.of_nat j, fill h0 target (take j cp))) s.
Proof.
  induction j as [|j IH]; intros Hn Ht; [by rewrite take_0, fill_nil|].
  rewrite <- Nat.add_1_r, iter_fuel_add, IH by lia.
  destruct (lookup_lt_is_Some_2 cp j ltac:(lia)) as [c Hc].
  rewrite iter_fuel_S, (copy_body_step j c) by (done || lia).
  by rewrite Nat.add_1_r.
Qed.

(** The whole loop. *)
Lemma copy_loop_run fuel s :
  (length cp < fuel)%nat ->
  iter_fuel body fuel (0, h0) s =
  if decide ((room h0 target < length cp)%nat \/
             Z.of_nat (length cp) < max_num_data /\ (length src <= length cp)%nat)
  then Fault OutOfBounds s
  else Ok (inr (Z.of_nat (length cp), fill h0 target cp)) s.
Proof.
  intros Hfuel.
  destruct (decide (room h0 target < length cp)%nat) as [Hlt|Hge].
  - rewrite decide_True by tauto.
    replace fuel with (room h0 target + Datatypes.S (fuel - room h0 target - 1))%nat by lia.
    rewrite iter_fuel_add, copy_loop, iter_fuel_S by lia.
    destruct (lookup_lt_is_Some_2 cp (room h0 target) Hlt) as [c Hc].
    by rewrite (copy_body_full c).
  - replace fuel with (length cp + Datatypes.S (fuel - length cp - 1))%nat by lia.
    rewrite iter_fuel_add, copy_loop, iter_fuel_S by lia.
    rewrite firstn_all, copy_body_end by lia.
    repeat case_decide; try done; tauto.
Qed.

(** ** The call through two pointers *)

Lemma copy_at_ok fuel s :
  copy_fits src (array_at h0 target) max_num_data ->
  (length cp < fuel)%nat ->
  CopyCharArray_at fuel h0 source target max_num_data s =
  Ok (inr (Z.of_nat (length cp), fill h0 target (cp ++ [0]))) s.
Proof.
  intros [Ht Hs] Hfuel. unfold CopyCharArray_at. fold (room h0 target) in Ht.
  pose proof (copy_loop_run fuel s Hfuel) as Hloop.
  rewrite decide_False in Hloop by lia. rewrite (bind_Ok _ _ _ _ _ Hloop).
  erewrite bind_Ok by (by apply assign_at_fill).
  rewrite array_at_fill by (rewrite length_app; simpl; lia).
  rewrite strlen_overwrite by apply chars_nul_free. cbn [lift_option].
  rewrite bind_ret_l, to_int_id; [done|].
  pose proof (copied_length src max_num_data). unfold INT_MAX in Hmax. lia.
Qed.

Lemma copy_at_fault fuel s :
  ~ copy_fits src (array_at h0 target) max_num_data ->
  (length cp < fuel)%nat ->
  CopyCharArray_at fuel h0 source target max_num_data s = Fault OutOfBounds s.
Proof.
  intros Hnot Hfuel. unfold CopyCharArray_at, copy_fits in *.
  fold (room h0 target) in Hnot.
  pose proof (copy_loop_run fuel s Hfuel) as Hloop.
  case_decide as H.
  - by rewrite (bind_Fault _ _ _ _ _ Hloop).
  - rewrite (bind_Ok _ _ _ _ _ Hloop).
    erewrite bind_Fault; [done|]. apply assign_at_full; lia.
Qed.

End copy.

(** ** When the copy reads ahead of its writes *)

(** Two different arrays. *)
Lemma reads_ahead_apart h0 source target max_num_data :
  apart target source -> reads_ahead h0 source target max_num_data.
Proof. intros Hne i _ _. by rewrite array_at_fill_apart. Qed.

(** The same array, [source] at [target] or behind it: copying in place
    or towards the front. *)
Lemma reads_ahead_shift h0 target k max_num_data :
  reads_ahead h0 (shift target k) target max_num_data.
Proof.
  intros i Hi Ht. rewrite !array_at_shift, !lookup_drop.
  rewrite array_at_fill by (rewrite length_take; lia).
  unfold overwrite. rewrite lookup_app_r by (rewrite length_take; lia).
  rewrite lookup_drop, length_take. f_equal. lia.
Qed.

(** ** The call with two arrays of their own *)

Section call.
Context {S : Type} (source target : list Z) (max_num_data : Z).
Context (Hmax : max_num_data <= INT_MAX).
Implicit Types s : S.

Lemma copy_ok fuel s :
  copy_fits source target max_num_data ->
  (length (copied source max_num_data) < fuel)%nat ->
  CopyCharArray fuel source target max_num_data s =
  Ok (inr (Z.of_nat (length (copied source max_num_data)),
           overwrite target (copied source max_num_data ++ [0]))) s.
Proof.
  intros Hfits Hfuel. unfold CopyCharArray.
  by erewrite bind_Ok
    by (by apply (copy_at_ok [source; target] own_source own_target max_num_data Hmax);
        [apply reads_ahead_apart|..]).
Qed.

Lemma copy_fault fuel s :
  ~ copy_fits source target max_num_data ->
  (length (copied source max_num_data) < fuel)%nat ->
  CopyCharArray fuel source target max_num_data s = Fault OutOfBounds s.
Proof.
  intros Hnot Hfuel. unfold CopyCharArray.
  by erewrite bind_Fault
    by (by apply (copy_at_fault [source; target] own_source own_target max_num_data Hmax);
        [apply reads_ahead_apart|..]).
Qed.

End call.

(** What is copied from an array that holds a string. *)
Lemma copied_c_str source cs max_num_data :
  c_str source = Some cs ->
  copied source max_num_data = take (Z.to_nat max_num_data) cs.
Proof.
  unfold c_str, copied. destruct (strlen source) as [n|] eqn:Hn; [|done]. intros [= <-].
  apply strlen_Some_iff in Hn as (cs & r & -> & Hcs & <-).
  rewrite take_app_length. generalize (Z.to_nat max_num_data). clear max_num_data.
  induction Hcs as [|c cs Hc _ IH]; intros [|m]; simpl; try done.
  by rewrite decide_False, IH by done.
Qed.

(** What is copied is a prefix of [source]. *)
Lemma chars_prefix a : take (length (chars a)) a = chars a.
Proof.
  induction a as [|c a IH]; simpl; [done|].
  case_decide; simpl; [done|]. by rewrite IH.
Qed.

Lemma copied_prefix source max_num_data :
  take (length (copied source max_num_data)) source = copied source max_num_data.
Proof.
  unfold copied. rewrite <- (chars_prefix (take _ source)) at 2.
  rewrite take_take. f_equal.
  pose proof (chars_length (take (Z.to_nat max_num_data) source)) as H.
  rewrite length_take in H. lia.
Qed.

(** More fuel does not change a call that has returned. *)
Lemma copy_at_mono {S} fuel fuel' h0 source target max_num_data (s : S) r s' :
  (fuel <= fuel')%nat ->
  CopyCharArray_at fuel h0 source target max_num_data s = Ok (inr r) s' ->
  CopyCharArray_at fuel' h0 source target max_num_data s = Ok (inr r) s'.
Proof.
  intros Hle. unfold CopyCharArray_at.
  destruct (iter_fuel (copy_body source target max_num_data) fuel (0, h0) s)
    as [[st|[i t]] s1|] eqn:Hrun.
  - by rewrite (bind_Ok _ _ _ _ _ Hrun).
  - by rewrite (bind_Ok _ _ _ _ _ Hrun),
      (bind_Ok _ _ _ _ _ (iter_fuel_mono _ _ _ _ _ _ _ Hle Hrun)).
  - by rewrite (bind_Fault _ _ _ _ _ Hrun).
Qed.

Lemma copy_mono {S} fuel fuel' source target max_num_data (s : S) r s' :
  (fuel <= fuel')%nat ->
  CopyCharArray fuel source target max_num_data s = Ok (inr r) s' ->
  CopyCharArray fuel' source target max_num_data s = Ok (inr r) s'.
Proof.
  intros Hle. unfold CopyCharArray.
  destruct (CopyCharArray_at fuel [source; target] own_source own_target max_num_data s)
    as [[?|r1] s1|] eqn:Hrun;
    [by rewrite (bind_Ok _ _ _ _ _ Hrun)| |by rewrite (bind_Fault _ _ _ _ _ Hrun)].
  by rewrite (bind_Ok _ _ _ _ _ Hrun),
    (bind_Ok _ _ _ _ _ (copy_at_mono _ _ _ _ _ _ _ _ _ Hle Hrun)).
Qed.

(** ** The call through two pointers, whatever they point to *)

(** Complete behaviour of a copy that reads ahead of its writes. *)
Lemma CopyCharArray_at_spec {S} fuel h0 source target max_num_data (s : S) :
  max_num_data <= INT_MAX ->
  reads_ahead h0 source target max_num_data ->
  (length (copied (array_at h0 source) max_num_data) < fuel)%nat ->
  CopyCharArray_at fuel h0 source target max_num_data s =
  if decide (copy_fits (array_at h0 source) (array_at h0 target) max_num_data)
  then Ok (inr (Z.of_nat (length (copied (array_at h0 source) max_num_data)),
                fill h0 target (copied (array_at h0 source) max_num_data ++ [0]))) s
  else Fault OutOfBounds s.
Proof. intros. case_decide; [by apply copy_at_ok|by apply copy_at_fault]. Qed.

(** A string that lies in the array of [target], at [target] or behind
    it, has room in front of it. *)
Lemma copy_fits_shift h0 target k cs max_num_data :
  c_str (array_at h0 (shift target k)) = Some cs ->
  copy_fits (array_at h0 (shift target k)) (array_at h0 target) max_num_data /\
  copied (array_at h0 (shift target k)) max_num_data = take (Z.to_nat max_num_data) cs.
Proof.
  intros Hcs. pose proof (copied_c_str _ _ max_num_data Hcs) as Hcopied.
  split; [|done]. unfold c_str in Hcs.
  destruct (strlen _) as [n|] eqn:Hn; [|done]. apply strlen_lt in Hn.
  apply (inj Some) in Hcs as <-. rewrite array_at_shift in *.
  unfold copy_fits. rewrite Hcopied, !length_take, length_drop in *. lia.
Qed.

(** ** The copy that runs into itself *)

Section smear.
Context {S : Type} (h0 : heap) (p : ptr) (c : Z) (rest : list Z) (max_num_data : Z).
Context (Harr : array_at h0 p = c :: rest) (Hc : c <> 0).
Context (Hmax : 0 <= max_num_data <= INT_MAX).
Context (Hroom : (Z.to_nat max_num_data < length rest)%nat).
Implicit Types s : S.

Lemma smear_room : room h0 p = Datatypes.S (length rest).
Proof. unfold room. by rewrite Harr. Qed.

(** An iteration copies the first character one cell further. *)
Lemma smear_step j s :
  (j < Z.to_nat max_num_data)%nat ->
  copy_body p (shift p 1) max_num_data
    (Z.of_nat j, fill h0 p (replicate (Datatypes.S j) c)) s =
  Ok (inl (Z.of_nat (Datatypes.S j),
           fill h0 p (replicate (Datatypes.S (Datatypes.S j)) c))) s.
Proof.
  intros Hj. pose proof smear_room as Hr.
  unfold copy_body. rewrite decide_True by lia.
  assert (array_at (fill h0 p (replicate (Datatypes.S j) c)) p !! j = Some c) as Hj'.
  { rewrite array_at_fill by (rewrite length_replicate; lia). unfold overwrite.
    rewrite lookup_app_l by (rewrite length_replicate; lia).
    apply lookup_replicate_2. lia. }
  erewrite !bind_Ok by (by rewrite fetch_at_lookup, Hj').
  rewrite decide_True by done.
  erewrite !bind_Ok by (by rewrite fetch_at_lookup, Hj').
  rewrite assign_at_shift.
  replace (Z.of_nat 1 + Z.of_nat j) with (Z.of_nat (length (replicate (Datatypes.S j) c)))
    by (rewrite length_replicate; lia).
  erewrite bind_Ok by (apply assign_at_fill; rewrite length_replicate; lia).
  erewrite bind_Ok by (apply int_succ_ok; lia). cbv beta.
  rewrite <- replicate_S_end. unfold mret, prog_ret. do 3 f_equal. lia.
Qed.

(** After [j] iterations the first [j + 1] cells hold the first
    character. *)
Lemma smear_loop j s :
  (j <= Z.to_nat max_num_data)%nat ->
  iter_fuel (copy_body p (shift p 1) max_num_data) j (0, h0) s =
  Ok (inl (Z.of_nat j, fill h0 p (replicate (Datatypes.S j) c))) s.
Proof.
  induction j as [|j IH]; intros Hj.
  { simpl. rewrite <- (fill_take h0 p 1) at 1. by rewrite Harr. }
  rewrite <- (Nat.add_1_r j), iter_fuel_add, IH, iter_fuel_S, smear_step by lia.
  by rewrite Nat.add_1_r.
Qed.

(** The loop stops at the bound, never at a NUL. *)
Lemma smear_run fuel s :
  (Z.to_nat max_num_data < fuel)%nat ->
  CopyCharArray_at fuel h0 p (shift p 1) max_num_data s =
  Ok (inr (max_num_data,
           fill h0 p (replicate (Datatypes.S (Z.to_nat max_num_data)) c ++ [0]))) s.
Proof.
  intros Hfuel. pose proof smear_room as Hr. unfold CopyCharArray_at.
  set (n := Z.to_nat max_num_data) in *.
  replace fuel with (n + Datatypes.S (fuel - n - 1))%nat by lia.
  erewrite bind_Ok; last first.
  { rewrite iter_fuel_add, smear_loop, iter_fuel_S by done.
    unfold copy_body. by rewrite decide_False by lia. }
  cbv beta iota. rewrite assign_at_shift.
  replace (Z.of_nat 1 + Z.of_nat n) with (Z.of_nat (length (replicate (Datatypes.S n) c)))
    by (rewrite length_replicate; lia).
  erewrite bind_Ok by (apply assign_at_fill; rewrite length_replicate; lia).
  rewrite array_at_shift, array_at_fill
    by (rewrite length_app, length_replicate; simpl; lia).
  unfold overwrite. simpl. rewrite drop_0, <- app_assoc. simpl.
  rewrite strlen_app_nul by (by apply Forall_replicate).
  cbn [lift_option]. rewrite bind_ret_l, length_replicate, to_int_id.
  - do 3 f_equal. lia.
  - unfold INT_MAX in *. lia.
Qed.

End smear.

(** ** Properties *)

(** C22. Complete behaviour of [CopyCharArray]. Let [copied] be the
    characters of [source] before its first NUL, at most [max_num_data] of
    them. If [target] has a cell for each of them and one more, and
    [source] has the cell at which the copy stops, the call writes them to
    the front of [target], a NUL behind them, leaves the rest of [target]
    as it was and answers their number. Otherwise the call reads or writes
    outside an array. One iteration per character copied and one more are
    enough, so the loop ends within [max_num_data + 1] iterations. *)
Theorem CopyCharArray_spec {S} fuel source target max_num_data (s : S) :
  max_num_data <= INT_MAX ->
  (length (copied source max_num_data) < fuel)%nat ->
  CopyCharArray fuel source target max_num_data s =
  if decide (copy_fits source target max_num_data)
  then Ok (inr (Z.of_nat (length (copied source max_num_data)),
                overwrite target (copied source max_num_data ++ [0]))) s
  else Fault OutOfBounds s.
Proof. intros. case_decide; [by apply copy_ok|by apply copy_fault]. Qed.

(** Copying a string. When [source] holds a string and [target] has
    room, [target] afterwards holds the string cut to [max_num_data]
    characters, the result is its length (never more than
    [max_num_data]), and [target] keeps its size. *)
Theorem CopyCharArray_string {S} fuel source cs target max_num_data (s : S) :
  c_str source = Some cs -> 0 <= max_num_data <= INT_MAX ->
  (Z.to_nat max_num_data `min` length cs < length target)%nat ->
  (Z.to_nat max_num_data < fuel)%nat ->
  exists target',
    CopyCharArray fuel source target max_num_data s =
      Ok (inr (Z.of_nat (Z.to_nat max_num_data `min` length cs), target')) s /\
    c_str target' = Some (take (Z.to_nat max_num_data) cs) /\
    length target' = length target.
Proof.
  intros Hcs Hmax Ht Hfuel.
  pose proof (copied_c_str _ _ max_num_data Hcs) as Hcopied.
  pose proof (c_str_nul_free _ _ Hcs) as Hnf.
  assert (length (copied source max_num_data) =
          (Z.to_nat max_num_data `min` length cs)%nat) as Hlen
    by (by rewrite Hcopied, length_take).
  eexists. rewrite copy_ok, Hlen, Hcopied; [split_and!; [done|..]|lia| |lia].
  - apply c_str_overwrite; [|rewrite length_take; lia].
    unfold nul_free. by apply Forall_take.
  - apply overwrite_length. rewrite length_app, length_take. simpl. lia.
  - split; [lia|]. intros Hlt. rewrite Hlen in *.
    unfold c_str in Hcs. destruct (strlen source) as [n|] eqn:Hn; [|done].
    apply strlen_lt in Hn as Hn'. apply (inj Some) in Hcs as <-.
    rewrite length_take in *. lia.
Qed.

(** C35. The terminator needs a cell of its own. With a [target] of
    exactly [max_num_data] cells and a [source] string at least that long,
    the call copies [max_num_data] characters and then writes the NUL to
    [target[max_num_data]], outside the array. *)
Theorem CopyCharArray_overflow {S} fuel source cs target max_num_data (s : S) :
  c_str source = Some cs -> 0 <= max_num_data <= INT_MAX ->
  length target = Z.to_nat max_num_data ->
  (Z.to_nat max_num_data <= length cs)%nat ->
  (Z.to_nat max_num_data < fuel)%nat ->
  CopyCharArray fuel source target max_num_data s = Fault OutOfBounds s.
Proof.
  intros Hcs Hmax Ht Hlen Hfuel.
  pose proof (copied_c_str _ _ max_num_data Hcs) as Hcopied.
  apply copy_fault; [lia| |rewrite Hcopied, length_take; lia].
  unfold copy_fits. rewrite Hcopied, length_take. lia.
Qed.

(** What the caller may rely on. Whenever the call returns, whatever
    fuel it was given: the result is between 0 and [max_num_data], it is
    the length of the string now in [target], that string is the
    beginning of [source], [target] has kept its size and its cells behind
    the NUL are untouched. *)
Theorem CopyCharArray_returns {S} fuel source target max_num_data (s : S) r target' s' :
  max_num_data <= INT_MAX ->
  CopyCharArray fuel source target max_num_data s = Ok (inr (r, target')) s' ->
  s' = s /\ 0 <= r /\ (0 <= max_num_data -> r <= max_num_data) /\
  strlen target' = Some (Z.to_nat r) /\
  length target' = length target /\
  take (Z.to_nat r) target' = take (Z.to_nat r) source /\
  drop (Datatypes.S (Z.to_nat r)) target' = drop (Datatypes.S (Z.to_nat r)) target.
Proof.
  intros Hmax Hret.
  set (n := length (copied source max_num_data)).
  apply (copy_mono _ (fuel `max` Datatypes.S n)) in Hret; [|lia].
  destruct (decide (copy_fits source target max_num_data)) as [Hfits|Hnot];
    [|by rewrite copy_fault in Hret by (done || lia)].
  rewrite copy_ok in Hret by (done || lia). apply Ok_inj in Hret as [[= <- <-] <-].
  pose proof (copied_length source max_num_data) as Hn. destruct Hfits as [Ht _].
  fold n in Ht, Hn |- *. rewrite Nat2Z.id. split_and!; [done|lia|lia|..].
  - apply strlen_overwrite, chars_nul_free.
  - apply overwrite_length. rewrite length_app. simpl. lia.
  - unfold overwrite. rewrite <- app_assoc, take_app_length' by done.
    symmetry. apply copied_prefix.
  - unfold overwrite. rewrite drop_app_length'; [|rewrite length_app; simpl; lia].
    rewrite length_app. simpl. f_equal. fold n. lia.
Qed.

(** C24. Copying towards the front of the same array. When [source]
    points into the array of [target], at [target] or any number of cells
    behind it, and holds a string, the call is right whatever the string:
    it has room, it reads no cell it has written, [target] afterwards
    holds the string cut to [max_num_data] characters and the result is
    its length; no other array is written. With [source] at [target] this
    cuts a string in place. *)
Theorem CopyCharArray_at_towards_front {S} fuel h0 target k cs max_num_data (s : S) :
  c_str (array_at h0 (shift target k)) = Some cs -> 0 <= max_num_data <= INT_MAX ->
  (Z.to_nat max_num_data < fuel)%nat ->
  exists h,
    CopyCharArray_at fuel h0 (shift target k) target max_num_data s =
      Ok (inr (Z.of_nat (Z.to_nat max_num_data `min` length cs), h)) s /\
    c_str (array_at h target) = Some (take (Z.to_nat max_num_data) cs) /\
    forall q, apart target q -> array_at h q = array_at h0 q.
Proof.
  intros Hcs Hmax Hfuel.
  destruct (copy_fits_shift h0 target k cs max_num_data Hcs) as [Hfits Hcopied].
  pose proof (c_str_nul_free _ _ Hcs) as Hnf.
  eexists.
  rewrite (CopyCharArray_at_spec fuel h0 (shift target k) target max_num_data s
             ltac:(lia) (reads_ahead_shift _ _ _ _))
    by (rewrite Hcopied, length_take; lia).
  rewrite decide_True, Hcopied, length_take by done.
  destruct Hfits as [Ht _]. rewrite Hcopied, length_take in Ht.
  split_and!; [done| |by intros; apply array_at_fill_apart].
  rewrite array_at_fill by (unfold room; rewrite length_app, length_take; simpl; lia).
  apply c_str_overwrite; [by apply Forall_take|by rewrite length_take].
Qed.

(** C23. Copying towards the back of the same array. When [target] points
    one cell behind [source], every character the call reads is the one
    it has just written: it never meets the NUL, stops at the bound
    whatever the length of the string, and returns [max_num_data], leaving
    the first character of the string in the first [max_num_data + 1]
    cells. *)
Theorem CopyCharArray_at_smear {S} fuel h0 p c rest max_num_data (s : S) :
  array_at h0 p = c :: rest -> c <> 0 -> 0 <= max_num_data <= INT_MAX ->
  (Z.to_nat max_num_data < length rest)%nat ->
  (Z.to_nat max_num_data < fuel)%nat ->
  exists h,
    CopyCharArray_at fuel h0 p (shift p 1) max_num_data s = Ok (inr (max_num_data, h)) s /\
    c_str (array_at h p) = Some (replicate (Datatypes.S (Z.to_nat max_num_data)) c).
Proof.
  intros Harr Hc Hmax Hroom Hfuel. eexists. split; [by eapply smear_run|].
  rewrite array_at_fill
    by (rewrite length_app, length_replicate, (smear_room h0 p c rest Harr); simpl; lia).
  apply c_str_overwrite; [by apply Forall_replicate|].
  rewrite length_replicate. unfold room in *. rewrite Harr. simpl. lia.
Qed.

(** ** The theorems at concrete inputs *)

Lemma CopyCharArray_at_towards_front_witness :
  exists h,
    CopyCharArray_at 9 [str "xxReady" ++ [0; 7]] (shift (mkPtr 0 0) 2) (mkPtr 0 0) 3 tt =
      Ok (inr (3, h)) tt /\
    c_str (array_at h (mkPtr 0 0)) = Some (str "Rea") /\
    forall q, apart (mkPtr 0 0) q -> array_at h q = array_at [str "xxReady" ++ [0; 7]] q.
Proof.
  apply (CopyCharArray_at_towards_front 9 [str "xxReady" ++ [0; 7]] (mkPtr 0 0) 2
           (str "Ready") 3 tt); [reflexivity | compute_done | simpl; lia].
Defined.

Lemma CopyCharArray_at_smear_witness :
  exists h,
    CopyCharArray_at 9 [lit "Ready" ++ [7; 7]] (mkPtr 0 0) (shift (mkPtr 0 0) 1) 4 tt =
      Ok (inr (4, h)) tt /\
    c_str (array_at h (mkPtr 0 0)) = Some (str "RRRRR").
Proof.
  apply (CopyCharArray_at_smear 9 [lit "Ready" ++ [7; 7]] (mkPtr 0 0)
           (chr "R") (str "eady" ++ [0; 7; 7]) 4 tt);
    [reflexivity | compute_done | compute_done | simpl; lia | simpl; lia].
Defined.

Lemma CopyCharArray_returns_witness :
  tt = tt /\ 0 <= 3 /\ (0 <= 3 -> 3 <= 3) /\
  strlen [82; 101; 97; 0; 7; 7] = Some (Z.to_nat 3) /\
  length [82; 101; 97; 0; 7; 7] = length (replicate 6 7) /\
  take (Z.to_nat 3) [82; 101; 97; 0; 7; 7] = take (Z.to_nat 3) (lit "Ready") /\
  drop (Datatypes.S (Z.to_nat 3)) [82; 101; 97; 0; 7; 7] =
    drop (Datatypes.S (Z.to_nat 3)) (replicate 6 7).
Proof.
  apply (CopyCharArray_returns 4 (lit "Ready") (replicate 6 7) 3 tt 3
           [82; 101; 97; 0; 7; 7] tt); [compute_done | reflexivity].
Defined.

Lemma CopyCharArray_spec_witness :
  CopyCharArray 4 (lit "Ready") (replicate 6 7) 3 tt =
  Ok (inr (3, [82; 101; 97; 0; 7; 7])) tt.
Proof.
  apply (CopyCharArray_spec 4 (lit "Ready") (replicate 6 7) 3 tt); [compute_done|simpl; lia].
Defined.

Lemma CopyCharArray_string_witness :
  exists target',
    CopyCharArray 9 (lit "Go") (replicate 6 7) 5 tt = Ok (inr (2, target')) tt /\
    c_str target' = Some (str "Go") /\ length target' = 6%nat.
Proof.
  apply (CopyCharArray_string 9 (lit "Go") (str "Go") (replicate 6 7) 5 tt);
    [reflexivity | compute_done | simpl; lia | simpl; lia].
Defined.

Lemma CopyCharArray_overflow_witness :
  CopyCharArray 9 (lit "Ready") (replicate 5 7) 5 tt = Fault OutOfBounds tt.
Proof.
  apply (CopyCharArray_overflow 9 (lit "Ready") (str "Ready") (replicate 5 7) 5 tt);
    [reflexivity | compute_done | reflexivity | simpl; lia | simpl; lia].
Defined.
