(* ===== verification/Session.v ===== *)
(** * A session: the caller's loop

    The library is used by a sketch that shakes hands once and then calls
    the receiver again for every packet it expects, with the same two
    arrays. The sketch is not among the sources; what the specification
    says of it (section 2: the handshake runs once at session start;
    section 4.3: "the caller is responsible for invoking decode again to
    process the next packet") is modelled here as [receive_n] and
    [session].

    The caller is written against an interface, [PacketDecoder]: what a
    decoder promises whoever calls it (it returns what the reference
    parser finds, its outcome does not depend on chunking, it reads
    forwards, it hands the arrays back with their size). The theorems
    about the caller use nothing but the interface; the receiver of the
    library is an instance, by the theorems of [Receiver].

    - [receive_n_parse]: [n] calls return the [n] packets the reference
      parser [parse_all] finds one after the other, each written over the
      one before, and have reported the noise between them in order.
    - [receive_n_chunking]: what [n] calls do does not depend on how the
      input arrives, faults and calls that do not return included.
    - [session_run]: the same after a handshake.
    - [receive_n_framed]: frames written back to back are read back one
      per call; with [send_all_run] of [Encoder], what one device sends
      is what the other receives.
    - [script_run]: a sketch also sends. In a [script] of calls, senders
      and calls of the receiver in any order, the receiving calls return
      what [receive_n] returns, and the output is what each call writes,
      in the order of the calls ([script_output]).

    The caller is generic in the device, as the library is. On the
    bounded receive buffer of [Ring] it follows itself, being parametric
    in the device as the library is ([receive_n_rel], [session_rel]), so
    a session whose whole input has room in the buffer is the session of
    the specification ([session_on_ring]).

    The properties at the end state these of the library's receiver, and
    the examples run the byte streams of the specification, section 8. *)

From S2P Require Import Prelude CArray Channel Serial Packet Encoder.
From S2P Require Import DecoderSpec Decoder DecoderRun Receiver RoundTrip Handshake.
From S2P Require Import Parametric Ring.

#[local] Open Scope Z_scope.

Implicit Types s : serial.

(** ** The interface *)

(** What a call hands back for the packet [p]: the type marker, and the
    two arrays with the label and the payload written from their start,
    each followed by a NUL. *)
Definition handed (p : parsed) (bl bd : list Z) : Z * list Z * list Z :=
  (p_type p,
   overwrite bl ((to_char <$> p_label p) ++ [0]),
   overwrite bd ((to_char <$> p_payload p) ++ [0])).

(** Fuel for one iteration per chunk of the schedule and one per byte. *)
Definition enough_fuel (fuel : nat) (s : serial) : Prop :=
  (length (incoming s) + length (pending s) <= fuel)%nat.

(** The packet fits the arrays, terminators included. *)
Definition packet_fits (bl bd : list Z) (p : parsed) : Prop :=
  (length (p_label p) < length bl)%nat /\ (length (p_payload p) < length bd)%nat.

(** Arrays that can exist on the target. *)
Definition arrays_ok (bl bd : list Z) : Prop :=
  Z.of_nat (length bl) <= INT_MAX /\ Z.of_nat (length bd) <= INT_MAX.

#[export] Instance enough_fuel_dec fuel s : Decision (enough_fuel fuel s).
Proof. unfold enough_fuel. apply _. Defined.

#[export] Instance packet_fits_dec bl bd p : Decision (packet_fits bl bd p).
Proof. unfold packet_fits. apply _. Defined.

#[export] Instance arrays_ok_dec bl bd : Decision (arrays_ok bl bd).
Proof. unfold arrays_ok. apply _. Defined.

(** What a packet decoder promises its caller. [decode fuel bl bd] is a
    call allowed [fuel] iterations on the arrays [bl] and [bd]; it answers
    [inl] while it is still looping and [inr] with the type marker and the
    two arrays when it has returned. *)
Class PacketDecoder {St : Type}
    (decode : nat -> list Z -> list Z -> prog serial (St + Z * list Z * list Z)) := {
  decode_returns bl bd s p fuel :
    arrays_ok bl bd -> parse (pending s) = Some p -> packet_fits bl bd p ->
    enough_fuel fuel s ->
    exists s',
      decode fuel bl bd s = Ok (inr (handed p bl bd)) s' /\
      pending s' = p_rest p /\ out_eq s' (notices (p_noise p) s);
  decode_chunking bl bd s1 s2 fuel1 fuel2 :
    arrays_ok bl bd -> pending s1 = pending s2 -> out_eq s1 s2 ->
    enough_fuel fuel1 s1 -> enough_fuel fuel2 s2 ->
    same_outcome (decode fuel1 bl bd s1) (decode fuel2 bl bd s2);
  decode_forwards bl bd s fuel r s' :
    arrays_ok bl bd -> decode fuel bl bd s = Ok r s' ->
    enough_fuel fuel s -> enough_fuel fuel s';
  decode_arrays bl bd s fuel ty bl' bd' s' :
    arrays_ok bl bd -> decode fuel bl bd s = Ok (inr (ty, bl', bd')) s' ->
    length bl' = length bl /\ length bd' = length bd
}.

(** ** The caller *)

Section caller.
Context {S St : Type} `{!Channel S}.
Context (decode : nat -> list Z -> list Z -> prog S (St + Z * list Z * list Z)).

(** [n] calls one after the other on the same two arrays, each allowed
    [fuel] iterations. The result is what each call that returned handed
    back, in order, and the locals of the call that is still looping, if
    one is. *)
Fixpoint receive_n (n fuel : nat) (bl bd : list Z)
  : prog S (list (Z * list Z * list Z) * option St) :=
  match n with
  | O => mret ([], None)
  | Datatypes.S n' =>
      r ← decode fuel bl bd;
      match r with
      | inl st => mret ([], Some st)
      | inr (ty, bl', bd') =>
          rs ← receive_n n' fuel bl' bd';
          mret ((ty, bl', bd') :: rs.1, rs.2)
      end
  end.

(** A call of the sketch: it sends a packet or waits for one. *)
Inductive call : Type :=
| Send (p : packet)
| Receive.

(** The calls of a script one after the other, the receiving ones on the
    same two arrays. The result is that of [receive_n]; a sender that
    faults ends the script. *)
Fixpoint script (cs : list call) (fuel : nat) (bl bd : list Z)
  : prog S (list (Z * list Z * list Z) * option St) :=
  match cs with
  | [] => mret ([], None)
  | Send p :: cs' => send p;; script cs' fuel bl bd
  | Receive :: cs' =>
      r ← decode fuel bl bd;
      match r with
      | inl st => mret ([], Some st)
      | inr (ty, bl', bd') =>
          rs ← script cs' fuel bl' bd';
          mret ((ty, bl', bd') :: rs.1, rs.2)
      end
  end.

(** A session of the device: the handshake, then [n] packets. [inl tt]
    while the handshake has not returned. *)
Definition session (n fuel : nat) (bl bd : list Z)
  : prog S (unit + list (Z * list Z * list Z) * option St) :=
  h ← SerialHandshake fuel;
  match h with
  | inl _ => mret (inl tt)
  | inr _ => r ← receive_n n fuel bl bd; mret (inr r)
  end.

End caller.

(** ** Reference *)

(** The first [n] packets of a byte stream. *)
Fixpoint parse_all (n : nat) (bs : list Z) : option (list parsed) :=
  match n with
  | O => Some []
  | S n' => p ← parse bs; ps ← parse_all n' (p_rest p); Some (p :: ps)
  end.

(** What is left of the stream [bs] behind the packets [ps]. *)
Definition rest_of (ps : list parsed) (bs : list Z) : list Z :=
  default bs (p_rest <$> last ps).

(** The bytes of the stream outside any packet. *)
Definition noise_of (ps : list parsed) : list Z := concat (p_noise <$> ps).

(** What a script writes when its receiving calls find the packets
    [ps]: the frame of each packet sent and the error notices of each
    call, in the order of the calls. *)
Fixpoint script_output (cs : list call) (ps : list parsed) : option (list Z) :=
  match cs, ps with
  | [], [] => Some []
  | Send p :: cs', _ => w ← wire_of p; o ← script_output cs' ps; Some (w ++ o)
  | Receive :: cs', q :: ps' =>
      o ← script_output cs' ps'; Some (concat (notice_bytes <$> p_noise q) ++ o)
  | _, _ => None
  end.

(** What the calls hand back for the packets [ps], the arrays of each
    call being those the call before handed back. *)
Fixpoint snapshots (bl bd : list Z) (ps : list parsed) : list (Z * list Z * list Z) :=
  match ps with
  | [] => []
  | p :: ps' =>
      handed p bl bd :: snapshots (handed p bl bd).1.2 (handed p bl bd).2 ps'
  end.

(** An array holds the string [bs]: it starts with [bs] and a NUL. *)
Definition holds (a bs : list Z) : Prop := (bs ++ [0]) `prefix_of` a.

(** ** The sending side *)

(** The label, type marker and payload of each packet of a list. *)
Fixpoint fields_of (ps : list packet) : option (list (list Z * Z * list Z)) :=
  match ps with
  | [] => Some []
  | p :: ps' => f ← fields p; fs ← fields_of ps'; Some (f :: fs)
  end.

(** The frames of [fs] back to back. *)
Definition wire (fs : list (list Z * Z * list Z)) : list Z :=
  concat ((fun f => frame f.1.1 f.1.2 f.2) <$> fs).

(** What the reference parser makes of the frames of [fs] followed by
    [rest]. *)
Fixpoint framed (fs : list (list Z * Z * list Z)) (rest : list Z) : list parsed :=
  match fs with
  | [] => []
  | f :: fs' => mkParsed [] f.1.1 f.1.2 f.2 (wire fs' ++ rest) :: framed fs' rest
  end.

(** A packet the receiver can read back into the arrays [bl] and [bd]. *)
Definition deliverable (bl bd : list Z) (f : list Z * Z * list Z) : Prop :=
  receivable f.1.1 f.1.2 f.2 /\
  (length f.1.1 < length bl)%nat /\ (length f.2 < length bd)%nat.

#[export] Instance deliverable_dec bl bd f : Decision (deliverable bl bd f).
Proof. unfold deliverable. apply _. Defined.

(** ** Packets and arrays *)

Lemma parse_all_S n bs p ps :
  parse_all (S n) bs = Some (p :: ps) <->
  parse bs = Some p /\ parse_all n (p_rest p) = Some ps.
Proof.
  simpl. destruct (parse bs) as [p'|]; simpl; [|by split; [|intros []]].
  destruct (parse_all n (p_rest p')) as [ps'|] eqn:Hps; simpl.
  - split; [by intros [= -> ->]|]. intros [[= ->] Hps']. by rewrite Hps in Hps'; simplify_eq.
  - split; [done|]. intros [[= ->] Hps']. by rewrite Hps in Hps'.
Qed.

Lemma parse_all_length n bs ps : parse_all n bs = Some ps -> length ps = n.
Proof.
  revert bs ps. induction n as [|n IH]; intros bs ps; [by intros [= <-]|].
  destruct ps as [|p ps];
    [simpl; destruct (parse bs); simpl; [destruct (parse_all n _)|]; done|].
  intros [_ H]%parse_all_S. simpl. by rewrite (IH _ _ H).
Qed.

Lemma rest_of_cons p ps bs : rest_of (p :: ps) bs = rest_of ps (p_rest p).
Proof.
  unfold rest_of. destruct ps as [|q ps]; [done|]. rewrite last_cons_cons.
  destruct (last (q :: ps)) eqn:E; [done|]. by apply last_None in E.
Qed.

Lemma overwrite_holds a bs : (length bs < length a)%nat -> holds (overwrite a (bs ++ [0])) bs.
Proof. intros. unfold holds, overwrite. by apply prefix_app_r. Qed.

Lemma handed_arrays p bl bd :
  packet_fits bl bd p ->
  length (handed p bl bd).1.2 = length bl /\ length (handed p bl bd).2 = length bd.
Proof.
  intros [Hl Hd]. simpl.
  rewrite !overwrite_length; [done|..]; rewrite length_app, length_fmap; simpl; lia.
Qed.

Lemma arrays_ok_length bl bd bl' bd' :
  length bl' = length bl -> length bd' = length bd ->
  arrays_ok bl bd -> arrays_ok bl' bd'.
Proof. unfold arrays_ok. by intros -> ->. Qed.

Lemma packet_fits_length bl bd bl' bd' p :
  length bl' = length bl -> length bd' = length bd ->
  packet_fits bl bd p -> packet_fits bl' bd' p.
Proof. unfold packet_fits. by intros -> ->. Qed.

(** The arrays a call hands back hold the label and the payload of its
    packet. *)
Lemma snapshots_hold bl bd ps :
  Forall (packet_fits bl bd) ps ->
  Forall2 (fun p r => r.1.1 = p_type p /\
                      holds r.1.2 (to_char <$> p_label p) /\
                      holds r.2 (to_char <$> p_payload p))
          ps (snapshots bl bd ps).
Proof.
  revert bl bd. induction ps as [|p ps IH]; intros bl bd Hfit; [constructor|].
  inv Hfit. destruct (handed_arrays p bl bd) as [Hl Hd]; [done|].
  constructor.
  - destruct H1. split_and!; [done|apply overwrite_holds..]; by rewrite length_fmap.
  - apply IH. eapply Forall_impl; [done|]. intros q. by apply packet_fits_length.
Qed.

(** ** Frames on the wire *)

Lemma fields_of_cons p ps f fs :
  fields_of (p :: ps) = Some (f :: fs) <-> fields p = Some f /\ fields_of ps = Some fs.
Proof.
  simpl. destruct (fields p) as [f'|]; simpl; [|by split; [|intros []]].
  destruct (fields_of ps) as [fs'|] eqn:Hfs; simpl.
  - split; [by intros [= -> ->]|]. by intros [[= ->] [= ->]].
  - split; [done|]. by intros [_ ?].
Qed.

Lemma fields_of_inv ps fs :
  fields_of ps = Some fs -> Forall2 (fun p f => fields p = Some f) ps fs.
Proof.
  revert fs. induction ps as [|p ps IH]; intros fs; [intros [= <-]; constructor|].
  destruct fs as [|f fs];
    [simpl; destruct (fields p); simpl; [destruct (fields_of ps)|]; done|].
  intros [? ?]%fields_of_cons. constructor; auto.
Qed.

Lemma fields_of_bytes ps fs :
  fields_of ps = Some fs ->
  Forall (fun f => Forall is_byte f.1.1 /\ Forall is_byte f.2) fs.
Proof.
  intros H%fields_of_inv. induction H as [|p [[l m] d] ps fs Hp _ IH]; constructor; [|done].
  by apply fields_bytes in Hp as (? & _ & ?).
Qed.

Lemma wires_of_fields ps fs : fields_of ps = Some fs -> wires_of ps = Some (wire fs).
Proof.
  intros H%fields_of_inv. induction H as [|p [[l m] d] ps fs Hp _ IH]; [done|].
  simpl. unfold wire_of. rewrite Hp. simpl. by rewrite IH.
Qed.

(** Receivable frames back to back parse as themselves, one after the
    other, with no noise. *)
Lemma parse_all_framed fs rest :
  Forall (fun f => receivable f.1.1 f.1.2 f.2) fs ->
  parse_all (length fs) (wire fs ++ rest) = Some (framed fs rest).
Proof.
  induction 1 as [|[[l m] d] fs Hf _ IH]; [done|].
  apply parse_all_S. split; [|done]. unfold wire. simpl. rewrite <- app_assoc.
  by apply parse_frame.
Qed.

Lemma noise_of_framed fs rest : noise_of (framed fs rest) = [].
Proof. by induction fs. Qed.

Lemma rest_of_framed fs rest : rest_of (framed fs rest) (wire fs ++ rest) = rest.
Proof. induction fs as [|f fs IH]; [done|]. simpl. by rewrite rest_of_cons. Qed.

Lemma framed_fields fs rest :
  Forall (fun f => Forall is_byte f.1.1 /\ Forall is_byte f.2) fs ->
  Forall2 (fun f p => p_type p = f.1.2 /\
                      to_char <$> p_label p = f.1.1 /\ to_char <$> p_payload p = f.2)
          fs (framed fs rest).
Proof.
  induction 1 as [|f fs [? ?] _ IH]; constructor; [|done].
  simpl. by rewrite !Forall_to_char_id.
Qed.

Lemma framed_fits bl bd fs rest :
  Forall (deliverable bl bd) fs -> Forall (packet_fits bl bd) (framed fs rest).
Proof. induction 1 as [|f fs (_ & ? & ?) _ IH]; constructor; done. Qed.

(** ** The receiver of the library is a decoder *)

#[export] Instance receiver_decoder : PacketDecoder SerialReceiveAndParsePacket.
Proof.
  split.
  - intros bl bd s p fuel [Hl Hd] Hp [Hfl Hfd] Hfuel.
    apply receive_Returned; [done..| |done]. apply drun_parse. by exists p.
  - intros bl bd s1 s2 fuel1 fuel2 [Hl Hd] Hp Ho Hf1 Hf2. rewrite !receive_unfold.
    apply same_outcome_handed_back.
    pose proof (loop_run_arrays bl bd Hl Hd Idle s1 fuel1 I Hf1) as H1.
    pose proof (loop_run_arrays bl bd Hl Hd Idle s2 fuel2 I Hf2) as H2.
    rewrite Hp in H1. by eapply same_outcome_matches.
  - intros bl bd s fuel r s' [Hl Hd] Hret Hfuel.
    destruct (receive_forwards bl bd Hl Hd _ _ _ _ Hret). unfold enough_fuel in *. lia.
  - intros bl bd s fuel ty bl' bd' s' [Hl Hd]. rewrite receive_unfold.
    pose proof (receive_safe bl bd Hl Hd s fuel) as Hsafe.
    destruct (iter_fuel _ _ _ _) as [[?|[ty1 st1]] s1|]; [done| |done].
    destruct Hsafe as (lbl & ty' & dat & [= -> ->] & ? & ? & _).
    cbn [outcome_map]. rewrite handed_back_final. intros [= <- <- <- <-].
    rewrite !overwrite_length; [done|..]; rewrite length_app; simpl; lia.
Qed.

(** ** The caller against the interface *)

Section client.
Context {St : Type}.
Context (decode : nat -> list Z -> list Z -> prog serial (St + Z * list Z * list Z)).
Context `{!PacketDecoder decode}.

(** One call, and what the next call needs. *)
Lemma decode_next bl bd s p ps fuel :
  arrays_ok bl bd -> parse (pending s) = Some p ->
  Forall (packet_fits bl bd) (p :: ps) -> enough_fuel fuel s ->
  exists s1,
    decode fuel bl bd s = Ok (inr (handed p bl bd)) s1 /\
    pending s1 = p_rest p /\ out_eq s1 (notices (p_noise p) s) /\
    arrays_ok (handed p bl bd).1.2 (handed p bl bd).2 /\
    Forall (packet_fits (handed p bl bd).1.2 (handed p bl bd).2) ps /\
    enough_fuel fuel s1.
Proof.
  intros Hok Hp Hfit Hfuel. inv Hfit.
  destruct (decode_returns bl bd s p fuel) as (s1 & Hret & Hp1 & Ho1); [done..|].
  destruct (handed_arrays p bl bd) as [Hlen_l Hlen_d]; [done|].
  exists s1. split_and!; [done..|by eapply arrays_ok_length| |by eapply decode_forwards].
  eapply Forall_impl; [done|]. intros q. by apply packet_fits_length.
Qed.

(** [n] calls return the first [n] packets of the input. *)
Lemma receive_n_parse n fuel bl bd s ps :
  arrays_ok bl bd -> parse_all n (pending s) = Some ps ->
  Forall (packet_fits bl bd) ps -> enough_fuel fuel s ->
  exists s',
    receive_n decode n fuel bl bd s = Ok (snapshots bl bd ps, None) s' /\
    pending s' = rest_of ps (pending s) /\
    out_eq s' (notices (noise_of ps) s).
Proof.
  revert bl bd s ps. induction n as [|n IH]; intros bl bd s ps Hok Hps Hfit Hfuel.
  { injection Hps as <-. by exists s. }
  destruct ps as [|p ps]; [by apply parse_all_length in Hps|].
  apply parse_all_S in Hps as [Hp Hps].
  destruct (decode_next bl bd s p ps fuel)
    as (s1 & Hret & Hp1 & Ho1 & Hok1 & Hfit1 & Hfuel1); [done..|].
  destruct (IH (handed p bl bd).1.2 (handed p bl bd).2 s1 ps) as (s' & Hrun & Hp' & Ho');
    [done|by rewrite Hp1|done..|].
  exists s'. split_and!.
  - simpl in *. rewrite (bind_Ok _ _ _ _ _ Hret). simpl.
    by rewrite (bind_Ok _ _ _ _ _ Hrun).
  - by rewrite rest_of_cons, Hp', Hp1.
  - unfold noise_of. simpl. by rewrite notices_app, Ho', Ho1.
Qed.

(** A script of calls: the receiving calls return the packets of the
    input one after the other, whatever is sent between them, and the
    output is what the calls write, in their order. *)
Lemma script_run cs fuel bl bd s ps out :
  arrays_ok bl bd -> parse_all (length ps) (pending s) = Some ps ->
  Forall (packet_fits bl bd) ps -> script_output cs ps = Some out ->
  enough_fuel fuel s ->
  exists s',
    script decode cs fuel bl bd s = Ok (snapshots bl bd ps, None) s' /\
    pending s' = rest_of ps (pending s) /\
    tx s' = tx s ++ out /\ clock s' = clock s.
Proof.
  revert bl bd s ps out.
  induction cs as [|[p|] cs IH]; intros bl bd s ps out Hok Hps Hfit Hout Hfuel.
  - destruct ps; simplify_eq/=. exists s. by rewrite app_nil_r.
  - simpl in Hout. destruct (wire_of p) as [w|] eqn:Hw; [|done].
    destruct (script_output cs ps) as [o|] eqn:Ho; simplify_eq/=.
    destruct (IH bl bd (sent w s) ps o) as (s' & Hrun & Hp' & Htx & Hck); [done..|].
    exists s'. simpl. rewrite (bind_Ok _ _ _ _ _ (send_ok _ _ _ Hw)).
    split_and!; [done..|by rewrite Htx, sent_tx, app_assoc|done].
  - destruct ps as [|q ps]; [done|]. simpl in Hout, Hps.
    destruct (script_output cs ps) as [o|] eqn:Ho; simplify_eq/=.
    apply (parse_all_S (length ps)) in Hps as [Hq Hps].
    destruct (decode_next bl bd s q ps fuel)
      as (s1 & Hret & Hp1 & (Htx1 & _ & Hck1) & Hok1 & Hfit1 & Hfuel1); [done..|].
    destruct (IH (handed q bl bd).1.2 (handed q bl bd).2 s1 ps o)
      as (s' & Hrun & Hp' & Htx & Hck); [done|by rewrite Hp1|done..|].
    exists s'. rewrite (bind_Ok _ _ _ _ _ Hret). simpl.
    rewrite (bind_Ok _ _ _ _ _ Hrun).
    split_and!; [done|by rewrite rest_of_cons, Hp', Hp1| |].
    + by rewrite Htx, Htx1, tx_notices, app_assoc.
    + by rewrite Hck, Hck1, clock_notices.
Qed.

(** What [n] calls do does not depend on how the input arrives. *)
Lemma receive_n_chunking n fuel1 fuel2 bl bd s1 s2 :
  arrays_ok bl bd -> pending s1 = pending s2 -> out_eq s1 s2 ->
  enough_fuel fuel1 s1 -> enough_fuel fuel2 s2 ->
  same_outcome (receive_n decode n fuel1 bl bd s1) (receive_n decode n fuel2 bl bd s2).
Proof.
  revert bl bd s1 s2. induction n as [|n IH]; intros bl bd s1 s2 Hok Hp Ho Hf1 Hf2;
    [done|].
  pose proof (decode_chunking bl bd s1 s2 fuel1 fuel2 Hok Hp Ho Hf1 Hf2) as Hsame.
  simpl. destruct (decode fuel1 bl bd s1) as [r1 s1'|] eqn:H1,
    (decode fuel2 bl bd s2) as [r2 s2'|] eqn:H2; try done;
    rewrite ?(bind_Ok _ _ _ _ _ H1), ?(bind_Ok _ _ _ _ _ H2),
      ?(bind_Fault _ _ _ _ _ H1), ?(bind_Fault _ _ _ _ _ H2); [|done].
  destruct Hsame as (<- & Hp' & Ho'). destruct r1 as [st|[[ty bl'] bd']]; [done|].
  destruct (decode_arrays _ _ _ _ _ _ _ _ Hok H1) as [Hll Hld].
  specialize (IH bl' bd' s1' s2' ltac:(by eapply arrays_ok_length) Hp' Ho'
                ltac:(by eapply decode_forwards) ltac:(by eapply decode_forwards)).
  prog_unfold. fold (receive_n decode).
  by destruct (receive_n decode n fuel1 bl' bd' s1'), (receive_n decode n fuel2 bl' bd' s2');
    try done; destruct IH as (-> & ? & ?).
Qed.

(** The same after the handshake: the reply, then the packets. *)
Lemma session_run n fuel bl bd s pre stream ps :
  arrays_ok bl bd -> pending s = pre ++ chr "P" :: stream -> chr "P" ∉ pre ->
  parse_all n stream = Some ps -> Forall (packet_fits bl bd) ps ->
  enough_fuel fuel s ->
  exists k s',
    session decode n fuel bl bd s = Ok (inr (snapshots bl bd ps, None)) s' /\
    pending s' = rest_of ps stream /\ (k <= length (incoming s))%nat /\
    out_eq s' (notices (noise_of ps) (tick 500 (hellos k s))).
Proof.
  intros Hok Hp Hnot Hps Hfit Hfuel. unfold enough_fuel in Hfuel.
  pose proof (f_equal length Hp) as Hlen. rewrite length_app in Hlen. simpl in Hlen.
  destruct (handshake_run s pre stream fuel fuel Hp Hnot) as (k & s1 & Hhs & Hp1 & Hk & Ho1);
    [lia..|].
  destruct (receive_n_parse n fuel bl bd s1 ps) as (s' & Hrun & Hp' & Ho');
    [done|by rewrite Hp1|done|unfold enough_fuel; rewrite Hp1; lia|].
  exists k, s'. unfold session, SerialHandshake.
  rewrite (bind_Ok _ _ _ _ _ Hhs). simpl. rewrite (bind_Ok _ _ _ _ _ Hrun).
  split_and!; [done|by rewrite Hp', Hp1|lia|by rewrite Ho', Ho1].
Qed.

(** Frames back to back are read back one per call, and nothing is
    written. *)
Lemma receive_n_framed fs rest fuel bl bd s :
  arrays_ok bl bd -> Forall (deliverable bl bd) fs ->
  Forall (fun f => Forall is_byte f.1.1 /\ Forall is_byte f.2) fs ->
  pending s = wire fs ++ rest -> enough_fuel fuel s ->
  exists rs s',
    receive_n decode (length fs) fuel bl bd s = Ok (rs, None) s' /\
    Forall2 (fun f r => r.1.1 = f.1.2 /\ holds r.1.2 f.1.1 /\ holds r.2 f.2) fs rs /\
    pending s' = rest /\ out_eq s' s.
Proof.
  intros Hok Hfs Hbytes Hp Hfuel.
  destruct (receive_n_parse (length fs) fuel bl bd s (framed fs rest))
    as (s' & Hrun & Hp' & Ho);
    [done|rewrite Hp; by apply parse_all_framed, (Forall_impl _ _ _ Hfs); intros ? []
    |by apply framed_fits|done|].
  exists (snapshots bl bd (framed fs rest)), s'. split_and!; [done| | |].
  - eapply Forall2_trans;
      [|by apply framed_fields|by apply snapshots_hold, framed_fits].
    by intros f p r (<- & <- & <-) ?.
  - by rewrite Hp', Hp, rest_of_framed.
  - by rewrite Ho, noise_of_framed.
Qed.

End client.

(** What a session has written and how long it has waited. *)
Lemma session_output s s0 k ns :
  out_eq s (notices ns (tick 500 (hellos k s0))) ->
  tx s = tx s0 ++ replicate k (chr "A") ++ concat (notice_bytes <$> ns) /\
  clock s = clock s0 + 500 * (Z.of_nat k + 1).
Proof.
  intros (Htx & _ & Hck). split.
  - rewrite Htx, tx_notices. simpl. by rewrite tx_hellos, app_assoc.
  - rewrite Hck, clock_notices. simpl. rewrite clock_hellos. lia.
Qed.

(** ** The caller is parametric in the device *)

Section caller_rel.
Context {S1 S2 : Type} `{!Channel S1, !Channel S2}.
Context (R : forall A, prog S1 A -> prog S2 A -> Prop) `{!ChannelRel R}.

(** The caller is related to itself when the decoder is. *)
Lemma receive_n_rel {St : Type}
    (d1 : nat -> list Z -> list Z -> prog S1 (St + Z * list Z * list Z)) d2 n fuel bl bd :
  (forall fuel bl bd, R _ (d1 fuel bl bd) (d2 fuel bl bd)) ->
  R _ (receive_n d1 n fuel bl bd) (receive_n d2 n fuel bl bd).
Proof.
  intros Hd. revert bl bd. induction n as [|n IH]; intros bl bd; simpl; solve_rel.
Qed.

Lemma session_rel n fuel bl bd :
  R _ (session SerialReceiveAndParsePacket n fuel bl bd)
      (session SerialReceiveAndParsePacket n fuel bl bd).
Proof.
  unfold session. solve_rel. apply receive_n_rel. solve_rel.
Qed.

Lemma script_rel {St : Type}
    (d1 : nat -> list Z -> list Z -> prog S1 (St + Z * list Z * list Z)) d2 cs fuel bl bd :
  (forall fuel bl bd, R _ (d1 fuel bl bd) (d2 fuel bl bd)) ->
  R _ (script d1 cs fuel bl bd) (script d2 cs fuel bl bd).
Proof.
  intros Hd. revert bl bd. induction cs as [|[p|] cs IH]; intros bl bd; simpl; solve_rel.
Qed.

End caller_rel.

(** Calls that all receive are [receive_n]. *)
Lemma script_receive {S St : Type} `{!Channel S}
    (decode : nat -> list Z -> list Z -> prog S (St + Z * list Z * list Z))
    n fuel bl bd (s : S) :
  script decode (replicate n Receive) fuel bl bd s = receive_n decode n fuel bl bd s.
Proof.
  revert bl bd s. induction n as [|n IH]; intros bl bd s; [done|]. simpl. prog_unfold.
  destruct (decode fuel bl bd s) as [[st|[[ty bl'] bd']] s1|]; [done| |done].
  by rewrite IH.
Qed.

(** ** Properties *)

(** Packet after packet. If the input still to be read is [n]
    frames one after the other, with any noise before each, and every
    label and payload fits the arrays, then [n] calls of
    [SerialReceiveAndParsePacket] on the same two arrays all return: call
    [i] returns the type marker of frame [i] and leaves its label and its
    payload in the arrays, each followed by a NUL, written over those of
    the call before. The calls have written one error notice per noise
    byte, in the order of the input, and left what follows the last end
    marker unread. The fuel that is enough for the first call is enough
    for each. *)
Theorem receive_n_packets n fuel bl bd s ps :
  arrays_ok bl bd -> parse_all n (pending s) = Some ps ->
  Forall (packet_fits bl bd) ps -> enough_fuel fuel s ->
  exists rs s',
    receive_n SerialReceiveAndParsePacket n fuel bl bd s = Ok (rs, None) s' /\
    Forall2 (fun p r => r.1.1 = p_type p /\
                        holds r.1.2 (to_char <$> p_label p) /\
                        holds r.2 (to_char <$> p_payload p)) ps rs /\
    pending s' = rest_of ps (pending s) /\
    tx s' = tx s ++ concat (notice_bytes <$> noise_of ps).
Proof.
  intros Hok Hps Hfit Hfuel.
  destruct (receive_n_parse SerialReceiveAndParsePacket n fuel bl bd s ps)
    as (s' & Hrun & Hp & Htx & _); [done..|].
  exists (snapshots bl bd ps), s'. split_and!; [done| |done|].
  - by apply snapshots_hold.
  - rewrite Htx. apply tx_notices.
Qed.

(** A session does not depend on how its input arrives. Two devices
    with the same input still to be read and the same output so far,
    whatever is buffered and however the rest is chunked, give the same
    packets, the same fault or the same call left waiting after [n] calls,
    leave the same input unread and have written the same bytes. *)
Theorem receive_n_chunking_independent n fuel1 fuel2 bl bd s1 s2 :
  arrays_ok bl bd -> pending s1 = pending s2 -> out_eq s1 s2 ->
  enough_fuel fuel1 s1 -> enough_fuel fuel2 s2 ->
  same_outcome (receive_n SerialReceiveAndParsePacket n fuel1 bl bd s1)
               (receive_n SerialReceiveAndParsePacket n fuel2 bl bd s2).
Proof. apply receive_n_chunking, _. Qed.

(** A whole session. When the host's reply to the handshake is
    followed by [n] frames that fit, the session returns the [n] packets;
    the device has written hellos, at most one per chunk of the schedule,
    and then one error notice per noise byte, and has spent 500 ms per
    hello and 500 ms after the reply, none of it receiving. *)
Theorem session_after_handshake n fuel bl bd s pre stream ps :
  arrays_ok bl bd -> pending s = pre ++ chr "P" :: stream -> chr "P" ∉ pre ->
  parse_all n stream = Some ps -> Forall (packet_fits bl bd) ps ->
  enough_fuel fuel s ->
  exists k s',
    session SerialReceiveAndParsePacket n fuel bl bd s =
      Ok (inr (snapshots bl bd ps, None)) s' /\
    pending s' = rest_of ps stream /\ (k <= length (incoming s))%nat /\
    tx s' = tx s ++ replicate k (chr "A") ++ concat (notice_bytes <$> noise_of ps) /\
    clock s' = clock s + 500 * (Z.of_nat k + 1).
Proof.
  intros Hok Hp Hnot Hps Hfit Hfuel.
  destruct (session_run SerialReceiveAndParsePacket n fuel bl bd s pre stream ps)
    as (k & s' & Hrun & Hp' & Hk & [Htx Hck]%session_output); [done..|].
  by exists k, s'.
Qed.

(** C38. End to end. The packets a device sends with the senders of
    this library, one after the other, are the packets a device receives:
    if each has a terminated label, a type marker the receiver knows, no
    type marker in its label and no end marker in its payload, and fits
    the arrays, then as many calls of [SerialReceiveAndParsePacket] as
    packets were sent return them in order -- the type marker, and the
    label and payload as sent, each followed by a NUL -- however the bytes
    are chunked on the way; nothing is left unread and the receiver
    writes no error notice. *)
Theorem send_all_receive_all ps fs a a' b fuel bl bd :
  arrays_ok bl bd -> fields_of ps = Some fs -> Forall (deliverable bl bd) fs ->
  for_each send ps a = Ok tt a' -> pending b = written a a' ->
  enough_fuel fuel b ->
  exists rs b',
    receive_n SerialReceiveAndParsePacket (length ps) fuel bl bd b = Ok (rs, None) b' /\
    Forall2 (fun f r => r.1.1 = f.1.2 /\ holds r.1.2 f.1.1 /\ holds r.2 f.2) fs rs /\
    pending b' = [] /\ out_eq b' b.
Proof.
  intros Hok Hfs Hdel Hsend Hb Hfuel.
  rewrite (Forall2_length _ _ _ (fields_of_inv _ _ Hfs)).
  apply receive_n_framed; [apply _|done..|by eapply fields_of_bytes| |done].
  by rewrite Hb, (send_all_written _ _ _ _ (wires_of_fields _ _ Hfs) Hsend), app_nil_r.
Qed.

(** C40. A session on the board. On the bounded receive buffer, with room
    for everything the host sends during the session, the handshake
    followed by [n] calls of the receiver returns the [n] packets behind
    the reply as on the channel of the specification: each label and
    payload NUL-terminated in the arrays, hellos and then one error notice
    per noise byte written, 500 ms spent per hello and after the reply,
    and no byte lost. *)
Theorem session_on_ring n fuel bl bd r pre stream ps :
  roomy r -> arrays_ok bl bd ->
  pending (dev r) = pre ++ chr "P" :: stream -> chr "P" ∉ pre ->
  parse_all n stream = Some ps -> Forall (packet_fits bl bd) ps ->
  enough_fuel fuel (dev r) ->
  exists k r',
    session SerialReceiveAndParsePacket n fuel bl bd r =
      Ok (inr (snapshots bl bd ps, None)) r' /\
    lost r' = lost r /\ pending (dev r') = rest_of ps stream /\
    (k <= length (incoming (dev r)))%nat /\
    tx (dev r') =
      tx (dev r) ++ replicate k (chr "A") ++ concat (notice_bytes <$> noise_of ps) /\
    clock (dev r') = clock (dev r) + 500 * (Z.of_nat k + 1).
Proof.
  intros Hroomy Hok Hp Hnot Hps Hfit Hfuel.
  destruct (tracks_roomy _ _ r (session_rel (@tracks) n fuel bl bd) Hroomy)
    as (Heq & Hlost & _).
  destruct (session_run SerialReceiveAndParsePacket n fuel bl bd (dev r) pre stream ps)
    as (k & s' & Hrun & Hp' & Hk & [Htx Hck]%session_output); [done..|].
  rewrite Hrun in Heq. apply dev_outcome_Ok in Heq as (r' & Hr & <-).
  rewrite Hr in Hlost. by exists k, r'.
Qed.

(** Sending between receiving. In a script of calls, senders and
    calls of the receiver in any order, the calls of the receiver return
    the packets of the input one after the other, exactly as if nothing
    were sent between them, provided every packet sent has a terminated
    label; the output is the frame of each packet sent and the error
    notices of each receiving call, in the order of the calls, and no
    time is spent in [delay]. *)
Theorem script_in_order cs fuel bl bd s ps out :
  arrays_ok bl bd -> parse_all (length ps) (pending s) = Some ps ->
  Forall (packet_fits bl bd) ps -> script_output cs ps = Some out ->
  enough_fuel fuel s ->
  exists rs s',
    script SerialReceiveAndParsePacket cs fuel bl bd s = Ok (rs, None) s' /\
    Forall2 (fun p r => r.1.1 = p_type p /\
                        holds r.1.2 (to_char <$> p_label p) /\
                        holds r.2 (to_char <$> p_payload p)) ps rs /\
    pending s' = rest_of ps (pending s) /\
    tx s' = tx s ++ out /\ clock s' = clock s.
Proof.
  intros Hok Hps Hfit Hout Hfuel.
  destruct (script_run SerialReceiveAndParsePacket cs fuel bl bd s ps out)
    as (s' & Hrun & Hp & Htx & Hck); [done..|].
  exists (snapshots bl bd ps), s'. split_and!; [done| |done..].
  by apply snapshots_hold.
Qed.

(** ** The theorems at concrete inputs *)

(** The stream of the specification, section 8: two bytes of noise and
    the integer 5 labelled ["Ts"]; then a byte of noise and a character
    packet with an empty label. *)
Lemma receive_n_packets_witness :
  exists rs s',
    receive_n SerialReceiveAndParsePacket 2 24 (replicate 4 7) (replicate 6 7)
      (fresh [str "XY<Ts|"; [0; 0; 0; 5]; str ">q<@z>!"]) = Ok (rs, None) s' /\
    Forall2 (fun p r => r.1.1 = p_type p /\
                        holds r.1.2 (to_char <$> p_label p) /\
                        holds r.2 (to_char <$> p_payload p))
      [mkParsed (str "XY") (str "Ts") PACKET_INT [0; 0; 0; 5] (str "q<@z>!");
       mkParsed (str "q") [] PACKET_CHAR (str "z") (str "!")] rs /\
    pending s' =
      rest_of [mkParsed (str "XY") (str "Ts") PACKET_INT [0; 0; 0; 5] (str "q<@z>!");
               mkParsed (str "q") [] PACKET_CHAR (str "z") (str "!")]
              (pending (fresh [str "XY<Ts|"; [0; 0; 0; 5]; str ">q<@z>!"])) /\
    tx s' = tx (fresh [str "XY<Ts|"; [0; 0; 0; 5]; str ">q<@z>!"]) ++
            concat (notice_bytes <$>
              noise_of [mkParsed (str "XY") (str "Ts") PACKET_INT [0; 0; 0; 5] (str "q<@z>!");
                        mkParsed (str "q") [] PACKET_CHAR (str "z") (str "!")]).
Proof.
  apply (receive_n_packets 2 24 (replicate 4 7) (replicate 6 7)
           (fresh [str "XY<Ts|"; [0; 0; 0; 5]; str ">q<@z>!"]));
    [compute_done | reflexivity | compute_done | compute_done].
Defined.

(** The same stream, with a packet sent before each call and one after
    the last. *)
Lemma script_in_order_witness :
  exists rs s',
    script SerialReceiveAndParsePacket
      [Send (PInt (lit "Go") 1); Receive; Send (PChar (lit "Ok") (chr "y")); Receive;
       Send (PErrorText (lit "done"))]
      24 (replicate 4 7) (replicate 6 7)
      (fresh [str "XY<Ts|"; [0; 0; 0; 5]; str ">q<@z>!"]) = Ok (rs, None) s' /\
    Forall2 (fun p r => r.1.1 = p_type p /\
                        holds r.1.2 (to_char <$> p_label p) /\
                        holds r.2 (to_char <$> p_payload p))
      [mkParsed (str "XY") (str "Ts") PACKET_INT [0; 0; 0; 5] (str "q<@z>!");
       mkParsed (str "q") [] PACKET_CHAR (str "z") (str "!")] rs /\
    pending s' =
      rest_of [mkParsed (str "XY") (str "Ts") PACKET_INT [0; 0; 0; 5] (str "q<@z>!");
               mkParsed (str "q") [] PACKET_CHAR (str "z") (str "!")]
              (pending (fresh [str "XY<Ts|"; [0; 0; 0; 5]; str ">q<@z>!"])) /\
    tx s' = tx (fresh [str "XY<Ts|"; [0; 0; 0; 5]; str ">q<@z>!"]) ++
            (str "<Go|" ++ [0; 0; 0; 1] ++ str ">") ++
            (notice_bytes (chr "X") ++ notice_bytes (chr "Y") ++ []) ++
            (str "<Ok@y>") ++ (notice_bytes (chr "q") ++ []) ++
            (str "<Err@done>") ++ [] /\
    clock s' = clock (fresh [str "XY<Ts|"; [0; 0; 0; 5]; str ">q<@z>!"]).
Proof.
  apply (script_in_order
           [Send (PInt (lit "Go") 1); Receive; Send (PChar (lit "Ok") (chr "y")); Receive;
            Send (PErrorText (lit "done"))]
           24 (replicate 4 7) (replicate 6 7)
           (fresh [str "XY<Ts|"; [0; 0; 0; 5]; str ">q<@z>!"]));
    [compute_done | reflexivity | compute_done | reflexivity | compute_done].
Defined.

Lemma receive_n_chunking_independent_witness :
  same_outcome
    (receive_n SerialReceiveAndParsePacket 2 24 (replicate 4 7) (replicate 6 7)
       (fresh [str "XY<Ts|"; [0; 0; 0; 5]; str ">q<@z>!"]))
    (receive_n SerialReceiveAndParsePacket 2 24 (replicate 4 7) (replicate 6 7)
       (fresh [str "X"; []; str "Y<Ts|" ++ [0; 0; 0; 5] ++ str ">q<"; []; str "@z>!"])).
Proof.
  apply (receive_n_chunking_independent 2 24 24 (replicate 4 7) (replicate 6 7));
    [compute_done | reflexivity | repeat split | compute_done | compute_done].
Defined.

Lemma session_after_handshake_witness :
  exists k s',
    session SerialReceiveAndParsePacket 1 24 (replicate 4 7) (replicate 6 7)
      (fresh [[]; []; str "xP"; str "<Ts|"; [0; 0; 0; 5]; str ">"]) =
      Ok (inr (snapshots (replicate 4 7) (replicate 6 7)
                 [mkParsed [] (str "Ts") PACKET_INT [0; 0; 0; 5] []], None)) s' /\
    pending s' = rest_of [mkParsed [] (str "Ts") PACKET_INT [0; 0; 0; 5] []]
                   (str "<Ts|" ++ [0; 0; 0; 5] ++ str ">") /\
    (k <= 6)%nat /\
    tx s' = tx (fresh [[]; []; str "xP"; str "<Ts|"; [0; 0; 0; 5]; str ">"]) ++
            replicate k (chr "A") ++
            concat (notice_bytes <$> noise_of [mkParsed [] (str "Ts") PACKET_INT [0; 0; 0; 5] []]) /\
    clock s' = clock (fresh [[]; []; str "xP"; str "<Ts|"; [0; 0; 0; 5]; str ">"]) +
               500 * (Z.of_nat k + 1).
Proof.
  apply (session_after_handshake 1 24 (replicate 4 7) (replicate 6 7)
           (fresh [[]; []; str "xP"; str "<Ts|"; [0; 0; 0; 5]; str ">"])
           (str "x") (str "<Ts|" ++ [0; 0; 0; 5] ++ str ">"));
    [compute_done | reflexivity | compute_done | reflexivity
    | compute_done | compute_done].
Defined.

Lemma session_on_ring_witness :
  exists k r',
    session SerialReceiveAndParsePacket 1 24 (replicate 4 7) (replicate 6 7)
      (board [[]; []; str "xP"; str "<Ts|"; [0; 0; 0; 5]; str ">"]) =
      Ok (inr (snapshots (replicate 4 7) (replicate 6 7)
                 [mkParsed [] (str "Ts") PACKET_INT [0; 0; 0; 5] []], None)) r' /\
    lost r' = lost (board [[]; []; str "xP"; str "<Ts|"; [0; 0; 0; 5]; str ">"]) /\
    pending (dev r') = rest_of [mkParsed [] (str "Ts") PACKET_INT [0; 0; 0; 5] []]
                         (str "<Ts|" ++ [0; 0; 0; 5] ++ str ">") /\
    (k <= 6)%nat /\
    tx (dev r') =
      tx (dev (board [[]; []; str "xP"; str "<Ts|"; [0; 0; 0; 5]; str ">"])) ++
      replicate k (chr "A") ++
      concat (notice_bytes <$> noise_of [mkParsed [] (str "Ts") PACKET_INT [0; 0; 0; 5] []]) /\
    clock (dev r') =
      clock (dev (board [[]; []; str "xP"; str "<Ts|"; [0; 0; 0; 5]; str ">"])) +
      500 * (Z.of_nat k + 1).
Proof.
  apply (session_on_ring 1 24 (replicate 4 7) (replicate 6 7)
           (board [[]; []; str "xP"; str "<Ts|"; [0; 0; 0; 5]; str ">"])
           (str "x") (str "<Ts|" ++ [0; 0; 0; 5] ++ str ">"));
    [compute_done | compute_done | reflexivity | compute_done | reflexivity
    | compute_done | compute_done].
Defined.

(** An integer, a character and a pair of characters under an empty
    label, sent one after the other and received in four chunks. *)
Lemma send_all_receive_all_witness :
  exists rs b',
    receive_n SerialReceiveAndParsePacket
      (length [PInt (lit "Ts") 305419896; PChar (lit "StimOn") 120; PCharPair [0] 104 105])
      40 (replicate 8 7) (replicate 8 7)
      (fresh [str "<Ts"; PACKET_INT :: [18; 52]; [86; 120] ++ str "><StimOn@x"; str "><@hi>"]) =
      Ok (rs, None) b' /\
    Forall2 (fun f r => r.1.1 = f.1.2 /\ holds r.1.2 f.1.1 /\ holds r.2 f.2)
      [(str "Ts", PACKET_INT, [18; 52; 86; 120]); (str "StimOn", PACKET_CHAR, str "x");
       ([], PACKET_CHAR, str "hi")] rs /\
    pending b' = [] /\
    out_eq b' (fresh [str "<Ts"; PACKET_INT :: [18; 52]; [86; 120] ++ str "><StimOn@x"; str "><@hi>"]).
Proof.
  apply (send_all_receive_all
           [PInt (lit "Ts") 305419896; PChar (lit "StimOn") 120; PCharPair [0] 104 105]
           [(str "Ts", PACKET_INT, [18; 52; 86; 120]); (str "StimOn", PACKET_CHAR, str "x");
            ([], PACKET_CHAR, str "hi")]
           (fresh []) (sent (str "<Ts|" ++ [18; 52; 86; 120] ++ str "><StimOn@x><@hi>") (fresh [])));
    [compute_done | reflexivity | compute_done | reflexivity | reflexivity | compute_done].
Defined.

(** The examples of the specification, section 8, run. Two bytes of noise
    and a packet: two notices, then the packet. *)
Example receive_noise_then_packet :
  exists s',
    SerialReceiveAndParsePacket 16 (replicate 4 7) (replicate 6 7)
      (fresh [str "XY<Ts|" ++ [0; 0; 0; 5] ++ str ">"]) =
      Ok (inr (PACKET_INT, str "Ts" ++ [0; 7], [0; 0; 0; 5; 0; 7])) s' /\
    tx s' = str "<Err@SerInputErr>X<Err@SerInputErr>Y" /\ pending s' = [].
Proof. eexists. split_and!; [vm_compute; reflexivity|done..]. Qed.

(** An empty label. *)
Example receive_empty_label :
  exists s',
    SerialReceiveAndParsePacket 8 (replicate 4 7) (replicate 6 7)
      (fresh [str "<@z>"]) =
      Ok (inr (PACKET_CHAR, [0; 7; 7; 7], str "z" ++ [0; 7; 7; 7; 7])) s' /\
    tx s' = [] /\ pending s' = [].
Proof. eexists. split_and!; [vm_compute; reflexivity|done..]. Qed.
