(* ===== verification/Host.v ===== *)
(** * A host that answers

    On the channel of the specification ([Serial]) what the host sends is
    a schedule fixed in advance. Here the loop is closed: the device is
    wired to a host that hears every byte the device writes and answers
    it. The host is not code of this repository; what is known of it is
    the comment of [SerialHandshake] (lines 21-23: the device sends ['A']
    and looks for ['P'] as the response) and the handshake bytes of the
    specification (section 6).

    - [Host] is the host as the device sees it: a state and [hear], which
      takes a byte written by the device and gives the bytes sent back.
    - [wired] is the device of [Serial] together with a host; it is an
      instance of [Channel], on which the library runs unchanged. A write
      is heard by the host, and the answer arrives behind what is already
      on its way, before a coming poll; the other operations are those of
      the device.
    - [silent] is the host that never answers: wired to it, every
      function of the library does what it does on the device alone
      ([over_link], an instance of [ChannelRel]), so the handshake never
      returns.
    - [unheard], another instance of [ChannelRel], holds for every host:
      a run of a function of the library that writes nothing is the run
      on the device alone and leaves the host as it was.
    - [acknowledges k h] says what the handshake needs of a host [h]: it
      says nothing to the first [k] hellos and answers the next one with
      bytes that start with the reply. Wired to such a host the handshake
      returns, after [k + 1] hellos and 500 ms more, with the rest of the
      answer still to be read; and when the rest of the answer is frames
      that fit, the session of [Session] returns their packets, having
      written nothing but the hellos.
    - [acker] is the host of the comment: it is not listening while the
      device writes its first [deaf] bytes, and from then on answers each
      hello with the reply, followed by what it has to say. It
      acknowledges, whatever [deaf] is.

    What the host does with the packets it hears is not modelled. *)

From S2P Require Import Prelude CArray Memory Channel Serial Codec Packet Encoder.
From S2P Require Import DecoderSpec Decoder DecoderRun Receiver Handshake Parametric.
From S2P Require Import Session.

#[local] Open Scope Z_scope.

(** ** Definitions *)

(** The host as the device sees it: the bytes it sends back on hearing a
    byte. *)
Class Host (H : Type) : Type := hear : H -> Z -> H * list Z.

#[global] Hint Mode Host ! : typeclass_instances.

(** The device and the host at the other end of the wire. *)
Record wired (H : Type) : Type := mkWired { link : serial; peer : H }.
Arguments mkWired {H} link peer.
Arguments link {H} w.
Arguments peer {H} w.

(** The answer of the host is on its way: it arrives before a coming
    poll. *)
Definition answer (reply : list Z) (s : serial) : serial :=
  match reply with
  | [] => s
  | _ => mkSerial (rx s) (incoming s ++ [reply]) (tx s) (flushed s) (clock s)
  end.

(** An operation the host sees nothing of. *)
Definition on_link {H A} (p : prog serial A) : prog (wired H) A :=
  fun w =>
    match p (link w) with
    | Ok a s => Ok a (mkWired s (peer w))
    | Fault e s => Fault e (mkWired s (peer w))
    end.

(** [Serial.write(n)]: the byte is written and the host hears it. *)
Definition wired_write {H} `{!Host H} (n : Z) : prog (wired H) unit :=
  fun w =>
    let '(h, reply) := hear (peer w) (to_uint8 n) in
    Ok tt (mkWired (answer reply (emit [to_uint8 n] (link w))) h).

#[export] Instance wired_channel {H} `{!Host H} : Channel (wired H) := {
  Serial_available := on_link serial_available;
  Serial_read := on_link serial_read;
  Serial_write := wired_write;
  Serial_flush := on_link serial_flush;
  delay ms := on_link (serial_delay ms)
}.

(** The host that never answers. *)
Inductive silent : Type := Silence.

#[export] Instance silent_host : Host silent := fun h _ => (h, []).

(** The host of the handshake: deaf to the first [deaf] bytes, it then
    answers each hello with the reply, followed by what it has to say. *)
Record acker : Type := mkAcker { deaf : nat; says : list Z }.

#[export] Instance acker_host : Host acker := fun h b =>
  match deaf h with
  | O => (h, if decide (b = chr "A") then chr "P" :: says h else [])
  | S k => (mkAcker k (says h), [])
  end.

(** What the handshake needs of a host: nothing is said to [k] hellos,
    and the answer to the next one starts with the reply. The result is
    the host afterwards and the rest of its answer. *)
Fixpoint acknowledges {H} `{!Host H} (k : nat) (h : H) : option (H * list Z) :=
  let '(h1, reply) := hear h (chr "A") in
  match k, reply with
  | O, b :: r => if decide (b = chr "P") then Some (h1, r) else None
  | S k, [] => acknowledges k h1
  | _, _ => None
  end.

(** The device that has read the reply: the rest of the answer [r] is in
    its buffer. *)
Definition shaken (r : list Z) (s : serial) : serial :=
  mkSerial r [] (tx s) (flushed s) (clock s + 500).

(** A program on the wired device does what a program does on the
    device alone. *)
Definition over_link {A} (pw : prog (wired silent) A) (ps : prog serial A) : Prop :=
  forall w, pw w = on_link ps w.

(** A program on the device wired to any host and the program on the
    device alone: the output only grows, and a run that writes nothing
    is not heard. *)
Definition unheard {H} `{!Host H} {A} (pw : prog (wired H) A) (ps : prog serial A) : Prop :=
  forall w,
    tx (link w) `prefix_of` tx (state_of (ps (link w))) /\
    (tx (state_of (ps (link w))) = tx (link w) -> pw w = on_link ps w).

(** Nothing is buffered and nothing is on its way. *)
Definition at_rest (s : serial) : Prop := rx s = [] /\ incoming s = [].

#[export] Instance at_rest_dec s : Decision (at_rest s).
Proof. unfold at_rest. apply _. Defined.

(** ** The silent host *)

Section over_link.
Context {A B : Type}.

Lemma over_link_ret (a : A) : over_link (mret a) (mret a).
Proof. by intros [s h]. Qed.

Lemma over_link_raise (e : fault) : over_link (A:=A) (raise e) (raise e).
Proof. by intros [s h]. Qed.

Lemma over_link_bind (mw : prog (wired silent) A) ms (fw : A -> prog (wired silent) B) fs :
  over_link mw ms -> (forall a, over_link (fw a) (fs a)) -> over_link (mw ≫= fw) (ms ≫= fs).
Proof.
  intros Hm Hf w. prog_unfold. rewrite Hm. unfold on_link.
  destruct (ms (link w)) as [a s|e s]; [|done]. by rewrite Hf.
Qed.

Lemma over_link_on_link (p : prog serial A) : over_link (on_link p) p.
Proof. done. Qed.

End over_link.

Lemma over_link_write n : over_link (Serial_write n) (Serial_write n).
Proof. by intros [s []]. Qed.

#[export] Instance over_link_prog_rel : ProgRel (@over_link).
Proof. split; [apply @over_link_ret|apply @over_link_raise|apply @over_link_bind]. Qed.

#[export] Instance over_link_writer_rel : WriterRel (@over_link).
Proof. split; [apply _|apply over_link_write|apply over_link_on_link]. Qed.

#[export] Instance over_link_rel : ChannelRel (@over_link).
Proof. split; [apply _|apply over_link_on_link..|intros ms; apply over_link_on_link]. Qed.

(** ** Any host *)

Section unheard.
Context {H : Type} `{!Host H} {A B : Type}.

Lemma unheard_ret (a : A) : unheard (H:=H) (mret a) (mret a).
Proof. by intros [s h]. Qed.

Lemma unheard_raise (e : fault) : unheard (H:=H) (A:=A) (raise e) (raise e).
Proof. by intros [s h]. Qed.

Lemma unheard_bind (mw : prog (wired H) A) ms (fw : A -> prog (wired H) B) fs :
  unheard mw ms -> (forall a, unheard (fw a) (fs a)) -> unheard (mw ≫= fw) (ms ≫= fs).
Proof.
  intros Hm Hf w. destruct (Hm w) as [Hpre Heq]. unfold on_link in *. prog_unfold.
  destruct (ms (link w)) as [a s1|e s1]; simpl in *; [|split; [done|by intros ->%Heq]].
  destruct (Hf a (mkWired s1 (peer w))) as [Hpre' Heq']. unfold on_link in *. simpl in *.
  split; [by etrans|]. intros Htx. rewrite Htx in Hpre'.
  pose proof (anti_symm prefix _ _ Hpre' Hpre) as Hs1.
  rewrite Heq by done. apply Heq'. by rewrite Htx.
Qed.

(** An operation that writes nothing. *)
Lemma unheard_on_link (p : prog serial A) :
  (forall s, tx (state_of (p s)) = tx s) -> unheard (H:=H) (on_link p) p.
Proof. intros Hp w. by rewrite Hp. Qed.

(** A run that has written nothing has left the host as it was. *)
Lemma unheard_run (pw : prog (wired H) A) ps s h a s' :
  unheard pw ps -> ps s = Ok a s' -> tx s' = tx s -> pw (mkWired s h) = Ok a (mkWired s' h).
Proof.
  intros Hp Hrun Htx. destruct (Hp (mkWired s h)) as [_ ->]; simpl; [|by rewrite Hrun].
  unfold on_link. simpl. by rewrite Hrun.
Qed.

End unheard.

Lemma unheard_write {H} `{!Host H} n : unheard (H:=H) (Serial_write n) (Serial_write n).
Proof.
  intros w. simpl. split; [by apply prefix_app_r|].
  intros Htx. apply (f_equal length) in Htx. rewrite length_app in Htx. simpl in Htx. lia.
Qed.

#[export] Instance unheard_prog_rel {H} `{!Host H} : ProgRel (@unheard H _).
Proof. split; [apply @unheard_ret|apply @unheard_raise|apply @unheard_bind]. Qed.

#[export] Instance unheard_writer_rel {H} `{!Host H} : WriterRel (@unheard H _).
Proof. split; [apply _|apply unheard_write|by apply unheard_on_link]. Qed.

#[export] Instance unheard_rel {H} `{!Host H} : ChannelRel (@unheard H _).
Proof.
  split; [apply _|apply unheard_on_link; intros s..|intros ms; by apply unheard_on_link].
  - apply tx_arrive.
  - cbn. unfold serial_read. by destruct (rx s).
Qed.

(** ** A host that acknowledges *)

Section acknowledges.
Context {H : Type} `{!Host H}.
Implicit Types (s : serial) (h : H) (k : nat) (r : list Z).

Lemma pending_shaken r s : pending (shaken r s) = r.
Proof. unfold pending. simpl. apply app_nil_r. Qed.

Lemma at_rest_hello s : at_rest s -> at_rest (hello s).
Proof. by intros [? ?]. Qed.

Lemma at_rest_hellos k s : at_rest s -> at_rest (hellos k s).
Proof. induction k as [|k IH]; simpl; auto using at_rest_hello. Qed.

Lemma acknowledges_0 h h' r :
  acknowledges 0 h = Some (h', r) -> hear h (chr "A") = (h', chr "P" :: r).
Proof.
  simpl. destruct (hear h _) as [h1 [|b r']]; [done|].
  case_decide; naive_solver.
Qed.

Lemma acknowledges_S k h :
  is_Some (acknowledges (S k) h) ->
  exists h1, hear h (chr "A") = (h1, []) /\ acknowledges (S k) h = acknowledges k h1.
Proof.
  simpl. destruct (hear h _) as [h1 [|b r']]; [by exists h1|]. by intros [? ?].
Qed.

(** One turn of the inner loop with nothing to read: the hello is
    written and heard, and the answer is on its way. *)
Lemma await_body_hello s h h1 reply :
  at_rest s -> hear h (chr "A") = (h1, reply) ->
  await_body tt (mkWired s h) = Ok (inl tt) (mkWired (answer reply (hello s)) h1).
Proof.
  destruct s. intros [? ?] Hh. simpl in *. subst.
  unfold await_body. prog_unfold. cbn. unfold wired_write.
  rewrite bool_decide_true by done. cbn [peer link].
  change (to_uint8 (chr "A")) with (chr "A"). rewrite Hh. by destruct reply.
Qed.

(** The poll that finds the answer, and the read that takes the reply. *)
Lemma await_body_answer s h r :
  at_rest s ->
  await_body tt (mkWired (answer (chr "P" :: r) s) h) =
  Ok (inr tt) (mkWired (arrive (answer (chr "P" :: r) s)) h).
Proof. destruct s. intros [? ?]. simpl in *. by subst. Qed.

(** The hellos of the inner loop the host says nothing to. *)
Lemma await_quiet k h s :
  at_rest s -> is_Some (acknowledges k h) ->
  exists h1, acknowledges k h = acknowledges 0 h1 /\
    iter_fuel await_body k tt (mkWired s h) = Ok (inl tt) (mkWired (hellos k s) h1).
Proof.
  revert s h. induction k as [|k IH]; intros s h Hs Hk; [by exists h|].
  destruct (acknowledges_S k h Hk) as (h1 & Hh & Heq). rewrite Heq in Hk |- *.
  destruct (IH (hello s) h1) as (h2 & ? & Hrun); [by apply at_rest_hello|done|].
  exists h2. split; [done|].
  by rewrite iter_fuel_S, (await_body_hello s h h1 []), hellos_S.
Qed.

(** The inner loop: a hello for each one the host says nothing to, the
    one it answers, and the poll that finds the answer. *)
Lemma await_acknowledged k h h' r s fuel :
  at_rest s -> acknowledges k h = Some (h', r) -> (k + 2 <= fuel)%nat ->
  iter_fuel await_body fuel tt (mkWired s h) =
  Ok (inr tt) (mkWired (arrive (answer (chr "P" :: r) (hellos (S k) s))) h').
Proof.
  intros Hs Hk Hfuel. apply (iter_fuel_mono _ (k + 2)); [done|].
  destruct (await_quiet k h s) as (h1 & Heq & Hrun); [done|by rewrite Hk|].
  rewrite Hk in Heq. symmetry in Heq. apply acknowledges_0 in Heq.
  rewrite iter_fuel_add, Hrun, iter_fuel_S.
  rewrite (await_body_hello _ _ _ _ (at_rest_hellos k s Hs) Heq), iter_fuel_S.
  by rewrite await_body_answer by auto using at_rest_hello, at_rest_hellos.
Qed.

(** The whole call. *)
Lemma handshake_acknowledged k h h' r s fuel :
  at_rest s -> acknowledges k h = Some (h', r) -> (k + 2 <= fuel)%nat ->
  SerialHandshake fuel (mkWired s h) =
  Ok (inr tt) (mkWired (shaken r (hellos (S k) s)) h').
Proof.
  intros Hs Hk Hfuel. unfold SerialHandshake.
  apply (iter_fuel_mono _ 1); [lia|]. rewrite iter_fuel_S. unfold handshake_body.
  rewrite (bind_Ok _ _ _ _ _ (await_acknowledged k h h' r s fuel Hs Hk Hfuel)).
  pose proof (at_rest_hellos (S k) s Hs) as Hi.
  destruct (hellos (S k) s) as [rx i t f c]. destruct Hi as [? ?]. simpl in *. by subst.
Qed.

End acknowledges.

(** The packets behind the reply: the calls of the receiver find them as
    on the device alone and, writing nothing, leave the host as it is. *)
Lemma receive_n_unheard {H} `{!Host H} n fuel bl bd s (h : H) ps :
  arrays_ok bl bd -> parse_all n (pending s) = Some ps ->
  Forall (packet_fits bl bd) ps -> noise_of ps = [] -> enough_fuel fuel s ->
  exists s',
    receive_n SerialReceiveAndParsePacket n fuel bl bd (mkWired s h) =
      Ok (snapshots bl bd ps, None) (mkWired s' h) /\
    pending s' = rest_of ps (pending s) /\ out_eq s' s.
Proof.
  intros Hok Hps Hfit Hnoise Hfuel.
  destruct (receive_n_parse SerialReceiveAndParsePacket n fuel bl bd s ps)
    as (s' & Hrun & Hp & Ho); [done..|].
  rewrite Hnoise in Ho. exists s'. split_and!; [|done..].
  apply (unheard_run _ _ _ _ _ _ (receive_n_rel (@unheard H _) _ _ n fuel bl bd
    (SerialReceiveAndParsePacket_rel _)) Hrun), Ho.
Qed.

(** The host of the comment acknowledges; the silent host never does. *)
Lemma acker_acknowledges k m : acknowledges k (mkAcker k m) = Some (mkAcker 0 m, m).
Proof. by induction k. Qed.

Lemma silent_never_acknowledges k : acknowledges k Silence = None.
Proof. by induction k. Qed.

(** ** Properties *)

(** The handshake is answered. Let the device, with nothing buffered
    and nothing on its way, be wired to a host that says nothing to the
    first [k] hellos and answers the next one with the reply followed by
    [r]. Then [SerialHandshake] returns, fuel [k + 2] being enough; the
    device has written [k + 1] hellos and nothing else, [500 * (k + 2)]
    ms have passed, and [r] is in its buffer. *)
Theorem SerialHandshake_answered {H} `{!Host H} k (h h' : H) r s fuel :
  at_rest s -> acknowledges k h = Some (h', r) -> (k + 2 <= fuel)%nat ->
  exists s',
    SerialHandshake fuel (mkWired s h) = Ok (inr tt) (mkWired s' h') /\
    tx s' = tx s ++ replicate (S k) (chr "A") /\
    clock s' = clock s + 500 * (Z.of_nat k + 2) /\
    flushed s' = flushed s /\
    pending s' = r.
Proof.
  intros Hs Hk Hfuel. eexists. split; [by apply (handshake_acknowledged k)|].
  rewrite pending_shaken. cbn [shaken tx clock flushed].
  rewrite tx_hellos, clock_hellos, flushed_hellos. split_and!; [done| |done..]. lia.
Qed.

(** C34. A session on the wire. Let the device, with nothing buffered and
    nothing on its way, be wired to a host that says nothing to the
    first [k] hellos and answers the next one with the reply followed by
    [n] frames that fit the arrays, with nothing between them. Then the
    session returns the [n] packets; the device has written [k + 1]
    hellos and nothing else, so the host has heard nothing after its
    answer; [500 * (k + 2)] ms have passed, none of it receiving. Fuel
    for the hellos and for the bytes of the answer is enough. *)
Theorem session_on_wire {H} `{!Host H} k (h h' : H) r n ps s fuel bl bd :
  arrays_ok bl bd -> at_rest s -> acknowledges k h = Some (h', r) ->
  parse_all n r = Some ps -> Forall (packet_fits bl bd) ps -> noise_of ps = [] ->
  (k + 2 <= fuel)%nat -> (length r <= fuel)%nat ->
  exists s',
    session SerialReceiveAndParsePacket n fuel bl bd (mkWired s h) =
      Ok (inr (snapshots bl bd ps, None)) (mkWired s' h') /\
    pending s' = rest_of ps r /\
    tx s' = tx s ++ replicate (S k) (chr "A") /\
    clock s' = clock s + 500 * (Z.of_nat k + 2).
Proof.
  intros Hok Hs Hk Hps Hfit Hnoise Hfuel Hr.
  destruct (receive_n_unheard n fuel bl bd (shaken r (hellos (S k) s)) h' ps)
    as (s' & Hrun & Hp & Htx & _ & Hck); [done|by rewrite pending_shaken|done..| |].
  { unfold enough_fuel. rewrite pending_shaken. simpl. lia. }
  exists s'. unfold session.
  rewrite (bind_Ok _ _ _ _ _ (handshake_acknowledged k h h' r s fuel Hs Hk Hfuel)).
  rewrite (bind_Ok _ _ _ _ _ Hrun), Hp, Htx, Hck, pending_shaken.
  cbn [shaken tx clock]. rewrite tx_hellos, clock_hellos. split_and!; [done..|lia].
Qed.

(** The host of the comment answers: wired to a host that is deaf to
    the first [deaf] bytes and then answers each hello with the reply,
    the handshake returns after [deaf + 1] hellos, with what the host
    has said behind the reply left to read. *)
Theorem SerialHandshake_acker d m s fuel :
  at_rest s -> (d + 2 <= fuel)%nat ->
  SerialHandshake fuel (mkWired s (mkAcker d m)) =
  Ok (inr tt) (mkWired (shaken m (hellos (S d) s)) (mkAcker 0 m)).
Proof.
  intros Hs Hfuel. apply (handshake_acknowledged d); [done| |done].
  apply acker_acknowledges.
Qed.

(** The handshake is never answered by a silent host: whatever the
    fuel, the call is still in its loop, as long as the reply is not in
    the input that was on its way before. *)
Theorem SerialHandshake_unanswered s fuel :
  chr "P" ∉ pending s ->
  exists s', SerialHandshake fuel (mkWired s Silence) = Ok (inl tt) (mkWired s' Silence) /\
             greeted s s'.
Proof.
  intros Hnot. destruct (handshake_stays s fuel Hnot) as (s' & Hrun & Hg).
  exists s'. split; [|done].
  rewrite (SerialHandshake_rel (@over_link) fuel (mkWired s Silence)).
  unfold on_link. simpl. by rewrite Hrun.
Qed.

(** ** The theorems at concrete inputs *)

Lemma SerialHandshake_answered_witness :
  exists s',
    SerialHandshake 5 (mkWired (mkSerial [] [] [7] 0 10) (mkAcker 3 [])) =
      Ok (inr tt) (mkWired s' (mkAcker 0 [])) /\
    tx s' = [7] ++ replicate 4 (chr "A") /\
    clock s' = 10 + 500 * (Z.of_nat 3 + 2) /\
    flushed s' = 0%nat /\
    pending s' = [].
Proof.
  apply (SerialHandshake_answered 3 (mkAcker 3 []) (mkAcker 0 []) []
           (mkSerial [] [] [7] 0 10) 5); [done|reflexivity|lia].
Defined.

Lemma session_on_wire_witness :
  exists s',
    session SerialReceiveAndParsePacket 1 12 (replicate 4 0) (replicate 4 0)
      (mkWired (mkSerial [] [] [] 0 0) (mkAcker 1 (str "<n@xy>"))) =
      Ok (inr (snapshots (replicate 4 0) (replicate 4 0)
                 [mkParsed [] [chr "n"] (chr "@") [chr "x"; chr "y"] []], None))
         (mkWired s' (mkAcker 0 (str "<n@xy>"))) /\
    pending s' = rest_of [mkParsed [] [chr "n"] (chr "@") [chr "x"; chr "y"] []]
                   (str "<n@xy>") /\
    tx s' = [] ++ replicate 2 (chr "A") /\
    clock s' = 0 + 500 * (Z.of_nat 1 + 2).
Proof.
  apply (session_on_wire 1 (mkAcker 1 (str "<n@xy>")) (mkAcker 0 (str "<n@xy>"))
           (str "<n@xy>")); [compute_done..|lia|simpl; lia].
Defined.

Lemma SerialHandshake_acker_witness :
  SerialHandshake 4 (mkWired (mkSerial [] [] [] 0 0) (mkAcker 2 [7])) =
  Ok (inr tt) (mkWired (mkSerial [7] [] (replicate 3 (chr "A")) 0 2000) (mkAcker 0 [7])).
Proof. apply (SerialHandshake_acker 2 [7] (mkSerial [] [] [] 0 0) 4); [done|lia]. Defined.

Lemma SerialHandshake_unanswered_witness :
  exists s',
    SerialHandshake 3 (mkWired (mkSerial [] [[chr "x"]] [] 0 0) Silence) =
      Ok (inl tt) (mkWired s' Silence) /\
    greeted (mkSerial [] [[chr "x"]] [] 0 0) s'.
Proof. apply (SerialHandshake_unanswered (mkSerial [] [[chr "x"]] [] 0 0) 3). compute_done. Defined.
