(* ===== verification/Trace.v ===== *)
(** * The calls into the core

    The library talks to the outside through five calls into the Arduino
    core. A device of [Channel] says what these calls answer; this file
    says which calls a function of the library makes, in which order,
    whatever the device.

    - [io] is a call with its answer: [Polled n] for
      [Serial.available()] that answered [n], [Got b] for [Serial.read()]
      that answered [b], [Put b] for the write of the byte [b],
      [Flushed] for [Serial.flush()] and [Slept ms] for [delay(ms)].
    - [logged S] is a device [S] with the log of the calls made so far;
      it is an instance of [Channel] for every instance [S], on which
      the library runs unchanged. The log changes nothing ([erases], an
      instance of [ChannelRel]), and on the device of the specification
      the output and the clock are what the log says was written and
      slept ([accounts], another instance).
    - [got], [put], [outs] and [slept] read a log: the bytes read, the
      bytes written, the calls that are seen from outside, the time
      spent in [delay]. [follows] runs an automaton over a log;
      [guard_next] is the automaton of guarded reads: a read comes right
      after a poll that answered a positive number.
    - [Reliable] devices are those whose calls always answer; the
      devices of the development are reliable.
    - [emits p Q F] says what a program has added to the log when it
      is done: [Q] of its result and the calls made when it finishes,
      [F] of the fault and the calls made when it reaches undefined
      behaviour. The rules follow the structure of a program, with the
      calls made so far passed on to the rest of it. *)

From S2P Require Import Prelude CArray Memory Channel Serial Codec Packet Encoder.
From S2P Require Import DecoderSpec Decoder DecoderRun Receiver Handshake Parametric.
From S2P Require Import Ring Session Host.

#[local] Open Scope Z_scope.

(** ** Definitions *)

(** A call into the core, with what it answered. *)
Inductive io : Type :=
| Polled (n : Z)
| Got (b : Z)
| Put (b : Z)
| Flushed
| Slept (ms : Z).

#[export] Instance io_eq_dec : EqDecision io.
Proof. solve_decision. Defined.

(** A device and the calls made on it so far. *)
Record logged (S : Type) : Type := mkLogged { under : S; log : list io }.
Arguments mkLogged {S} under log.
Arguments under {S} l.
Arguments log {S} l.

(** A call that is entered in the log when it has answered. *)
Definition record {S A} (ev : A -> io) (p : prog S A) : prog (logged S) A :=
  fun l =>
    match p (under l) with
    | Ok a s => Ok a (mkLogged s (log l ++ [ev a]))
    | Fault e s => Fault e (mkLogged s (log l))
    end.

#[export] Instance logged_channel {S : Type} `{!Channel S} : Channel (logged S) := {
  Serial_available := record Polled Serial_available;
  Serial_read := record Got Serial_read;
  Serial_write n := record (fun _ => Put (to_uint8 n)) (Serial_write n);
  Serial_flush := record (fun _ => Flushed) Serial_flush;
  delay ms := record (fun _ => Slept ms) (delay ms)
}.

(** The bytes read, the bytes written and the time slept, by the log. *)
Definition got (t : list io) : list Z :=
  t ≫= fun e => if e is Got b then [b] else [].

Definition put (t : list io) : list Z :=
  t ≫= fun e => if e is Put b then [b] else [].

Definition slept (t : list io) : Z :=
  foldr (fun e z => (if e is Slept ms then ms else 0) + z) 0 t.

(** The calls that are seen from outside: writes, flushes and waits. *)
Definition outs (t : list io) : list io :=
  t ≫= fun e => if e is (Polled _ | Got _) then [] else [e].

(** An automaton run over a log, from the state [q]; [None] when a call
    is not allowed where it is made. *)
Fixpoint follows {P} (next : P -> io -> option P) (q : P) (t : list io) : option P :=
  match t with
  | [] => Some q
  | e :: t' => next q e ≫= fun q' => follows next q' t'
  end.

(** Guarded reads: a read is allowed right after a poll that answered a
    positive number, and nowhere else. The state says whether the last
    call was such a poll. *)
Definition guard_next (ready : bool) (e : io) : option bool :=
  match e with
  | Polled n => Some (bool_decide (0 < n))
  | Got _ => if ready then Some false else None
  | _ => Some false
  end.

(** Every read of the log is guarded. *)
Definition guarded (t : list io) : Prop := is_Some (follows guard_next false t).

#[export] Instance guarded_dec t : Decision (guarded t).
Proof. unfold guarded. apply _. Defined.

(** A call that always answers. *)
Definition answers {S A} (p : prog S A) : Prop :=
  forall s, exists a s', p s = Ok a s'.

(** A device whose calls always answer. *)
Class Reliable (S : Type) `{!Channel S} : Prop := {
  available_answers : answers (S:=S) Serial_available;
  read_answers : answers (S:=S) Serial_read;
  write_answers n : answers (S:=S) (Serial_write n);
  flush_answers : answers (S:=S) Serial_flush;
  delay_answers ms : answers (S:=S) (delay ms)
}.

(** What a program adds to the log: [Q] of the result and the calls made
    when it finishes, [F] of the fault and the calls made when it reaches
    undefined behaviour. *)
Definition emits {S A} (p : prog (logged S) A)
    (Q : A -> list io -> Prop) (F : fault -> list io -> Prop) : Prop :=
  forall l,
    match p l with
    | Ok a l' => exists t, log l' = log l ++ t /\ Q a t
    | Fault e l' => exists t, log l' = log l ++ t /\ F e t
    end.

(** The outcome on the device under the log. *)
Definition unlogged {S A} (o : outcome (logged S) A) : outcome S A :=
  match o with
  | Ok a l => Ok a (under l)
  | Fault e l => Fault e (under l)
  end.

(** The log changes nothing: a program on the logged device does on the
    device what the program does on the device alone. *)
Definition erases {S A} (pl : prog (logged S) A) (ps : prog S A) : Prop :=
  forall l, unlogged (pl l) = ps (under l).

(** On the device of the specification the log accounts for the output
    and the clock. *)
Definition accounts {A} (pl : prog (logged serial) A) (ps : prog serial A) : Prop :=
  forall l,
    unlogged (pl l) = ps (under l) /\
    exists t,
      log (state_of (pl l)) = log l ++ t /\
      tx (under (state_of (pl l))) = tx (under l) ++ put t /\
      clock (under (state_of (pl l))) = clock (under l) + slept t.

(** ** Reading a log *)

Lemma got_app t1 t2 : got (t1 ++ t2) = got t1 ++ got t2.
Proof. apply bind_app. Qed.

Lemma put_app t1 t2 : put (t1 ++ t2) = put t1 ++ put t2.
Proof. apply bind_app. Qed.

Lemma outs_app t1 t2 : outs (t1 ++ t2) = outs t1 ++ outs t2.
Proof. apply bind_app. Qed.

Lemma slept_app t1 t2 : slept (t1 ++ t2) = slept t1 + slept t2.
Proof. unfold slept. induction t1 as [|e t1 IH]; simpl; lia. Qed.

Lemma put_Put bs : put (Put <$> bs) = bs.
Proof. induction bs as [|b bs IH]; [done|]. unfold put in *. simpl. by f_equal. Qed.

Lemma outs_Put bs : outs (Put <$> bs) = Put <$> bs.
Proof. induction bs as [|b bs IH]; [done|]. unfold outs in *. simpl. by f_equal. Qed.

Lemma got_Put bs : got (Put <$> bs) = [].
Proof. by induction bs. Qed.

Lemma slept_Put bs : slept (Put <$> bs) = 0.
Proof. by induction bs. Qed.

(** What is seen from outside says what was written and slept. *)
Lemma put_outs t : put (outs t) = put t.
Proof.
  induction t as [|e t IH]; [done|].
  change (e :: t) with ([e] ++ t). rewrite outs_app, !put_app, IH. by destruct e.
Qed.

Lemma slept_outs t : slept (outs t) = slept t.
Proof.
  induction t as [|e t IH]; [done|].
  change (e :: t) with ([e] ++ t). rewrite outs_app, !slept_app, IH. by destruct e.
Qed.

#[export] Hint Rewrite got_app put_app outs_app slept_app put_Put outs_Put got_Put
  slept_Put : opbox_rw.

(** ** Automata over a log *)

Section follows.
Context {P : Type} (next : P -> io -> option P).
Implicit Types (q : P) (t : list io).

Lemma follows_app q t1 t2 :
  follows next q (t1 ++ t2) = follows next q t1 ≫= fun q' => follows next q' t2.
Proof.
  revert q. induction t1 as [|e t1 IH]; intros q; simpl; [done|].
  destruct (next q e) as [q1|]; simpl; [apply IH|done].
Qed.

Lemma follows_cons q e t :
  follows next q (e :: t) = next q e ≫= fun q' => follows next q' t.
Proof. done. Qed.

Lemma follows_snoc q t e q' :
  follows next q t = Some q' -> follows next q (t ++ [e]) = next q' e.
Proof. intros H. rewrite follows_app, H. simpl. by destruct (next q' e). Qed.

(** An invariant of the states and the calls made holds at the end of
    every log the automaton allows. *)
Lemma follows_invariant (Inv : P -> list io -> Prop) q0 :
  Inv q0 [] ->
  (forall q t e q', Inv q t -> next q e = Some q' -> Inv q' (t ++ [e])) ->
  forall t q, follows next q0 t = Some q -> Inv q t.
Proof.
  intros H0 Hstep t. induction t as [|e t IH] using rev_ind; intros q Hq.
  { by injection Hq as <-. }
  destruct (follows next q0 t) as [q1|] eqn:Ht; [|by rewrite follows_app, Ht in Hq].
  rewrite (follows_snoc _ _ _ _ Ht) in Hq. by apply (Hstep q1); [apply IH|].
Qed.

End follows.

(** An automaton that allows what another one allows: the states of the
    one seen through [f] are states of the other. *)
Lemma follows_sim {P1 P2} (next1 : P1 -> io -> option P1) (next2 : P2 -> io -> option P2)
    (f : P1 -> P2) q t q' :
  (forall q e q', next1 q e = Some q' -> next2 (f q) e = Some (f q')) ->
  follows next1 q t = Some q' -> follows next2 (f q) t = Some (f q').
Proof.
  intros Hsim. revert q. induction t as [|e t IH]; intros q; [by intros [= ->]|].
  rewrite !follows_cons. destruct (next1 q e) as [q1|] eqn:H1; [|done].
  rewrite (Hsim _ _ _ H1). simpl. apply IH.
Qed.

(** Calls that are not reads are allowed anywhere and leave no read
    allowed. *)
Lemma guard_outs ready t :
  Forall (fun e => if e is (Polled _ | Got _) then False else True) t -> t <> [] ->
  follows guard_next ready t = Some false.
Proof.
  intros Ht. revert ready. induction Ht as [|e t He Ht IH]; intros ready Hne; [done|].
  rewrite follows_cons. destruct e; try done; simpl;
    (destruct t; [done|by apply IH]).
Qed.

Lemma guard_Put ready bs : bs <> [] -> follows guard_next ready (Put <$> bs) = Some false.
Proof.
  intros Hne. apply guard_outs; [|by destruct bs].
  by apply Forall_fmap, Forall_true.
Qed.

(** ** Devices that answer *)

Lemma answers_record {S A} (ev : A -> io) (p : prog S A) :
  answers p -> answers (record ev p).
Proof.
  intros Hp l. destruct (Hp (under l)) as (a & s' & Hrun).
  unfold record. rewrite Hrun. by eexists _, _.
Qed.

#[export] Instance serial_reliable : Reliable serial.
Proof.
  split; try (intros; intros s; by eexists _, _).
  intros s. cbn. unfold serial_read. destruct (rx s); by eexists _, _.
Qed.

#[export] Instance logged_reliable {S : Type} `{!Channel S, !Reliable S} :
  Reliable (logged S).
Proof.
  split; intros; apply answers_record;
    [apply available_answers|apply read_answers|apply write_answers
    |apply flush_answers|apply delay_answers].
Qed.

#[export] Instance ring_reliable : Reliable ring.
Proof.
  split; try (intros; intros r; by eexists _, _).
  intros r. cbn. unfold on_dev, serial_read. destruct (rx (dev r)); by eexists _, _.
Qed.

#[export] Instance wired_reliable {H : Type} `{!Host H} : Reliable (wired H).
Proof.
  split; try (intros; intros w; by eexists _, _).
  - intros w. cbn. unfold on_link, serial_read. destruct (rx (link w)); by eexists _, _.
  - intros n w. cbn. unfold wired_write. destruct (hear _ _). by eexists _, _.
Qed.

(** ** What a program adds to the log *)

Section emits.
Context {S : Type} {A B : Type}.
Implicit Types (Q : A -> list io -> Prop) (F : fault -> list io -> Prop).

Lemma emits_ret (a : A) Q F : Q a [] -> emits (S:=S) (mret a) Q F.
Proof. intros HQ l. exists []. by rewrite app_nil_r. Qed.

Lemma emits_raise (e : fault) Q F : F e [] -> emits (S:=S) (A:=A) (raise e) Q F.
Proof. intros HF l. exists []. by rewrite app_nil_r. Qed.

Lemma emits_mono (p : prog (logged S) A) Q Q' F F' :
  emits p Q F -> (forall a t, Q a t -> Q' a t) -> (forall e t, F e t -> F' e t) ->
  emits p Q' F'.
Proof.
  intros Hp HQ HF l. specialize (Hp l).
  destruct (p l); destruct Hp as (t & ? & ?); exists t; auto.
Qed.

(** Sequencing: the calls of the first part come before those of the
    rest. *)
Lemma emits_bind (m : prog (logged S) A) (f : A -> prog (logged S) B) Q1 F1
    (Q : B -> list io -> Prop) F :
  emits m Q1 F1 ->
  (forall e t, F1 e t -> F e t) ->
  (forall a t1, Q1 a t1 ->
     emits (f a) (fun b t2 => Q b (t1 ++ t2)) (fun e t2 => F e (t1 ++ t2))) ->
  emits (m ≫= f) Q F.
Proof.
  intros Hm HF Hf l. specialize (Hm l). prog_unfold.
  destruct (m l) as [a l1|e l1]; destruct Hm as (t1 & Hl1 & H1); [|by exists t1; auto].
  specialize (Hf a t1 H1 l1).
  destruct (f a l1); destruct Hf as (t2 & -> & ?);
    exists (t1 ++ t2); by rewrite Hl1, app_assoc.
Qed.

(** A call that answers adds itself. *)
Lemma emits_record (ev : A -> io) (p : prog S A) Q F :
  answers p -> (forall a, Q a [ev a]) -> emits (record ev p) Q F.
Proof.
  intros Hp HQ l. destruct (Hp (under l)) as (a & s' & Hrun).
  unfold record. rewrite Hrun. by exists [ev a].
Qed.

Lemma emits_bind_record (ev : A -> io) (p : prog S A) (f : A -> prog (logged S) B)
    (Q : B -> list io -> Prop) F :
  answers p ->
  (forall a, emits (f a) (fun b t => Q b (ev a :: t)) (fun e t => F e (ev a :: t))) ->
  emits (record ev p ≫= f) Q F.
Proof.
  intros Hp Hf.
  apply (emits_bind _ _ (fun a t => t = [ev a]) (fun _ _ => False)); [|done|].
  - by apply emits_record.
  - intros a t1 ->. apply Hf.
Qed.

End emits.

(** A program that is another one with its result seen through [f]. *)
Lemma emits_outcome_map {S A B} (p : prog (logged S) A) (p' : prog (logged S) B)
    (f : A -> B) Q F :
  (forall l, p' l = outcome_map f (p l)) -> emits p Q F ->
  emits p' (fun b t => exists a, b = f a /\ Q a t) F.
Proof.
  intros Hp' Hp l. rewrite Hp'. specialize (Hp l).
  destruct (p l) as [a l'|e l']; destruct Hp as (t & ? & ?); exists t; eauto.
Qed.

(** A loop: an invariant of the locals and the calls made since the loop
    was entered. *)
Lemma emits_iter_fuel {S St R} (body : St -> prog (logged S) (St + R))
    (I : St -> list io -> Prop) (Q : R -> list io -> Prop) F n st :
  I st [] ->
  (forall st t, I st t ->
     emits (body st)
       (fun r t2 => match r with inl st' => I st' (t ++ t2) | inr v => Q v (t ++ t2) end)
       (fun e t2 => F e (t ++ t2))) ->
  emits (iter_fuel body n st)
    (fun r t => match r with inl st' => I st' t | inr v => Q v t end) F.
Proof.
  intros HI Hbody.
  cut (forall t, I st t ->
         emits (iter_fuel body n st)
           (fun r t2 => match r with inl st' => I st' (t ++ t2) | inr v => Q v (t ++ t2) end)
           (fun e t2 => F e (t ++ t2))).
  { intros H. by apply (H []). }
  clear HI. revert st. induction n as [|n IH]; intros st t Ht.
  { apply emits_ret. by rewrite app_nil_r. }
  simpl. eapply emits_bind; [by apply Hbody|done|]. intros [st'|v] t1 H1; simpl.
  - eapply emits_mono; [by apply (IH st' (t ++ t1))|..];
      intros; destruct_and?; by rewrite 1?app_assoc.
  - apply emits_ret. by rewrite app_nil_r.
Qed.

(** ** The five calls *)

Section calls.
Context {S : Type} `{!Channel S, !Reliable S} {B : Type}.
Implicit Types (Q : B -> list io -> Prop) (F : fault -> list io -> Prop).

Lemma emits_available (f : Z -> prog (logged S) B) Q F :
  (forall n, emits (f n) (fun b t => Q b (Polled n :: t)) (fun e t => F e (Polled n :: t))) ->
  emits (Serial_available ≫= f) Q F.
Proof. apply emits_bind_record, available_answers. Qed.

Lemma emits_read (f : Z -> prog (logged S) B) Q F :
  (forall b, emits (f b) (fun r t => Q r (Got b :: t)) (fun e t => F e (Got b :: t))) ->
  emits (Serial_read ≫= f) Q F.
Proof. apply emits_bind_record, read_answers. Qed.

Lemma emits_write n (f : unit -> prog (logged S) B) Q F :
  emits (f tt) (fun b t => Q b (Put (to_uint8 n) :: t))
               (fun e t => F e (Put (to_uint8 n) :: t)) ->
  emits (Serial_write n ≫= f) Q F.
Proof. intros Hf. apply emits_bind_record; [apply write_answers|by intros []]. Qed.

Lemma emits_flush (f : unit -> prog (logged S) B) Q F :
  emits (f tt) (fun b t => Q b (Flushed :: t)) (fun e t => F e (Flushed :: t)) ->
  emits (Serial_flush ≫= f) Q F.
Proof. intros Hf. apply emits_bind_record; [apply flush_answers|by intros []]. Qed.

Lemma emits_delay ms (f : unit -> prog (logged S) B) Q F :
  emits (f tt) (fun b t => Q b (Slept ms :: t)) (fun e t => F e (Slept ms :: t)) ->
  emits (delay ms ≫= f) Q F.
Proof. intros Hf. apply emits_bind_record; [apply delay_answers|by intros []]. Qed.

End calls.

(** A call at the end of a program is a call followed by nothing. *)
Lemma emits_tail {S A} (p : prog (logged S) A) Q F :
  emits (p ≫= mret) Q F -> emits p Q F.
Proof. intros H l. specialize (H l). prog_unfold. by destruct (p l). Qed.

(** Follow a program call by call. *)
Ltac emits_step :=
  lazymatch goal with
  | |- emits (mret _) _ _ => apply emits_ret
  | |- emits (raise _) _ _ => apply emits_raise
  | |- emits (Serial_available ≫= _) _ _ => apply emits_available; intros ?
  | |- emits (Serial_read ≫= _) _ _ => apply emits_read; intros ?
  | |- emits (Serial_write _ ≫= _) _ _ => apply emits_write
  | |- emits (Serial_flush ≫= _) _ _ => apply emits_flush
  | |- emits (delay _ ≫= _) _ _ => apply emits_delay
  | |- emits (if ?c then _ else _) _ _ => destruct c eqn:?
  | |- emits (Serial_write _) _ _ => apply emits_tail
  | |- emits Serial_flush _ _ => apply emits_tail
  | |- emits (delay _) _ _ => apply emits_tail
  end.

Ltac emits_go := repeat emits_step.

(** ** The log changes nothing *)

Section erases.
Context {S : Type} {A B : Type}.

Lemma erases_ret (a : A) : erases (S:=S) (mret a) (mret a).
Proof. done. Qed.

Lemma erases_raise (e : fault) : erases (S:=S) (A:=A) (raise e) (raise e).
Proof. done. Qed.

Lemma erases_bind (ml : prog (logged S) A) ms (fl : A -> prog (logged S) B) fs :
  erases ml ms -> (forall a, erases (fl a) (fs a)) -> erases (ml ≫= fl) (ms ≫= fs).
Proof.
  intros Hm Hf l. prog_unfold. rewrite <- Hm.
  destruct (ml l) as [a l1|e l1]; [apply Hf|done].
Qed.

Lemma erases_record (ev : A -> io) (p : prog S A) : erases (record ev p) p.
Proof. intros l. unfold record. by destruct (p (under l)). Qed.

End erases.

#[export] Instance erases_prog_rel {S : Type} : ProgRel (@erases S).
Proof. split; [apply @erases_ret|apply @erases_raise|apply @erases_bind]. Qed.

#[export] Instance erases_writer_rel {S : Type} `{!Channel S} : WriterRel (@erases S).
Proof. split; [apply _|intros n; apply erases_record|apply erases_record]. Qed.

#[export] Instance erases_rel {S : Type} `{!Channel S} : ChannelRel (@erases S).
Proof. split; [apply _|apply erases_record..|intros ms; apply erases_record]. Qed.

(** ** The log accounts for the output and the clock *)

Section accounts.
Context {A B : Type}.

Lemma accounts_ret (a : A) : accounts (mret a) (mret a).
Proof. intros l. split; [done|]. exists []. simpl. by rewrite !app_nil_r, Z.add_0_r. Qed.

Lemma accounts_raise (e : fault) : accounts (A:=A) (raise e) (raise e).
Proof. intros l. split; [done|]. exists []. simpl. by rewrite !app_nil_r, Z.add_0_r. Qed.

Lemma accounts_bind (ml : prog (logged serial) A) ms (fl : A -> prog (logged serial) B) fs :
  accounts ml ms -> (forall a, accounts (fl a) (fs a)) -> accounts (ml ≫= fl) (ms ≫= fs).
Proof.
  intros Hm Hf l. destruct (Hm l) as (Hrun & t1 & Hlog & Htx & Hck). prog_unfold.
  rewrite <- Hrun. destruct (ml l) as [a l1|e l1]; simpl in *; [|by split; [|exists t1]].
  destruct (Hf a l1) as (Hrun2 & t2 & Hlog2 & Htx2 & Hck2). split; [done|].
  exists (t1 ++ t2). rewrite Hlog2, Htx2, Hck2, Hlog, Htx, Hck, put_app, slept_app.
  by rewrite !app_assoc, Z.add_assoc.
Qed.

(** A call that leaves the output and the clock as the log says. *)
Lemma accounts_record (ev : A -> io) (p : prog serial A) :
  (forall s, match p s with
             | Ok a s' => tx s' = tx s ++ put [ev a] /\ clock s' = clock s + slept [ev a]
             | Fault _ s' => tx s' = tx s /\ clock s' = clock s
             end) ->
  accounts (record ev p) p.
Proof.
  intros Hp l. split; [apply erases_record|]. specialize (Hp (under l)).
  unfold record. destruct (p (under l)) as [a s'|e s']; destruct Hp as [Htx Hck]; simpl.
  - by exists [ev a].
  - exists []. simpl. by rewrite Htx, Hck, !app_nil_r, Z.add_0_r.
Qed.

End accounts.

#[export] Instance accounts_prog_rel : ProgRel (@accounts).
Proof. split; [apply @accounts_ret|apply @accounts_raise|apply @accounts_bind]. Qed.

#[export] Instance accounts_writer_rel : WriterRel (@accounts).
Proof.
  split; [apply _|intros n|]; apply accounts_record; intros s; simpl;
    by rewrite ?app_nil_r, ?Z.add_0_r.
Qed.

#[export] Instance accounts_rel : ChannelRel (@accounts).
Proof.
  split; [apply _|..|intros ms]; apply accounts_record; intros s; simpl.
  - by rewrite tx_arrive, clock_arrive, app_nil_r, Z.add_0_r.
  - unfold serial_read. destruct (rx s); simpl; by rewrite app_nil_r, Z.add_0_r.
  - split; [by rewrite app_nil_r|lia].
Qed.

(** ** Properties *)

(** The log is faithful for every script of senders and calls of the
    receiver. *)
Lemma script_accounted cs fuel bl bd :
  accounts (script SerialReceiveAndParsePacket cs fuel bl bd)
           (script SerialReceiveAndParsePacket cs fuel bl bd).
Proof. apply (script_rel (@accounts)). intros. apply SerialReceiveAndParsePacket_rel, _. Qed.

(** The log is faithful. A session (the handshake, then [n] calls of
    the receiver) on the device of the specification with a log does to
    the device what it does without the log, and the log accounts for
    what the device shows: the output is the output before followed by
    the bytes the log says were written, and the clock has advanced by
    the time the log says was spent in [delay]. *)
Theorem session_accounted n fuel bl bd (l : logged serial) :
  unlogged (session SerialReceiveAndParsePacket n fuel bl bd l) =
    session SerialReceiveAndParsePacket n fuel bl bd (under l) /\
  exists t,
    log (state_of (session SerialReceiveAndParsePacket n fuel bl bd l)) = log l ++ t /\
    tx (under (state_of (session SerialReceiveAndParsePacket n fuel bl bd l))) =
      tx (under l) ++ put t /\
    clock (under (state_of (session SerialReceiveAndParsePacket n fuel bl bd l))) =
      clock (under l) + slept t.
Proof. apply (session_rel (@accounts)). Qed.
