(* ===== verification/Protocol.v ===== *)
(** * What the library calls

    The functions of the library on any device whose calls answer
    ([Reliable]), by the calls they make ([Trace]).

    - The senders: a packet whose strings are terminated is written byte
      by byte, in the order of its frame, and flushed once, at the end;
      no sender polls, reads or waits ([send_calls]).
    - The handshake follows the automaton [handshake_next] of its two
      loops ([SerialHandshake_protocol]); so every hello is followed by
      a wait of 500 ms, a byte is read only after two polls in a row have
      found one, and the call returns only after it has read the reply
      and waited ([handshake_log_so_far], [handshake_log_guarded]).
    - The receiver: whatever the device answers, the call is the run of
      the specification's machine over the bytes that were read; it
      reads only after a poll that found a byte, never waits, and what
      is seen of it from outside is one error notice, flushed, and the
      byte itself for each byte the machine reports ([receive_calls]).

    The call sequences [sender_calls] and [notice_calls] and the automaton
    [handshake_next] are references, written by hand after lines 55-61,
    172-173 and 25-37 of the source. They translate nothing: the programs
    are those of [Encoder], [Handshake] and [Decoder], and the theorems
    say that their logs are the references. *)

From S2P Require Import Prelude CArray Memory Channel Serial Codec Packet Encoder.
From S2P Require Import DecoderSpec Decoder DecoderRun Receiver Handshake Parametric.
From S2P Require Import Ring Session Host Trace.

#[local] Open Scope Z_scope.

(** ** Definitions *)

(** The calls of a sender that returns: the bytes of the frame, then the
    flush. *)
Definition sender_calls (w : list Z) : list io := (Put <$> w) ++ [Flushed].

(** Where [SerialHandshake] is between two calls (lines 25-37): about to
    poll in the inner loop, about to write a hello, about to wait after
    it, about to poll again after the inner loop, about to read, about
    to wait after the reply, and done. *)
Inductive phase : Type :=
| Polling | Greeting | Pausing | Checking | Taking | Settling | Shaken.

#[export] Instance phase_eq_dec : EqDecision phase.
Proof. solve_decision. Defined.

(** The calls [SerialHandshake] makes, as an automaton: from each phase,
    the call that is allowed and the phase it leads to. *)
Definition handshake_next (ph : phase) (e : io) : option phase :=
  match ph, e with
  | Polling, Polled n => Some (if bool_decide (n <= 0) then Greeting else Checking)
  | Greeting, Put b => if bool_decide (b = chr "A") then Some Pausing else None
  | Pausing, Slept ms => if bool_decide (ms = 500) then Some Polling else None
  | Checking, Polled n => Some (if bool_decide (0 < n) then Taking else Polling)
  | Taking, Got b => Some (if bool_decide (b = chr "P") then Settling else Polling)
  | Settling, Slept ms => if bool_decide (ms = 500) then Some Shaken else None
  | _, _ => None
  end.

(** A read is allowed next when the last call was a poll that found a
    byte. *)
Definition ready (ph : phase) : bool :=
  match ph with Checking | Taking => true | _ => false end.

(** What the handshake has done when it is in phase [ph] after the calls
    [t]: it has written hellos and nothing else, it has waited 500 ms for
    each but the one it has just written, and 500 ms more when done; the
    reply is the last byte read once it was read, and was not read
    before. *)
Definition handshake_so_far (ph : phase) (t : list io) : Prop :=
  put t = replicate (length (put t)) (chr "A") /\
  slept t + (if ph is (Pausing | Settling) then 500 else 0) =
    500 * Z.of_nat (length (put t)) + (if ph is (Settling | Shaken) then 500 else 0) /\
  (if ph is (Settling | Shaken)
   then exists pre, got t = pre ++ [chr "P"] /\ chr "P" ∉ pre
   else chr "P" ∉ got t).

(** The calls of one error notice: the ["Err"] packet, flushed, and then
    the byte itself. *)
Definition notice_calls (b : Z) : list io :=
  sender_calls (frame (str "Err") PACKET_CHAR (str "SerInputErr")) ++
  [Put (to_uint8 (to_char b))].

(** What the receiver has done after the calls [t], by the machine of
    the specification: every read was guarded and the last call leaves
    none allowed; the machine, run over the bytes that were read, has
    reported the bytes [ns] and is left as [v] says; and what is seen
    from outside is the notices of the bytes reported, one after the
    other. *)
Definition heard (cap_l cap_d : nat) (v : verdict) (t : list io) : Prop :=
  follows guard_next false t = Some false /\
  exists ns,
    drun cap_l cap_d Idle (got t) = (ns, v) /\
    outs t = ns ≫= notice_calls.

(** ** The senders *)

Section senders.
Context {S : Type} `{!Channel S, !Reliable S}.

Lemma write_all_emits bs :
  emits (S:=S) (for_each Serial_write bs)
    (fun _ t => t = Put <$> (to_uint8 <$> bs)) (fun _ _ => False).
Proof.
  induction bs as [|b bs IH]; simpl; [by apply emits_ret|].
  apply emits_write. eapply emits_mono; [apply IH|..]; [by intros _ t ->|done].
Qed.

Lemma write_str_emits str :
  emits (S:=S) (Serial_write_str str)
    (fun _ t => exists cs, c_str str = Some cs /\ t = Put <$> (to_uint8 <$> cs))
    (fun e t => e = Unterminated /\ c_str str = None /\ t = []).
Proof.
  unfold Serial_write_str, c_str. destruct (strlen str) as [n|]; simpl.
  - eapply emits_mono; [apply (write_all_emits (take n str))|..]; [|done].
    intros _ t ->. by eexists.
  - by apply emits_raise.
Qed.

Lemma long_int_emits val :
  emits (S:=S) (SerialWriteLongInt val) (fun _ t => t = Put <$> be32 val) (fun _ _ => False).
Proof.
  unfold SerialWriteLongInt. emits_go.
  pose proof (be32_bytes val) as Hb. unfold be32 in *.
  by rewrite <- (Forall_to_uint8_id _ Hb) at 1.
Qed.

(** A string on the way: either it is written, or the sender stops
    there. *)
Lemma emits_write_str {B} str (f : unit -> prog (logged S) B) Q F :
  (c_str str = None -> F Unterminated []) ->
  (forall cs, c_str str = Some cs ->
     emits (f tt) (fun b t => Q b ((Put <$> (to_uint8 <$> cs)) ++ t))
                  (fun e t => F e ((Put <$> (to_uint8 <$> cs)) ++ t))) ->
  emits (Serial_write_str str ≫= f) Q F.
Proof.
  intros HF Hf. eapply emits_bind; [apply write_str_emits|..].
  - intros e t (-> & Hnone & ->). auto.
  - intros [] t (cs & Hcs & ->). auto.
Qed.

Lemma emits_long_int {B} val (f : unit -> prog (logged S) B) Q F :
  emits (f tt) (fun b t => Q b ((Put <$> be32 val) ++ t))
               (fun e t => F e ((Put <$> be32 val) ++ t)) ->
  emits (SerialWriteLongInt val ≫= f) Q F.
Proof.
  intros Hf. eapply emits_bind; [apply long_int_emits|done|]. by intros [] t ->.
Qed.

End senders.

Ltac emits_step ::=
  lazymatch goal with
  | |- emits (mret _) _ _ => apply emits_ret
  | |- emits (raise _) _ _ => apply emits_raise
  | |- emits (Serial_available ≫= _) _ _ => apply emits_available; intros ?
  | |- emits (Serial_read ≫= _) _ _ => apply emits_read; intros ?
  | |- emits (Serial_write _ ≫= _) _ _ => apply emits_write
  | |- emits (Serial_flush ≫= _) _ _ => apply emits_flush
  | |- emits (delay _ ≫= _) _ _ => apply emits_delay
  | |- emits (Serial_write_str _ ≫= _) _ _ => apply emits_write_str; [intros ?|intros ? ?]
  | |- emits (SerialWriteLongInt _ ≫= _) _ _ => apply emits_long_int
  | |- emits (if ?c then _ else _) _ _ => destruct c eqn:?
  | |- emits (Serial_write _) _ _ => apply emits_tail
  | |- emits Serial_flush _ _ => apply emits_tail
  | |- emits (delay _) _ _ => apply emits_tail
  end.

(** The calls of a sender, on any device: the bytes of the frame and one
    flush when the strings are terminated, the bytes before the string
    that is not when one is not. *)
Lemma send_emits {S : Type} `{!Channel S, !Reliable S} p :
  emits (S:=S) (send p)
    (fun _ t => exists w, wire_of p = Some w /\ t = sender_calls w)
    (fun e t => e = Unterminated /\ wire_of p = None /\
                t = Put <$> written_before_fault p).
Proof.
  unfold wire_of, sender_calls.
  destruct p as [text ts|text i1 i2|text d|text c1 c2|text|n]; simpl;
    unfold SerialSendInt, SerialSendIntPair, SerialSendChar, SerialSendCharPair,
      SerialSendErrorText, SerialSendErrorNumAsText; emits_go.
  all: repeat match goal with
       | H : c_str (lit _) = _ |- _ => rewrite c_str_Err in H; simplify_eq
       | H : c_str _ = _ |- _ => rewrite H; clear H
       end; simpl; try done.
  all: eexists; split; [done|]; unfold frame, be32; simpl.
  all: by rewrite ?fmap_app, <- ?app_assoc.
Qed.

(** ** The handshake *)

Section handshake.
Context {S : Type} `{!Channel S, !Reliable S}.

#[local] Abbreviation run := (follows handshake_next Polling).

(** The inner loop leaves the automaton about to poll when it is out of
    fuel and about to poll again when it has found a byte. *)
Lemma await_emits fuel t0 :
  run t0 = Some Polling ->
  emits (S:=S) (iter_fuel await_body fuel tt)
    (fun r t => run (t0 ++ t) = Some (if r is inr _ then Checking else Polling))
    (fun _ _ => False).
Proof.
  intros H0.
  eapply emits_mono;
    [apply (emits_iter_fuel await_body (fun _ t => run (t0 ++ t) = Some Polling)
              (fun _ t => run (t0 ++ t) = Some Checking) (fun _ _ => False))|..].
  - by rewrite app_nil_r.
  - intros [] t Ht. unfold await_body. emits_go;
      rewrite !app_assoc, follows_app, Ht; simpl; by rewrite Heqb.
  - by intros [[]|[]].
  - done.
Qed.

(** One turn of the outer loop. *)
Lemma handshake_body_emits fuel t0 :
  run t0 = Some Polling ->
  emits (S:=S) (handshake_body fuel tt)
    (fun r t => run (t0 ++ t) = Some (if r is inr _ then Shaken else Polling))
    (fun _ _ => False).
Proof.
  intros H0. unfold handshake_body.
  eapply emits_bind; [by apply await_emits|done|]. intros [[]|[]] t1 H1; cbv beta iota.
  - emits_go. by rewrite app_nil_r.
  - emits_go; rewrite !app_assoc, follows_app, H1; simpl;
      rewrite ?Heqb, ?Heqb0; simpl; by rewrite ?Heqb0.
Qed.

(** The calls of the handshake are those of its automaton: back at the
    first poll while it is looping, done when it has returned. *)
Lemma handshake_emits fuel :
  emits (S:=S) (SerialHandshake fuel)
    (fun r t => run t = Some (if r is inr _ then Shaken else Polling))
    (fun _ _ => False).
Proof.
  unfold SerialHandshake.
  eapply emits_mono;
    [apply (emits_iter_fuel (handshake_body fuel) (fun _ t => run t = Some Polling)
              (fun _ t => run t = Some Shaken) (fun _ _ => False))|..].
  - done.
  - intros [] t Ht. eapply emits_mono; [by apply handshake_body_emits|..]; [|done].
    by intros [[]|[]].
  - by intros [[]|[]].
  - done.
Qed.

End handshake.

(** What every log of the automaton says. *)
Lemma handshake_next_ready ph e ph' :
  handshake_next ph e = Some ph' -> guard_next (ready ph) e = Some (ready ph').
Proof.
  destruct ph, e; intros; simplify_eq/=; repeat case_bool_decide; simplify_eq;
    done || lia.
Qed.

Lemma handshake_log_guarded t ph :
  follows handshake_next Polling t = Some ph -> guarded t.
Proof.
  intros H. exists (ready ph).
  apply (follows_sim handshake_next guard_next ready Polling), H.
  apply handshake_next_ready.
Qed.

Lemma handshake_next_so_far ph t e ph' :
  handshake_so_far ph t -> handshake_next ph e = Some ph' ->
  handshake_so_far ph' (t ++ [e]).
Proof.
  unfold handshake_so_far. intros (Hput & Hslept & Hgot) Hnext.
  rewrite put_app, slept_app, got_app, length_app.
  destruct ph, e; simplify_eq/=; repeat case_bool_decide; simplify_eq/=;
    rewrite ?app_nil_r, ?Nat.add_0_r; split_and!; try done; try lia.
  - rewrite Nat.add_1_r, replicate_S_end. by f_equal.
  - by exists (got t).
  - rewrite not_elem_of_app, not_elem_of_cons. split_and!; [done..|apply not_elem_of_nil].
Qed.

(** What every log of the automaton says. *)
Lemma handshake_log_so_far t ph :
  follows handshake_next Polling t = Some ph -> handshake_so_far ph t.
Proof.
  apply (follows_invariant handshake_next handshake_so_far).
  - split_and!; [done..|apply not_elem_of_nil].
  - intros q t1 e q'. apply handshake_next_so_far.
Qed.

(** ** The receiver *)

Section receiver.
Context {S : Type} `{!Channel S, !Reliable S}.

(** A sender on the way. *)
Lemma emits_send {B} p (f : unit -> prog (logged S) B) Q F :
  (wire_of p = None -> F Unterminated (Put <$> written_before_fault p)) ->
  (forall w, wire_of p = Some w ->
     emits (f tt) (fun b t => Q b (sender_calls w ++ t))
                  (fun e t => F e (sender_calls w ++ t))) ->
  emits (send p ≫= f) Q F.
Proof.
  intros HF Hf. eapply emits_bind; [apply send_emits|..].
  - intros e t (-> & Hnone & ->). auto.
  - intros [] t (w & Hw & ->). auto.
Qed.

(** The notice, as the machine's answer calls for it. *)
Lemma react_emits (r : event * dstate) :
  emits (S:=S) (react r)
    (fun a t => match a with
                | inl q' => q' = r.2 /\
                    match r.1 with
                    | Silent => t = []
                    | Notice n => t = notice_calls n
                    | _ => False
                    end
                | inr p => r.1 = Packet p.1.1 p.1.2 p.2 /\ t = []
                end)
    (fun e t => e = OutOfBounds /\ r.1 = BufferOverflow /\ t = []).
Proof.
  destruct r as [[|n|lbl ty dat|] q']; cbn [react]; try by emits_go.
  change (SerialSendErrorText ?x) with (send (S:=logged S) (PErrorText x)).
  apply emits_send; [done|]. intros w [= <-]. by emits_go.
Qed.

Context (cap_l cap_d : nat).

#[local] Abbreviation heard := (heard cap_l cap_d).

(** A poll that finds nothing. *)
Lemma heard_poll q t n :
  heard (Blocked q) t -> ~ 0 < n -> heard (Blocked q) (t ++ [Polled n]).
Proof.
  intros (Hg & ns & Hrun & Houts) Hn. split.
  - rewrite follows_app, Hg. simpl. by rewrite bool_decide_false.
  - exists ns. by rewrite got_app, outs_app, !app_nil_r.
Qed.

(** A poll that finds a byte, the read, and what the machine's answer
    [r] to the byte calls for. *)
Lemma heard_byte q t n b :
  heard (Blocked q) t -> 0 < n ->
  heard (match (dnext cap_l cap_d q b).1 with
         | Silent | Notice _ => Blocked (dnext cap_l cap_d q b).2
         | Packet lbl ty dat => Returned lbl ty dat []
         | BufferOverflow => Overflowed []
         end)
        (t ++ Polled n :: Got b ::
           (if (dnext cap_l cap_d q b).1 is Notice m then notice_calls m else [])).
Proof.
  intros (Hg & ns & Hrun & Houts) Hn. unfold Protocol.heard.
  rewrite follows_app, Hg, got_app, outs_app, Houts.
  rewrite (drun_blocked_app _ _ _ _ _ _ _ Hrun).
  destruct (dnext cap_l cap_d q b) as [[|m|lbl ty dat|] q'] eqn:Hnext; simpl;
    rewrite bool_decide_true by done; (split; [done|]);
    rewrite Hnext; unfold reported; simpl; eexists; (split; [done|]);
    by rewrite ?bind_app, ?app_nil_r.
Qed.

(** The loop of the machine, by its calls. *)
Lemma machine_emits fuel :
  emits (S:=S) (iter_fuel (machine_step cap_l cap_d) fuel Idle)
    (fun r t => match r with
                | inl q => heard (Blocked q) t
                | inr p => heard (Returned p.1.1 p.1.2 p.2 []) t
                end)
    (fun e t => e = OutOfBounds /\ heard (Overflowed []) t).
Proof.
  apply (emits_iter_fuel (machine_step cap_l cap_d)
           (fun q t => heard (Blocked q) t)
           (fun p t => heard (Returned p.1.1 p.1.2 p.2 []) t)).
  { split; [done|]. by exists []. }
  intros q t Ht. unfold machine_step. emits_go;
    match goal with H : bool_decide _ = _ |- _ => rename H into Hn end;
    [|apply heard_poll; [done|]; by apply bool_decide_eq_false in Hn].
  apply bool_decide_eq_true in Hn.
  pose proof (heard_byte q t n b Ht Hn) as Hb.
  eapply emits_mono; [apply react_emits|cbv beta..].
  - intros [q'|[[lbl ty] dat]] t2 [Hr Ht2]; simpl in *; [subst q'|by rewrite Hr, Ht2 in *].
    by destruct (dnext cap_l cap_d q b).1; subst.
  - intros e t2 (-> & Hr & ->). by rewrite Hr in Hb.
Qed.

End receiver.

Section call.
Context {S : Type} `{!Channel S, !Reliable S}.
Context (h0 : heap) (pl pd : ptr).
Context (Hcap_l : Z.of_nat (room h0 pl) <= INT_MAX).
Context (Hcap_d : Z.of_nat (room h0 pd) <= INT_MAX).

#[local] Abbreviation heard := (heard (room h0 pl) (room h0 pd)).

(** The loop of the program, by its calls: it is the loop of the
    machine. *)
Lemma loop_emits fuel :
  emits (S:=S) (iter_fuel loop_body fuel (conc h0 pl pd Idle))
    (fun r t => match r with
                | inl st => exists q, st = conc h0 pl pd q /\ heard (Blocked q) t
                | inr (ty, st) => exists lbl dat,
                    st = final h0 pl pd lbl ty dat /\ heard (Returned lbl ty dat []) t
                end)
    (fun e t => e = OutOfBounds /\ heard (Overflowed []) t).
Proof.
  eapply emits_mono;
    [eapply (emits_outcome_map _ _ (represent h0 pl pd));
       [intros l; by apply loop_refines|apply machine_emits]|cbv beta..|done].
  intros r t ([q|[[lbl ty] dat]] & -> & H); simpl; eauto.
Qed.

(** The call through two pointers, by its calls. *)
Lemma receive_at_emits fuel :
  emits (S:=S) (SerialReceiveAndParsePacket_at fuel h0 pl pd)
    (fun r t => match r with
                | inl st => exists q, st = conc h0 pl pd q /\ heard (Blocked q) t
                | inr (ty, h) => exists lbl dat,
                    h = written h0 pl pd lbl (dat ++ [0]) /\
                    heard (Returned lbl ty dat []) t
                end)
    (fun e t => e = OutOfBounds /\ heard (Overflowed []) t).
Proof.
  eapply emits_mono;
    [eapply (emits_outcome_map _ _ returned);
       [apply receive_at_unfold|apply loop_emits]|cbv beta..|done].
  intros r t ([st|[ty st]] & -> & H); simpl; [done|].
  destruct H as (lbl & dat & -> & H). by exists lbl, dat.
Qed.

End call.

(** ** Properties *)

(** C33. The calls of the senders, on every device whose calls answer. A
    packet whose strings are terminated is written byte by byte, in the
    order of its frame, and then flushed, once; the sender makes no
    other call: it does not poll, read or wait. A packet with a string
    that is not terminated makes the sender run off the array after the
    bytes written before that string, with no flush. *)
Theorem send_calls {S : Type} `{!Channel S, !Reliable S} p :
  emits (S:=S) (send p)
    (fun _ t => exists w, wire_of p = Some w /\ t = sender_calls w /\
                          got t = [] /\ slept t = 0 /\ guarded t)
    (fun e t => e = Unterminated /\ wire_of p = None /\
                t = Put <$> written_before_fault p).
Proof.
  eapply emits_mono; [apply send_emits|cbv beta|done].
  intros _ t (w & Hw & ->). exists w. unfold sender_calls, guarded.
  rewrite got_app, slept_app, got_Put, slept_Put, follows_app.
  split_and!; try done. destruct w as [|b w]; [done|].
  by rewrite guard_Put.
Qed.

(** C10. The calls of the handshake, on every device whose calls answer
    and whatever it answers. The calls follow the automaton of the two
    loops, which is back at its first poll while the call is looping and
    done when the call has returned. So: a byte is read only right
    after a poll that found one; nothing but hellos is written; 500 ms
    are spent after each hello and 500 ms more before the return; and
    the call returns exactly when the last byte read is the reply, no
    byte read before being the reply. The call reaches no undefined
    behaviour. *)
Theorem SerialHandshake_protocol {S : Type} `{!Channel S, !Reliable S} fuel :
  emits (S:=S) (SerialHandshake fuel)
    (fun r t =>
       let ph := if r is inr _ then Shaken else Polling in
       follows handshake_next Polling t = Some ph /\
       guarded t /\ handshake_so_far ph t)
    (fun _ _ => False).
Proof.
  eapply emits_mono; [apply handshake_emits|cbv beta|done].
  intros r t Hrun. split_and!; [done|..].
  - by eapply handshake_log_guarded.
  - by apply handshake_log_so_far.
Qed.

(** C9. The calls of the receiver, on every device whose calls answer
    and whatever it answers. The call is the run of the machine of the
    specification over the bytes that [Serial.read] answered: while it
    loops its locals are those of the state the machine is left in; it
    returns when the machine completes a packet, with the packet's type
    marker, label and payload, NUL-terminated, in the two arrays; it
    writes out of bounds where the machine has a buffer overflow, and
    reaches no other undefined behaviour. It reads only right after a
    poll that found a byte, it never waits, and what it writes is one
    error notice, flushed, and the byte itself for each byte the machine
    reports, in order. *)
Theorem receive_calls {S : Type} `{!Channel S, !Reliable S} fuel bl bd :
  Z.of_nat (length bl) <= INT_MAX -> Z.of_nat (length bd) <= INT_MAX ->
  emits (S:=S) (SerialReceiveAndParsePacket fuel bl bd)
    (fun r t =>
       match r with
       | inl st => exists q,
           st = conc [bl; bd] own_label own_data q /\
           heard (length bl) (length bd) (Blocked q) t
       | inr (ty, bl', bd') => exists lbl dat,
           heard (length bl) (length bd) (Returned lbl ty dat []) t /\
           bl' = overwrite bl (lbl ++ [0]) /\ bd' = overwrite bd (dat ++ [0])
       end)
    (fun e t => e = OutOfBounds /\ heard (length bl) (length bd) (Overflowed []) t).
Proof.
  intros Hl Hd.
  eapply emits_mono;
    [eapply (emits_outcome_map _ _ handed_back);
       [apply receive_unfold|by apply (loop_emits [bl; bd] own_label own_data)]
    |cbv beta..|done].
  intros r t ([st|[ty st]] & -> & H); [done|].
  destruct H as (lbl & dat & -> & H). rewrite handed_back_final. by exists lbl, dat.
Qed.

(** ** The theorems at concrete inputs *)

Lemma send_calls_witness :
  emits (S:=wired acker) (send (PChar (lit "k") (chr "x")))
    (fun _ t => exists w, wire_of (PChar (lit "k") (chr "x")) = Some w /\
                          t = sender_calls w /\
                          got t = [] /\ slept t = 0 /\ guarded t)
    (fun e t => e = Unterminated /\ wire_of (PChar (lit "k") (chr "x")) = None /\
                t = Put <$> written_before_fault (PChar (lit "k") (chr "x"))).
Proof. apply (send_calls (S:=wired acker) (PChar (lit "k") (chr "x"))). Defined.

Lemma SerialHandshake_protocol_witness :
  emits (S:=ring) (SerialHandshake 3)
    (fun r t =>
       let ph := if r is inr _ then Shaken else Polling in
       follows handshake_next Polling t = Some ph /\
       guarded t /\ handshake_so_far ph t)
    (fun _ _ => False).
Proof. apply (SerialHandshake_protocol (S:=ring) 3). Defined.

Lemma receive_calls_witness :
  emits (S:=serial) (SerialReceiveAndParsePacket 6 (replicate 3 0) (replicate 3 0))
    (fun r t =>
       match r with
       | inl st => exists q,
           st = conc [replicate 3 0; replicate 3 0] own_label own_data q /\
           heard 3 3 (Blocked q) t
       | inr (ty, bl', bd') => exists lbl dat,
           heard 3 3 (Returned lbl ty dat []) t /\
           bl' = overwrite (replicate 3 0) (lbl ++ [0]) /\
           bd' = overwrite (replicate 3 0) (dat ++ [0])
       end)
    (fun e t => e = OutOfBounds /\ heard 3 3 (Overflowed []) t).
Proof.
  apply (receive_calls (S:=serial) 6 (replicate 3 0) (replicate 3 0)); compute_done.
Defined.

(** The handshake on the device of the specification: a hello, then a
    chunk of two bytes of which the second is the reply. The first byte
    is read and dropped. *)
Example SerialHandshake_log :
  log (state_of (SerialHandshake 3 (mkLogged (fresh [[]; [chr "x"; chr "P"]]) []))) =
  [Polled 0; Put (chr "A"); Slept 500;
   Polled 2; Polled 2; Got (chr "x");
   Polled 1; Polled 1; Got (chr "P"); Slept 500].
Proof. reflexivity. Qed.

(** The handshake wired to the host of the comment, deaf to the first
    hello. *)
Example SerialHandshake_wired_log :
  log (state_of (SerialHandshake 4 (mkLogged (mkWired (fresh []) (mkAcker 1 [])) []))) =
  [Polled 0; Put (chr "A"); Slept 500; Polled 0; Put (chr "A"); Slept 500;
   Polled 1; Polled 1; Got (chr "P"); Slept 500].
Proof. reflexivity. Qed.

(** The receiver on a byte out of protocol: the notice, flushed, the
    byte, and the next poll. *)
Example receive_noise_log :
  log (state_of (SerialReceiveAndParsePacket 2 (replicate 3 0) (replicate 3 0)
                   (mkLogged (fresh [[chr "x"]]) []))) =
  Polled 1 :: Got (chr "x") :: notice_calls (chr "x") ++ [Polled 0].
Proof. reflexivity. Qed.
